(** * CVBundler (bundler/bundler.js): a shallow embedding and its properties

    The development follows the source file top-down in reverse dependency
    order: JavaScript strings and the regular-expression passes of the three
    minifiers, then paths and the file system, then the tasks, the build
    orchestrator and the change watcher as programs over I/O operations.
    The predicates the statements are written with and a sample project
    follow; the lemmas and the properties of the bundler come last. The
    checks of the contact form, in the server and in the page, are embedded
    too, with the expression they test an address with. *)

From Stdlib Require Import String Ascii NArith ZArith Lia Bool Arith List.
From Stdlib Require Import DecimalString.
Import ListNotations.

(* ================================================================== *)
(** * JavaScript strings *)
(* ================================================================== *)

Module Js.

(** A JavaScript string is a sequence of UTF-16 code units. *)
Definition char := N.
Definition jsstring := list char.

(** An ASCII literal of the source, as code units. *)
Definition lit (s : string) : jsstring :=
  map N_of_ascii (list_ascii_of_string s).

Definition sp : char := 32%N.       (* ' ' *)
Definition gt : char := 62%N.       (* '>' *)
Definition lt : char := 60%N.       (* '<' *)
Definition slash : char := 47%N.    (* '/' *)
Definition star : char := 42%N.     (* '*' *)
Definition semi : char := 59%N.     (* ';' *)
Definition lbrace : char := 123%N.  (* '{' *)
Definition rbrace : char := 125%N.  (* '}' *)
Definition lparen : char := 40%N.   (* '(' *)
Definition rparen : char := 41%N.   (* ')' *)
Definition comma : char := 44%N.    (* ',' *)
Definition colon : char := 58%N.    (* ':' *)

(** The class [\s] of a JavaScript regular expression: WhiteSpace and
    LineTerminator code points. [String.prototype.trim] strips the same set. *)
Definition isSpace (c : char) : bool :=
  ((9 <=? c) && (c <=? 13) || (c =? 32) || (c =? 160) || (c =? 5760)
   || (8192 <=? c) && (c <=? 8202) || (c =? 8232) || (c =? 8233)
   || (c =? 8239) || (c =? 8287) || (c =? 12288) || (c =? 65279))%N.

(** LineTerminator: what [.] refuses and where [$] holds under the [m] flag. *)
Definition isLineTerminator (c : char) : bool :=
  ((c =? 10) || (c =? 13) || (c =? 8232) || (c =? 8233))%N.

(** The class [[{}();,:]] of minifyJS. *)
Definition isPunct (c : char) : bool :=
  ((c =? lbrace) || (c =? rbrace) || (c =? lparen) || (c =? rparen)
   || (c =? semi) || (c =? comma) || (c =? colon))%N.

(** ** [String.prototype.replace] with a global regular expression

    A regular expression is given by what it does at one position of the
    subject: [m s] is the leftmost-anchored match of the pattern at the head of
    [s], as the replacement text and the number of code units matched. The
    engine walks the subject left to right; after a match it resumes behind the
    matched text, after a failure one code unit further. An empty match leaves
    the replacement and moves one code unit on. *)
Definition matcher := jsstring -> option (jsstring * nat).

Fixpoint replaceGo (m : matcher) (skip : nat) (s : jsstring) : jsstring :=
  match s with
  | [] => match skip, m [] with
          | 0, Some (rep, _) => rep
          | _, _ => []
          end
  | c :: s' =>
      match skip with
      | S k => replaceGo m k s'
      | 0 => match m s with
             | Some (rep, 0) => rep ++ c :: replaceGo m 0 s'
             | Some (rep, S k) => rep ++ replaceGo m k s'
             | None => c :: replaceGo m 0 s'
             end
      end
  end.

Definition replaceAll (m : matcher) (s : jsstring) : jsstring :=
  replaceGo m 0 s.

(** Length of the run of [\s] at the head of a string (a greedy [\s*]). *)
Fixpoint wsRun (s : jsstring) : nat :=
  match s with
  | c :: s' => if isSpace c then S (wsRun s') else 0
  | [] => 0
  end.

(** Length of the run of [.] at the head of a string (a greedy [.*]). *)
Fixpoint lineRun (s : jsstring) : nat :=
  match s with
  | c :: s' => if isLineTerminator c then 0 else S (lineRun s')
  | [] => 0
  end.

(** Offset of the first ["*/"] in a string (where a lazy [[\s\S]*?] followed by
    [\*\/] stops). *)
Fixpoint findClose (s : jsstring) : option nat :=
  match s with
  | a :: s' =>
      match s' with
      | b :: _ => if ((a =? star) && (b =? slash))%N then Some 0
                  else option_map S (findClose s')
      | [] => None
      end
  | [] => None
  end.

(** [/\s+/g], replaced by [' ']. *)
Definition re_ws : matcher := fun s =>
  match wsRun s with
  | 0 => None
  | n => Some ([sp], n)
  end.

(** [/>\s+</g], replaced by ['><']. *)
Definition re_gt_ws_lt : matcher := fun s =>
  match s with
  | c :: s' =>
      if (c =? gt)%N then
        match wsRun s' with
        | 0 => None
        | n => match nth_error s' n with
               | Some d => if (d =? lt)%N then Some ([gt; lt], S (S n)) else None
               | None => None
               end
        end
      else None
  | [] => None
  end.

(** [/\s+>/g], replaced by ['>']. *)
Definition re_ws_gt : matcher := fun s =>
  match wsRun s with
  | 0 => None
  | n => match nth_error s n with
         | Some d => if (d =? gt)%N then Some ([gt], S n) else None
         | None => None
         end
  end.

(** [/<\s+/g], replaced by ['<']. *)
Definition re_lt_ws : matcher := fun s =>
  match s with
  | c :: s' =>
      if (c =? lt)%N then
        match wsRun s' with
        | 0 => None
        | n => Some ([lt], S n)
        end
      else None
  | [] => None
  end.

(** [/\/\*[\s\S]*?\*\//g], replaced by ['']. *)
Definition re_block_comment : matcher := fun s =>
  match s with
  | a :: b :: t =>
      if ((a =? slash) && (b =? star))%N then
        match findClose t with
        | Some k => Some ([], 2 + k + 2)
        | None => None
        end
      else None
  | _ => None
  end.

(** [/\/\/.*$/gm], replaced by ['']. *)
Definition re_line_comment : matcher := fun s =>
  match s with
  | a :: b :: t =>
      if ((a =? slash) && (b =? slash))%N then Some ([], 2 + lineRun t)
      else None
  | _ => None
  end.

(** [/;\s*}/g], replaced by ['}']. *)
Definition re_semi_close : matcher := fun s =>
  match s with
  | c :: s' =>
      if (c =? semi)%N then
        match nth_error s' (wsRun s') with
        | Some d => if (d =? rbrace)%N then Some ([rbrace], S (S (wsRun s'))) else None
        | None => None
        end
      else None
  | [] => None
  end.

(** [/x\s*/g] for a literal [x], replaced by [x]: the four passes
    [/{\s*/g], [/;\s*/g], [/,\s*/g] and [/:\s*/g] of minifyCSS. *)
Definition re_after (x : char) : matcher := fun s =>
  match s with
  | c :: s' => if (c =? x)%N then Some ([x], S (wsRun s')) else None
  | [] => None
  end.

(** [/\s*([{}();,:])\s*/g], replaced by ['$1']. *)
Definition re_punct : matcher := fun s =>
  let n := wsRun s in
  match nth_error s n with
  | Some p => if isPunct p then Some ([p], n + 1 + wsRun (skipn (S n) s)) else None
  | None => None
  end.

(** [String.prototype.trim]. *)
Definition trimStart (s : jsstring) : jsstring := skipn (wsRun s) s.
Definition trimEnd (s : jsstring) : jsstring := rev (trimStart (rev s)).
Definition trim (s : jsstring) : jsstring := trimEnd (trimStart s).

(** ** The three minifiers (bundler.js, lines 247-276) *)

Definition minifyHTML (html : jsstring) : jsstring :=
  trim
    (replaceAll re_lt_ws
       (replaceAll re_ws_gt
          (replaceAll re_gt_ws_lt
             (replaceAll re_ws html)))).

Definition minifyCSS (css : jsstring) : jsstring :=
  trim
    (replaceAll (re_after colon)
       (replaceAll (re_after comma)
          (replaceAll (re_after semi)
             (replaceAll (re_after lbrace)
                (replaceAll re_semi_close
                   (replaceAll re_ws
                      (replaceAll re_block_comment css))))))).

Definition minifyJS (js : jsstring) : jsstring :=
  trim
    (replaceAll re_punct
       (replaceAll re_ws
          (replaceAll re_line_comment
             (replaceAll re_block_comment js)))).

(** ** Byte length of the UTF-8 encoding ([fs.writeFile(_, _, 'utf8')])

    A code unit below U+0080 takes one byte, below U+0800 two; a high surrogate
    followed by a low surrogate encodes one supplementary code point in four
    bytes; every other code unit, a lone surrogate included (written as
    U+FFFD), takes three. *)
Definition isHigh (c : char) : bool := ((55296 <=? c) && (c <=? 56319))%N.
Definition isLow (c : char) : bool := ((56320 <=? c) && (c <=? 57343))%N.

Fixpoint byteLength (s : jsstring) : nat :=
  match s with
  | [] => 0
  | c :: s' =>
      if (c <? 128)%N then 1 + byteLength s'
      else if (c <? 2048)%N then 2 + byteLength s'
      else if isHigh c then
        match s' with
        | d :: s'' => if isLow d then 4 + byteLength s'' else 3 + byteLength s'
        | [] => 3
        end
      else 3 + byteLength s'
  end.

(** ** The text of a file ([fs.readFile(_, 'utf8')])

    The bytes of a file are decoded as UTF-8, and what is not UTF-8 is
    replaced: the decoder takes a lead byte, then the continuation bytes it
    asks for, each within the bounds the bytes before it leave; a byte out of
    bounds ends the sequence with U+FFFD and is looked at again as the start
    of the next. A byte order mark is kept. *)
Definition byte := N.

Definition replacement : N := 65533%N.  (* U+FFFD *)

(** A sequence under way: the bits gathered so far, the continuation bytes
    still needed, and the bounds of the next byte. *)
Record pending := {
  codePoint : N;
  needed : nat;
  lower : N;
  upper : N
}.

(** A byte met while no sequence is under way: the code points it gives
    and the sequence it opens. *)
Definition lead (b : byte) : list N * option pending :=
  if (b <=? 127)%N then ([b], None)
  else if ((194 <=? b) && (b <=? 223))%N then
    ([], Some {| codePoint := N.land b 31; needed := 1;
                 lower := 128; upper := 191 |})
  else if ((224 <=? b) && (b <=? 239))%N then
    ([], Some {| codePoint := N.land b 15; needed := 2;
                 lower := if (b =? 224)%N then 160 else 128;
                 upper := if (b =? 237)%N then 159 else 191 |})
  else if ((240 <=? b) && (b <=? 244))%N then
    ([], Some {| codePoint := N.land b 7; needed := 3;
                 lower := if (b =? 240)%N then 144 else 128;
                 upper := if (b =? 244)%N then 143 else 191 |})
  else ([replacement], None).

(** A byte met while the sequence [p] is under way. *)
Definition continue (p : pending) (b : byte) : list N * option pending :=
  if ((lower p <=? b) && (b <=? upper p))%N then
    let cp := N.lor (N.shiftl (codePoint p) 6) (N.land b 63) in
    match needed p with
    | S (S n) => ([], Some {| codePoint := cp; needed := S n;
                              lower := 128; upper := 191 |})
    | _ => ([cp], None)
    end
  else let (out, st) := lead b in (replacement :: out, st).

(** The code points of a sequence of bytes; a sequence cut short by the end
    of the file gives U+FFFD. *)
Fixpoint decodeGo (st : option pending) (bytes : list byte) : list N :=
  match bytes with
  | [] => match st with Some _ => [replacement] | None => [] end
  | b :: rest =>
      let (out, st') := match st with
                        | None => lead b
                        | Some p => continue p b
                        end in
      out ++ decodeGo st' rest
  end.

(** The code units of a code point: itself, or a surrogate pair. *)
Definition units (cp : N) : jsstring :=
  if (cp <? 65536)%N then [cp]
  else [(55296 + (cp - 65536) / 1024)%N; (56320 + (cp - 65536) mod 1024)%N].

Definition decode (bytes : list byte) : jsstring :=
  flat_map units (decodeGo None bytes).

(** Well-formed UTF-8 (The Unicode Standard, table 3-7): sequences of one to
    four bytes, none of them overlong, none for a surrogate, none beyond
    U+10FFFF. *)
Definition within (lo hi b : N) : bool := ((lo <=? b) && (b <=? hi))%N.

Fixpoint wellFormedUtf8 (bytes : list byte) : bool :=
  match bytes with
  | [] => true
  | b1 :: r1 =>
      if (b1 <=? 127)%N then wellFormedUtf8 r1
      else if within 194 223 b1 then
        match r1 with
        | b2 :: r2 => within 128 191 b2 && wellFormedUtf8 r2
        | _ => false
        end
      else if within 224 239 b1 then
        match r1 with
        | b2 :: b3 :: r3 =>
            within (if (b1 =? 224)%N then 160 else 128)
                   (if (b1 =? 237)%N then 159 else 191) b2
            && within 128 191 b3 && wellFormedUtf8 r3
        | _ => false
        end
      else if within 240 244 b1 then
        match r1 with
        | b2 :: b3 :: b4 :: r4 =>
            within (if (b1 =? 240)%N then 144 else 128)
                   (if (b1 =? 244)%N then 143 else 191) b2
            && within 128 191 b3 && within 128 191 b4 && wellFormedUtf8 r4
        | _ => false
        end
      else false
  end.

End Js.


(* ================================================================== *)
(** * Paths (Node's [path] module, POSIX) *)
(* ================================================================== *)

Module Path.
Local Open Scope string_scope.

(** An absolute path, as its components below the root. *)
Definition path := list string.

(** [path.join(dir, name)] for a single component [name]. *)
Definition join (dir : path) (name : string) : path := (dir ++ [name])%list.

(** [path.basename(p)] and [path.dirname(p)]. *)
Definition basename (p : path) : string := last p EmptyString.
Definition dirname (p : path) : path := removelast p.

(** [s.endsWith(suffix)]: some tail of [s] is [suffix], code unit for code
    unit. *)
Fixpoint endsWith (s suffix : string) : bool :=
  (s =? suffix)
  || match s with
     | String _ s' => endsWith s' suffix
     | EmptyString => false
     end.

(** [hay.includes(needle)]. *)
Fixpoint includes (hay needle : string) : bool :=
  prefix needle hay
  || match hay with
     | String _ hay' => includes hay' needle
     | EmptyString => false
     end.

(** The stem of [s] before [suffix], when [s] ends with it. *)
Fixpoint dropSuffix (s suffix : string) : option string :=
  if s =? suffix then Some EmptyString
  else match s with
       | String c s' => option_map (String c) (dropSuffix s' suffix)
       | EmptyString => None
       end.

(** [path.basename(p, ext)]: the extension is cut off unless it is the whole
    component. *)
Definition basenameExt (p : path) (ext : string) : string :=
  match dropSuffix (basename p) ext with
  | Some EmptyString => basename p
  | Some stem => stem
  | None => basename p
  end.

(** [path.extname]: the loop of Node's implementation over the last component,
    from its last character to its first. [startDot] is the index of the last
    dot; [preDotState] is 0 while nothing was seen before that dot, then 1
    after a dot and -1 after any other character. *)
Fixpoint extScan (chars : list ascii) (i : nat)
    (startDot : option nat) (preDotState : Z) : option nat * Z :=
  match chars with
  | [] => (startDot, preDotState)
  | c :: rest =>
      if Ascii.eqb c "."%char then
        match startDot with
        | None => extScan rest (i - 1) (Some i) preDotState
        | Some _ => extScan rest (i - 1) startDot 1%Z
        end
      else
        match startDot with
        | None => extScan rest (i - 1) None preDotState
        | Some _ => extScan rest (i - 1) startDot (-1)%Z
        end
  end.

Definition extnameOf (name : string) : string :=
  let n := String.length name in
  match extScan (rev (list_ascii_of_string name)) (n - 1) None 0%Z with
  | (None, _) => EmptyString
  | (Some startDot, preDotState) =>
      if (preDotState =? 0)%Z
         || ((preDotState =? 1)%Z && (startDot =? n - 1)%nat && (startDot =? 0 + 1)%nat)
      then EmptyString
      else substring startDot (n - startDot) name
  end.

Definition extname (p : path) : string := extnameOf (basename p).

(** The path as the string the program sees. *)
Definition pathString (p : path) : string :=
  match p with
  | [] => "/"
  | _ => String.concat EmptyString (map (fun c => "/" ++ c) p)
  end.

End Path.

(* ================================================================== *)
(** * The file system *)
(* ================================================================== *)

Module Fs.
Import Js Path.
Local Open Scope string_scope.

Inductive errcode := ENOENT | EISDIR | ENOTDIR | EEXIST | ENAMETOOLONG.

(** What a rejected promise or a throwing call carries. *)
Inductive error :=
| FsError (code : errcode) (p : path)
| SassError (text : string)
| ExecError (text : string).

Definition codeName (c : errcode) : string :=
  match c with
  | ENOENT => "ENOENT" | EISDIR => "EISDIR" | ENOTDIR => "ENOTDIR"
  | EEXIST => "EEXIST" | ENAMETOOLONG => "ENAMETOOLONG"
  end.

(** [error.message] *)
Definition message (e : error) : string :=
  match e with
  | FsError c p => codeName c ++ ": " ++ pathString p
  | SassError t => t
  | ExecError t => t
  end.

(** [error.code === 'EEXIST'] *)
Definition isEEXIST (e : error) : bool :=
  match e with FsError EEXIST _ => true | _ => false end.

Inductive result (A : Type) : Type :=
| Ok (a : A)
| Err (e : error).
Arguments Ok {A} a.
Arguments Err {A} e.

(** A file with its text, or a directory with its entries in enumeration
    order. The text of a file is what [Js.decode] makes of its bytes. *)
Unset Elimination Schemes.
Inductive node :=
| File (content : jsstring)
| Dir (entries : list (string * node)).
Set Elimination Schemes.

Definition isDirectory (n : node) : bool :=
  match n with Dir _ => true | File _ => false end.

Fixpoint find (es : list (string * node)) (name : string) : option node :=
  match es with
  | [] => None
  | (n, c) :: rest => if n =? name then Some c else find rest name
  end.

(** Replace the entry [name], or add it behind the others. *)
Fixpoint setEntry (es : list (string * node)) (name : string) (c : node)
  : list (string * node) :=
  match es with
  | [] => [(name, c)]
  | (n, c') :: rest =>
      if n =? name then (n, c) :: rest else (n, c') :: setEntry rest name c
  end.

Fixpoint lookup (root : node) (p : path) : option node :=
  match p with
  | [] => Some root
  | name :: p' =>
      match root with
      | Dir es => match find es name with
                  | Some c => lookup c p'
                  | None => None
                  end
      | File _ => None
      end
  end.

(** [fs.access(p)] succeeds. *)
Definition exists_ (root : node) (p : path) : bool :=
  match lookup root p with Some _ => true | None => false end.

(** [fs.readFile(p, 'utf8')] *)
Definition readFile (root : node) (p : path) : result jsstring :=
  match lookup root p with
  | Some (File c) => Ok c
  | Some (Dir _) => Err (FsError EISDIR p)
  | None => Err (FsError ENOENT p)
  end.

(** [fs.readdir(p, { withFileTypes: true })]: names with [isDirectory()]. *)
Definition readdir (root : node) (p : path) : result (list (string * bool)) :=
  match lookup root p with
  | Some (Dir es) => Ok (map (fun e => (fst e, isDirectory (snd e))) es)
  | Some (File _) => Err (FsError ENOTDIR p)
  | None => Err (FsError ENOENT p)
  end.

(** [fs.writeFile(full, content, 'utf8')]: the parent must be a directory and
    the target must not be one. [p] is what is left of [full] below [root]. *)
Fixpoint writeAt (full : path) (root : node) (p : path) (content : jsstring)
  : result node :=
  match p with
  | [] => Err (FsError EISDIR full)
  | name :: p' =>
      match root with
      | File _ => Err (FsError ENOTDIR full)
      | Dir es =>
          match p' with
          | [] =>
              match find es name with
              | Some (Dir _) => Err (FsError EISDIR full)
              | _ => Ok (Dir (setEntry es name (File content)))
              end
          | _ =>
              match find es name with
              | Some c =>
                  match writeAt full c p' content with
                  | Ok c' => Ok (Dir (setEntry es name c'))
                  | Err e => Err e
                  end
              | None => Err (FsError ENOENT full)
              end
          end
      end
  end.

Definition writeFile (root : node) (p : path) (content : jsstring) : result node :=
  writeAt p root p content.

(** [fs.mkdir(full, { recursive: true })]: missing directories are created on
    the way; a file in the way is ENOTDIR, a file at the end EEXIST. *)
Fixpoint mkdirAt (full : path) (root : node) (p : path) : result node :=
  match p with
  | [] => match root with
          | Dir _ => Ok root
          | File _ => Err (FsError EEXIST full)
          end
  | name :: p' =>
      match root with
      | File _ => Err (FsError ENOTDIR full)
      | Dir es =>
          let c := match find es name with Some c => c | None => Dir [] end in
          match mkdirAt full c p' with
          | Ok c' => Ok (Dir (setEntry es name c'))
          | Err e => Err e
          end
      end
  end.

Definition mkdir (root : node) (p : path) : result node := mkdirAt p root p.

(** [fs.copyFile(src, dest)] *)
Definition copyFile (root : node) (src dest : path) : result node :=
  match readFile root src with
  | Ok c => writeFile root dest c
  | Err e => Err e
  end.

(** ** getFiles (bundler.js, lines 192-210)

    [walk dir n ext] is the loop over the entries of the directory [n] found at
    [dir]: a sub-directory is searched in turn and its files are appended, a
    file whose name ends with [ext] is pushed. *)
Fixpoint walk (dir : path) (n : node) (ext : string) : list path :=
  match n with
  | File _ => []
  | Dir es =>
      (fix loop (es : list (string * node)) : list path :=
         match es with
         | [] => []
         | (name, c) :: rest =>
             let filePath := join dir name in
             ((if isDirectory c then walk filePath c ext
               else if endsWith name ext then [filePath] else [])
              ++ loop rest)%list
         end) es
  end.

Definition getFiles (root : node) (dir : path) (ext : string)
  : result (list path) :=
  match lookup root dir with
  | None => Ok []                                (* !pathExists(dir) *)
  | Some (File _) => Err (FsError ENOTDIR dir)   (* readdir of a file *)
  | Some (Dir es) => Ok (walk dir (Dir es) ext)
  end.

End Fs.

(* ================================================================== *)
(** * Programs over I/O operations *)
(* ================================================================== *)

Module Io.
Import Js Path Fs.
Local Open Scope string_scope.

(** The lines the bundler prints, with the values interpolated into them. *)
Inductive msg :=
| MBuildStart                        (* Iniciando proceso de construccion... *)
| MProcessing (name : string)        (* Procesando ${name}... *)
| MProcessed (name : string)         (* ${name} procesado correctamente *)
| MBuildDone (ms : Z)                (* Construccion completada en ${ms}ms *)
| MBuildError (e : error)            (* Error durante la construccion: error *)
| MTsCompiled (fileName : string)    (* TypeScript compilado: ${fileName} *)
| MTsError (file : path) (message : string)
                                     (* Error compilando TypeScript ${file}: message *)
| MAssetsCreate                      (* Creando directorio assets de ejemplo... *)
| MDataSkip                          (* Directorio data no encontrado, saltando... *)
| MDevStart                          (* Iniciando modo de desarrollo... *)
| MDevWatching                       (* Observando cambios en archivos... *)
| MChanged (filePath : path)         (* Archivo modificado: ${filePath} *)
| MHtmlUpdated                       (* HTML actualizado *)
| MStylesUpdated                     (* Estilos actualizados *)
| MScriptsUpdated                    (* Scripts actualizados *)
| MAssetsUpdated                     (* Assets actualizados *)
| MDataUpdated                       (* Datos actualizados *)
| MReload                            (* Recarga tu navegador para ver los cambios *)
| MChangeError (message : string)    (* Error procesando cambio: message *)
| MWatcherReady                      (* Observador de archivos listo *)
| MHintOpen                          (* Abre dist/index.html en tu navegador *)
| MHintStop.                         (* Usa Ctrl+C para detener el observador *)

(** The operations of the program on its environment, each with the type of
    its answer. Those that can fail answer with a [result]. *)
Inductive op : Type -> Type :=
| Access (p : path) : op bool
| Scan (dir : path) (ext : string) : op (result (list path))
| Readdir (p : path) : op (result (list (string * bool)))
| ReadFile (p : path) : op (result jsstring)
| WriteFile (p : path) (content : jsstring) : op (result unit)
| Mkdir (p : path) : op (result unit)
| CopyFile (src dest : path) : op (result unit)
| SassCompile (file : path) (dev : bool)
    : op (result (jsstring * option jsstring))
| ExecTsc (file outDir : path) : op (result unit)
| Now : op Z
| Log (m : msg) : op unit
| LogError (m : msg) : op unit
| Watch (paths : list path) : op unit.

(** A program: it returns, throws, ends the process, or performs an operation
    and goes on with the answer. *)
Inductive prog (A : Type) : Type :=
| Ret (a : A)
| Throw (e : error)
| Exit (code : Z)
| Vis {X : Type} (o : op X) (k : X -> prog A).
Arguments Ret {A} a.
Arguments Throw {A} e.
Arguments Exit {A} code.
Arguments Vis {A X} o k.

Fixpoint bind {A B} (p : prog A) (f : A -> prog B) : prog B :=
  match p with
  | Ret a => f a
  | Throw e => Throw e
  | Exit c => Exit c
  | Vis o k => Vis o (fun x => bind (k x) f)
  end.

(** [try { p } catch (error) { h error }] *)
Fixpoint tryCatch {A} (p : prog A) (h : error -> prog A) : prog A :=
  match p with
  | Ret a => Ret a
  | Throw e => h e
  | Exit c => Exit c
  | Vis o k => Vis o (fun x => tryCatch (k x) h)
  end.

Notation "x <- p ;; q" := (bind p (fun x => q))
  (at level 61, p at next level, right associativity).
Notation "p ;; q" := (bind p (fun _ => q))
  (at level 61, right associativity).

(** [for (const x of xs) { await body(x) }] *)
Fixpoint forEach {A} (xs : list A) (body : A -> prog unit) : prog unit :=
  match xs with
  | [] => Ret tt
  | x :: rest => body x ;; forEach rest body
  end.

Definition perform {X} (o : op X) : prog X := Vis o Ret.

(** An operation whose failure is thrown. *)
Definition attempt {X} (o : op (result X)) : prog X :=
  Vis o (fun r => match r with Ok x => Ret x | Err e => Throw e end).

Definition log (m : msg) : prog unit := perform (Log m).
Definition logError (m : msg) : prog unit := perform (LogError m).
Definition now : prog Z := perform Now.

(** What an execution leaves behind, operation by operation. *)
Inductive event :=
| EAccess (p : path) (r : bool)
| EScan (dir : path) (ext : string) (r : result (list path))
| EReaddir (p : path) (r : result (list (string * bool)))
| ERead (p : path) (r : result jsstring)
| EWrite (p : path) (content : jsstring) (r : result unit)
| EMkdir (p : path) (r : result unit)
| ECopy (src dest : path) (r : result unit)
| ESass (file : path) (r : result (jsstring * option jsstring))
| EExec (file outDir : path) (r : result unit)
| ENow
| ELog (m : msg)
| EError (m : msg)
| EWatch (paths : list path).

Definition record {X} (o : op X) : X -> event :=
  match o in op X return X -> event with
  | Access p => EAccess p
  | Scan dir ext => EScan dir ext
  | Readdir p => EReaddir p
  | ReadFile p => ERead p
  | WriteFile p c => EWrite p c
  | Mkdir p => EMkdir p
  | CopyFile s d => ECopy s d
  | SassCompile f _ => ESass f
  | ExecTsc f d => EExec f d
  | Now => fun _ => ENow
  | Log m => fun _ => ELog m
  | LogError m => fun _ => EError m
  | Watch ps => fun _ => EWatch ps
  end.

(** How a program ends. *)
Inductive outcome (A : Type) : Type :=
| Done (a : A)
| Thrown (e : error)
| Exited (code : Z).
Arguments Done {A} a.
Arguments Thrown {A} e.
Arguments Exited {A} code.

Record world := { tree : node; time : Z }.

Definition withTree (w : world) (t : node) : world :=
  {| tree := t; time := time w |}.

Section Semantics.

(** The collaborators outside the repository: the Sass compiler (the CSS and,
    when asked for, the serialised source map), the TypeScript compiler run
    through [npx tsc] (the tree it leaves, and the error of a non-zero exit),
    and the longest path the file system takes. *)
Variable sass : node -> path -> bool -> result (jsstring * option jsstring).
Variable tsc : node -> path -> path -> node * option error.
Variable pathMax : nat.

Definition store (w : world) (r : result node) : result unit * world :=
  match r with
  | Ok t => (Ok tt, withTree w t)
  | Err e => (Err e, w)
  end.

Definition guarded (p : path) (r : result node) : result node :=
  if (pathMax <? length p)%nat then Err (FsError ENAMETOOLONG p) else r.

Definition exec {X} (o : op X) (w : world) : X * world :=
  match o in op X return X * world with
  | Access p => (exists_ (tree w) p, w)
  | Scan dir ext => (getFiles (tree w) dir ext, w)
  | Readdir p => (readdir (tree w) p, w)
  | ReadFile p => (readFile (tree w) p, w)
  | WriteFile p c => store w (guarded p (writeFile (tree w) p c))
  | Mkdir p => store w (guarded p (mkdir (tree w) p))
  | CopyFile s d => store w (guarded d (copyFile (tree w) s d))
  | SassCompile f dev => (sass (tree w) f dev, w)
  | ExecTsc f d =>
      let (t, r) := tsc (tree w) f d in
      (match r with None => Ok tt | Some e => Err e end, withTree w t)
  | Now => (time w, w)
  | Log _ => (tt, w)
  | LogError _ => (tt, w)
  | Watch _ => (tt, w)
  end.

(** Running a program to its end, one operation after the other. *)
Fixpoint run {A} (p : prog A) (w : world) : outcome A * world * list event :=
  match p with
  | Ret a => (Done a, w, [])
  | Throw e => (Thrown e, w, [])
  | Exit c => (Exited c, w, [])
  | Vis o k =>
      let (x, w') := exec o w in
      let '(r, w'', evs) := run (k x) w' in
      (r, w'', record o x :: evs)
  end.

(** ** The watcher

    Change events handled one after the other, each handler run to its end
    before the next event is taken. *)
Fixpoint handleAll (handler : path -> prog unit) (changes : list path)
    (w : world) : list (outcome unit) * world * list event :=
  match changes with
  | [] => ([], w, [])
  | filePath :: rest =>
      let '(r, w1, evs1) := run (handler filePath) w in
      let '(rs, w2, evs2) := handleAll handler rest w1 in
      (r :: rs, w2, (evs1 ++ evs2)%list)
  end.

(** Change events as the event loop takes them: a handler is an [async]
    function, so it gives control back at each operation it awaits, and a new
    event can be delivered while earlier handlers are still under way. A
    configuration is the world and the handlers in flight; a schedule says,
    step by step, whether an event arrives or which handler goes on by one
    operation. *)
Inductive action :=
| Deliver (filePath : path)
| Advance (i : nat).

Definition config : Type := world * list (prog unit).

Definition inFlight (p : prog unit) : bool :=
  match p with Vis _ _ => true | _ => false end.

Definition advance (p : prog unit) (w : world) : prog unit * world :=
  match p with
  | Vis o k => let (x, w') := exec o w in (k x, w')
  | _ => (p, w)
  end.

Fixpoint advanceAt (i : nat) (pool : list (prog unit)) (w : world) : config :=
  match pool with
  | [] => (w, [])
  | p :: rest =>
      match i with
      | 0 => let (p', w') := advance p w in
             (w', if inFlight p' then p' :: rest else rest)
      | S j => let (w', rest') := advanceAt j rest w in (w', p :: rest')
      end
  end.

Definition act (handler : path -> prog unit) (a : action) (c : config) : config :=
  match a with
  | Deliver filePath => (fst c, (snd c ++ [handler filePath])%list)
  | Advance i => advanceAt i (snd c) (fst c)
  end.

Fixpoint schedule (handler : path -> prog unit) (acts : list action)
    (c : config) : config :=
  match acts with
  | [] => c
  | a :: rest => schedule handler rest (act handler a c)
  end.

(** The path a handler in flight is about to write. *)
Definition nextWrite (p : prog unit) : option path :=
  match p with
  | Vis o _ =>
      match o with
      | WriteFile f _ => Some f
      | _ => None
      end
  | _ => None
  end.

(** Deliveries happen only while no handler is in flight. *)
Fixpoint spaced (handler : path -> prog unit) (acts : list action)
    (c : config) : bool :=
  match acts with
  | [] => true
  | a :: rest =>
      match a with
      | Deliver _ => match snd c with [] => true | _ => false end
      | Advance _ => true
      end
      && spaced handler rest (act handler a c)
  end.

End Semantics.

Fixpoint path_eqb (a b : path) : bool :=
  match a, b with
  | [], [] => true
  | x :: a', y :: b' => (x =? y) && path_eqb a' b'
  | _, _ => false
  end.

(** Two handlers are about to write the same file. *)
Definition sameWrite (p q : prog unit) : bool :=
  match nextWrite p, nextWrite q with
  | Some f, Some g => path_eqb f g
  | _, _ => false
  end.

Fixpoint racing (pool : list (prog unit)) : bool :=
  match pool with
  | [] => false
  | p :: rest => existsb (sameWrite p) rest || racing rest
  end.

End Io.

(* ================================================================== *)
(** * CVBundler *)
(* ================================================================== *)

Module Bundler.
Import Js Path Fs Io.
Local Open Scope string_scope.

(** [this.options] *)
Record options := {
  srcDir : path;
  dataDir : path;
  assetsDir : path;
  distDir : path;
  dev : bool
}.

(** The defaults of the constructor, resolved against the working directory. *)
Definition defaultOptions (cwd : path) (isDev : bool) : options :=
  {| srcDir := join cwd "src";
     dataDir := join cwd "data";
     assetsDir := join cwd "assets";
     distDir := join cwd "dist";
     dev := isDev |}.

(** ** Utilities (lines 192-245) *)

(** getFiles only reads: its calls to [fs.access] and [fs.readdir] are one
    look at the tree, see [Fs.getFiles]. *)
Definition getFiles (dir : path) (extension : string) : prog (list path) :=
  attempt (Scan dir extension).

Definition ensureDir (dirPath : path) : prog unit :=
  tryCatch (attempt (Mkdir dirPath))
    (fun error => if negb (isEEXIST error) then Throw error else Ret tt).

Definition pathExists (p : path) : prog bool := perform (Access p).

Definition readFile (p : path) : prog jsstring := attempt (ReadFile p).
Definition writeFile (p : path) (content : jsstring) : prog unit :=
  attempt (WriteFile p content).
Definition copyFile (src dest : path) : prog unit := attempt (CopyFile src dest).
Definition readdir (p : path) : prog (list (string * bool)) := attempt (Readdir p).

(** copyDirectory calls itself once per directory level, one component deeper
    in [dest] each time, and starts with [ensureDir dest]: [depth] counts the
    levels left before [dest] outgrows the longest path, where that call
    throws ENAMETOOLONG. *)
Fixpoint copyDirectoryTo (depth : nat) (src dest : path) : prog unit :=
  match depth with
  | 0 => Throw (FsError ENAMETOOLONG dest)
  | S depth' =>
      ensureDir dest ;;
      entries <- readdir src ;;
      forEach entries (fun entry =>
        let srcPath := join src (fst entry) in
        let destPath := join dest (fst entry) in
        if snd entry then copyDirectoryTo depth' srcPath destPath
        else copyFile srcPath destPath)
  end.

Section Tasks.

Variable pathMax : nat.
Variable o : options.

(** [let processedContent = content; if (!this.options.dev) processedContent =
    this.minify...(content)], the same in the three text tasks. *)
Definition processedContent (minify : jsstring -> jsstring) (content : jsstring)
  : jsstring :=
  if negb (dev o) then minify content else content.

Definition copyDirectory (src dest : path) : prog unit :=
  copyDirectoryTo (S pathMax - length dest) src dest.

(** ** The five tasks (lines 61-189) *)

Definition processHTML : prog unit :=
  htmlFiles <- getFiles (srcDir o) ".html" ;;
  forEach htmlFiles (fun file =>
    content <- readFile file ;;
    let fileName := basename file in
    let outputPath := join (distDir o) fileName in
    writeFile outputPath (processedContent minifyHTML content)).

Definition processStyles : prog unit :=
  scssFiles <- getFiles (srcDir o) ".scss" ;;
  cssFiles <- getFiles (srcDir o) ".css" ;;
  forEach scssFiles (fun file =>
    result <- attempt (SassCompile file (dev o)) ;;
    let fileName := basenameExt file ".scss" ++ ".css" in
    let outputPath := join (distDir o) fileName in
    writeFile outputPath (fst result) ;;
    match dev o, snd result with
    | true, Some sourceMap => writeFile (join (distDir o) (fileName ++ ".map")) sourceMap
    | _, _ => Ret tt
    end) ;;
  forEach cssFiles (fun file =>
    content <- readFile file ;;
    let fileName := basename file in
    let outputPath := join (distDir o) fileName in
    writeFile outputPath (processedContent minifyCSS content)).

Definition processScripts : prog unit :=
  tsFiles <- getFiles (srcDir o) ".ts" ;;
  jsFiles <- getFiles (srcDir o) ".js" ;;
  forEach tsFiles (fun file =>
    tryCatch
      (let fileName := basenameExt file ".ts" ++ ".js" in
       attempt (ExecTsc file (distDir o)) ;;
       log (MTsCompiled fileName))
      (fun error =>
         logError (MTsError file (message error)) ;;
         Throw error)) ;;
  forEach jsFiles (fun file =>
    content <- readFile file ;;
    let fileName := basename file in
    let outputPath := join (distDir o) fileName in
    writeFile outputPath (processedContent minifyJS content)).

Definition dq : string := String (ascii_of_nat 34) EmptyString.
Definition nl : string := String (ascii_of_nat 10) EmptyString.
Definition attr (name value : string) : string :=
  " " ++ name ++ "=" ++ dq ++ value ++ dq.

Definition placeholderSVG : jsstring :=
  lit ("<?xml" ++ attr "version" "1.0" ++ attr "encoding" "UTF-8" ++ "?>" ++ nl
       ++ "<svg" ++ attr "width" "300" ++ attr "height" "300"
       ++ attr "viewBox" "0 0 300 300"
       ++ attr "xmlns" "http://www.w3.org/2000/svg" ++ ">" ++ nl
       ++ "    <rect" ++ attr "width" "300" ++ attr "height" "300"
       ++ attr "fill" "#e5e7eb" ++ "/>" ++ nl
       ++ "    <circle" ++ attr "cx" "150" ++ attr "cy" "120" ++ attr "r" "40"
       ++ attr "fill" "#9ca3af" ++ "/>" ++ nl
       ++ "    <path"
       ++ attr "d" "M150 180 C120 180 90 200 90 220 L90 250 L210 250 L210 220 C210 200 180 180 150 180 Z"
       ++ attr "fill" "#9ca3af" ++ "/>" ++ nl
       ++ "    <text" ++ attr "x" "150" ++ attr "y" "280"
       ++ attr "text-anchor" "middle" ++ attr "fill" "#6b7280"
       ++ attr "font-size" "14" ++ attr "font-family" "Arial"
       ++ ">Foto de Perfil</text>" ++ nl
       ++ "</svg>").

Definition processAssets : prog unit :=
  found <- pathExists (assetsDir o) ;;
  (if negb found then
     log MAssetsCreate ;;
     ensureDir (assetsDir o) ;;
     ensureDir (join (assetsDir o) "images") ;;
     writeFile (join (join (assetsDir o) "images") "profile.jpg") placeholderSVG
   else Ret tt) ;;
  let assetsOutputDir := join (distDir o) "assets" in
  ensureDir assetsOutputDir ;;
  copyDirectory (assetsDir o) assetsOutputDir.

Definition processData : prog unit :=
  found <- pathExists (dataDir o) ;;
  if negb found then
    log MDataSkip
  else
    let dataOutputDir := join (distDir o) "data" in
    ensureDir dataOutputDir ;;
    copyDirectory (dataDir o) dataOutputDir.

(** [this.tasks]: [Object.entries] lists the keys in the order they were
    written in the constructor. *)
Definition tasks : list (string * prog unit) :=
  [ ("html", processHTML);
    ("styles", processStyles);
    ("scripts", processScripts);
    ("assets", processAssets);
    ("data", processData) ].

(** ** startDevServer (lines 278-329) *)

(** The [try] block of the watcher's ['change'] handler: the changed path is
    routed by extension first, by directory second. *)
Definition route (filePath : path) : prog unit :=
  let ext := extname filePath in
  let dir := pathString (dirname filePath) in
  (if ext =? ".html" then
     processHTML ;; log MHtmlUpdated
   else if (ext =? ".scss") || (ext =? ".css") then
     processStyles ;; log MStylesUpdated
   else if (ext =? ".ts") || (ext =? ".js") then
     processScripts ;; log MScriptsUpdated
   else if includes dir "assets" then
     processAssets ;; log MAssetsUpdated
   else if includes dir "data" then
     processData ;; log MDataUpdated
   else Ret tt) ;;
  log MReload.

(** The handler of the watcher's ['change'] event. *)
Definition onChange (filePath : path) : prog unit :=
  log (MChanged filePath) ;;
  tryCatch (route filePath)
    (fun error => logError (MChangeError (message error))).

(** The handler of the watcher's ['ready'] event. *)
Definition onReady : prog unit :=
  log MWatcherReady ;; log MHintOpen ;; log MHintStop.

(** The callback of the [filter] over the three roots returns a promise, which
    is truthy whatever [fs.access] finds: every root is kept. *)
Definition startDevServer : prog unit :=
  log MDevStart ;;
  log MDevWatching ;;
  let watchPaths :=
    filter (fun _ => true) [srcDir o; dataDir o; assetsDir o] in
  perform (Watch watchPaths).

(** ** build (lines 30-59) *)

Definition build : prog unit :=
  log MBuildStart ;;
  startTime <- now ;;
  tryCatch
    (ensureDir (distDir o) ;;
     ensureDir (join (distDir o) "data") ;;
     ensureDir (join (distDir o) "assets") ;;
     forEach tasks (fun entry =>
       log (MProcessing (fst entry)) ;;
       snd entry ;;
       log (MProcessed (fst entry))) ;;
     endTime <- now ;;
     log (MBuildDone (endTime - startTime)) ;;
     if dev o then startDevServer else Ret tt)
    (fun error =>
       logError (MBuildError error) ;;
       Exit 1%Z).

End Tasks.

(** ** The command line (lines 332-339) *)
Definition main (pathMax : nat) (cwd : path) (args : list string) : prog unit :=
  let isDev := existsb (String.eqb "--dev") args || existsb (String.eqb "-d") args in
  build pathMax (defaultOptions cwd isDev).

End Bundler.

(* ================================================================== *)
(** * Predicates on strings and patterns *)
(* ================================================================== *)

(** What the statements about the minifiers are written with: classes of
    patterns, byte counts, and the normal forms the passes reach. *)

Module JsProps.
Import Js.

(** A pattern is regular when it never matches the empty string: each of its
    matches covers at least one code unit of the subject. *)
Definition regular (m : matcher) : Prop :=
  m [] = None /\ forall s rep n, m s = Some (rep, n) -> 1 <= n <= length s.

(** Bytes a code unit takes on its own. *)
Definition unitBytes (c : char) : nat :=
  if (c <? 128)%N then 1 else if (c <? 2048)%N then 2 else 3.

Definition lowHead (s : jsstring) : bool :=
  match s with d :: _ => isLow d | [] => false end.

(** Bytes [s] adds behind a code unit that was ([b]) or was not a high
    surrogate: a low surrogate completing a pair adds one byte to the three
    already counted. *)
Definition after (b : bool) (s : jsstring) : nat :=
  if b && lowHead s then byteLength s - 2 else byteLength s.

(** Neither half of a surrogate pair. *)
Definition plain (c : char) : bool := negb (isHigh c) && negb (isLow c).

(** A pattern is thrifty when a match costs no more bytes than the text it
    replaces, whatever precedes it. *)
Definition thrifty (m : matcher) : Prop :=
  forall s rep n, m s = Some (rep, n) ->
  forall b out, (forall b', after b' out <= after b' (skipn n s)) ->
  after b (rep ++ out) <= after b s.

(** Matches made of plain code units, replaced by fewer ASCII characters. *)
Definition tidy (m : matcher) : Prop :=
  forall s rep n, m s = Some (rep, n) ->
  Forall (fun c => plain c = true) (firstn n s) /\
  Forall (fun c : char => (c < 128)%N) rep /\ 1 <= length rep <= n.

(** Matches that start with an ASCII character, cover at least two code units
    and are deleted. *)
Definition eraser (m : matcher) : Prop :=
  forall s rep n, m s = Some (rep, n) ->
  rep = [] /\ 2 <= n /\ exists c t, s = c :: t /\ (c < 128)%N.

Definition headSpace (s : jsstring) : bool :=
  match s with c :: _ => isSpace c | [] => false end.

Fixpoint collapsed (s : jsstring) : bool :=
  match s with
  | [] => true
  | c :: s' =>
      (if isSpace c then (c =? sp)%N && negb (headSpace s') else true)
      && collapsed s'
  end.

Definition selector := option char -> option char -> bool.

(** Delete the spaces that [sel] selects; [p] is the last code unit before [s]
    that is not a space. *)
Fixpoint del (sel : selector) (p : option char) (s : jsstring) : jsstring :=
  match s with
  | [] => []
  | c :: s' =>
      if isSpace c then
        if sel p (hd_error s') then del sel p s' else c :: del sel p s'
      else c :: del sel (Some c) s'
  end.

(** No space of [s] is selected by [sel]. *)
Fixpoint nf (sel : selector) (p : option char) (s : jsstring) : bool :=
  match s with
  | [] => true
  | c :: s' =>
      if isSpace c then negb (sel p (hd_error s')) && nf sel p s'
      else nf sel (Some c) s'
  end.

Definition isC (x : char) (o : option char) : bool :=
  match o with Some c => (c =? x)%N | None => false end.

Definition isPunctO (o : option char) : bool :=
  match o with Some c => isPunct c | None => false end.

(** What each later pass deletes, as a selector. *)
Definition sel_gt_lt : selector := fun p n => isC gt p && isC lt n.

Definition sel_before_gt : selector := fun _ n => isC gt n.

Definition sel_after (x : char) : selector := fun p _ => isC x p.

Definition sel_punct : selector := fun p n => isPunctO p || isPunctO n.

(** What a pass of minifyHTML leaves: collapsed white space, none of it
    between ['>'] and ['<'], before ['>'] or after ['<'], and none at either
    end. *)
Definition htmlNormal (s : jsstring) : Prop :=
  collapsed s = true /\ nf sel_gt_lt None s = true /\
  nf sel_before_gt None s = true /\ nf (sel_after lt) None s = true /\
  trim s = s.

(** The pattern matches somewhere in the subject. *)
Fixpoint occurs (m : matcher) (s : jsstring) : bool :=
  match s with
  | [] => false
  | _ :: s' => match m s with Some _ => true | None => occurs m s' end
  end.

(** Every match is at least as long as its replacement; longer, when strict. *)
Definition contracting (m : matcher) : Prop :=
  forall s rep n, m s = Some (rep, n) -> length rep <= n.

Definition strict (m : matcher) : Prop :=
  forall s rep n, m s = Some (rep, n) -> length rep < n.

Definition cssNormal (s : jsstring) : Prop :=
  collapsed s = true /\ nf (sel_after lbrace) None s = true /\
  nf (sel_after semi) None s = true /\ nf (sel_after comma) None s = true /\
  nf (sel_after colon) None s = true /\ trim s = s.

(** No two slashes side by side: nothing for [/\/\/.*$/gm] to match. *)
Fixpoint noSlashPair (s : jsstring) : bool :=
  match s with
  | [] => true
  | c :: s' => negb ((c =? slash)%N && isC slash (hd_error s')) && noSlashPair s'
  end.

Definition jsNormal (s : jsstring) : Prop :=
  collapsed s = true /\ nf sel_punct None s = true /\
  noSlashPair s = true /\ trim s = s.

End JsProps.

(* ================================================================== *)
(** * Predicates on programs and executions *)
(* ================================================================== *)

(** Programs by the operations they can reach, and the parts of an
    execution. *)

Module IoProps.
Import Js Path Fs Io.

(** Every operation a program can reach satisfies [Q], whatever the answers. *)
Fixpoint opsAll {A} (Q : forall X, op X -> bool) (p : prog A) : Prop :=
  match p with
  | Vis o k => Q _ o = true /\ forall x, opsAll Q (k x)
  | _ => True
  end.

(** The program never ends the process. *)
Fixpoint noExit {A} (p : prog A) : Prop :=
  match p with
  | Exit _ => False
  | Vis o k => forall x, noExit (k x)
  | _ => True
  end.

(** Sequencing of executions. *)
Definition andThen {A B} (x : outcome A * world * list event)
    (f : A -> world -> outcome B * world * list event)
  : outcome B * world * list event :=
  let '(r, w, evs) := x in
  match r with
  | Done a => let '(r2, w2, evs2) := f a w in (r2, w2, evs ++ evs2)
  | Thrown e => (Thrown e, w, evs)
  | Exited c => (Exited c, w, evs)
  end.

Definition orElse {A} (x : outcome A * world * list event)
    (h : error -> world -> outcome A * world * list event)
  : outcome A * world * list event :=
  let '(r, w, evs) := x in
  match r with
  | Thrown e => let '(r2, w2, evs2) := h e w in (r2, w2, evs ++ evs2)
  | _ => (r, w, evs)
  end.

Definition outcomeOf {A} (x : outcome A * world * list event) : outcome A :=
  fst (fst x).

Definition worldOf {A} (x : outcome A * world * list event) : world :=
  snd (fst x).

Definition eventsOf {A} (x : outcome A * world * list event) : list event :=
  snd x.

End IoProps.

(* ================================================================== *)
(** * Predicates on trees *)
(* ================================================================== *)

(** Well-formed trees and what is at a path. *)

Module FsProps.
Import Js Path Fs.
Local Open Scope string_scope.

(** Induction over a tree, with the property known of every entry. *)
Fixpoint node_ind (P : node -> Prop)
    (HFile : forall c, P (File c))
    (HDir : forall es, Forall (fun e => P (snd e)) es -> P (Dir es))
    (n : node) : P n :=
  match n with
  | File c => HFile c
  | Dir es =>
      HDir es
        ((fix all (es : list (string * node)) : Forall (fun e => P (snd e)) es :=
            match es with
            | [] => Forall_nil _
            | e :: rest => Forall_cons e (node_ind P HFile HDir (snd e)) (all rest)
            end) es)
  end.

(** No directory holds a name twice. *)
Fixpoint uniqueNames (names : list string) : bool :=
  match names with
  | [] => true
  | n :: rest => negb (existsb (String.eqb n) rest) && uniqueNames rest
  end.

Fixpoint wellFormed (n : node) : bool :=
  match n with
  | File _ => true
  | Dir es =>
      uniqueNames (map fst es)
      && (fix all (es : list (string * node)) : bool :=
            match es with
            | [] => true
            | e :: rest => wellFormed (snd e) && all rest
            end) es
  end.

(** [p] lies below [dir]. *)
Definition under (dir p : path) : Prop := exists rel, rel <> [] /\ p = (dir ++ rel)%list.

(** What is at a path: nothing, a directory, or a file with its text. *)
Definition shape (n : node) : option jsstring :=
  match n with File c => Some c | Dir _ => None end.

Definition kindAt (root : node) (p : path) : option (option jsstring) :=
  option_map shape (lookup root p).

(** What one entry of a directory adds to the result. *)
Definition found (dir : path) (ext : string) (e : string * node) : list path :=
  if isDirectory (snd e) then walk (join dir (fst e)) (snd e) ext
  else if endsWith (fst e) ext then [join dir (fst e)] else [].

(** How many entries of the directory [dir] carry the name [name]. *)
Definition entryCount (root : node) (dir : path) (name : string) : nat :=
  match lookup root dir with
  | Some (Dir es) => length (filter (fun e => fst e =? name) es)
  | _ => 0
  end.

(** No dot in the string. *)
Fixpoint dotless (s : string) : bool :=
  match s with
  | EmptyString => true
  | String c s' => negb (Ascii.eqb c ".") && dotless s'
  end.

(** The last character of a name tells extensions apart. *)
Fixpoint lastChar (s : string) : option ascii :=
  match s with
  | EmptyString => None
  | String c EmptyString => Some c
  | String _ s' => lastChar s'
  end.

End FsProps.

(* ================================================================== *)
(** * Predicates on the executions of the bundler *)
(* ================================================================== *)

(** Events by kind, the course of the task loop, and what the tasks read and
    write. *)

Module BundlerProps.
Import Js Path Fs Io Bundler FsProps IoProps.
Local Open Scope string_scope.

(** Operations by kind. *)
Definition isExecOp {X} (o : op X) : bool :=
  match o with ExecTsc _ _ => true | _ => false end.

Definition isMark (m : msg) : bool :=
  match m with MProcessing _ | MProcessed _ => true | _ => false end.

Definition isMarkOp {X} (o : op X) : bool :=
  match o with Log m => isMark m | _ => false end.

Definition notExecOp : forall X, op X -> bool := fun X o => negb (isExecOp o).

Definition notMarkOp : forall X, op X -> bool := fun X o => negb (isMarkOp o).

Definition failedExec (ev : event) : bool :=
  match ev with EExec _ _ (Err _) => true | _ => false end.

Definition isMarkEvent (ev : event) : bool :=
  match ev with ELog m => isMark m | _ => false end.

(** No compiler run failed. *)
Definition calm (evs : list event) : Prop :=
  Forall (fun ev => failedExec ev = false) evs.

(** The lines that open and close a task in the log of [build]. *)
Definition marks (evs : list event) : list event := filter isMarkEvent evs.

Definition bracket (names : list string) : list event :=
  flat_map (fun name => [ELog (MProcessing name); ELog (MProcessed name)]) names.

Definition taskNames : list string := ["html"; "styles"; "scripts"; "assets"; "data"].

(** The body of the [try] block of [build]. *)
Definition buildTry (pathMax : nat) (o : options) (startTime : Z) : prog unit :=
  ensureDir (distDir o) ;;
  ensureDir (join (distDir o) "data") ;;
  ensureDir (join (distDir o) "assets") ;;
  forEach (tasks pathMax o) (fun entry =>
    log (MProcessing (fst entry)) ;;
    snd entry ;;
    log (MProcessed (fst entry))) ;;
  endTime <- now ;;
  log (MBuildDone (endTime - startTime)) ;;
  if dev o then startDevServer o else Ret tt.

(** What [build] does before the first task, and behind the last. *)
Definition prepare (o : options) : prog unit :=
  ensureDir (distDir o) ;;
  ensureDir (join (distDir o) "data") ;;
  ensureDir (join (distDir o) "assets").

Definition finish (o : options) (startTime : Z) : prog unit :=
  endTime <- now ;;
  log (MBuildDone (endTime - startTime)) ;;
  if dev o then startDevServer o else Ret tt.

(** Two change events in a row: the second is delivered when the handler of
    the first has done three operations, and its handler then does three. *)
Definition rapid (p1 p2 : path) : list action :=
  [Deliver p1; Advance 0; Advance 0; Advance 0;
   Deliver p2; Advance 1; Advance 1; Advance 1].

(** The source file an event reads, compiles or hands to the compiler. *)
Definition readOf (ev : event) : option path :=
  match ev with
  | ERead f _ | ESass f _ | EExec f _ _ => Some f
  | _ => None
  end.

Section Runs.

Variable sass : node -> path -> bool -> result (jsstring * option jsstring).
Variable tsc : node -> path -> path -> node * option error.
Variable pathMax : nat.
Variable o : options.

Abbreviation run := (Io.run sass tsc pathMax).

(** Either no compiler run failed, or the program threw the error of the one
    that did, right after reporting it. *)
Definition execFate {A} (x : outcome A * world * list event) : Prop :=
  calm (eventsOf x) \/
  exists file e pre,
    outcomeOf x = Thrown e /\
    eventsOf x =
      (pre ++ [EExec file (distDir o) (Err e);
               EError (MTsError file (message e))])%list /\
    calm pre.

(** [ran ts w r w' evs]: the loop over the tasks [ts], started in [w], ran each
    task to its end before the next, in the order of [ts], until one did not
    return; it ended as [r] in [w'], leaving [evs]. *)
Inductive ran : list (string * prog unit) -> world -> outcome unit -> world ->
                list event -> Prop :=
| ran_nil w : ran [] w (Done tt) w []
| ran_next name task ts w w1 evs1 r w2 evs2 :
    run task w = (Done tt, w1, evs1) ->
    ran ts w1 r w2 evs2 ->
    ran ((name, task) :: ts) w r w2
      (ELog (MProcessing name) :: evs1 ++ ELog (MProcessed name) :: evs2)
| ran_stop name task ts w r w1 evs1 :
    run task w = (r, w1, evs1) ->
    r <> Done tt ->
    ran ((name, task) :: ts) w r w1 (ELog (MProcessing name) :: evs1).

Definition taskBody (entry : string * prog unit) : prog unit :=
  log (MProcessing (fst entry)) ;; snd entry ;; log (MProcessed (fst entry)).

(** How a build went. Either it returned: the task loop ran every task to its
    end, and the log holds the opening and closing line of each, in order.
    Or it did not: the log holds a proper prefix of those lines, and either
    no task was started or the task loop stopped at the task that did not
    return. *)
Definition orderly (r : outcome unit) (evs : list event) : Prop :=
  (r = Done tt /\ marks evs = bracket taskNames /\
   exists pre post w0 w5 loop,
     evs = (pre ++ loop ++ post)%list /\
     ran (tasks pathMax o) w0 (Done tt) w5 loop /\
     marks pre = [] /\ marks post = [])
  \/
  (r <> Done tt /\
   (exists n, n < length (bracket taskNames) /\
              marks evs = firstn n (bracket taskNames)) /\
   (marks evs = [] \/
    exists pre post w0 w1 r' loop,
      evs = (pre ++ loop ++ post)%list /\
      ran (tasks pathMax o) w0 r' w1 loop /\ r' <> Done tt /\
      marks pre = [] /\ marks post = [])).

(** The event does not change what is at [q]. *)
Definition spares (q : path) (ev : event) : Prop :=
  match ev with
  | EWrite p _ _ => p <> q
  | EMkdir _ _ | ECopy _ _ _ | EExec _ _ _ => False
  | _ => True
  end.

(** Events of a task that works from the source root alone. *)
Definition fromSource (ev : event) : Prop :=
  match ev with
  | EScan dir _ _ => dir = srcDir o
  | ERead f _ | ESass f _ | EExec f _ _ => under (srcDir o) f
  | EWrite _ _ _ | ELog _ | EError _ => True
  | _ => False
  end.

(** Events of the markup task. *)
Definition markupEvent (ev : event) : Prop :=
  match ev with
  | ELog _ | EError _ => True
  | EScan dir ext _ => dir = srcDir o /\ ext = ".html"
  | ERead f _ => under (srcDir o) f /\ endsWith (basename f) ".html" = true
  | EWrite p _ _ => exists n, p = join (distDir o) n /\ endsWith n ".html" = true
  | _ => False
  end.

Definition path_eq_dec : forall a b : path, {a = b} + {a <> b} :=
  list_eq_dec string_dec.

(** What is at [q] after the event, given what was there before. *)
Definition effect (q : path) (k : option (option jsstring)) (ev : event)
  : option (option jsstring) :=
  match ev with
  | EWrite p c (Ok _) => if path_eq_dec p q then Some (Some c) else k
  | _ => k
  end.

Definition replay (q : path) (evs : list event) (k : option (option jsstring))
  : option (option jsstring) :=
  fold_left (effect q) evs k.

(** The event changes the tree by writing a file, if at all. *)
Definition writesOnly (ev : event) : Prop :=
  match ev with
  | EMkdir _ _ | ECopy _ _ _ | EExec _ _ _ => False
  | _ => True
  end.

Definition text (t : node) (f : path) : jsstring :=
  match Fs.readFile t f with Ok c => c | Err _ => [] end.

Definition markupBody (file : path) : prog unit :=
  content <- readFile file ;;
  writeFile (join (distDir o) (basename file))
    (processedContent o minifyHTML content).

(** What the loop leaves for one file: the file read, its output written. *)
Definition markupTrace (t : node) (file : path) : list event :=
  [ERead file (Ok (text t file));
   EWrite (join (distDir o) (basename file))
     (processedContent o minifyHTML (text t file)) (Ok tt)].

(** A stylesheet, a source map or a script in the output root, or anything
    below its [assets] and [data] directories. *)
Definition otherOutput (q : path) : Prop :=
  under (join (distDir o) "assets") q \/
  under (join (distDir o) "data") q \/
  exists n, q = join (distDir o) n /\
    (endsWith n ".css" = true \/ endsWith n ".map" = true \/
     endsWith n ".js" = true).

End Runs.

End BundlerProps.

(* ================================================================== *)
(** * A sample project *)
(* ================================================================== *)

Module Sample.
Import Js Path Fs Io Bundler.
Local Open Scope string_scope.

(** Two markup files of one name, a stylesheet, a typed script, and an output
    root that is there already. *)
Definition project : node :=
  Dir [("p",
        Dir [("src",
              Dir [("index.html", File (lit "<p> a </p>"));
                   ("sub",
                    Dir [("index.html", File (lit "<p> b </p>"));
                         ("app.ts", File (lit "let x: number = 1;"))]);
                   ("style.css", File (lit "a { b : c ; }"))]);
             ("dist", Dir [])])].

Definition start : world := {| tree := project; time := 0%Z |}.

Definition production : options := defaultOptions ["p"] false.

Definition limit : nat := 16.

(** No Sass source is compiled in the sample. *)
Definition noSass (_ : node) (_ : path) (_ : bool)
  : result (jsstring * option jsstring) :=
  Err (SassError "unexpected").

(** A compiler that rejects every source, and one that writes the script. *)
Definition tscRejects (t : node) (_ _ : path) : node * option error :=
  (t, Some (ExecError "error TS2322")).

Definition tscAccepts (t : node) (file outDir : path) : node * option error :=
  match Fs.writeFile t (join outDir (basenameExt file ".ts" ++ ".js")) (lit "let x = 1;") with
  | Ok t' => (t', None)
  | Err e => (t, Some e)
  end.

Definition script : path := ["p"; "src"; "sub"; "app.ts"].
Definition page : path := ["p"; "src"; "index.html"].
Definition subpage : path := ["p"; "src"; "sub"; "index.html"].

(** Two changes of the same page, the second delivered while the handler of
    the first is about to write. *)
Definition overlap : list action :=
  [Deliver page; Advance 0; Advance 0; Advance 0;
   Deliver page; Advance 1; Advance 1; Advance 1].

(** The same two changes, the second delivered after the first handler is
    through. *)
Definition inTurn : list action :=
  [Deliver page; Advance 0; Advance 0; Advance 0; Advance 0; Advance 0;
   Advance 0; Advance 0; Advance 0;
   Deliver page; Advance 0; Advance 0].

(** A page in Latin-1, not in UTF-8: a paragraph whose text ends with the
    byte E9, an e with an acute accent, and a line feed; and the same page in
    UTF-8. *)
Definition latin1Page : list byte :=
  [60; 112; 62; 99; 97; 102; 233; 60; 47; 112; 62; 10]%N.

Definition utf8Page : list byte :=
  [60; 112; 62; 99; 97; 102; 195; 169; 60; 47; 112; 62; 10]%N.

(** A project with a page and a stylesheet that have no name before their
    extension, and a Sass source that uses a module kept with the assets. *)
Definition dotted : node :=
  Dir [("p",
        Dir [("src",
              Dir [(".html", File (lit "<p> a </p>"));
                   ("main.scss", File (lit "@use '../assets/theme';"))]);
             ("assets",
              Dir [(".css", File (lit "a { }"));
                   ("theme.scss", File (lit "a { b : c }"))]);
             ("dist", Dir [])])].

Definition dottedStart : world := {| tree := dotted; time := 0%Z |}.

Definition dotPage : path := ["p"; "src"; ".html"].
Definition dotStyle : path := ["p"; "assets"; ".css"].
Definition theme : path := ["p"; "assets"; "theme.scss"].

(** A Sass compiler that follows the [@use] of the sample: what it makes of
    a source is the text of the module the source uses. *)
Definition sassFollows (t : node) (_ : path) (_ : bool)
  : result (jsstring * option jsstring) :=
  match Fs.readFile t theme with
  | Ok c => Ok (c, None)
  | Err e => Err e
  end.

End Sample.

(* ================================================================== *)
(** * Regular expressions by their matches *)
(* ================================================================== *)

Module Regex.
Import Js.

(** The expressions of the two form validators: a literal character, one or
    more code units of a class, and one expression behind another. *)
Inductive re :=
| Chr (c : char)
| Plus (f : char -> bool)
| Seq (a b : re).

(** What is left of the subject behind one, two, ... code units of the
    class at its head. *)
Fixpoint plusRun (f : char -> bool) (s : jsstring) : list jsstring :=
  match s with
  | c :: s' => if f c then s' :: plusRun f s' else []
  | [] => []
  end.

(** What is left of the subject behind each match of [r] at its head. *)
Fixpoint suffixes (r : re) (s : jsstring) : list jsstring :=
  match r with
  | Chr c =>
      match s with
      | d :: s' => if (d =? c)%N then [s'] else []
      | [] => []
      end
  | Plus f => plusRun f s
  | Seq a b => flat_map (suffixes b) (suffixes a s)
  end.

Definition isEmpty (s : jsstring) : bool :=
  match s with [] => true | _ => false end.

(** [/^r$/.test(s)]: some match of [r] at the head of [s] ends where [s]
    ends. *)
Definition test (r : re) (s : jsstring) : bool :=
  existsb isEmpty (suffixes r s).

Definition atSign : char := 64%N.  (* '@' *)
Definition dot : char := 46%N.     (* '.' *)

(** The class [[^\s@]]. *)
Definition notSpaceAt (c : char) : bool := negb (isSpace c || (c =? atSign)%N).

(** [/^[^\s@]+@[^\s@]+\.[^\s@]+$/], the same in the server and in the page. *)
Definition emailRegex : re :=
  Seq (Plus notSpaceAt)
    (Seq (Chr atSign)
       (Seq (Plus notSpaceAt)
          (Seq (Chr dot) (Plus notSpaceAt)))).

End Regex.

(* ================================================================== *)
(** * CVServer: the check of a contact form *)
(* ================================================================== *)

Module Server.
Import Js Regex.
Local Open Scope string_scope.

(** The texts of the errors. *)
Inductive errorText :=
| NameTooShort      (* El nombre debe tener al menos 2 caracteres *)
| EmailNotValid     (* Por favor, ingresa un email valido *)
| SubjectTooShort   (* El asunto debe tener al menos 3 caracteres *)
| MessageTooShort.  (* El mensaje debe tener al menos 10 caracteres *)

Inductive summary :=
| FixTheErrors      (* Por favor, corrige los errores en el formulario *)
| ValidData.        (* Datos validos *)

(** What validateContactForm returns: [isValid], [message] (here
    [summaryOf]) and [fields]. *)
Record validation := {
  isValid : bool;
  summaryOf : summary;
  fields : list (string * errorText)
}.

Fixpoint sameText (a b : jsstring) : bool :=
  match a, b with
  | [], [] => true
  | x :: a', y :: b' => (x =? y)%N && sameText a' b'
  | _, _ => false
  end.

Section Body.

(** The numbers of a request body. Which of them are zero and how the
    engine writes one out are taken as given. *)
Variable number : Type.
Variable isZero : number -> bool.
Variable numberText : number -> jsstring.

(** What a field of the parsed body holds: a value of JSON, or [undefined]
    when the body has no such field. *)
Unset Elimination Schemes.
Inductive value :=
| Undefined
| Null
| Bool (b : bool)
| Num (n : number)
| Str (s : jsstring)
| Arr (items : list value)
| Obj (props : list (jsstring * value)).
Set Elimination Schemes.

(** The object validateContactForm is called with. *)
Record contactData := {
  name : value;
  email : value;
  subject : value;
  message : value
}.

(** ToBoolean. No number of a body is NaN. *)
Definition truthy (x : value) : bool :=
  match x with
  | Undefined | Null => false
  | Bool b => b
  | Num n => negb (isZero n)
  | Str s => negb (isEmpty s)
  | Arr _ | Obj _ => true
  end.

(** The object has a property of its own under [key]. *)
Definition hasOwn (key : jsstring) (props : list (jsstring * value)) : bool :=
  existsb (fun p => sameText (fst p) key) props.

(** ToString, or nothing where it throws a TypeError. An array is joined
    with commas, [null] and [undefined] among its items left empty. An object
    is written by [Object.prototype.toString] unless a property of its own
    hides that method: no value of a body can be called, and [valueOf]
    returns no primitive. *)
Fixpoint toText (x : value) : option jsstring :=
  match x with
  | Undefined => Some (lit "undefined")
  | Null => Some (lit "null")
  | Bool b => Some (lit (if b then "true" else "false"))
  | Num n => Some (numberText n)
  | Str s => Some s
  | Arr items =>
      (fix join (items : list value) : option jsstring :=
         match items with
         | [] => Some []
         | item :: rest =>
             match (match item with
                    | Undefined | Null => Some []
                    | _ => toText item
                    end) with
             | None => None
             | Some s =>
                 match rest with
                 | [] => Some s
                 | _ => option_map (fun t => s ++ comma :: t)%list (join rest)
                 end
             end
         end) items
  | Obj props =>
      if hasOwn (lit "toString") props then None
      else Some (lit "[object Object]")
  end.

(** [!x || x.trim().length < n], or nothing where [x.trim] is not a
    function: only a string has the method. *)
Definition tooShort (x : value) (n : nat) : option bool :=
  if negb (truthy x) then Some true
  else match x with
       | Str s => Some (length (trim s) <? n)%nat
       | _ => None
       end.

(** [!email || !emailRegex.test(email)]: [test] takes the text of its
    argument. *)
Definition badEmail (x : value) : option bool :=
  if negb (truthy x) then Some true
  else option_map (fun s => negb (test emailRegex s)) (toText x).

(** validateContactForm (lines 1115-1145): the four checks in their order,
    the first that throws ending the call. *)
Definition validateContactForm (data : contactData) : option validation :=
  let errors := [] in
  match tooShort (name data) 2 with
  | None => None
  | Some bad =>
  let errors := if bad then (errors ++ [("name", NameTooShort)])%list else errors in
  match badEmail (email data) with
  | None => None
  | Some bad =>
  let errors := if bad then (errors ++ [("email", EmailNotValid)])%list else errors in
  match tooShort (subject data) 3 with
  | None => None
  | Some bad =>
  let errors := if bad then (errors ++ [("subject", SubjectTooShort)])%list else errors in
  match tooShort (message data) 10 with
  | None => None
  | Some bad =>
  let errors := if bad then (errors ++ [("message", MessageTooShort)])%list else errors in
  Some {| isValid := (length errors =? 0)%nat;
          summaryOf := if (0 <? length errors)%nat then FixTheErrors else ValidData;
          fields := errors |}
  end end end end.

End Body.

Arguments Undefined {number}.
Arguments Null {number}.
Arguments Bool {number} b.
Arguments Num {number} n.
Arguments Str {number} s.
Arguments Arr {number} items.
Arguments Obj {number} props.
Arguments Build_contactData {number} name email subject message.
Arguments name {number} c.
Arguments email {number} c.
Arguments subject {number} c.
Arguments message {number} c.
Arguments truthy {number} isZero x.
Arguments toText {number} numberText x.
Arguments tooShort {number} isZero x n.
Arguments badEmail {number} isZero numberText x.
Arguments validateContactForm {number} isZero numberText data.

End Server.

(* ================================================================== *)
(** * CVApp: the checks of the page *)
(* ================================================================== *)

Module App.
Import Js Regex.
Local Open Scope string_scope.

(** What validateField reads of an input or a text area. *)
Record field := {
  fieldName : string;
  value : jsstring;
  required : bool
}.

Inductive errorText :=
| FieldRequired     (* Este campo es requerido *)
| EmailNotValid     (* Por favor, ingresa un email valido *)
| NameTooShort      (* El nombre debe tener al menos 2 caracteres *)
| MessageTooShort.  (* El mensaje debe tener al menos 10 caracteres *)

(** The checks of validateField (lines 769-812), with the message that is
    shown when the field is not valid. Each check that fails replaces the
    message of the one before. *)
Definition checkField (f : field) : bool * option errorText :=
  let value := trim (value f) in
  let st := (true, None) in
  let st :=
    if required f && isEmpty value then (false, Some FieldRequired) else st in
  let st :=
    if negb (isEmpty value) && (fieldName f =? "email") then
      if negb (test emailRegex value) then (false, Some EmailNotValid) else st
    else st in
  let st :=
    if negb (isEmpty value) && (fieldName f =? "name") then
      if (length value <? 2)%nat then (false, Some NameTooShort) else st
    else st in
  let st :=
    if negb (isEmpty value) && (fieldName f =? "message") then
      if (length value <? 10)%nat then (false, Some MessageTooShort) else st
    else st in
  st.

(** What validateField does to the page. *)
Inductive display :=
| ClearFieldError
| ShowFieldError (text : option errorText).

Definition validateField (f : field) : bool * display :=
  let (isValid, errorMessage) := checkField f in
  (isValid, if isValid then ClearFieldError else ShowFieldError errorMessage).

(** validateForm (lines 755-767): every required input is checked, the ones
    behind a failing one as well. *)
Definition validateForm (inputs : list field) : bool * list display :=
  fold_left
    (fun acc input =>
       let (isValid, shown) := validateField input in
       (if negb isValid then false else fst acc, (snd acc ++ [shown])%list))
    inputs (true, []).

(** [s.split(' ')] *)
Fixpoint split (sep : char) (s : jsstring) : list jsstring :=
  match s with
  | [] => [[]]
  | c :: s' =>
      if (c =? sep)%N then [] :: split sep s'
      else match split sep s' with
           | h :: t => (c :: h) :: t
           | [] => [[c]]
           end
  end.

(** The text of [nav-name] in renderPersonalInfo (line 464): the first and
    the last word of the name. *)
Definition navName (name : jsstring) : jsstring :=
  let parts := split sp name in
  (nth 0 parts [] ++ [sp] ++ nth (length parts - 1) parts [])%list.

End App.

(* ================================================================== *)
(** * Further predicates *)
(* ================================================================== *)

(** What the statements about the rest of the bundler are written with. *)

Module MoreProps.
Import Js Path Fs Io Bundler JsProps IoProps FsProps BundlerProps.
Local Open Scope string_scope.

(** ** Minifiers *)

(** The code units of a string that are not white space. *)
Definition ink (s : jsstring) : jsstring :=
  filter (fun c => negb (isSpace c)) s.

(** [subseq a b]: [a] is [b] with some of its code units left out. *)
Inductive subseq : jsstring -> jsstring -> Prop :=
| subseq_nil : subseq [] []
| subseq_skip c a b : subseq a b -> subseq a (c :: b)
| subseq_take c a b : subseq a b -> subseq (c :: a) (c :: b).

(** A pattern whose replacement holds the ink of the match, or some of it. *)
Definition inky (m : matcher) : Prop :=
  forall s rep n, m s = Some (rep, n) -> ink rep = ink (firstn n s).

Definition sparing (m : matcher) : Prop :=
  forall s rep n, m s = Some (rep, n) -> subseq (ink rep) (ink (firstn n s)).

(** ** Trees *)

(** [q] is not on the way to [p]: neither [p] nor a directory above it. *)
Definition offPath (q p : path) : Prop := forall rel, p <> (q ++ rel)%list.

(** Neither path lies on the way to the other. *)
Definition unrelated (q p : path) : Prop := offPath q p /\ offPath p q.

(** ** Executions *)

(** The event changes no file other than at or below [dest]. *)
Definition keepsOutside (dest : path) (ev : event) : Prop :=
  match ev with
  | EWrite p _ _ | ECopy _ p _ => exists rel, p = (dest ++ rel)%list
  | EExec _ _ _ => False
  | _ => True
  end.

(** Events of a copy of the tree at [src] to [dest]: directories are made at
    or below [dest], listed at or below [src], and a file goes from its place
    below [src] to the same place below [dest]. *)
Definition mirrorEvent (src dest : path) (ev : event) : Prop :=
  match ev with
  | EMkdir d _ => exists rel, d = (dest ++ rel)%list
  | EReaddir s _ => exists rel, s = (src ++ rel)%list
  | ECopy s d _ =>
      exists rel, rel <> [] /\ s = (src ++ rel)%list /\ d = (dest ++ rel)%list
  | _ => False
  end.

(** Events of the stylesheet task. *)
Definition styleEvent (o : options) (ev : event) : Prop :=
  match ev with
  | EScan dir ext _ => dir = srcDir o /\ (ext = ".scss" \/ ext = ".css")
  | ESass f _ => under (srcDir o) f /\ endsWith (basename f) ".scss" = true
  | ERead f _ => under (srcDir o) f /\ endsWith (basename f) ".css" = true
  | EWrite p _ _ =>
      exists n, p = join (distDir o) n /\
        (endsWith n ".css" = true \/
         (dev o = true /\ endsWith n ".css.map" = true))
  | _ => False
  end.

(** Events of the script task. *)
Definition scriptEvent (o : options) (ev : event) : Prop :=
  match ev with
  | EScan dir ext _ => dir = srcDir o /\ (ext = ".ts" \/ ext = ".js")
  | EExec f outDir _ =>
      under (srcDir o) f /\ endsWith (basename f) ".ts" = true /\
      outDir = distDir o
  | ERead f _ => under (srcDir o) f /\ endsWith (basename f) ".js" = true
  | EWrite p _ _ => exists n, p = join (distDir o) n /\ endsWith n ".js" = true
  | ELog (MTsCompiled fileName) => endsWith fileName ".js" = true
  | EError (MTsError f _) => under (srcDir o) f
  | _ => False
  end.

(** The watcher is started. *)
Definition isWatchOp {X} (o : op X) : bool :=
  match o with Watch _ => true | _ => false end.

Definition notWatchOp : forall X, op X -> bool := fun X o => negb (isWatchOp o).

Definition isWatchEvent (ev : event) : bool :=
  match ev with EWatch _ => true | _ => false end.

(** No watcher is started. *)
Definition unwatched (evs : list event) : Prop :=
  Forall (fun ev => isWatchEvent ev = false) evs.

(** The three roots the watcher is given. *)
Definition watchRoots (o : options) : list path :=
  [srcDir o; dataDir o; assetsDir o].

(** How an execution stands to the watcher: it started none, or it returned
    and the start of the watcher on the three roots is the last it did. *)
Definition watchFate (o : options) (x : outcome unit * world * list event)
  : Prop :=
  (unwatched (eventsOf x) /\ (outcomeOf x <> Done tt \/ dev o = false)) \/
  (outcomeOf x = Done tt /\ dev o = true /\
   exists pre,
     unwatched pre /\
     eventsOf x =
       (pre ++ [ELog MDevStart; ELog MDevWatching; EWatch (watchRoots o)])%list).

(** The error of the operation an event records, when it failed. *)
Definition failure (ev : event) : option error :=
  match ev with
  | EScan _ _ (Err e) | EReaddir _ (Err e) | ERead _ (Err e)
  | EWrite _ _ (Err e) | EMkdir _ (Err e) | ECopy _ _ (Err e)
  | ESass _ (Err e) | EExec _ _ (Err e) => Some e
  | _ => None
  end.

(** A program that catches nothing: when an operation fails, it throws the
    error of that operation and does nothing more. *)
Fixpoint failFast {A} (p : prog A) : Prop :=
  match p with
  | Vis o k =>
      forall x, match failure (record o x) with
                | Some e => k x = Throw e
                | None => failFast (k x)
                end
  | Ret _ => True
  | Throw _ | Exit _ => False
  end.

(** No operation failed. *)
Definition sound (evs : list event) : Prop :=
  Forall (fun ev => failure ev = None) evs.

(** ** Sample numbers

    Whole numbers, written out in decimal, for the numbers of a request
    body. *)
Definition isNought (n : N) : bool := (n =? 0)%N.

Definition wholeText (n : N) : jsstring :=
  lit (NilEmpty.string_of_uint (N.to_uint n)).

(** ** A second sample project *)

(** A project with data to copy and no assets. *)
Definition site : node :=
  Dir [("p",
        Dir [("src", Dir [("readme.txt", File (lit "notes"))]);
             ("data",
              Dir [("cv.json", File (lit "{}"));
                   ("i18n", Dir [("es.json", File (lit "{ }"))])]);
             ("dist", Dir [])])].

Definition siteStart : world := {| tree := site; time := 0%Z |}.

Definition siteData : path := ["p"; "data"].
Definition siteOut : path := ["p"; "dist"; "data"].


End MoreProps.

(* ================================================================== *)
(** * The replace engine *)
(* ================================================================== *)

Module JsFacts.
Import Js JsProps.

Lemma replaceGo_skip {m} (Hm : regular m) : forall k s,
  replaceGo m k s = replaceGo m 0 (skipn k s).
Proof.
  induction k as [|k IH]; intros s; [reflexivity|].
  destruct s as [|c s]; simpl.
  - destruct Hm as [H0 _]. now rewrite H0.
  - apply IH.
Qed.

Lemma replaceAll_nil {m} (Hm : regular m) : replaceAll m [] = [].
Proof. unfold replaceAll; simpl. destruct Hm as [H0 _]. now rewrite H0. Qed.

Lemma replaceAll_miss {m c s} :
  m (c :: s) = None -> replaceAll m (c :: s) = c :: replaceAll m s.
Proof. unfold replaceAll; simpl. now intros ->. Qed.

Lemma replaceAll_hit {m} (Hm : regular m) {s rep n} :
  m s = Some (rep, n) -> replaceAll m s = rep ++ replaceAll m (skipn n s).
Proof.
  intros H. pose proof (proj2 Hm _ _ _ H) as Hn.
  destruct s as [|c s]; [simpl in Hn; lia|].
  unfold replaceAll; simpl. rewrite H.
  destruct n as [|k]; [lia|].
  now rewrite (replaceGo_skip Hm).
Qed.

(** Induction along the walk of the engine over its subject. *)
Lemma replaceAll_ind {m} (Hm : regular m) (P : jsstring -> jsstring -> Prop) :
  P [] [] ->
  (forall c s, m (c :: s) = None ->
     P s (replaceAll m s) -> P (c :: s) (c :: replaceAll m s)) ->
  (forall s rep n, m s = Some (rep, n) ->
     P (skipn n s) (replaceAll m (skipn n s)) ->
     P s (rep ++ replaceAll m (skipn n s))) ->
  forall s, P s (replaceAll m s).
Proof.
  intros Hnil Hmiss Hhit s.
  remember (length s) as k eqn:Hk.
  revert s Hk. induction k as [k IH] using lt_wf_ind. intros s Hk.
  destruct s as [|c s].
  - rewrite (replaceAll_nil Hm). exact Hnil.
  - destruct (m (c :: s)) as [[rep n]|] eqn:E.
    + rewrite (replaceAll_hit Hm E). apply Hhit; [exact E|].
      pose proof (proj2 Hm _ _ _ E) as Hn.
      apply (IH (length (skipn n (c :: s)))); [|reflexivity].
      rewrite length_skipn. subst k. lia.
    + rewrite (replaceAll_miss E). apply Hmiss; [exact E|].
      apply (IH (length s)); [subst k; simpl; lia | reflexivity].
Qed.

Lemma wsRun_le s : wsRun s <= length s.
Proof. induction s as [|c s IH]; simpl; [lia|]. destruct (isSpace c); simpl; lia. Qed.

Lemma lineRun_le s : lineRun s <= length s.
Proof. induction s as [|c s IH]; simpl; [lia|]. destruct (isLineTerminator c); simpl; lia. Qed.

Lemma findClose_le s k : findClose s = Some k -> k + 2 <= length s.
Proof.
  revert k. induction s as [|a s IH]; intros k; simpl; [discriminate|].
  destruct s as [|b s']; [discriminate|].
  destruct ((a =? star) && (b =? slash))%N.
  - intros [= <-]. simpl. lia.
  - destruct (findClose (b :: s')) as [j|] eqn:E; simpl; [|discriminate].
    intros [= <-]. specialize (IH j eq_refl). simpl in *. lia.
Qed.

Lemma nth_error_lt (s : jsstring) n d : nth_error s n = Some d -> n < length s.
Proof. intros H. apply nth_error_Some. congruence. Qed.

Lemma regular_ws : regular re_ws.
Proof.
  split; [reflexivity|]. unfold re_ws. intros s rep n.
  pose proof (wsRun_le s). destruct (wsRun s) eqn:E; [discriminate|].
  intros [= <- <-]. lia.
Qed.

Lemma regular_gt_ws_lt : regular re_gt_ws_lt.
Proof.
  split; [reflexivity|]. unfold re_gt_ws_lt. intros [|c s] rep n; [discriminate|].
  destruct (c =? gt)%N; [|discriminate].
  destruct (wsRun s) eqn:E; [discriminate|].
  destruct (nth_error s (S n0)) as [d|] eqn:En; [|discriminate].
  destruct (d =? lt)%N; [|discriminate].
  intros [= <- <-]. apply nth_error_lt in En. simpl. lia.
Qed.

Lemma regular_ws_gt : regular re_ws_gt.
Proof.
  split; [reflexivity|]. unfold re_ws_gt. intros s rep n.
  destruct (wsRun s) eqn:E; [discriminate|].
  destruct (nth_error s (S n0)) as [d|] eqn:En; [|discriminate].
  destruct (d =? gt)%N; [|discriminate].
  intros [= <- <-]. apply nth_error_lt in En. lia.
Qed.

Lemma regular_lt_ws : regular re_lt_ws.
Proof.
  split; [reflexivity|]. unfold re_lt_ws. intros [|c s] rep n; [discriminate|].
  destruct (c =? lt)%N; [|discriminate].
  pose proof (wsRun_le s).
  destruct (wsRun s) eqn:E; [discriminate|].
  intros [= <- <-]. simpl. lia.
Qed.

Lemma regular_block_comment : regular re_block_comment.
Proof.
  split; [reflexivity|]. unfold re_block_comment.
  intros [|a [|b t]] rep n; try discriminate.
  destruct ((a =? slash) && (b =? star))%N; [|discriminate].
  destruct (findClose t) as [k|] eqn:E; [|discriminate].
  intros [= <- <-]. apply findClose_le in E. simpl. lia.
Qed.

Lemma regular_line_comment : regular re_line_comment.
Proof.
  split; [reflexivity|]. unfold re_line_comment.
  intros [|a [|b t]] rep n; try discriminate.
  destruct ((a =? slash) && (b =? slash))%N; [|discriminate].
  intros [= <- <-]. pose proof (lineRun_le t). simpl. lia.
Qed.

Lemma regular_semi_close : regular re_semi_close.
Proof.
  split; [reflexivity|]. unfold re_semi_close. intros [|c s] rep n; [discriminate|].
  destruct (c =? semi)%N; [|discriminate].
  destruct (nth_error s (wsRun s)) as [d|] eqn:En; [|discriminate].
  destruct (d =? rbrace)%N; [|discriminate].
  intros [= <- <-]. apply nth_error_lt in En. simpl. lia.
Qed.

Lemma regular_after x : regular (re_after x).
Proof.
  split; [reflexivity|]. unfold re_after. intros [|c s] rep n; [discriminate|].
  destruct (c =? x)%N; [|discriminate].
  intros [= <- <-]. pose proof (wsRun_le s). simpl. lia.
Qed.

Lemma regular_punct : regular re_punct.
Proof.
  split; [reflexivity|]. unfold re_punct. intros s rep n.
  pose proof (wsRun_le (skipn (S (wsRun s)) s)) as H.
  rewrite length_skipn in H.
  remember (wsRun (skipn (S (wsRun s)) s)) as r.
  destruct (nth_error s (wsRun s)) as [p|] eqn:En; [|discriminate].
  destruct (isPunct p); [|discriminate].
  intros [= <- <-]. apply nth_error_lt in En. lia.
Qed.

Create HintDb regex.

#[export] Hint Resolve regular_ws regular_gt_ws_lt regular_ws_gt regular_lt_ws
  regular_block_comment regular_line_comment regular_semi_close regular_after
  regular_punct : regex.


(** ** Byte length of the encoding *)

Lemma isHigh_spec c : isHigh c = true <-> (55296 <= c <= 56319)%N.
Proof. unfold isHigh. rewrite andb_true_iff, !N.leb_le. tauto. Qed.

Lemma isLow_spec c : isLow c = true <-> (56320 <= c <= 57343)%N.
Proof. unfold isLow. rewrite andb_true_iff, !N.leb_le. tauto. Qed.

Lemma plain_spec c : plain c = true <-> (c < 55296 \/ 57343 < c)%N.
Proof.
  unfold plain. rewrite andb_true_iff, !negb_true_iff.
  rewrite <- !not_true_iff_false, isHigh_spec, isLow_spec. lia.
Qed.

Lemma isSpace_spec c :
  isSpace c = true <->
  ((9 <= c <= 13) \/ c = 32 \/ c = 160 \/ c = 5760 \/ (8192 <= c <= 8202)
   \/ c = 8232 \/ c = 8233 \/ c = 8239 \/ c = 8287 \/ c = 12288 \/ c = 65279)%N.
Proof.
  unfold isSpace.
  rewrite !orb_true_iff, !andb_true_iff, !N.leb_le, !N.eqb_eq. tauto.
Qed.

Lemma isPunct_spec c :
  isPunct c = true <->
  (c = 123 \/ c = 125 \/ c = 40 \/ c = 41 \/ c = 59 \/ c = 44 \/ c = 58)%N.
Proof.
  unfold isPunct, lbrace, rbrace, lparen, rparen, semi, comma, colon.
  rewrite !orb_true_iff, !N.eqb_eq. tauto.
Qed.

Lemma isSpace_plain c : isSpace c = true -> plain c = true.
Proof. rewrite isSpace_spec, plain_spec. lia. Qed.

Lemma isPunct_ascii c : isPunct c = true -> (c < 128)%N.
Proof. rewrite isPunct_spec. lia. Qed.

Lemma isPunct_not_space c : isPunct c = true -> isSpace c = false.
Proof.
  intros H. apply not_true_iff_false. revert H.
  rewrite isPunct_spec, isSpace_spec. lia.
Qed.

Lemma ascii_plain c : (c < 128)%N -> plain c = true.
Proof. rewrite plain_spec. lia. Qed.

Lemma plain_not_high c : plain c = true -> isHigh c = false.
Proof. unfold plain. now intros [H _]%andb_prop%proj1%negb_true_iff || (intros H; apply andb_prop in H; destruct H as [H _]; now apply negb_true_iff in H). Qed.

Lemma plain_not_low c : plain c = true -> isLow c = false.
Proof. unfold plain. intros H. apply andb_prop in H. destruct H as [_ H]. now apply negb_true_iff in H. Qed.

Lemma unitBytes_pos c : 1 <= unitBytes c <= 3.
Proof.
  unfold unitBytes. destruct (c <? 128)%N, (c <? 2048)%N; lia.
Qed.

Lemma unitBytes_ascii c : (c < 128)%N -> unitBytes c = 1.
Proof. unfold unitBytes. intros H. apply N.ltb_lt in H. now rewrite H. Qed.

Lemma byteLength_low d s : isLow d = true -> byteLength (d :: s) = 3 + byteLength s.
Proof.
  intros H. pose proof (proj1 (isLow_spec d) H) as Hd. simpl.
  destruct (N.ltb_spec d 128); [lia|].
  destruct (N.ltb_spec d 2048); [lia|].
  destruct (isHigh d) eqn:E; [|reflexivity].
  apply isHigh_spec in E. lia.
Qed.

Lemma byteLength_cons c s :
  byteLength (c :: s) = unitBytes c + after (isHigh c) s.
Proof.
  unfold unitBytes, after. simpl.
  destruct (isHigh c) eqn:E.
  - pose proof (proj1 (isHigh_spec c) E) as Hc.
    destruct (N.ltb_spec c 128); [lia|].
    destruct (N.ltb_spec c 2048); [lia|].
    destruct s as [|d s']; simpl; [reflexivity|].
    destruct (isLow d) eqn:El; [|reflexivity].
    change (4 + byteLength s' = 3 + (byteLength (d :: s') - 2)).
    rewrite (byteLength_low _ _ El). lia.
  - simpl. destruct (c <? 128)%N; [reflexivity|].
    destruct (c <? 2048)%N; reflexivity.
Qed.

Lemma after_cons b c s :
  after b (c :: s) =
  (if b && isLow c then 1 else unitBytes c) + after (isHigh c) s.
Proof.
  unfold after at 1. cbn [lowHead].
  destruct (b && isLow c) eqn:E.
  - apply andb_prop in E. destruct E as [_ El].
    rewrite (byteLength_low _ _ El).
    assert (isHigh c = false) as ->.
    { apply not_true_iff_false. rewrite isHigh_spec.
      apply isLow_spec in El. lia. }
    unfold after. simpl. lia.
  - apply byteLength_cons.
Qed.

Lemma after_false s : after false s = byteLength s.
Proof. reflexivity. Qed.

Lemma after_true_le s : after true s <= after false s <= after true s + 2.
Proof.
  unfold after. simpl. destruct s as [|d s']; simpl lowHead; [lia|].
  destruct (isLow d) eqn:E; [|lia].
  rewrite (byteLength_low _ _ E). lia.
Qed.

Lemma after_le_false b s : after b s <= after false s.
Proof. destruct b; [apply after_true_le | lia]. Qed.

Lemma after_ge_true b s : after true s <= after b s.
Proof. destruct b; [lia | apply after_true_le]. Qed.

Lemma after_app_ge a : forall r h, after h a + after true r <= after h (a ++ r).
Proof.
  induction a as [|c a IH]; intros r h.
  - pose proof (after_ge_true h r) as H. simpl app.
    assert (after h [] = 0) as -> by (unfold after; destruct h; reflexivity).
    lia.
  - simpl app. rewrite !after_cons. specialize (IH r (isHigh c)). lia.
Qed.

Lemma length_le_after a : forall h, length a <= after h a.
Proof.
  induction a as [|c a IH]; intros h; [simpl; lia|].
  rewrite after_cons. specialize (IH (isHigh c)).
  pose proof (unitBytes_pos c). simpl. destruct (h && isLow c); lia.
Qed.

Lemma after_plain_app a : forall r b,
  a <> [] -> Forall (fun c => plain c = true) a ->
  after b (a ++ r) = byteLength a + after false r.
Proof.
  induction a as [|c a IH]; intros r b Hne Hall; [congruence|].
  inversion Hall as [|? ? Hc Ha]; subst.
  simpl app. rewrite after_cons, byteLength_cons.
  rewrite (plain_not_high _ Hc), (plain_not_low _ Hc), andb_false_r.
  destruct a as [|c' a'].
  - simpl. unfold after at 2. simpl. lia.
  - rewrite (IH r false); [|discriminate|assumption].
    change (after false (c' :: a')) with (byteLength (c' :: a')). lia.
Qed.

Lemma byteLength_ascii (a : jsstring) :
  Forall (fun c : char => (c < 128)%N) a -> byteLength a = length a.
Proof.
  induction 1 as [|c a Hc Ha IH]; [reflexivity|].
  rewrite byteLength_cons, (unitBytes_ascii _ Hc).
  rewrite (plain_not_high _ (ascii_plain _ Hc)).
  change (after false a) with (byteLength a). rewrite IH. reflexivity.
Qed.

Lemma replaceAll_after {m} (Hm : regular m) (Ht : thrifty m) :
  forall s b, after b (replaceAll m s) <= after b s.
Proof.
  intros s. pattern s, (replaceAll m s). apply (replaceAll_ind Hm); clear s.
  - intros b. lia.
  - intros c s _ IH b. rewrite !after_cons. specialize (IH (isHigh c)). lia.
  - intros s rep n E IH b. apply (Ht _ _ _ E). exact IH.
Qed.

Lemma tidy_thrifty {m} (Hm : regular m) : tidy m -> thrifty m.
Proof.
  intros Ht s rep n E b out Hout.
  destruct (Ht _ _ _ E) as (Hp & Ha & Hl).
  pose proof (proj2 Hm _ _ _ E) as Hn.
  rewrite <- (firstn_skipn n s) at 1.
  rewrite after_plain_app; [|destruct rep; [simpl in Hl; lia|discriminate]|].
  2:{ eapply Forall_impl; [|exact Ha]. intros a. apply ascii_plain. }
  rewrite after_plain_app; [| |exact Hp].
  2:{ intros H0. apply (f_equal (@length _)) in H0.
      rewrite length_firstn in H0. simpl in H0. lia. }
  rewrite (byteLength_ascii _ Ha).
  pose proof (length_le_after (firstn n s) false) as Hf.
  change (after false (firstn n s)) with (byteLength (firstn n s)) in Hf.
  rewrite length_firstn, Nat.min_l in Hf by lia.
  specialize (Hout false). lia.
Qed.

Lemma eraser_thrifty {m} (Hm : regular m) : eraser m -> thrifty m.
Proof.
  intros He s rep n E b out Hout.
  destruct (He _ _ _ E) as (-> & Hn & c & t & -> & Hc).
  pose proof (proj2 Hm _ _ _ E) as Hlen.
  simpl app.
  assert (Hs : after b (c :: t) = byteLength (c :: t)).
  { unfold after. simpl lowHead.
    rewrite (plain_not_low _ (ascii_plain _ Hc)), andb_false_r. reflexivity. }
  rewrite Hs. rewrite <- (firstn_skipn n (c :: t)) at 1.
  pose proof (after_app_ge (firstn n (c :: t)) (skipn n (c :: t)) false) as H1.
  pose proof (length_le_after (firstn n (c :: t)) false) as H2.
  rewrite length_firstn, Nat.min_l in H2 by lia.
  pose proof (after_true_le (skipn n (c :: t))) as H3.
  pose proof (after_le_false b (skipn n (c :: t))) as H4.
  specialize (Hout b).
  change (after false (firstn n (c :: t))) with (byteLength (firstn n (c :: t))) in *.
  change (after false (firstn n (c :: t) ++ skipn n (c :: t)))
    with (byteLength (firstn n (c :: t) ++ skipn n (c :: t))) in H1.
  lia.
Qed.


(** Shapes of the matched text. *)

Lemma wsRun_firstn s : Forall (fun c => isSpace c = true) (firstn (wsRun s) s).
Proof.
  induction s as [|c s IH]; simpl; [constructor|].
  destruct (isSpace c) eqn:E; simpl; [|constructor].
  constructor; assumption.
Qed.

Lemma wsRun_plain s : Forall (fun c => plain c = true) (firstn (wsRun s) s).
Proof.
  eapply Forall_impl; [|apply wsRun_firstn]. intros c. apply isSpace_plain.
Qed.

Lemma firstn_S_nth (s : jsstring) : forall k d,
  nth_error s k = Some d -> firstn (S k) s = firstn k s ++ [d].
Proof.
  induction s as [|c s IH]; intros [|k] d; simpl; try discriminate.
  - now intros [= ->].
  - intros H. f_equal. now apply IH.
Qed.

Lemma firstn_plus (s : jsstring) : forall a b,
  firstn (a + b) s = firstn a s ++ firstn b (skipn a s).
Proof.
  induction s as [|c s IH]; intros [|a] b; simpl;
    rewrite ?firstn_nil; try reflexivity.
  f_equal. apply IH.
Qed.

Lemma skipn_plus (s : jsstring) a b : skipn (a + b) s = skipn b (skipn a s).
Proof. rewrite skipn_skipn. f_equal. lia. Qed.

Ltac plain_char :=
  match goal with
  | |- plain ?c = true => apply plain_spec; cbv; left; reflexivity
  end.

Lemma tidy_ws : tidy re_ws.
Proof.
  unfold re_ws. intros s rep n.
  pose proof (wsRun_plain s) as Hp.
  destruct (wsRun s) as [|k] eqn:E; [discriminate|].
  intros [= <- <-]. repeat split; simpl; try lia; [exact Hp|].
  constructor; [reflexivity|constructor].
Qed.

Lemma tidy_gt_ws_lt : tidy re_gt_ws_lt.
Proof.
  unfold re_gt_ws_lt. intros [|c s] rep n; [discriminate|].
  destruct (N.eqb_spec c gt) as [->|]; [|discriminate].
  pose proof (wsRun_plain s) as Hp.
  destruct (wsRun s) as [|k] eqn:E; [discriminate|].
  destruct (nth_error s (S k)) as [d|] eqn:En; [|discriminate].
  destruct (N.eqb_spec d lt) as [->|]; [|discriminate].
  intros [= <- <-]. repeat split; simpl length; try lia.
  - change (firstn (S (S (S k))) (gt :: s)) with (gt :: firstn (S (S k)) s).
    rewrite (firstn_S_nth _ _ _ En). constructor; [plain_char|].
    apply Forall_app. split; [exact Hp|]. constructor; [plain_char|constructor].
  - repeat constructor.
Qed.

Lemma tidy_ws_gt : tidy re_ws_gt.
Proof.
  unfold re_ws_gt. intros s rep n.
  pose proof (wsRun_plain s) as Hp.
  destruct (wsRun s) as [|k] eqn:E; [discriminate|].
  destruct (nth_error s (S k)) as [d|] eqn:En; [|discriminate].
  destruct (N.eqb_spec d gt) as [->|]; [|discriminate].
  intros [= <- <-]. repeat split; simpl length; try lia.
  - rewrite (firstn_S_nth _ _ _ En).
    apply Forall_app. split; [exact Hp|]. constructor; [plain_char|constructor].
  - repeat constructor.
Qed.

Lemma tidy_lt_ws : tidy re_lt_ws.
Proof.
  unfold re_lt_ws. intros [|c s] rep n; [discriminate|].
  destruct (N.eqb_spec c lt) as [->|]; [|discriminate].
  pose proof (wsRun_plain s) as Hp.
  destruct (wsRun s) as [|k] eqn:E; [discriminate|].
  intros [= <- <-]. repeat split; simpl length; try lia.
  - change (firstn (S (S k)) (lt :: s)) with (lt :: firstn (S k) s).
    constructor; [plain_char|exact Hp].
  - repeat constructor.
Qed.

Lemma tidy_semi_close : tidy re_semi_close.
Proof.
  unfold re_semi_close. intros [|c s] rep n; [discriminate|].
  destruct (N.eqb_spec c semi) as [->|]; [|discriminate].
  pose proof (wsRun_plain s) as Hp.
  destruct (nth_error s (wsRun s)) as [d|] eqn:En; [|discriminate].
  destruct (N.eqb_spec d rbrace) as [->|]; [|discriminate].
  intros [= <- <-]. repeat split; simpl length; try lia.
  - change (firstn (S (S (wsRun s))) (semi :: s))
      with (semi :: firstn (S (wsRun s)) s).
    rewrite (firstn_S_nth _ _ _ En). constructor; [plain_char|].
    apply Forall_app. split; [exact Hp|]. constructor; [plain_char|constructor].
  - repeat constructor.
Qed.

Lemma tidy_after x : (x < 128)%N -> tidy (re_after x).
Proof.
  intros Hx. unfold re_after. intros [|c s] rep n; [discriminate|].
  destruct (N.eqb_spec c x) as [->|]; [|discriminate].
  pose proof (wsRun_plain s) as Hp.
  intros [= <- <-]. repeat split; simpl length; try lia.
  - change (firstn (S (wsRun s)) (x :: s)) with (x :: firstn (wsRun s) s).
    constructor; [now apply ascii_plain|exact Hp].
  - constructor; [exact Hx|constructor].
Qed.

Lemma tidy_punct : tidy re_punct.
Proof.
  unfold re_punct. intros s rep n.
  pose proof (wsRun_plain s) as Hp.
  pose proof (wsRun_plain (skipn (S (wsRun s)) s)) as Hq.
  remember (skipn (S (wsRun s)) s) as r eqn:Hr.
  destruct (nth_error s (wsRun s)) as [p|] eqn:En; [|discriminate].
  destruct (isPunct p) eqn:Ep; [|discriminate].
  intros [= <- <-]. repeat split; simpl length; try lia.
  - replace (wsRun s + 1 + wsRun r) with (S (wsRun s) + wsRun r) by lia.
    rewrite firstn_plus, <- Hr, (firstn_S_nth _ _ _ En).
    apply Forall_app. split; [|exact Hq].
    apply Forall_app. split; [exact Hp|].
    constructor; [|constructor]. apply ascii_plain. now apply isPunct_ascii.
  - constructor; [now apply isPunct_ascii|constructor].
Qed.

Lemma eraser_block_comment : eraser re_block_comment.
Proof.
  unfold re_block_comment. intros [|a [|b t]] rep n; try discriminate.
  destruct (N.eqb_spec a slash) as [->|]; [|discriminate].
  destruct (b =? star)%N; [|discriminate]. simpl.
  destruct (findClose t) as [k|]; [|discriminate].
  intros [= <- <-]. repeat split; [lia|].
  exists slash, (b :: t). split; [reflexivity|]. reflexivity.
Qed.

Lemma eraser_line_comment : eraser re_line_comment.
Proof.
  unfold re_line_comment. intros [|a [|b t]] rep n; try discriminate.
  destruct (N.eqb_spec a slash) as [->|]; [|discriminate].
  destruct (b =? slash)%N; [|discriminate]. simpl.
  intros [= <- <-]. repeat split; [lia|].
  exists slash, (b :: t). split; reflexivity.
Qed.

Lemma byteLength_replaceAll {m} (Hm : regular m) (Ht : thrifty m) s :
  byteLength (replaceAll m s) <= byteLength s.
Proof. exact (replaceAll_after Hm Ht s false). Qed.

Lemma byteLength_app_le a r : byteLength a <= byteLength (a ++ r).
Proof.
  pose proof (after_app_ge a r false) as H.
  change (after false a) with (byteLength a) in H.
  change (after false (a ++ r)) with (byteLength (a ++ r)) in H. lia.
Qed.

Lemma byteLength_trimStart s : byteLength (trimStart s) <= byteLength s.
Proof.
  unfold trimStart. pose proof (wsRun_plain s) as Hp.
  destruct (wsRun s) as [|k] eqn:E; [simpl; lia|].
  rewrite <- (firstn_skipn (S k) s) at 2.
  pose proof (after_plain_app (firstn (S k) s) (skipn (S k) s) false) as H.
  change (after false (firstn (S k) s ++ skipn (S k) s))
    with (byteLength (firstn (S k) s ++ skipn (S k) s)) in H.
  change (after false (skipn (S k) s)) with (byteLength (skipn (S k) s)) in H.
  rewrite H; [lia| |exact Hp].
  pose proof (wsRun_le s) as Hle. intros H0. apply (f_equal (@length _)) in H0.
  rewrite length_firstn in H0. simpl length in H0. lia.
Qed.

Lemma trimEnd_prefix s : exists w, s = trimEnd s ++ w.
Proof.
  unfold trimEnd, trimStart. exists (rev (firstn (wsRun (rev s)) (rev s))).
  rewrite <- rev_app_distr, firstn_skipn, rev_involutive. reflexivity.
Qed.

Lemma byteLength_trimEnd s : byteLength (trimEnd s) <= byteLength s.
Proof.
  destruct (trimEnd_prefix s) as [w Hw]. rewrite Hw at 2.
  apply byteLength_app_le.
Qed.

Lemma byteLength_trim s : byteLength (trim s) <= byteLength s.
Proof.
  unfold trim. etransitivity; [apply byteLength_trimEnd|apply byteLength_trimStart].
Qed.

#[export] Hint Resolve tidy_ws tidy_gt_ws_lt tidy_ws_gt tidy_lt_ws
  tidy_semi_close tidy_punct eraser_block_comment eraser_line_comment : regex.

Lemma byteLength_minifyHTML x : byteLength (minifyHTML x) <= byteLength x.
Proof.
  unfold minifyHTML.
  etransitivity; [apply byteLength_trim|].
  repeat (etransitivity;
          [apply byteLength_replaceAll;
           [auto with regex | apply tidy_thrifty; auto with regex]|]).
  reflexivity.
Qed.

Lemma byteLength_minifyCSS x : byteLength (minifyCSS x) <= byteLength x.
Proof.
  unfold minifyCSS.
  etransitivity; [apply byteLength_trim|].
  do 4 (etransitivity;
        [apply byteLength_replaceAll;
         [auto with regex
         | apply tidy_thrifty; [auto with regex|apply tidy_after; reflexivity]]|]).
  do 2 (etransitivity;
        [apply byteLength_replaceAll;
         [auto with regex | apply tidy_thrifty; auto with regex]|]).
  apply byteLength_replaceAll; [auto with regex|].
  apply eraser_thrifty; auto with regex.
Qed.

Lemma byteLength_minifyJS x : byteLength (minifyJS x) <= byteLength x.
Proof.
  unfold minifyJS.
  etransitivity; [apply byteLength_trim|].
  do 2 (etransitivity;
        [apply byteLength_replaceAll;
         [auto with regex | apply tidy_thrifty; auto with regex]|]).
  do 2 (etransitivity;
        [apply byteLength_replaceAll;
         [auto with regex | apply eraser_thrifty; auto with regex]|]).
  reflexivity.
Qed.


(** ** Strings in which white space is collapsed

    After [/\s+/g -> ' '] every white-space code unit is a single U+0020
    between two other code units (or at an end). The later passes of the
    minifiers only delete such spaces, each by looking at the code unit [p]
    before and the one after it. *)

Lemma collapsed_cons_space c s :
  collapsed (c :: s) = true -> isSpace c = true ->
  c = sp /\ headSpace s = false /\ collapsed s = true.
Proof.
  simpl. intros H Hc. rewrite Hc in H.
  apply andb_prop in H. destruct H as [H1 H2].
  apply andb_prop in H1. destruct H1 as [H1 H3].
  apply N.eqb_eq in H1. apply negb_true_iff in H3. auto.
Qed.

Lemma collapsed_tail c s : collapsed (c :: s) = true -> collapsed s = true.
Proof. simpl. intros H. apply andb_prop in H. tauto. Qed.

Lemma collapsed_skipn n : forall s, collapsed s = true -> collapsed (skipn n s) = true.
Proof.
  induction n as [|n IH]; intros s H; [exact H|].
  destruct s as [|c s]; [exact H|]. simpl. apply IH. eapply collapsed_tail, H.
Qed.

Lemma headSpace_false_cases s :
  headSpace s = false -> s = [] \/ exists c s', s = c :: s' /\ isSpace c = false.
Proof. destruct s as [|c s']; [auto|]. simpl. intros H. right. eauto. Qed.

Lemma wsRun_headSpace s : headSpace s = false -> wsRun s = 0.
Proof. destruct s as [|c s]; simpl; [reflexivity|]. now intros ->. Qed.

Lemma wsRun_collapsed c s :
  collapsed (c :: s) = true -> isSpace c = true -> wsRun (c :: s) = 1.
Proof.
  intros H Hc. destruct (collapsed_cons_space _ _ H Hc) as (_ & Hs & _).
  simpl. rewrite Hc, (wsRun_headSpace _ Hs). reflexivity.
Qed.

Lemma headSpace_skipn_wsRun s : headSpace (skipn (wsRun s) s) = false.
Proof.
  induction s as [|c s IH]; [reflexivity|]. simpl.
  destruct (isSpace c) eqn:E; simpl; [exact IH|exact E].
Qed.

Lemma del_head sel p s :
  headSpace s = false -> hd_error (del sel p s) = hd_error s.
Proof. destruct s as [|c s]; simpl; [reflexivity|]. now intros ->. Qed.

Lemma del_headSpace sel p s :
  collapsed s = true -> headSpace s = false -> headSpace (del sel p s) = false.
Proof. destruct s as [|c s]; simpl; [reflexivity|]. intros _ E. now rewrite E. Qed.

Lemma del_collapsed sel : forall s p,
  collapsed s = true -> collapsed (del sel p s) = true.
Proof.
  induction s as [|c s IH]; intros p H; [reflexivity|].
  simpl. destruct (isSpace c) eqn:Ec.
  - destruct (collapsed_cons_space _ _ H Ec) as (-> & Hs & Hc).
    destruct (sel p (hd_error s)); [now apply IH|].
    simpl. rewrite (del_headSpace sel p s Hc Hs), (IH p Hc). reflexivity.
  - simpl. rewrite Ec. apply IH. eapply collapsed_tail, H.
Qed.

Lemma nf_fixed sel : forall s p, nf sel p s = true -> del sel p s = s.
Proof.
  induction s as [|c s IH]; intros p H; [reflexivity|].
  simpl in *. destruct (isSpace c).
  - apply andb_prop in H. destruct H as [H1 H2].
    apply negb_true_iff in H1. rewrite H1. f_equal. now apply IH.
  - f_equal. now apply IH.
Qed.

Lemma del_nf sel : forall s p,
  collapsed s = true -> nf sel p (del sel p s) = true.
Proof.
  induction s as [|c s IH]; intros p H; [reflexivity|].
  simpl. destruct (isSpace c) eqn:Ec.
  - destruct (collapsed_cons_space _ _ H Ec) as (-> & Hs & Hc).
    destruct (sel p (hd_error s)) eqn:Es; [now apply IH|].
    simpl. rewrite (del_head sel p s Hs), Es. simpl. now apply IH.
  - simpl. rewrite Ec. apply IH. eapply collapsed_tail, H.
Qed.

Lemma del_keeps_nf sel sel' : forall s p,
  collapsed s = true -> nf sel' p s = true -> nf sel' p (del sel p s) = true.
Proof.
  induction s as [|c s IH]; intros p H Hn; [reflexivity|].
  simpl in Hn |- *. destruct (isSpace c) eqn:Ec.
  - destruct (collapsed_cons_space _ _ H Ec) as (-> & Hs & Hc).
    apply andb_prop in Hn. destruct Hn as [Hn1 Hn2].
    destruct (sel p (hd_error s)); [now apply IH|].
    simpl. rewrite (del_head sel p s Hs), Hn1. simpl. now apply IH.
  - simpl. rewrite Ec. apply IH; [|exact Hn]. eapply collapsed_tail, H.
Qed.

(** The first pass leaves a collapsed string, and leaves such a string as it
    is. *)

Lemma replace_ws_collapsed s :
  collapsed (replaceAll re_ws s) = true /\
  headSpace (replaceAll re_ws s) = headSpace s.
Proof.
  pattern s, (replaceAll re_ws s). apply (replaceAll_ind regular_ws); clear s.
  - split; reflexivity.
  - intros c s E [IH1 IH2]. unfold re_ws in E. simpl in E.
    destruct (isSpace c) eqn:Ec; [discriminate|].
    simpl. rewrite Ec, IH1. split; reflexivity.
  - intros s rep n E [IH1 IH2]. unfold re_ws in E.
    destruct (wsRun s) as [|k] eqn:Ek; [discriminate|].
    injection E as <- <-. rewrite <- Ek in *.
    rewrite headSpace_skipn_wsRun in IH2.
    simpl. rewrite IH2, IH1. split; [reflexivity|].
    destruct s as [|c s]; [discriminate|]. simpl in *.
    destruct (isSpace c); [reflexivity|discriminate].
Qed.

Lemma collapsed_fixed : forall s,
  collapsed s = true -> replaceAll re_ws s = s.
Proof.
  induction s as [|c s IH]; intros H; [apply replaceAll_nil, regular_ws|].
  destruct (isSpace c) eqn:Ec.
  - destruct (collapsed_cons_space _ _ H Ec) as (-> & Hs & Hc).
    rewrite (@replaceAll_hit _ regular_ws _ [sp] 1).
    + simpl. f_equal. now apply IH.
    + unfold re_ws. now rewrite (wsRun_collapsed _ _ H Ec).
  - rewrite replaceAll_miss.
    + f_equal. apply IH. eapply collapsed_tail, H.
    + unfold re_ws. simpl. now rewrite Ec.
Qed.


(** Induction over a collapsed string: a code unit that is not a space, or one
    space followed by a string that does not start with a space. *)
Lemma collapsed_ind (Q : jsstring -> Prop) :
  Q [] ->
  (forall c s, isSpace c = false -> collapsed s = true ->
     (forall t, length t <= length s -> collapsed t = true -> Q t) ->
     Q (c :: s)) ->
  (forall s, headSpace s = false -> collapsed s = true ->
     (forall t, length t <= length s -> collapsed t = true -> Q t) ->
     Q (sp :: s)) ->
  forall s, collapsed s = true -> Q s.
Proof.
  intros Hnil Hchar Hsp s.
  remember (length s) as k eqn:Hk. revert s Hk.
  induction k as [k IH] using lt_wf_ind. intros s Hk H.
  destruct s as [|c s]; [exact Hnil|].
  assert (Hrec : forall t, length t <= length s -> collapsed t = true -> Q t).
  { intros t Ht Hc. apply (IH (length t)); [subst k; simpl; lia|reflexivity|exact Hc]. }
  destruct (isSpace c) eqn:Ec.
  - destruct (collapsed_cons_space _ _ H Ec) as (-> & Hs & Hc).
    now apply Hsp.
  - apply Hchar; [exact Ec| |exact Hrec]. eapply collapsed_tail, H.
Qed.

Lemma isSpace_sp : isSpace sp = true.
Proof. reflexivity. Qed.

Lemma wsRun_sp s : headSpace s = false -> wsRun (sp :: s) = 1.
Proof. intros H. simpl. now rewrite (wsRun_headSpace _ H). Qed.

Lemma del_char sel p c s :
  isSpace c = false -> del sel p (c :: s) = c :: del sel (Some c) s.
Proof. simpl. now intros ->. Qed.

Lemma del_sp sel p s :
  del sel p (sp :: s) =
  if sel p (hd_error s) then del sel p s else sp :: del sel p s.
Proof. reflexivity. Qed.

(** After a space is gone, the next code unit is not a space: the context [p]
    no longer matters. *)
Lemma del_context sel p q s :
  headSpace s = false -> del sel p s = del sel q s.
Proof. destruct s as [|c s]; simpl; [reflexivity|]. now intros ->. Qed.

(** [/\s+>/g -> '>'] *)
Lemma replace_ws_gt_del : forall s, collapsed s = true ->
  forall p, replaceAll re_ws_gt s = del sel_before_gt p s.
Proof.
  apply (collapsed_ind (fun s => forall p, replaceAll re_ws_gt s = del sel_before_gt p s)).
  - intros p. apply replaceAll_nil, regular_ws_gt.
  - intros c s Ec Hc IH p.
    rewrite replaceAll_miss, (del_char _ _ _ _ Ec).
    + f_equal. now apply IH.
    + unfold re_ws_gt. simpl. now rewrite Ec.
  - intros s Hs Hc IH p. rewrite del_sp.
    destruct s as [|d s'].
    + rewrite replaceAll_miss; [|reflexivity]. reflexivity.
    + simpl in Hs. unfold sel_before_gt. simpl hd_error. simpl isC.
      destruct (d =? gt)%N eqn:Ed.
      * rewrite (@replaceAll_hit _ regular_ws_gt _ [gt] 2).
        2:{ unfold re_ws_gt. rewrite (wsRun_sp (d :: s')) by exact Hs.
            simpl. now rewrite Ed. }
        simpl skipn. rewrite (del_char _ _ _ _ Hs).
        apply N.eqb_eq in Ed. subst d. simpl. f_equal.
        apply IH; [simpl; lia|]. eapply collapsed_tail, Hc.
      * rewrite replaceAll_miss.
        2:{ unfold re_ws_gt. rewrite (wsRun_sp (d :: s')) by exact Hs.
            simpl. now rewrite Ed. }
        f_equal. now apply IH.
Qed.

(** [/x\s*/g -> x] for a character [x] that is not a space; [/<\s+/g -> '<'] is
    the same function. *)
Lemma replace_after_del x (Hx : isSpace x = false) : forall s, collapsed s = true ->
  forall p, (isC x p = true -> headSpace s = false) ->
  replaceAll (re_after x) s = del (sel_after x) p s.
Proof.
  apply (collapsed_ind (fun s => forall p, (isC x p = true -> headSpace s = false) ->
           replaceAll (re_after x) s = del (sel_after x) p s)).
  - intros p _. apply replaceAll_nil, regular_after.
  - intros c s Ec Hc IH p _. rewrite (del_char _ _ _ _ Ec).
    destruct (c =? x)%N eqn:Ecx.
    + rewrite (@replaceAll_hit _ (regular_after x) _ [x] (S (wsRun s))).
      2:{ unfold re_after. now rewrite Ecx. }
      apply N.eqb_eq in Ecx. subst c. simpl app. simpl skipn. f_equal.
      destruct (headSpace s) eqn:Hs.
      * destruct s as [|d s']; [discriminate|]. simpl in Hs.
        destruct (collapsed_cons_space _ _ Hc Hs) as (-> & Hs' & Hc').
        rewrite (wsRun_sp _ Hs'). simpl skipn. rewrite del_sp.
        unfold sel_after at 1. simpl isC. rewrite N.eqb_refl.
        apply IH; [simpl; lia|exact Hc'|]. intros _. exact Hs'.
      * rewrite (wsRun_headSpace _ Hs). simpl skipn.
        apply IH; [lia|exact Hc|]. intros _. exact Hs.
    + rewrite replaceAll_miss.
      2:{ unfold re_after. now rewrite Ecx. }
      f_equal. apply IH; [lia|exact Hc|]. simpl. rewrite Ecx. discriminate.
  - intros s Hs Hc IH p Hp. rewrite del_sp.
    assert (Ep : isC x p = false).
    { destruct (isC x p); [|reflexivity]. specialize (Hp eq_refl). discriminate. }
    unfold sel_after at 1. rewrite Ep.
    rewrite replaceAll_miss.
    2:{ unfold re_after. destruct (N.eqb_spec sp x) as [<-|]; [|reflexivity].
        discriminate. }
    f_equal. apply IH; [lia|exact Hc|]. intros _. exact Hs.
Qed.

Lemma re_lt_ws_after s : collapsed s = true ->
  replaceAll re_lt_ws s = replaceAll (re_after lt) s.
Proof.
  revert s.
  apply (collapsed_ind (fun s => replaceAll re_lt_ws s = replaceAll (re_after lt) s)).
  - now rewrite !replaceAll_nil by auto with regex.
  - intros c s Ec Hc IH. destruct (c =? lt)%N eqn:Ecx.
    + rewrite (@replaceAll_hit _ (regular_after lt) _ [lt] (S (wsRun s)))
        by (unfold re_after; now rewrite Ecx).
      destruct (wsRun s) as [|k] eqn:Ek.
      * rewrite replaceAll_miss by (unfold re_lt_ws; now rewrite Ecx, Ek).
        apply N.eqb_eq in Ecx. subst c. simpl. f_equal. now apply IH.
      * rewrite (@replaceAll_hit _ regular_lt_ws _ [lt] (S (S k)))
          by (unfold re_lt_ws; now rewrite Ecx, Ek).
        change (skipn (S (S k)) (c :: s)) with (skipn (S k) s).
        f_equal. apply IH; [|now apply collapsed_skipn].
        rewrite length_skipn. lia.
    + rewrite !replaceAll_miss; [f_equal; now apply IH| |].
      * unfold re_after. now rewrite Ecx.
      * unfold re_lt_ws. now rewrite Ecx.
  - intros s Hs Hc IH. rewrite !replaceAll_miss; [f_equal; now apply IH| |];
      reflexivity.
Qed.


(** [/>\s+</g -> '><'] *)
Lemma replace_gt_ws_lt_del : forall s, collapsed s = true ->
  forall p, (sel_gt_lt p (hd_error (tl s)) = true -> headSpace s = false) ->
  replaceAll re_gt_ws_lt s = del sel_gt_lt p s.
Proof.
  apply (collapsed_ind (fun s => forall p,
           (sel_gt_lt p (hd_error (tl s)) = true -> headSpace s = false) ->
           replaceAll re_gt_ws_lt s = del sel_gt_lt p s)).
  - intros p _. apply replaceAll_nil, regular_gt_ws_lt.
  - intros c s Ec Hc IH p _. rewrite (del_char _ _ _ _ Ec).
    destruct (c =? gt)%N eqn:Ecx.
    + destruct (headSpace s) eqn:Hs.
      * destruct s as [|d s']; [discriminate|]. simpl in Hs.
        destruct (collapsed_cons_space _ _ Hc Hs) as (-> & Hs' & Hc').
        rewrite del_sp.
        destruct s' as [|e s''].
        { rewrite replaceAll_miss by (unfold re_gt_ws_lt; now rewrite Ecx).
          f_equal. rewrite replaceAll_miss by reflexivity.
          unfold sel_gt_lt. simpl. now rewrite andb_false_r. }
        simpl hd_error. unfold sel_gt_lt at 1. simpl isC. rewrite Ecx. simpl andb.
        destruct (e =? lt)%N eqn:Ee.
        { rewrite (@replaceAll_hit _ regular_gt_ws_lt _ [gt; lt] 3).
          2:{ unfold re_gt_ws_lt. rewrite Ecx, (wsRun_sp _ Hs'). simpl.
              now rewrite Ee. }
          simpl in Hs'. rewrite (del_char _ _ _ _ Hs').
          apply N.eqb_eq in Ecx, Ee. subst c e. simpl. do 2 f_equal.
          apply IH; [simpl; lia|eapply collapsed_tail, Hc'|].
          unfold sel_gt_lt. simpl. discriminate. }
        { rewrite replaceAll_miss.
          2:{ unfold re_gt_ws_lt. rewrite Ecx, (wsRun_sp _ Hs'). simpl.
              now rewrite Ee. }
          f_equal.
          rewrite (IH (sp :: e :: s'') (Nat.le_refl _) Hc (Some c)).
          - rewrite del_sp. unfold sel_gt_lt at 1. simpl. now rewrite Ecx, Ee.
          - unfold sel_gt_lt. simpl. rewrite Ecx, Ee. discriminate. }
      * rewrite replaceAll_miss.
        2:{ unfold re_gt_ws_lt. now rewrite Ecx, (wsRun_headSpace _ Hs). }
        f_equal. apply IH; [lia|exact Hc|]. intros _. exact Hs.
    + rewrite replaceAll_miss by (unfold re_gt_ws_lt; now rewrite Ecx).
      f_equal. apply IH; [lia|exact Hc|].
      unfold sel_gt_lt. simpl. rewrite Ecx. discriminate.
  - intros s Hs Hc IH p Hp. rewrite del_sp.
    assert (Ep : sel_gt_lt p (hd_error s) = false).
    { destruct (sel_gt_lt p (hd_error s)) eqn:E; [|reflexivity].
      specialize (Hp E). discriminate. }
    rewrite Ep. rewrite replaceAll_miss by reflexivity.
    f_equal. apply IH; [lia|exact Hc|]. intros _. exact Hs.
Qed.

(** [/\s*([{}();,:])\s*/g -> '$1'] *)
Lemma replace_punct_cont (L : nat)
  (IH : forall t, length t <= L -> collapsed t = true ->
        forall p, (isPunctO p = true -> headSpace t = false) ->
        replaceAll re_punct t = del sel_punct p t) d t :
  isPunct d = true -> collapsed t = true -> length t <= L ->
  replaceAll re_punct (skipn (wsRun t) t) = del sel_punct (Some d) t.
Proof.
  intros Hd Hc Hl. destruct (headSpace t) eqn:Hs.
  - destruct t as [|e t']; [discriminate|]. simpl in Hs.
    destruct (collapsed_cons_space _ _ Hc Hs) as (-> & Hs' & Hc').
    rewrite (wsRun_sp _ Hs'), del_sp. simpl skipn.
    unfold sel_punct at 1. simpl isPunctO. rewrite Hd. simpl orb.
    apply IH; [simpl in Hl; lia|exact Hc'|]. intros _. exact Hs'.
  - rewrite (wsRun_headSpace _ Hs). simpl skipn.
    apply IH; [exact Hl|exact Hc|]. intros _. exact Hs.
Qed.

Lemma replace_punct_del : forall s, collapsed s = true ->
  forall p, (isPunctO p = true -> headSpace s = false) ->
  replaceAll re_punct s = del sel_punct p s.
Proof.
  apply (collapsed_ind (fun s => forall p,
           (isPunctO p = true -> headSpace s = false) ->
           replaceAll re_punct s = del sel_punct p s)).
  - intros p _. apply replaceAll_nil, regular_punct.
  - intros c s Ec Hc IH p _. rewrite (del_char _ _ _ _ Ec).
    destruct (isPunct c) eqn:Ep.
    + rewrite (@replaceAll_hit _ regular_punct _ [c] (0 + 1 + wsRun s)).
      2:{ unfold re_punct. simpl. rewrite Ec. simpl. now rewrite Ep. }
      simpl. f_equal. now apply (replace_punct_cont (length s)).
    + rewrite replaceAll_miss.
      2:{ unfold re_punct. simpl. rewrite Ec. simpl. now rewrite Ep. }
      f_equal. apply IH; [lia|exact Hc|]. simpl. rewrite Ep. discriminate.
  - intros s Hs Hc IH p Hp. rewrite del_sp.
    assert (Ep : isPunctO p = false).
    { destruct (isPunctO p); [|reflexivity]. specialize (Hp eq_refl). discriminate. }
    unfold sel_punct at 1. rewrite Ep. simpl orb.
    destruct s as [|d s'].
    + rewrite replaceAll_miss by reflexivity. reflexivity.
    + simpl in Hs. simpl hd_error. simpl isPunctO.
      destruct (isPunct d) eqn:Ed.
      * rewrite (@replaceAll_hit _ regular_punct _ [d] (1 + 1 + wsRun s')).
        2:{ unfold re_punct. rewrite (wsRun_sp (d :: s')) by exact Hs.
            simpl. now rewrite Ed. }
        rewrite (del_char _ _ _ _ Hs). simpl. f_equal.
        apply (replace_punct_cont (length (d :: s'))); auto.
        -- eapply collapsed_tail, Hc.
        -- simpl. lia.
      * rewrite replaceAll_miss.
        2:{ unfold re_punct. rewrite (wsRun_sp (d :: s')) by exact Hs.
            simpl. now rewrite Ed. }
        f_equal. apply IH; [lia|exact Hc|]. intros _. exact Hs.
Qed.


(** ** [trim] *)

Lemma trimStart_headSpace s : headSpace (trimStart s) = false.
Proof. apply headSpace_skipn_wsRun. Qed.

Lemma trimStart_fixed s : headSpace s = false -> trimStart s = s.
Proof. intros H. unfold trimStart. now rewrite (wsRun_headSpace _ H). Qed.

Lemma trimStart_cons c s :
  trimStart (c :: s) = if isSpace c then trimStart s else c :: s.
Proof. unfold trimStart. simpl. destruct (isSpace c); reflexivity. Qed.

Lemma trimStart_all s : forallb isSpace s = true -> trimStart s = [].
Proof.
  induction s as [|c s IH]; [reflexivity|]. simpl. intros H.
  apply andb_prop in H. destruct H as [Hc Hs].
  rewrite trimStart_cons, Hc. now apply IH.
Qed.

Lemma trimStart_app a b :
  trimStart (a ++ b) = if forallb isSpace a then trimStart b else trimStart a ++ b.
Proof.
  induction a as [|c a IH]; [reflexivity|]. simpl.
  rewrite !trimStart_cons. destruct (isSpace c); [exact IH|reflexivity].
Qed.

Lemma forallb_rev (f : char -> bool) s : forallb f (rev s) = forallb f s.
Proof.
  induction s as [|c s IH]; [reflexivity|]. simpl.
  rewrite forallb_app, IH. simpl. rewrite andb_true_r. apply andb_comm.
Qed.

(** [trimEnd], by recursion from the front. *)
Lemma trimEnd_cons c s :
  trimEnd (c :: s) = if forallb isSpace (c :: s) then [] else c :: trimEnd s.
Proof.
  unfold trimEnd. simpl rev. rewrite trimStart_app, forallb_rev. simpl forallb.
  destruct (forallb isSpace s) eqn:Es.
  - rewrite trimStart_cons. destruct (isSpace c); simpl; [reflexivity|].
    now rewrite trimStart_all by now rewrite forallb_rev.
  - rewrite andb_false_r, rev_app_distr. reflexivity.
Qed.

Lemma trimEnd_nil : trimEnd [] = [].
Proof. reflexivity. Qed.

Lemma trimEnd_headSpace s : headSpace s = false -> headSpace (trimEnd s) = false.
Proof.
  destruct s as [|c s]; [reflexivity|]. rewrite trimEnd_cons. simpl.
  intros E. rewrite E. simpl. exact E.
Qed.

Lemma trimEnd_head s :
  headSpace s = false -> forallb isSpace s = false ->
  hd_error (trimEnd s) = hd_error s.
Proof.
  destruct s as [|c s]; [reflexivity|]. rewrite trimEnd_cons. intros _ ->.
  reflexivity.
Qed.

Lemma trimStart_idem s : trimStart (trimStart s) = trimStart s.
Proof. apply trimStart_fixed, trimStart_headSpace. Qed.

Lemma trimEnd_idem s : trimEnd (trimEnd s) = trimEnd s.
Proof. unfold trimEnd. now rewrite rev_involutive, trimStart_idem. Qed.

Lemma trim_idem s : trim (trim s) = trim s.
Proof.
  unfold trim.
  rewrite (trimStart_fixed (trimEnd (trimStart s)))
    by apply trimEnd_headSpace, trimStart_headSpace.
  apply trimEnd_idem.
Qed.

Lemma trimStart_collapsed : forall s, collapsed s = true -> collapsed (trimStart s) = true.
Proof. intros s H. unfold trimStart. now apply collapsed_skipn. Qed.

Lemma forallb_space_head s :
  headSpace s = false -> s <> [] -> forallb isSpace s = false.
Proof. destruct s as [|c s]; [congruence|]. simpl. now intros ->. Qed.

Lemma trimEnd_collapsed : forall s, collapsed s = true -> collapsed (trimEnd s) = true.
Proof.
  induction s as [|c s IH]; intros H; [reflexivity|].
  rewrite trimEnd_cons. destruct (forallb isSpace (c :: s)) eqn:Ea; [reflexivity|].
  simpl. destruct (isSpace c) eqn:Ec.
  - destruct (collapsed_cons_space _ _ H Ec) as (-> & Hs & Hc).
    rewrite (trimEnd_headSpace _ Hs), (IH Hc). reflexivity.
  - apply IH. eapply collapsed_tail, H.
Qed.

Lemma trimStart_nf sel p : forall s, nf sel p s = true -> nf sel p (trimStart s) = true.
Proof.
  induction s as [|c s IH]; intros H; [reflexivity|].
  rewrite trimStart_cons. simpl in H. destruct (isSpace c) eqn:Ec.
  - apply andb_prop in H. now apply IH.
  - simpl. now rewrite Ec.
Qed.

Lemma trimEnd_nf sel : forall s p,
  collapsed s = true -> nf sel p s = true -> nf sel p (trimEnd s) = true.
Proof.
  induction s as [|c s IH]; intros p H Hn; [reflexivity|].
  rewrite trimEnd_cons. destruct (forallb isSpace (c :: s)) eqn:Ea; [reflexivity|].
  simpl in Hn |- *. destruct (isSpace c) eqn:Ec.
  - destruct (collapsed_cons_space _ _ H Ec) as (-> & Hs & Hc).
    apply andb_prop in Hn. destruct Hn as [Hn1 Hn2].
    simpl in Ea. rewrite (trimEnd_head _ Hs Ea), Hn1. simpl. now apply IH.
  - apply IH; [|exact Hn]. eapply collapsed_tail, H.
Qed.

Lemma trim_collapsed s : collapsed s = true -> collapsed (trim s) = true.
Proof. intros H. apply trimEnd_collapsed, trimStart_collapsed, H. Qed.

Lemma trim_nf sel p s :
  collapsed s = true -> nf sel p s = true -> nf sel p (trim s) = true.
Proof.
  intros H Hn. apply trimEnd_nf; [now apply trimStart_collapsed|].
  now apply trimStart_nf.
Qed.

(** ** minifyHTML reaches a fixed point *)

Lemma isSpace_lt : isSpace lt = false.
Proof. reflexivity. Qed.

Lemma minifyHTML_del x :
  minifyHTML x =
  trim (del (sel_after lt) None
          (del sel_before_gt None
             (del sel_gt_lt None (replaceAll re_ws x)))).
Proof.
  unfold minifyHTML.
  destruct (replace_ws_collapsed x) as [H1 _].
  rewrite (replace_gt_ws_lt_del _ H1 None) by (unfold sel_gt_lt; discriminate).
  pose proof (del_collapsed sel_gt_lt _ None H1) as H2.
  rewrite (replace_ws_gt_del _ H2 None).
  pose proof (del_collapsed sel_before_gt _ None H2) as H3.
  rewrite (re_lt_ws_after _ H3).
  rewrite (replace_after_del lt isSpace_lt _ H3 None) by discriminate.
  reflexivity.
Qed.

Lemma minifyHTML_normal x : htmlNormal (minifyHTML x).
Proof.
  rewrite minifyHTML_del.
  destruct (replace_ws_collapsed x) as [H1 _].
  pose proof (del_collapsed sel_gt_lt _ None H1) as H2.
  pose proof (del_collapsed sel_before_gt _ None H2) as H3.
  pose proof (del_collapsed (sel_after lt) _ None H3) as H4.
  pose proof (del_nf sel_gt_lt _ None H1) as N1.
  pose proof (del_keeps_nf sel_before_gt sel_gt_lt _ None H2 N1) as N1'.
  pose proof (del_keeps_nf (sel_after lt) sel_gt_lt _ None H3 N1') as N1''.
  pose proof (del_nf sel_before_gt _ None H2) as N2.
  pose proof (del_keeps_nf (sel_after lt) sel_before_gt _ None H3 N2) as N2'.
  pose proof (del_nf (sel_after lt) _ None H3) as N3.
  repeat split.
  - now apply trim_collapsed.
  - now apply trim_nf.
  - now apply trim_nf.
  - now apply trim_nf.
  - apply trim_idem.
Qed.

Lemma htmlNormal_fixed s : htmlNormal s -> minifyHTML s = s.
Proof.
  intros (Hc & N1 & N2 & N3 & Ht).
  rewrite minifyHTML_del, (collapsed_fixed _ Hc).
  rewrite (nf_fixed _ _ _ N1), (nf_fixed _ _ _ N2), (nf_fixed _ _ _ N3).
  exact Ht.
Qed.

Lemma minifyHTML_idempotent x : minifyHTML (minifyHTML x) = minifyHTML x.
Proof. apply htmlNormal_fixed, minifyHTML_normal. Qed.


(** ** Occurrences of a pattern, and code-unit lengths *)

Lemma occurs_false_fixed {m} (Hm : regular m) : forall s,
  occurs m s = false -> replaceAll m s = s.
Proof.
  induction s as [|c s IH]; intros H; [now apply replaceAll_nil|].
  simpl in H. destruct (m (c :: s)) eqn:E; [discriminate|].
  rewrite (replaceAll_miss E). f_equal. now apply IH.
Qed.

Lemma strict_contracting m : strict m -> contracting m.
Proof. intros H s rep n E. specialize (H _ _ _ E). lia. Qed.

Lemma tidy_contracting m : tidy m -> contracting m.
Proof. intros H s rep n E. destruct (H _ _ _ E) as (_ & _ & Hl). lia. Qed.

Lemma eraser_strict m : eraser m -> strict m.
Proof. intros H s rep n E. destruct (H _ _ _ E) as (-> & Hn & _). simpl. lia. Qed.

Lemma strict_semi_close : strict re_semi_close.
Proof.
  unfold re_semi_close. intros [|c s] rep n; [discriminate|].
  destruct (c =? semi)%N; [|discriminate].
  destruct (nth_error s (wsRun s)) as [d|]; [|discriminate].
  destruct (d =? rbrace)%N; [|discriminate].
  intros [= <- <-]. simpl. lia.
Qed.

Lemma length_replaceAll {m} (Hm : regular m) (Hc : contracting m) s :
  length (replaceAll m s) <= length s.
Proof.
  pattern s, (replaceAll m s). apply (replaceAll_ind Hm); clear s.
  - lia.
  - intros c s _ IH. simpl. lia.
  - intros s rep n E IH. pose proof (Hc _ _ _ E). pose proof (proj2 Hm _ _ _ E).
    rewrite length_app. rewrite length_skipn in IH. lia.
Qed.

Lemma length_replaceAll_lt {m} (Hm : regular m) (Hs : strict m) s :
  occurs m s = true -> length (replaceAll m s) < length s.
Proof.
  pattern s, (replaceAll m s). apply (replaceAll_ind Hm); clear s.
  - discriminate.
  - intros c s E IH. simpl. rewrite E. intros H. specialize (IH H). lia.
  - intros s rep n E _ _. pose proof (Hs _ _ _ E). pose proof (proj2 Hm _ _ _ E).
    pose proof (length_replaceAll Hm (strict_contracting _ Hs) (skipn n s)) as Hr.
    rewrite length_app. rewrite length_skipn in Hr. lia.
Qed.

Lemma length_trim s : length (trim s) <= length s.
Proof.
  unfold trim. destruct (trimEnd_prefix (trimStart s)) as [w Hw].
  assert (length (trimEnd (trimStart s)) <= length (trimStart s)).
  { rewrite Hw at 2. rewrite length_app. lia. }
  unfold trimStart in *. rewrite length_skipn in *. lia.
Qed.

(** ** minifyCSS *)

Lemma replace_semi_close_collapsed s :
  collapsed s = true ->
  collapsed (replaceAll re_semi_close s) = true /\
  headSpace (replaceAll re_semi_close s) = headSpace s.
Proof.
  pattern s, (replaceAll re_semi_close s).
  apply (replaceAll_ind regular_semi_close); clear s.
  - split; reflexivity.
  - intros c s E IH H.
    destruct (IH (collapsed_tail _ _ H)) as [IH1 IH2].
    split; [|reflexivity]. simpl. rewrite IH1, IH2, andb_true_r.
    simpl in H. apply andb_prop in H. tauto.
  - intros s rep n E IH H.
    destruct (IH (collapsed_skipn n _ H)) as [IH1 IH2].
    unfold re_semi_close in E. destruct s as [|c s]; [discriminate|].
    destruct (N.eqb_spec c semi) as [->|]; [|discriminate].
    destruct (nth_error s (wsRun s)) as [d|]; [|discriminate].
    destruct (d =? rbrace)%N; [|discriminate].
    injection E as <- <-. simpl app. split; [|reflexivity].
    change (collapsed (rbrace :: ?t)) with (collapsed t). exact IH1.
Qed.

Lemma minifyCSS_del x :
  minifyCSS x =
  trim (del (sel_after colon) None
          (del (sel_after comma) None
             (del (sel_after semi) None
                (del (sel_after lbrace) None
                   (replaceAll re_semi_close
                      (replaceAll re_ws (replaceAll re_block_comment x))))))).
Proof.
  unfold minifyCSS.
  destruct (replace_ws_collapsed (replaceAll re_block_comment x)) as [H1 _].
  destruct (replace_semi_close_collapsed _ H1) as [H2 _].
  rewrite (replace_after_del lbrace eq_refl _ H2 None) by discriminate.
  pose proof (del_collapsed (sel_after lbrace) _ None H2) as H3.
  rewrite (replace_after_del semi eq_refl _ H3 None) by discriminate.
  pose proof (del_collapsed (sel_after semi) _ None H3) as H4.
  rewrite (replace_after_del comma eq_refl _ H4 None) by discriminate.
  pose proof (del_collapsed (sel_after comma) _ None H4) as H5.
  rewrite (replace_after_del colon eq_refl _ H5 None) by discriminate.
  reflexivity.
Qed.

Lemma minifyCSS_normal x : cssNormal (minifyCSS x).
Proof.
  rewrite minifyCSS_del.
  destruct (replace_ws_collapsed (replaceAll re_block_comment x)) as [H1 _].
  destruct (replace_semi_close_collapsed _ H1) as [H2 _].
  pose proof (del_collapsed (sel_after lbrace) _ None H2) as H3.
  pose proof (del_collapsed (sel_after semi) _ None H3) as H4.
  pose proof (del_collapsed (sel_after comma) _ None H4) as H5.
  pose proof (del_collapsed (sel_after colon) _ None H5) as H6.
  pose proof (del_nf (sel_after lbrace) _ None H2) as N1.
  pose proof (del_keeps_nf (sel_after semi) (sel_after lbrace) _ None H3 N1) as N1a.
  pose proof (del_keeps_nf (sel_after comma) (sel_after lbrace) _ None H4 N1a) as N1b.
  pose proof (del_keeps_nf (sel_after colon) (sel_after lbrace) _ None H5 N1b) as N1c.
  pose proof (del_nf (sel_after semi) _ None H3) as N2.
  pose proof (del_keeps_nf (sel_after comma) (sel_after semi) _ None H4 N2) as N2a.
  pose proof (del_keeps_nf (sel_after colon) (sel_after semi) _ None H5 N2a) as N2b.
  pose proof (del_nf (sel_after comma) _ None H4) as N3.
  pose proof (del_keeps_nf (sel_after colon) (sel_after comma) _ None H5 N3) as N3a.
  pose proof (del_nf (sel_after colon) _ None H5) as N4.
  repeat split; try (now apply trim_nf).
  - now apply trim_collapsed.
  - apply trim_idem.
Qed.

Lemma cssNormal_fixed s :
  cssNormal s -> occurs re_block_comment s = false ->
  occurs re_semi_close s = false -> minifyCSS s = s.
Proof.
  intros (Hc & N1 & N2 & N3 & N4 & Ht) O1 O2.
  rewrite minifyCSS_del, (occurs_false_fixed regular_block_comment _ O1).
  rewrite (collapsed_fixed _ Hc), (occurs_false_fixed regular_semi_close _ O2).
  rewrite (nf_fixed _ _ _ N1), (nf_fixed _ _ _ N2), (nf_fixed _ _ _ N3),
    (nf_fixed _ _ _ N4).
  exact Ht.
Qed.

Lemma length_css_tail s :
  length (trim (replaceAll (re_after colon) (replaceAll (re_after comma)
            (replaceAll (re_after semi) (replaceAll (re_after lbrace) s)))))
  <= length s.
Proof.
  etransitivity; [apply length_trim|].
  do 4 (etransitivity;
        [apply length_replaceAll;
         [auto with regex | apply tidy_contracting, tidy_after; reflexivity]|]).
  reflexivity.
Qed.

Lemma cssNormal_moved s :
  cssNormal s ->
  occurs re_block_comment s = true \/ occurs re_semi_close s = true ->
  length (minifyCSS s) < length s.
Proof.
  intros (Hc & _) H. unfold minifyCSS.
  eapply Nat.le_lt_trans; [apply length_css_tail|].
  destruct (occurs re_block_comment s) eqn:O1.
  - eapply Nat.le_lt_trans;
      [apply length_replaceAll;
       [auto with regex|apply tidy_contracting; auto with regex]|].
    eapply Nat.le_lt_trans;
      [apply length_replaceAll;
       [auto with regex|apply tidy_contracting; auto with regex]|].
    apply length_replaceAll_lt;
      [auto with regex|apply eraser_strict; auto with regex|exact O1].
  - destruct H as [H|H]; [discriminate|].
    rewrite (occurs_false_fixed regular_block_comment _ O1).
    rewrite (collapsed_fixed _ Hc).
    apply length_replaceAll_lt; [auto with regex|apply strict_semi_close|exact H].
Qed.


(** ** minifyJS *)

Lemma noSlashPair_occurs : forall s,
  noSlashPair s = true -> occurs re_line_comment s = false.
Proof.
  induction s as [|c s IH]; [reflexivity|]. simpl. intros H.
  apply andb_prop in H. destruct H as [H1 H2]. apply negb_true_iff in H1.
  destruct s as [|d s']; [reflexivity|].
  simpl in H1. rewrite H1. now apply IH.
Qed.

Lemma line_comment_miss c s :
  re_line_comment (c :: s) = None ->
  (c =? slash)%N && isC slash (hd_error s) = false.
Proof.
  unfold re_line_comment. destruct s as [|d s']; simpl.
  - intros _. apply andb_false_r.
  - destruct ((c =? slash)%N && (d =? slash)%N); [discriminate|reflexivity].
Qed.

Lemma noSlashPair_tail c s : noSlashPair (c :: s) = true -> noSlashPair s = true.
Proof. simpl. intros H. apply andb_prop in H. tauto. Qed.

Lemma noSlashPair_skipn n : forall s,
  noSlashPair s = true -> noSlashPair (skipn n s) = true.
Proof.
  induction n as [|n IH]; intros s H; [exact H|].
  destruct s as [|c s]; [exact H|]. simpl. apply IH. eapply noSlashPair_tail, H.
Qed.

Lemma replace_line_comment_noSlashPair s :
  noSlashPair (replaceAll re_line_comment s) = true /\
  (isC slash (hd_error (replaceAll re_line_comment s)) = true ->
   isC slash (hd_error s) = true).
Proof.
  pattern s, (replaceAll re_line_comment s).
  apply (replaceAll_ind regular_line_comment); clear s.
  - split; [reflexivity|discriminate].
  - intros c s E [IH1 IH2]. split; [|exact (fun H => H)].
    simpl. rewrite IH1, andb_true_r. apply negb_true_iff.
    pose proof (line_comment_miss _ _ E) as Hm.
    destruct (c =? slash)%N; [|reflexivity]. simpl in *.
    destruct (isC slash (hd_error (replaceAll re_line_comment s))); [|reflexivity].
    rewrite IH2 in Hm by reflexivity. discriminate.
  - intros s rep n E [IH1 IH2].
    unfold re_line_comment in E. destruct s as [|a [|b t]]; try discriminate.
    destruct (N.eqb_spec a slash) as [->|]; [|discriminate].
    destruct (b =? slash)%N; [|discriminate]. injection E as <- <-.
    simpl app. split; [exact IH1|reflexivity].
Qed.

Lemma replace_ws_noSlashPair s :
  noSlashPair s = true ->
  noSlashPair (replaceAll re_ws s) = true /\
  (isC slash (hd_error (replaceAll re_ws s)) = true ->
   isC slash (hd_error s) = true).
Proof.
  pattern s, (replaceAll re_ws s). apply (replaceAll_ind regular_ws); clear s.
  - split; [reflexivity|discriminate].
  - intros c s E IH H. destruct (IH (noSlashPair_tail _ _ H)) as [IH1 IH2].
    split; [|exact (fun H => H)].
    simpl in H |- *. rewrite IH1, andb_true_r. apply negb_true_iff.
    apply andb_prop in H. destruct H as [H _]. apply negb_true_iff in H.
    destruct (c =? slash)%N; [|reflexivity]. simpl in *.
    destruct (isC slash (hd_error (replaceAll re_ws s))); [|reflexivity].
    rewrite IH2 in H by reflexivity. discriminate.
  - intros s rep n E IH H. destruct (IH (noSlashPair_skipn n _ H)) as [IH1 IH2].
    unfold re_ws in E. destruct (wsRun s); [discriminate|]. injection E as <- <-.
    simpl app. split; [exact IH1|discriminate].
Qed.

Lemma del_noSlashPair sel (Hsel : sel (Some slash) (Some slash) = false) :
  forall s p, collapsed s = true -> noSlashPair s = true ->
  noSlashPair (del sel p s) = true /\
  (isC slash (hd_error (del sel p s)) = true ->
   isC slash (hd_error s) = true \/
   (headSpace s = true /\ sel p (Some slash) = true)).
Proof.
  induction s as [|c s IH]; intros p Hc Hn; [split; [reflexivity|discriminate]|].
  simpl del. destruct (isSpace c) eqn:Ec.
  - destruct (collapsed_cons_space _ _ Hc Ec) as (-> & Hs & Hc').
    destruct (IH p Hc' (noSlashPair_tail _ _ Hn)) as [IH1 IH2].
    destruct (sel p (hd_error s)) eqn:Es.
    + split; [exact IH1|]. intros Hh. right. split; [reflexivity|].
      rewrite (del_head sel p s Hs) in Hh.
      destruct s as [|d s']; [discriminate|]. simpl in Hh.
      apply N.eqb_eq in Hh. subst d. exact Es.
    + split; [exact IH1|discriminate].
  - destruct (IH (Some c) (collapsed_tail _ _ Hc) (noSlashPair_tail _ _ Hn))
      as [IH1 IH2].
    split; [|intros H; left; exact H].
    simpl. rewrite IH1, andb_true_r. apply negb_true_iff.
    simpl in Hn. apply andb_prop in Hn. destruct Hn as [Hn _].
    apply negb_true_iff in Hn.
    destruct (N.eqb_spec c slash) as [->|]; [|reflexivity]. simpl in *.
    destruct (isC slash (hd_error (del sel (Some slash) s))); [|reflexivity].
    destruct (IH2 eq_refl) as [H|[_ H]]; congruence.
Qed.

Lemma trimEnd_hd s d : hd_error (trimEnd s) = Some d -> hd_error s = Some d.
Proof.
  destruct s as [|c s]; [discriminate|]. rewrite trimEnd_cons.
  destruct (forallb isSpace (c :: s)); [discriminate|exact (fun H => H)].
Qed.

Lemma trimEnd_noSlashPair : forall s,
  noSlashPair s = true -> noSlashPair (trimEnd s) = true.
Proof.
  induction s as [|c s IH]; intros H; [reflexivity|].
  rewrite trimEnd_cons. destruct (forallb isSpace (c :: s)); [reflexivity|].
  simpl in H |- *. apply andb_prop in H. destruct H as [H1 H2].
  rewrite (IH H2), andb_true_r. apply negb_true_iff. apply negb_true_iff in H1.
  destruct (c =? slash)%N; [|reflexivity]. simpl in *.
  destruct (hd_error (trimEnd s)) as [d|] eqn:E; [|reflexivity].
  now rewrite (trimEnd_hd _ _ E) in H1.
Qed.

Lemma trim_noSlashPair s : noSlashPair s = true -> noSlashPair (trim s) = true.
Proof.
  intros H. apply trimEnd_noSlashPair. unfold trimStart.
  now apply noSlashPair_skipn.
Qed.

Lemma minifyJS_del x :
  minifyJS x =
  trim (del sel_punct None
          (replaceAll re_ws
             (replaceAll re_line_comment (replaceAll re_block_comment x)))).
Proof.
  unfold minifyJS.
  destruct (replace_ws_collapsed
              (replaceAll re_line_comment (replaceAll re_block_comment x)))
    as [H1 _].
  now rewrite (replace_punct_del _ H1 None) by discriminate.
Qed.

Lemma minifyJS_normal x : jsNormal (minifyJS x).
Proof.
  rewrite minifyJS_del.
  set (s2 := replaceAll re_line_comment (replaceAll re_block_comment x)).
  destruct (replace_ws_collapsed s2) as [H1 _].
  pose proof (del_collapsed sel_punct _ None H1) as H2.
  pose proof (del_nf sel_punct _ None H1) as N1.
  destruct (replace_line_comment_noSlashPair (replaceAll re_block_comment x))
    as [S1 _]. fold s2 in S1.
  destruct (replace_ws_noSlashPair _ S1) as [S2 _].
  destruct (del_noSlashPair sel_punct eq_refl _ None H1 S2) as [S3 _].
  repeat split.
  - now apply trim_collapsed.
  - now apply trim_nf.
  - now apply trim_noSlashPair.
  - apply trim_idem.
Qed.

Lemma jsNormal_fixed s :
  jsNormal s -> occurs re_block_comment s = false -> minifyJS s = s.
Proof.
  intros (Hc & N1 & Hs & Ht) O1.
  rewrite minifyJS_del, (occurs_false_fixed regular_block_comment _ O1).
  rewrite (occurs_false_fixed regular_line_comment _ (noSlashPair_occurs _ Hs)).
  rewrite (collapsed_fixed _ Hc), (nf_fixed _ _ _ N1).
  exact Ht.
Qed.

Lemma jsNormal_moved s :
  occurs re_block_comment s = true -> length (minifyJS s) < length s.
Proof.
  intros O1. unfold minifyJS.
  eapply Nat.le_lt_trans; [apply length_trim|].
  do 2 (eapply Nat.le_lt_trans;
        [apply length_replaceAll;
         [auto with regex|apply tidy_contracting; auto with regex]|]).
  eapply Nat.le_lt_trans;
    [apply length_replaceAll;
     [auto with regex
     |apply strict_contracting, eraser_strict; auto with regex]|].
  apply length_replaceAll_lt;
    [auto with regex|apply eraser_strict; auto with regex|exact O1].
Qed.

(** ** Decoding UTF-8 *)

(** Six bits put behind the others, as a sum. *)
Lemma lor_shiftl6 x y : (y < 64)%N -> N.lor (N.shiftl x 6) y = (x * 64 + y)%N.
Proof.
  intros H. rewrite N.shiftl_mul_pow2. change (2 ^ 6)%N with 64%N.
  assert (Hd : N.land (x * 64) y = 0%N).
  { apply N.bits_inj_0. intros n. rewrite N.land_spec.
    destruct (N.ltb_spec n 6) as [Hn|Hn].
    - replace (x * 64)%N with (x * 2 ^ 6)%N by reflexivity.
      rewrite N.mul_pow2_bits_low by exact Hn. reflexivity.
    - rewrite (N.bits_above_log2 y n); [apply andb_false_r|].
      destruct (N.eq_dec y 0) as [->|Hy]; [simpl; lia|].
      apply N.log2_lt_pow2; [lia|].
      apply N.lt_le_trans with (2 ^ 6)%N; [exact H|].
      apply N.pow_le_mono_r; lia. }
  rewrite <- N.lxor_lor by exact Hd. symmetry. now apply N.add_nocarry_lxor.
Qed.

Lemma within_spec lo hi b : within lo hi b = true <-> (lo <= b <= hi)%N.
Proof. unfold within. rewrite andb_true_iff, !N.leb_le. tauto. Qed.

Lemma low6 b : (128 <= b <= 191)%N -> N.land b 63 = (b - 128)%N.
Proof.
  intros H. change 63%N with (N.ones 6). rewrite N.land_ones.
  change (2 ^ 6)%N with 64%N. symmetry. apply (N.mod_unique b 64 2); lia.
Qed.

Lemma low_bits b k q : (k * q <= b < k * q + k)%N -> (b mod k = b - k * q)%N.
Proof. intros H. symmetry. apply (N.mod_unique b k q); lia. Qed.

Lemma lead_ascii b : (b <= 127)%N -> lead b = ([b], None).
Proof. intros H. unfold lead. now rewrite (proj2 (N.leb_le _ _) H). Qed.

Lemma decode_seq1 b r : (b <= 127)%N -> decodeGo None (b :: r) = b :: decodeGo None r.
Proof. intros H. cbn [decodeGo]. now rewrite lead_ascii. Qed.

Lemma decode_seq2 b1 b2 r :
  (194 <= b1 <= 223)%N -> (128 <= b2 <= 191)%N ->
  decodeGo None (b1 :: b2 :: r)
  = ((b1 - 192) * 64 + (b2 - 128))%N :: decodeGo None r.
Proof.
  intros H1 H2. cbn [decodeGo]. unfold lead.
  replace (b1 <=? 127)%N with false by (symmetry; apply N.leb_gt; lia).
  replace ((194 <=? b1) && (b1 <=? 223))%N with true
    by (symmetry; apply andb_true_iff; rewrite !N.leb_le; lia).
  cbn [app]. unfold continue. cbn [lower upper needed codePoint].
  replace ((128 <=? b2) && (b2 <=? 191))%N with true
    by (symmetry; apply andb_true_iff; rewrite !N.leb_le; lia).
  cbn [app]. f_equal.
  rewrite low6 by exact H2. rewrite lor_shiftl6 by lia. f_equal. f_equal.
  change 31%N with (N.ones 5). rewrite N.land_ones. change (2 ^ 5)%N with 32%N.
  rewrite (low_bits b1 32 6) by lia. reflexivity.
Qed.

Ltac tests :=
  repeat match goal with
  | |- context [(?a <=? ?b)%N] =>
      let E := fresh "E" in
      destruct (N.leb_spec a b) as [E|E]; try lia
  end.

Lemma lead_two b :
  (194 <= b <= 223)%N ->
  lead b = ([], Some {| codePoint := (b - 192)%N; needed := 1;
                        lower := 128; upper := 191 |}).
Proof.
  intros H. unfold lead. tests. cbn [andb]. do 3 f_equal.
  change 31%N with (N.ones 5). rewrite N.land_ones. change (2 ^ 5)%N with 32%N.
  now rewrite (low_bits b 32 6) by lia.
Qed.

Lemma lead_three b :
  (224 <= b <= 239)%N ->
  lead b = ([], Some {| codePoint := (b - 224)%N; needed := 2;
                        lower := if (b =? 224)%N then 160 else 128;
                        upper := if (b =? 237)%N then 159 else 191 |}).
Proof.
  intros H. unfold lead. tests. cbn [andb]. do 3 f_equal.
  change 15%N with (N.ones 4). rewrite N.land_ones. change (2 ^ 4)%N with 16%N.
  now rewrite (low_bits b 16 14) by lia.
Qed.

Lemma lead_four b :
  (240 <= b <= 244)%N ->
  lead b = ([], Some {| codePoint := (b - 240)%N; needed := 3;
                        lower := if (b =? 240)%N then 144 else 128;
                        upper := if (b =? 244)%N then 143 else 191 |}).
Proof.
  intros H. unfold lead. tests. cbn [andb]. do 3 f_equal.
  change 7%N with (N.ones 3). rewrite N.land_ones. change (2 ^ 3)%N with 8%N.
  now rewrite (low_bits b 8 30) by lia.
Qed.

Lemma continue_more cp n lo hi b :
  (lo <= b <= hi)%N -> (128 <= b <= 191)%N ->
  continue {| codePoint := cp; needed := S (S n); lower := lo; upper := hi |} b
  = ([], Some {| codePoint := (cp * 64 + (b - 128))%N; needed := S n;
                 lower := 128; upper := 191 |}).
Proof.
  intros H1 H2. unfold continue. cbn [lower upper needed codePoint].
  tests. cbn [andb]. now rewrite low6, lor_shiftl6 by lia.
Qed.

Lemma continue_last cp lo hi b :
  (lo <= b <= hi)%N -> (128 <= b <= 191)%N ->
  continue {| codePoint := cp; needed := 1; lower := lo; upper := hi |} b
  = ([(cp * 64 + (b - 128))%N], None).
Proof.
  intros H1 H2. unfold continue. cbn [lower upper needed codePoint].
  tests. cbn [andb]. now rewrite low6, lor_shiftl6 by lia.
Qed.

Lemma second_three b1 b2 :
  within (if (b1 =? 224)%N then 160 else 128)
       (if (b1 =? 237)%N then 159 else 191) b2 = true ->
  ((if (b1 =? 224)%N then 160 else 128) <= b2
   <= (if (b1 =? 237)%N then 159 else 191))%N /\
  (128 <= b2 <= 191)%N /\
  (b1 = 224 -> 160 <= b2)%N /\ (b1 = 237 -> b2 <= 159)%N.
Proof.
  rewrite within_spec.
  destruct (N.eqb_spec b1 224), (N.eqb_spec b1 237); lia.
Qed.

Lemma second_four b1 b2 :
  within (if (b1 =? 240)%N then 144 else 128)
       (if (b1 =? 244)%N then 143 else 191) b2 = true ->
  ((if (b1 =? 240)%N then 144 else 128) <= b2
   <= (if (b1 =? 244)%N then 143 else 191))%N /\
  (128 <= b2 <= 191)%N /\
  (b1 = 240 -> 144 <= b2)%N /\ (b1 = 244 -> b2 <= 143)%N.
Proof.
  rewrite within_spec.
  destruct (N.eqb_spec b1 240), (N.eqb_spec b1 244); lia.
Qed.

(** Bytes of UTF-8 the code units of one code point take. *)
Lemma byteLength_units1 cp s :
  (cp <= 127)%N -> byteLength (units cp ++ s) = 1 + byteLength s.
Proof.
  intros H. unfold units. replace (cp <? 65536)%N with true by (symmetry; apply N.ltb_lt; lia).
  cbn [app byteLength]. now replace (cp <? 128)%N with true by (symmetry; apply N.ltb_lt; lia).
Qed.

Lemma byteLength_units2 cp s :
  (128 <= cp < 2048)%N -> byteLength (units cp ++ s) = 2 + byteLength s.
Proof.
  intros H. unfold units. replace (cp <? 65536)%N with true by (symmetry; apply N.ltb_lt; lia).
  cbn [app byteLength]. replace (cp <? 128)%N with false by (symmetry; apply N.ltb_ge; lia).
  now replace (cp <? 2048)%N with true by (symmetry; apply N.ltb_lt; lia).
Qed.

Lemma byteLength_units3 cp s :
  (2048 <= cp < 65536)%N -> (cp < 55296 \/ 56320 <= cp)%N ->
  byteLength (units cp ++ s) = 3 + byteLength s.
Proof.
  intros H Hs. unfold units. replace (cp <? 65536)%N with true by (symmetry; apply N.ltb_lt; lia).
  cbn [app byteLength]. replace (cp <? 128)%N with false by (symmetry; apply N.ltb_ge; lia).
  replace (cp <? 2048)%N with false by (symmetry; apply N.ltb_ge; lia).
  replace (isHigh cp) with false; [reflexivity|].
  symmetry. unfold isHigh. apply andb_false_iff. rewrite !N.leb_gt. lia.
Qed.

Lemma byteLength_units4 cp s :
  (65536 <= cp < 1114112)%N -> byteLength (units cp ++ s) = 4 + byteLength s.
Proof.
  intros H. unfold units. replace (cp <? 65536)%N with false by (symmetry; apply N.ltb_ge; lia).
  assert (Hq : ((cp - 65536) / 1024 < 1024)%N) by (apply N.Div0.div_lt_upper_bound; lia).
  assert (Hr : ((cp - 65536) mod 1024 < 1024)%N) by (apply N.mod_lt; lia).
  generalize dependent ((cp - 65536) / 1024)%N. intros q Hq.
  generalize dependent ((cp - 65536) mod 1024)%N. intros r Hr.
  cbn [app byteLength].
  replace (55296 + q <? 128)%N with false by (symmetry; apply N.ltb_ge; lia).
  replace (55296 + q <? 2048)%N with false by (symmetry; apply N.ltb_ge; lia).
  replace (isHigh (55296 + q)%N) with true
    by (symmetry; unfold isHigh; apply andb_true_iff; rewrite !N.leb_le; lia).
  replace (isLow (56320 + r)%N) with true
    by (symmetry; unfold isLow; apply andb_true_iff; rewrite !N.leb_le; lia).
  reflexivity.
Qed.

Lemma decode_cons cp cps : flat_map units (cp :: cps) = (units cp ++ flat_map units cps)%list.
Proof. reflexivity. Qed.

Lemma byteLength_decode_bound n : forall bytes,
  length bytes <= n -> wellFormedUtf8 bytes = true ->
  byteLength (decode bytes) = length bytes.
Proof.
  unfold decode.
  induction n as [|n IH]; intros bytes Hn Hw.
  - destruct bytes; [reflexivity|simpl in Hn; lia].
  - destruct bytes as [|b1 r1]; [reflexivity|].
    cbn [wellFormedUtf8] in Hw.
    destruct (N.leb_spec b1 127) as [H1|H1].
    { rewrite decode_seq1, decode_cons, byteLength_units1 by exact H1.
      cbn [length] in *. rewrite IH; [reflexivity|lia|exact Hw]. }
    destruct (within 194 223 b1) eqn:C2.
    { apply within_spec in C2. destruct r1 as [|b2 r2]; [discriminate|].
      apply andb_true_iff in Hw. destruct Hw as [Hb2 Hw]. apply within_spec in Hb2.
      cbn [decodeGo]. rewrite (lead_two b1 C2). cbn [app].
      rewrite (continue_last _ _ _ b2 Hb2 Hb2). cbn [app].
      rewrite decode_cons, byteLength_units2 by lia.
      cbn [length] in *. rewrite IH; [reflexivity|lia|exact Hw]. }
    destruct (within 224 239 b1) eqn:C3.
    { apply within_spec in C3. destruct r1 as [|b2 [|b3 r3]]; try discriminate.
      apply andb_true_iff in Hw. destruct Hw as [Hw Hr].
      apply andb_true_iff in Hw. destruct Hw as [Hb2 Hb3]. apply within_spec in Hb3.
      apply second_three in Hb2. destruct Hb2 as (Hb2 & Hc2 & Hlo & Hhi).
      cbn [decodeGo]. rewrite (lead_three b1 C3). cbn [app].
      rewrite (continue_more _ _ _ _ b2 Hb2 Hc2). cbn [app].
      rewrite (continue_last _ _ _ b3 Hb3 Hb3). cbn [app].
      rewrite decode_cons, byteLength_units3 by lia.
      cbn [length] in *. rewrite IH; [reflexivity|lia|exact Hr]. }
    destruct (within 240 244 b1) eqn:C4; [|discriminate].
    apply within_spec in C4. destruct r1 as [|b2 [|b3 [|b4 r4]]]; try discriminate.
    apply andb_true_iff in Hw. destruct Hw as [Hw Hr].
    apply andb_true_iff in Hw. destruct Hw as [Hw Hb4].
    apply andb_true_iff in Hw. destruct Hw as [Hb2 Hb3].
    apply within_spec in Hb3. apply within_spec in Hb4.
    apply second_four in Hb2. destruct Hb2 as (Hb2 & Hc2 & Hlo & Hhi).
    cbn [decodeGo]. rewrite (lead_four b1 C4). cbn [app].
    rewrite (continue_more _ _ _ _ b2 Hb2 Hc2). cbn [app].
    rewrite (continue_more _ _ _ _ b3 Hb3 Hb3). cbn [app].
    rewrite (continue_last _ _ _ b4 Hb4 Hb4). cbn [app].
    rewrite decode_cons, byteLength_units4 by lia.
    cbn [length] in *. rewrite IH; [reflexivity|lia|exact Hr].
Qed.

Lemma byteLength_decode bytes :
  wellFormedUtf8 bytes = true -> byteLength (decode bytes) = length bytes.
Proof. apply (byteLength_decode_bound (length bytes)). lia. Qed.

End JsFacts.

(* ================================================================== *)
(** * Reasoning about executions *)
(* ================================================================== *)

Module IoFacts.
Import Js Path Fs Io IoProps.

Lemma opsAll_bind {A B} (Q : forall X, op X -> bool) (p : prog A) (f : A -> prog B) :
  opsAll Q p -> (forall a, opsAll Q (f a)) -> opsAll Q (bind p f).
Proof.
  induction p as [a|e|c|X o k IH]; simpl; intros Hp Hf; auto.
  destruct Hp as [Ho Hk]. split; [exact Ho|]. intros x. now apply IH.
Qed.

Lemma opsAll_tryCatch {A} (Q : forall X, op X -> bool) (p : prog A) (h : error -> prog A) :
  opsAll Q p -> (forall e, opsAll Q (h e)) -> opsAll Q (tryCatch p h).
Proof.
  induction p as [a|e|c|X o k IH]; simpl; intros Hp Hh; auto.
  destruct Hp as [Ho Hk]. split; [exact Ho|]. intros x. now apply IH.
Qed.

Lemma opsAll_forEach {A} (Q : forall X, op X -> bool) (xs : list A) (body : A -> prog unit) :
  (forall x, opsAll Q (body x)) -> opsAll Q (forEach xs body).
Proof.
  intros Hb. induction xs as [|x xs IH]; simpl; [exact I|].
  apply opsAll_bind; [apply Hb|]. intros _. exact IH.
Qed.

Lemma opsAll_perform {X} (Q : forall X, op X -> bool) (o : op X) :
  Q _ o = true -> opsAll Q (perform o).
Proof. intros H. simpl. split; [exact H|]. intros x. exact I. Qed.

Lemma opsAll_attempt {X} (Q : forall X, op X -> bool) (o : op (result X)) :
  Q _ o = true -> opsAll Q (attempt o).
Proof. intros H. simpl. split; [exact H|]. intros [x|e]; exact I. Qed.

Lemma noExit_bind {A B} (p : prog A) (f : A -> prog B) :
  noExit p -> (forall a, noExit (f a)) -> noExit (bind p f).
Proof.
  induction p as [a|e|c|X o k IH]; simpl; intros Hp Hf; auto.
Qed.

Lemma noExit_tryCatch {A} (p : prog A) (h : error -> prog A) :
  noExit p -> (forall e, noExit (h e)) -> noExit (tryCatch p h).
Proof.
  induction p as [a|e|c|X o k IH]; simpl; intros Hp Hh; auto.
Qed.

Lemma noExit_forEach {A} (xs : list A) (body : A -> prog unit) :
  (forall x, noExit (body x)) -> noExit (forEach xs body).
Proof.
  intros Hb. induction xs as [|x xs IH]; simpl; [exact I|].
  apply noExit_bind; [apply Hb|]. intros _. exact IH.
Qed.

Lemma noExit_forEach_In {A} (xs : list A) (body : A -> prog unit) :
  (forall x, In x xs -> noExit (body x)) -> noExit (forEach xs body).
Proof.
  induction xs as [|x xs IH]; intros Hb; simpl; [exact I|].
  apply noExit_bind; [apply Hb; now left|]. intros _. apply IH.
  intros y Hy. apply Hb. now right.
Qed.

Lemma noExit_perform {X} (o : op X) : noExit (perform o).
Proof. simpl. intros x. exact I. Qed.

Lemma noExit_attempt {X} (o : op (result X)) : noExit (attempt o).
Proof. simpl. intros [x|e]; exact I. Qed.

Section Runs.

Variable sass : node -> path -> bool -> result (jsstring * option jsstring).
Variable tsc : node -> path -> path -> node * option error.
Variable pathMax : nat.

Abbreviation run := (run sass tsc pathMax).
Abbreviation exec := (exec sass tsc pathMax).

Lemma run_bind {A B} (p : prog A) (f : A -> prog B) : forall w,
  run (bind p f) w = andThen (run p w) (fun a w' => run (f a) w').
Proof.
  induction p as [a|e|c|X o k IH]; intros w; simpl.
  - destruct (run (f a) w) as [[r w'] evs]. reflexivity.
  - reflexivity.
  - reflexivity.
  - destruct (exec o w) as [x w1]. rewrite IH.
    destruct (run (k x) w1) as [[r w2] evs]. simpl.
    destruct r as [a|e|c]; [|reflexivity|reflexivity].
    destruct (run (f a) w2) as [[r3 w3] evs3]. reflexivity.
Qed.

Lemma run_tryCatch {A} (p : prog A) (h : error -> prog A) : forall w,
  run (tryCatch p h) w = orElse (run p w) (fun e w' => run (h e) w').
Proof.
  induction p as [a|e|c|X o k IH]; intros w; simpl.
  - reflexivity.
  - destruct (run (h e) w) as [[r w'] evs]. reflexivity.
  - reflexivity.
  - destruct (exec o w) as [x w1]. rewrite IH.
    destruct (run (k x) w1) as [[r w2] evs]. simpl.
    destruct r as [a|e|c]; [reflexivity| |reflexivity].
    destruct (run (h e) w2) as [[r3 w3] evs3]. reflexivity.
Qed.

(** What holds of every operation holds of every event. *)
Lemma opsAll_events {A} (Q : forall X, op X -> bool) (Qe : event -> Prop)
  (HQ : forall X (o : op X) x, Q X o = true -> Qe (record o x))
  (p : prog A) : forall w, opsAll Q p -> Forall Qe (eventsOf (run p w)).
Proof.
  induction p as [a|e|c|X o k IH]; intros w Hp; simpl; try constructor.
  destruct Hp as [Ho Hk].
  destruct (exec o w) as [x w1]. specialize (IH x w1 (Hk x)).
  destruct (run (k x) w1) as [[r w2] evs]. simpl in *.
  constructor; [now apply HQ | exact IH].
Qed.

Lemma noExit_run {A} (p : prog A) : forall w c,
  noExit p -> outcomeOf (run p w) <> Exited c.
Proof.
  induction p as [a|e|c|X o k IH]; intros w c' Hp; simpl; try discriminate.
  - contradiction.
  - destruct (exec o w) as [x w1]. specialize (IH x w1 c' (Hp x)).
    destruct (run (k x) w1) as [[r w2] evs]. exact IH.
Qed.


Lemma run_perform {X} (o : op X) w :
  run (perform o) w = (Done (fst (exec o w)), snd (exec o w), [record o (fst (exec o w))]).
Proof. simpl. destruct (exec o w) as [x w1]. reflexivity. Qed.

Lemma run_attempt {X} (o : op (result X)) w :
  run (attempt o) w =
  (match fst (exec o w) with Ok x => Done x | Err e => Thrown e end,
   snd (exec o w), [record o (fst (exec o w))]).
Proof. simpl. destruct (exec o w) as [[x|e] w1]; reflexivity. Qed.

Lemma run_log m w : run (log m) w = (Done tt, w, [ELog m]).
Proof. reflexivity. Qed.

Lemma run_logError m w : run (logError m) w = (Done tt, w, [EError m]).
Proof. reflexivity. Qed.

Lemma run_forEach_cons {A} (x : A) xs body w :
  run (forEach (x :: xs) body) w =
  andThen (run (body x) w) (fun _ w' => run (forEach xs body) w').
Proof. simpl. apply run_bind. Qed.

(** A property of every event, through the combinators. *)
Lemma events_bind {A B} (Q : event -> Prop) (p : prog A) (f : A -> prog B) w :
  Forall Q (eventsOf (run p w)) ->
  (forall a, outcomeOf (run p w) = Done a ->
     Forall Q (eventsOf (run (f a) (worldOf (run p w))))) ->
  Forall Q (eventsOf (run (bind p f) w)).
Proof.
  rewrite run_bind. destruct (run p w) as [[r w1] evs].
  unfold eventsOf, outcomeOf, worldOf. simpl. intros H1 H2.
  destruct r as [a|e|c]; simpl; try exact H1.
  specialize (H2 a eq_refl). destruct (run (f a) w1) as [[r2 w2] evs2].
  simpl in *. apply Forall_app. now split.
Qed.

Lemma events_tryCatch {A} (Q : event -> Prop) (p : prog A) h w :
  Forall Q (eventsOf (run p w)) ->
  (forall e, outcomeOf (run p w) = Thrown e ->
     Forall Q (eventsOf (run (h e) (worldOf (run p w))))) ->
  Forall Q (eventsOf (run (tryCatch p h) w)).
Proof.
  rewrite run_tryCatch. destruct (run p w) as [[r w1] evs].
  unfold eventsOf, outcomeOf, worldOf. simpl. intros H1 H2.
  destruct r as [a|e|c]; simpl; try exact H1.
  specialize (H2 e eq_refl). destruct (run (h e) w1) as [[r2 w2] evs2].
  simpl in *. apply Forall_app. now split.
Qed.

Lemma events_forEach {A} (Q : event -> Prop) (xs : list A) body :
  (forall x, In x xs -> forall w, Forall Q (eventsOf (run (body x) w))) ->
  forall w, Forall Q (eventsOf (run (forEach xs body) w)).
Proof.
  induction xs as [|x xs IH]; intros Hb w; [constructor|].
  simpl forEach. apply events_bind.
  - apply Hb. now left.
  - intros _ _. apply IH. intros y Hy. apply Hb. now right.
Qed.

Lemma events_perform {X} (Q : event -> Prop) (o : op X) w :
  (forall x, Q (record o x)) -> Forall Q (eventsOf (run (perform o) w)).
Proof. intros H. rewrite run_perform. repeat constructor. apply H. Qed.

Lemma events_attempt {X} (Q : event -> Prop) (o : op (result X)) w :
  (forall x, Q (record o x)) -> Forall Q (eventsOf (run (attempt o) w)).
Proof. intros H. rewrite run_attempt. repeat constructor. apply H. Qed.

(** A handler that only reports leaves no exception behind. *)
Lemma run_tryCatch_report (p : prog unit) (report : error -> msg) w :
  noExit p ->
  outcomeOf (run (tryCatch p (fun e => logError (report e))) w) = Done tt.
Proof.
  intros Hp. pose proof (noExit_run p w) as Hx.
  rewrite run_tryCatch. destruct (run p w) as [[r w1] evs].
  unfold outcomeOf in *. simpl in *.
  destruct r as [[]|e|c]; [reflexivity|reflexivity|].
  exfalso. now apply (Hx c).
Qed.

End Runs.
End IoFacts.

(* ================================================================== *)
(** * Facts about paths and the file system *)
(* ================================================================== *)

Module FsFacts.
Import Js Path Fs FsProps.
Local Open Scope string_scope.

Lemma endsWith_spec s suffix :
  endsWith s suffix = true <-> exists stem, s = stem ++ suffix.
Proof.
  induction s as [|c s IH]; cbn [endsWith].
  - rewrite orb_false_r, String.eqb_eq. split.
    + intros <-. now exists EmptyString.
    + intros [stem H]. destruct stem; simpl in H; [congruence|discriminate].
  - rewrite orb_true_iff, String.eqb_eq, IH. split.
    + intros [<-|[stem ->]]; [now exists EmptyString|now exists (String c stem)].
    + intros [stem H]. destruct stem as [|d stem]; simpl in H.
      * left. congruence.
      * right. exists stem. congruence.
Qed.

Lemma find_setEntry_same es name c : find (setEntry es name c) name = Some c.
Proof.
  induction es as [|[n c'] es IH]; simpl.
  - now rewrite String.eqb_refl.
  - destruct (n =? name) eqn:E; simpl; rewrite E; [reflexivity|exact IH].
Qed.

Lemma find_setEntry_other es name c n :
  n <> name -> find (setEntry es name c) n = find es n.
Proof.
  intros Hn. induction es as [|[m c'] es IH]; simpl.
  - destruct (String.eqb_spec name n); [congruence|reflexivity].
  - destruct (String.eqb_spec m name) as [->|Hm]; simpl.
    + destruct (String.eqb_spec name n); [congruence|reflexivity].
    + destruct (m =? n); [reflexivity|exact IH].
Qed.

Lemma lookup_app root : forall p q n,
  lookup root p = Some n -> lookup root (p ++ q)%list = lookup n q.
Proof.
  intros p. revert root. induction p as [|name p IH]; intros root q n; simpl.
  - now intros [= ->].
  - destruct root as [c|es]; [discriminate|].
    destruct (find es name) as [c|]; [|discriminate]. apply IH.
Qed.

Lemma lookup_file_below c name q : lookup (File c) (name :: q) = None.
Proof. reflexivity. Qed.

Lemma find_In es name c : find es name = Some c -> In (name, c) es.
Proof.
  induction es as [|[n c'] es IH]; simpl; [discriminate|].
  destruct (String.eqb_spec n name) as [->|]; [intros [= ->]; now left|].
  intros H. right. now apply IH.
Qed.

Lemma existsb_eqb_In n (names : list string) :
  existsb (String.eqb n) names = true <-> In n names.
Proof.
  rewrite existsb_exists. split.
  - intros [x [Hx E]]. apply String.eqb_eq in E. now subst.
  - intros H. exists n. split; [exact H|apply String.eqb_refl].
Qed.

Lemma In_find es name c :
  uniqueNames (map fst es) = true -> In (name, c) es -> find es name = Some c.
Proof.
  induction es as [|[n c'] es IH]; simpl; [contradiction|].
  intros Hu H. apply andb_prop in Hu. destruct Hu as [Hn Hu].
  apply negb_true_iff in Hn.
  destruct H as [[= -> ->]|H].
  - now rewrite String.eqb_refl.
  - destruct (String.eqb_spec n name) as [->|]; [|now apply IH].
    exfalso. apply not_true_iff_false in Hn. apply Hn.
    apply existsb_eqb_In. apply (in_map fst) in H. exact H.
Qed.

Lemma wellFormed_entry es name c :
  wellFormed (Dir es) = true -> In (name, c) es -> wellFormed c = true.
Proof.
  simpl. intros H Hin. apply andb_prop in H. destruct H as [_ H].
  induction es as [|e es IH]; [contradiction|].
  apply andb_prop in H. destruct H as [He H].
  destruct Hin as [->|Hin]; [exact He|now apply IH].
Qed.

Lemma wellFormed_unique es :
  wellFormed (Dir es) = true -> uniqueNames (map fst es) = true.
Proof. simpl. intros H. apply andb_prop in H. tauto. Qed.

Lemma wellFormed_lookup : forall p root n,
  wellFormed root = true -> lookup root p = Some n -> wellFormed n = true.
Proof.
  induction p as [|name p IH]; intros root n Hw; simpl.
  - now intros [= <-].
  - destruct root as [c|es]; [discriminate|].
    destruct (find es name) as [c|] eqn:E; [|discriminate].
    apply IH. eapply wellFormed_entry; [exact Hw|]. exact (find_In _ _ _ E).
Qed.

(** ** getFiles *)

(** The files [walk] returns are the files below [dir] whose name ends with
    the extension. *)
Lemma walk_Dir dir ext es : walk dir (Dir es) ext = flat_map (found dir ext) es.
Proof.
  simpl. induction es as [|[name c] es IH]; [reflexivity|].
  simpl. now rewrite IH.
Qed.

Lemma walk_sound ext : forall n dir p,
  In p (walk dir n ext) ->
  exists rel c, rel <> [] /\ p = (dir ++ rel)%list /\
    endsWith (last rel EmptyString) ext = true /\
    (wellFormed n = true -> lookup n rel = Some (File c)).
Proof.
  induction n as [c|es IH] using node_ind; intros dir p; [contradiction|].
  rewrite walk_Dir, in_flat_map. intros [[name c] [Hin H]].
  rewrite Forall_forall in IH. specialize (IH _ Hin). simpl in IH.
  unfold found in H. simpl in H.
  destruct c as [txt|sub]; simpl in H.
  - destruct (endsWith name ext) eqn:E; [|contradiction].
    destruct H as [<-|[]]. exists [name], txt. repeat split.
    + discriminate.
    + exact E.
    + intros Hw. simpl.
      now rewrite (In_find es name _ (wellFormed_unique _ Hw) Hin).
  - destruct (IH _ _ H) as (rel & txt & Hne & -> & He & Hl).
    exists (name :: rel), txt. repeat split.
    + discriminate.
    + unfold join. now rewrite <- app_assoc.
    + destruct rel; [congruence|exact He].
    + intros Hw. simpl.
      rewrite (In_find es name _ (wellFormed_unique _ Hw) Hin).
      apply Hl. eapply wellFormed_entry; [exact Hw|exact Hin].
Qed.

Lemma walk_complete ext : forall n dir rel c,
  rel <> [] -> lookup n rel = Some (File c) ->
  endsWith (last rel EmptyString) ext = true ->
  In (dir ++ rel)%list (walk dir n ext).
Proof.
  induction n as [c|es IH] using node_ind; intros dir rel txt Hne Hl He.
  - destruct rel; [congruence|discriminate].
  - destruct rel as [|r rel]; [congruence|]. simpl in Hl.
    destruct (find es r) as [c|] eqn:Ef; [|discriminate].
    apply find_In in Ef. rewrite Forall_forall in IH.
    specialize (IH _ Ef). simpl in IH.
    rewrite walk_Dir, in_flat_map. exists (r, c). split; [exact Ef|].
    unfold found. simpl.
    destruct rel as [|r' rel].
    + simpl in Hl. injection Hl as ->. simpl. simpl in He. rewrite He.
      now left.
    + destruct c as [t|sub]; [discriminate|]. simpl.
      unfold join. replace (dir ++ r :: r' :: rel)%list
        with ((dir ++ [r]) ++ r' :: rel)%list by now rewrite <- app_assoc.
      apply (IH _ _ txt); [discriminate|exact Hl|exact He].
Qed.

Lemma last_app {A} (l l' : list A) d : l' <> [] -> last (l ++ l') d = last l' d.
Proof.
  intros H. induction l as [|a l IH]; [reflexivity|].
  simpl. destruct (l ++ l')%list eqn:E; [|exact IH].
  apply app_eq_nil in E. tauto.
Qed.

Lemma getFiles_missing root dir ext :
  lookup root dir = None -> getFiles root dir ext = Ok [].
Proof. unfold getFiles. now intros ->. Qed.

Lemma getFiles_under root dir ext files :
  getFiles root dir ext = Ok files ->
  forall p, In p files -> under dir p /\ endsWith (basename p) ext = true.
Proof.
  unfold getFiles. destruct (lookup root dir) as [[c|es]|] eqn:E;
    intros H p Hp.
  - discriminate.
  - assert (Hf : files = walk dir (Dir es) ext) by congruence.
    rewrite Hf in Hp.
    destruct (walk_sound _ _ _ _ Hp) as (rel & c & Hne & -> & He & _).
    split; [now exists rel|]. unfold basename.
    rewrite last_app by exact Hne. exact He.
  - injection H as <-. contradiction.
Qed.


(** ** writeFile *)

Lemma writeAt_kindAt full c : forall p root root',
  writeAt full root p c = Ok root' ->
  kindAt root' p = Some (Some c) /\
  forall q, q <> p -> kindAt root' q = kindAt root q.
Proof.
  induction p as [|name p IH]; intros root root' H; [discriminate|].
  simpl in H. destruct root as [txt|es]; [discriminate|].
  destruct p as [|name' p'].
  - assert (H' : root' = Dir (setEntry es name (File c))).
    { destruct (find es name) as [[t|sub]|]; congruence. }
    subst root'. split.
    + unfold kindAt. simpl. now rewrite find_setEntry_same.
    + intros [|n q] Hq; [reflexivity|]. unfold kindAt. simpl.
      destruct (String.eqb_spec n name) as [->|Hn].
      * rewrite find_setEntry_same.
        destruct q as [|n' q]; [congruence|]. simpl.
        destruct (find es name) as [[t|sub]|]; [reflexivity|discriminate|reflexivity].
      * now rewrite find_setEntry_other.
  - destruct (find es name) as [child|] eqn:Ef; [|discriminate].
    destruct (writeAt full child (name' :: p') c) as [child'|e] eqn:Ew;
      [|discriminate].
    injection H as <-. destruct (IH _ _ Ew) as [IH1 IH2]. split.
    + unfold kindAt in *. simpl lookup at 1. now rewrite find_setEntry_same.
    + intros [|n q] Hq; [reflexivity|]. unfold kindAt in *. simpl lookup.
      destruct (String.eqb_spec n name) as [->|Hn].
      * rewrite find_setEntry_same, Ef. apply IH2. congruence.
      * now rewrite find_setEntry_other.
Qed.

Lemma writeFile_kindAt root p c root' :
  writeFile root p c = Ok root' ->
  kindAt root' p = Some (Some c) /\
  forall q, q <> p -> kindAt root' q = kindAt root q.
Proof. apply writeAt_kindAt. Qed.

Lemma readFile_kindAt root root' q :
  kindAt root' q = kindAt root q -> readFile root' q = readFile root q.
Proof.
  unfold kindAt, readFile.
  destruct (lookup root' q) as [[c'|es']|], (lookup root q) as [[c|es]|];
    simpl; congruence.
Qed.

Lemma readFile_Ok_kindAt root q c :
  readFile root q = Ok c <-> kindAt root q = Some (Some c).
Proof.
  unfold kindAt, readFile. destruct (lookup root q) as [[c'|es]|]; simpl;
    split; congruence.
Qed.

Lemma uniqueNames_setEntry es name c :
  uniqueNames (map fst es) = true ->
  uniqueNames (map fst (setEntry es name c)) = true.
Proof.
  induction es as [|[n c'] es IH]; simpl; [reflexivity|].
  intros H. apply andb_prop in H. destruct H as [Hn Hu].
  destruct (String.eqb_spec n name) as [->|Hne]; simpl.
  - now rewrite Hn, Hu.
  - rewrite (IH Hu), andb_true_r. apply negb_true_iff.
    apply negb_true_iff in Hn. apply not_true_iff_false.
    apply not_true_iff_false in Hn. intros H. apply Hn.
    apply existsb_eqb_In. apply existsb_eqb_In in H.
    clear -H Hne. induction es as [|[m c''] es IH]; simpl in *.
    + destruct H as [H|[]]. congruence.
    + destruct (String.eqb_spec m name) as [->|]; simpl in *; tauto.
Qed.

Lemma wellFormed_Dir es :
  wellFormed (Dir es) = true <->
  uniqueNames (map fst es) = true /\ Forall (fun e => wellFormed (snd e) = true) es.
Proof.
  simpl. rewrite andb_true_iff. apply and_iff_compat_l.
  induction es as [|e es IH]; [split; [constructor|reflexivity]|].
  rewrite andb_true_iff, IH. split.
  - intros [H1 H2]. now constructor.
  - intros H. inversion H; subst. tauto.
Qed.

Lemma Forall_setEntry (P : string * node -> Prop) es name c :
  Forall P es -> P (name, c) -> (forall n c', n = name -> P (n, c') -> P (n, c)) ->
  Forall P (setEntry es name c).
Proof.
  intros H Hc Hr. induction es as [|[n c'] es IH]; simpl.
  - now constructor.
  - inversion H; subst. destruct (String.eqb_spec n name) as [->|].
    + constructor; [|assumption]. exact Hc.
    + constructor; [assumption|now apply IH].
Qed.

Lemma wellFormed_setEntry es name c :
  wellFormed (Dir es) = true -> wellFormed c = true ->
  wellFormed (Dir (setEntry es name c)) = true.
Proof.
  rewrite !wellFormed_Dir. intros [Hu Hall] Hc. split.
  - now apply uniqueNames_setEntry.
  - apply Forall_setEntry; auto.
Qed.

Lemma writeAt_wellFormed full c : forall p root root',
  wellFormed root = true -> writeAt full root p c = Ok root' ->
  wellFormed root' = true.
Proof.
  induction p as [|name p IH]; intros root root' Hw H; [discriminate|].
  simpl in H. destruct root as [txt|es]; [discriminate|].
  destruct p as [|name' p'].
  - assert (H' : root' = Dir (setEntry es name (File c))).
    { destruct (find es name) as [[t|sub]|]; congruence. }
    subst root'. now apply wellFormed_setEntry.
  - destruct (find es name) as [child|] eqn:Ef; [|discriminate].
    destruct (writeAt full child (name' :: p') c) as [child'|e] eqn:Ew;
      [|discriminate].
    injection H as <-. apply wellFormed_setEntry; [exact Hw|].
    apply (IH _ _ (wellFormed_entry _ _ _ Hw (find_In _ _ _ Ef)) Ew).
Qed.

Lemma lookup_snoc : forall dir root name n,
  lookup root (dir ++ [name])%list = Some n ->
  exists es, lookup root dir = Some (Dir es) /\ find es name = Some n.
Proof.
  induction dir as [|d dir IH]; intros root name n; simpl.
  - destruct root as [c|es]; [discriminate|].
    destruct (find es name) as [c|] eqn:E; [|discriminate].
    intros [= ->]. now exists es.
  - destruct root as [c|es]; [discriminate|].
    destruct (find es d) as [c|]; [|discriminate]. apply IH.
Qed.

Lemma unique_count es name n :
  uniqueNames (map fst es) = true -> find es name = Some n ->
  length (filter (fun e => fst e =? name) es) = 1.
Proof.
  induction es as [|[m c] es IH]; simpl; [discriminate|].
  intros Hu. apply andb_prop in Hu. destruct Hu as [Hm Hu].
  destruct (String.eqb_spec m name) as [->|Hne].
  - intros _. simpl. f_equal. apply negb_true_iff in Hm.
    clear -Hm. induction es as [|[m c] es IH]; [reflexivity|].
    simpl in *. apply orb_false_elim in Hm. destruct Hm as [H1 H2].
    rewrite String.eqb_sym, H1. now apply IH.
  - now apply IH.
Qed.

Lemma entryCount_one root dir name n :
  wellFormed root = true -> lookup root (join dir name) = Some n ->
  entryCount root dir name = 1.
Proof.
  intros Hw Hl. destruct (lookup_snoc _ _ _ _ Hl) as (es & Hd & Hf).
  unfold entryCount. rewrite Hd. eapply unique_count; [|exact Hf].
  apply wellFormed_unique. eapply wellFormed_lookup; [exact Hw|exact Hd].
Qed.


Lemma endsWith_nil suffix : endsWith EmptyString suffix = true -> suffix = EmptyString.
Proof.
  cbn [endsWith]. rewrite orb_false_r. intros H.
  apply String.eqb_eq in H. congruence.
Qed.

Lemma endsWith_lastChar s suffix :
  endsWith s suffix = true -> suffix <> EmptyString -> lastChar s = lastChar suffix.
Proof.
  intros H Hne. induction s as [|c s IH].
  - apply endsWith_nil in H. congruence.
  - cbn [endsWith] in H. apply orb_prop in H. destruct H as [H|H].
    + apply String.eqb_eq in H. now subst.
    + destruct s as [|d s'].
      * apply endsWith_nil in H. congruence.
      * rewrite <- (IH H). reflexivity.
Qed.

(** ** The extension of a name *)

Lemma chars_append a b :
  list_ascii_of_string (a ++ b)
  = (list_ascii_of_string a ++ list_ascii_of_string b)%list.
Proof. induction a as [|c a IH]; [reflexivity|]. simpl. now rewrite IH. Qed.

Lemma chars_length s : length (list_ascii_of_string s) = String.length s.
Proof. induction s as [|c s IH]; [reflexivity|]. simpl. now rewrite IH. Qed.

Lemma length_append a b : String.length (a ++ b) = String.length a + String.length b.
Proof. induction a as [|c a IH]; [reflexivity|]. simpl. now rewrite IH. Qed.

Lemma substring_whole s : substring 0 (String.length s) s = s.
Proof. induction s as [|c s IH]; [reflexivity|]. simpl. now rewrite IH. Qed.

Lemma substring_append a b :
  substring (String.length a) (String.length b) (a ++ b) = b.
Proof. induction a as [|c a IH]; [apply substring_whole|exact IH]. Qed.

Lemma dotless_chars s :
  dotless s = true ->
  Forall (fun c => Ascii.eqb c "." = false) (list_ascii_of_string s).
Proof.
  induction s as [|c s IH]; intros H; [constructor|].
  simpl in H. apply andb_true_iff in H. destruct H as [Hc Hs].
  constructor; [now apply negb_true_iff|now apply IH].
Qed.

(** The scan over characters that are no dots, before any dot was seen. *)
Lemma extScan_dotless l : forall tail i pds,
  Forall (fun c => Ascii.eqb c "." = false) l ->
  extScan (l ++ tail) i None pds = extScan tail (i - length l) None pds.
Proof.
  induction l as [|c l IH]; intros tail i pds H.
  - simpl. now rewrite Nat.sub_0_r.
  - inversion H as [|? ? Hc Hl]; subst. cbn [app extScan]. rewrite Hc.
    rewrite IH by exact Hl. f_equal. simpl. lia.
Qed.

(** The scan behind the last dot: what was seen last decides. *)
Lemma extScan_behind l : forall i d pds,
  l <> [] ->
  exists s, extScan l i (Some d) pds = (Some d, s) /\ (s = 1 \/ s = -1)%Z.
Proof.
  induction l as [|c l IH]; intros i d pds H; [contradiction|].
  cbn [extScan]. destruct l as [|c' l'].
  - destruct (Ascii.eqb c "."); cbn [extScan]; eexists; split; eauto.
  - destruct (Ascii.eqb c "."); apply IH; discriminate.
Qed.

(** [path.extname] of a name with something before its last dot and
    something behind it: the name from that dot on. *)
Lemma extnameOf_stem stem rest :
  stem <> EmptyString -> rest <> EmptyString -> dotless rest = true ->
  extnameOf (stem ++ String "." rest) = String "." rest.
Proof.
  intros Hs Hr Hd. unfold extnameOf.
  rewrite chars_append, rev_app_distr. cbn [list_ascii_of_string rev].
  rewrite <- app_assoc. cbn [app].
  rewrite extScan_dotless
    by (apply Forall_rev; now apply dotless_chars).
  rewrite length_rev, chars_length, length_append. cbn [String.length].
  cbn [extScan]. rewrite Ascii.eqb_refl.
  replace (String.length stem + S (String.length rest) - 1 - String.length rest)
    with (String.length stem) by lia.
  destruct (extScan_behind (rev (list_ascii_of_string stem))
              (String.length stem - 1) (String.length stem) 0%Z) as (s & -> & Hsgn).
  { destruct stem; [contradiction|]. simpl. now destruct (rev _). }
  assert (Hlen : String.length rest <> 0) by (destruct rest; [contradiction|discriminate]).
  replace (s =? 0)%Z with false by (symmetry; apply Z.eqb_neq; lia).
  replace (String.length stem =? String.length stem + S (String.length rest) - 1)%nat
    with false by (symmetry; apply Nat.eqb_neq; lia).
  rewrite andb_false_r. cbn [orb andb].
  replace (String.length stem + S (String.length rest) - String.length stem)
    with (String.length (String "." rest)) by (simpl; lia).
  apply substring_append.
Qed.

Lemma extname_stem p stem rest :
  basename p = stem ++ String "." rest ->
  stem <> EmptyString -> rest <> EmptyString -> dotless rest = true ->
  extname p = String "." rest.
Proof. intros Hb Hs Hr Hd. unfold extname. rewrite Hb. now apply extnameOf_stem. Qed.

Lemma extname_html p stem :
  basename p = stem ++ ".html" -> stem <> EmptyString -> extname p = ".html".
Proof. intros Hb Hs. now apply (extname_stem p stem "html"). Qed.

Lemma extname_scss p stem :
  basename p = stem ++ ".scss" -> stem <> EmptyString -> extname p = ".scss".
Proof. intros Hb Hs. now apply (extname_stem p stem "scss"). Qed.

Lemma extname_css p stem :
  basename p = stem ++ ".css" -> stem <> EmptyString -> extname p = ".css".
Proof. intros Hb Hs. now apply (extname_stem p stem "css"). Qed.

Lemma extname_ts p stem :
  basename p = stem ++ ".ts" -> stem <> EmptyString -> extname p = ".ts".
Proof. intros Hb Hs. now apply (extname_stem p stem "ts"). Qed.

Lemma extname_js p stem :
  basename p = stem ++ ".js" -> stem <> EmptyString -> extname p = ".js".
Proof. intros Hb Hs. now apply (extname_stem p stem "js"). Qed.

(** [path.extname] of a name that is a dot and an extension, nothing before
    the dot: no extension. *)
Lemma extnameOf_bare rest :
  dotless rest = true -> extnameOf (String "." rest) = EmptyString.
Proof.
  intros Hd. unfold extnameOf. cbn [list_ascii_of_string rev].
  rewrite extScan_dotless by (apply Forall_rev; now apply dotless_chars).
  cbn [extScan]. rewrite Ascii.eqb_refl. reflexivity.
Qed.

Lemma extname_bare p rest :
  basename p = String "." rest -> dotless rest = true -> extname p = EmptyString.
Proof. intros Hb Hd. unfold extname. rewrite Hb. now apply extnameOf_bare. Qed.

(** What a scan lists can be read, on a tree in which no directory lists a
    name twice. *)
Lemma getFiles_readable root dir ext files f :
  wellFormed root = true -> getFiles root dir ext = Ok files -> In f files ->
  exists c, readFile root f = Ok c.
Proof.
  unfold getFiles. intros Hw.
  destruct (lookup root dir) as [[c|es]|] eqn:E; intros H Hin.
  - discriminate.
  - assert (Hf : files = walk dir (Dir es) ext) by congruence.
    rewrite Hf in Hin.
    destruct (walk_sound _ _ _ _ Hin) as (rel & c & _ & -> & _ & Hl).
    exists c. unfold readFile. rewrite (lookup_app _ _ rel _ E).
    now rewrite (Hl (wellFormed_lookup _ _ _ Hw E)).
  - injection H as <-. contradiction.
Qed.

End FsFacts.

(* ================================================================== *)
(** * Facts about the bundler *)
(* ================================================================== *)

Module BundlerFacts.
Import Js Path Fs Io Bundler FsProps IoProps BundlerProps FsFacts IoFacts.
Local Open Scope string_scope.

Ltac unfold_tasks :=
  unfold processHTML, processStyles, processScripts, processAssets,
    processData, startDevServer, onReady, copyDirectory, getFiles, readFile,
    writeFile, copyFile, readdir, pathExists, ensureDir, log, logError, now.

Ltac no_exit :=
  repeat first
    [ exact I
    | apply noExit_perform
    | apply noExit_attempt
    | apply noExit_bind; [|intros ?]
    | apply noExit_tryCatch; [|intros ?]
    | apply noExit_forEach; intros ?
    | match goal with
      | |- noExit (if ?b then _ else _) => destruct b
      | |- noExit (match ?x with _ => _ end) => destruct x
      end ].

Ltac ops_all :=
  repeat first
    [ exact I
    | apply opsAll_perform; reflexivity
    | apply opsAll_attempt; reflexivity
    | apply opsAll_bind; [|intros ?]
    | apply opsAll_tryCatch; [|intros ?]
    | apply opsAll_forEach; intros ?
    | match goal with
      | |- opsAll _ (if ?b then _ else _) => destruct b
      | |- opsAll _ (match ?x with _ => _ end) => destruct x
      end ].

Lemma noExit_ensureDir p : noExit (ensureDir p).
Proof. unfold_tasks. no_exit. Qed.

Lemma noExit_copyDirectoryTo : forall depth src dest,
  noExit (copyDirectoryTo depth src dest).
Proof.
  induction depth as [|d IH]; intros src dest; [exact I|].
  cbn [copyDirectoryTo].
  apply noExit_bind; [apply noExit_ensureDir|]. intros _.
  unfold_tasks. no_exit. apply IH.
Qed.

Lemma opsAll_copyDirectoryTo (Q : forall X, op X -> bool) :
  (forall p, Q _ (Mkdir p) = true) -> (forall p, Q _ (Readdir p) = true) ->
  (forall a b, Q _ (CopyFile a b) = true) ->
  forall depth src dest, opsAll Q (copyDirectoryTo depth src dest).
Proof.
  intros H1 H2 H3. induction depth as [|d IH]; intros src dest; [exact I|].
  cbn [copyDirectoryTo]. unfold_tasks. apply opsAll_bind.
  - apply opsAll_tryCatch; [apply opsAll_attempt, H1|]. intros e. ops_all.
  - intros _. apply opsAll_bind; [apply opsAll_attempt, H2|]. intros es.
    apply opsAll_forEach. intros [name [|]]; simpl; [apply IH|].
    apply opsAll_attempt, H3.
Qed.

Section Tasks.
Variable pathMax : nat.
Variable o : options.

Lemma noExit_processHTML : noExit (processHTML o).
Proof. unfold_tasks. no_exit. Qed.

Lemma noExit_processStyles : noExit (processStyles o).
Proof. unfold_tasks. no_exit. Qed.

Lemma noExit_processScripts : noExit (processScripts o).
Proof. unfold_tasks. no_exit. Qed.

Lemma noExit_processAssets : noExit (processAssets pathMax o).
Proof. unfold_tasks. no_exit. apply noExit_copyDirectoryTo. Qed.

Lemma noExit_processData : noExit (processData pathMax o).
Proof. unfold_tasks. no_exit. apply noExit_copyDirectoryTo. Qed.

Lemma noExit_route filePath : noExit (route pathMax o filePath).
Proof.
  unfold route.
  apply noExit_bind; [|intros _; apply noExit_perform].
  repeat match goal with
         | |- noExit (if ?b then _ else _) => destruct b
         end;
    try (apply noExit_bind; [|intros _; apply noExit_perform]);
    auto using noExit_processHTML, noExit_processStyles, noExit_processScripts,
      noExit_processAssets, noExit_processData.
  exact I.
Qed.

Lemma notExec_processHTML : opsAll notExecOp (processHTML o).
Proof. unfold_tasks. ops_all. Qed.

Lemma notExec_processStyles : opsAll notExecOp (processStyles o).
Proof. unfold_tasks. ops_all. Qed.

Lemma notExec_processAssets : opsAll notExecOp (processAssets pathMax o).
Proof. unfold_tasks. ops_all. now apply opsAll_copyDirectoryTo. Qed.

Lemma notExec_processData : opsAll notExecOp (processData pathMax o).
Proof. unfold_tasks. ops_all. now apply opsAll_copyDirectoryTo. Qed.

Lemma notExec_startDevServer : opsAll notExecOp (startDevServer o).
Proof. unfold_tasks. ops_all. Qed.

Lemma notMark_processHTML : opsAll notMarkOp (processHTML o).
Proof. unfold_tasks. ops_all. Qed.

Lemma notMark_processStyles : opsAll notMarkOp (processStyles o).
Proof. unfold_tasks. ops_all. Qed.

Lemma notMark_processScripts : opsAll notMarkOp (processScripts o).
Proof. unfold_tasks. ops_all. Qed.

Lemma notMark_processAssets : opsAll notMarkOp (processAssets pathMax o).
Proof. unfold_tasks. ops_all. now apply opsAll_copyDirectoryTo. Qed.

Lemma notMark_processData : opsAll notMarkOp (processData pathMax o).
Proof. unfold_tasks. ops_all. now apply opsAll_copyDirectoryTo. Qed.

Lemma notMark_startDevServer : opsAll notMarkOp (startDevServer o).
Proof. unfold_tasks. ops_all. Qed.

End Tasks.

(** ** The orchestrator *)

Lemma build_unfold pathMax o :
  build pathMax o =
  (log MBuildStart ;;
   startTime <- now ;;
   tryCatch (buildTry pathMax o startTime)
     (fun error => logError (MBuildError error) ;; Exit 1%Z)).
Proof. reflexivity. Qed.

Lemma bracket_cons name names :
  bracket (name :: names) =
  ELog (MProcessing name) :: ELog (MProcessed name) :: bracket names.
Proof. reflexivity. Qed.

Lemma marks_app a b : marks (a ++ b) = (marks a ++ marks b)%list.
Proof. apply filter_app. Qed.

Lemma calm_app a b : calm (a ++ b) <-> calm a /\ calm b.
Proof. apply Forall_app. Qed.

Section Runs.

Variable sass : node -> path -> bool -> result (jsstring * option jsstring).
Variable tsc : node -> path -> path -> node * option error.
Variable pathMax : nat.
Variable o : options.

Abbreviation run := (Io.run sass tsc pathMax).
Abbreviation exec := (Io.exec sass tsc pathMax).
Abbreviation execFate := (BundlerProps.execFate o).
Abbreviation ran := (BundlerProps.ran sass tsc pathMax).
Abbreviation ran_nil := (BundlerProps.ran_nil sass tsc pathMax).
Abbreviation ran_next := (BundlerProps.ran_next sass tsc pathMax).
Abbreviation ran_stop := (BundlerProps.ran_stop sass tsc pathMax).
Abbreviation orderly := (BundlerProps.orderly sass tsc pathMax o).
Abbreviation fromSource := (BundlerProps.fromSource o).
Abbreviation markupEvent := (BundlerProps.markupEvent o).
Abbreviation markupBody := (BundlerProps.markupBody o).
Abbreviation markupTrace := (BundlerProps.markupTrace o).
Abbreviation otherOutput := (BundlerProps.otherOutput o).

(** ** A failing compiler run *)

Lemma fate_quiet {A} (p : prog A) w : opsAll notExecOp p -> execFate (run p w).
Proof.
  intros H. left. unfold calm.
  apply (opsAll_events sass tsc pathMax notExecOp); [|exact H].
  intros X op0 x. destruct op0; simpl; try reflexivity. discriminate.
Qed.

Lemma fate_bind {A B} (p : prog A) (f : A -> prog B) w :
  execFate (run p w) -> (forall a w1, execFate (run (f a) w1)) ->
  execFate (run (bind p f) w).
Proof.
  intros Hp Hf. rewrite run_bind.
  destruct (run p w) as [[r w1] evs] eqn:E.
  unfold execFate, eventsOf, outcomeOf in *. simpl in *.
  destruct Hp as [Hc|(file & e & pre & -> & -> & Hpre)].
  - destruct r as [a|e|c]; simpl; [|now left|now left].
    specialize (Hf a w1). destruct (run (f a) w1) as [[r2 w2] evs2]. simpl in *.
    destruct Hf as [Hc2|(file & e & pre & -> & -> & Hpre)].
    + left. apply calm_app. now split.
    + right. exists file, e, (evs ++ pre)%list. repeat split.
      * now rewrite app_assoc.
      * apply calm_app. now split.
  - right. exists file, e, pre. repeat split. exact Hpre.
Qed.

Lemma fate_forEach {A} (xs : list A) body :
  (forall x, In x xs -> forall w, execFate (run (body x) w)) ->
  forall w, execFate (run (forEach xs body) w).
Proof.
  induction xs as [|x xs IH]; intros Hb w.
  - left. constructor.
  - simpl forEach. apply fate_bind; [apply Hb; now left|].
    intros _ w1. apply IH. intros y Hy. apply Hb. now right.
Qed.

Lemma fate_compile file w :
  execFate
    (run (tryCatch
            (attempt (ExecTsc file (distDir o)) ;;
             log (MTsCompiled (basenameExt file ".ts" ++ ".js")))
            (fun error =>
               logError (MTsError file (message error)) ;; Throw error)) w).
Proof.
  unfold execFate, eventsOf, outcomeOf, attempt, log, logError, perform. simpl.
  destruct (tsc (tree w) file (distDir o)) as [t [e|]]; simpl.
  - right. exists file, e, []. repeat split. constructor.
  - left. repeat constructor.
Qed.

Lemma fate_processScripts w : execFate (run (processScripts o) w).
Proof.
  unfold processScripts.
  apply fate_bind; [apply fate_quiet; unfold_tasks; ops_all|]. intros tsFiles w1.
  apply fate_bind; [apply fate_quiet; unfold_tasks; ops_all|]. intros jsFiles w2.
  apply fate_bind.
  - apply fate_forEach. intros file _ w3. apply fate_compile.
  - intros _ w3. apply fate_quiet. unfold_tasks. ops_all.
Qed.

Lemma fate_buildTry startTime w : execFate (run (buildTry pathMax o startTime) w).
Proof.
  unfold buildTry.
  do 3 (apply fate_bind; [apply fate_quiet; unfold_tasks; ops_all|]; intros _ ?).
  apply fate_bind.
  - apply fate_forEach. intros entry Hin w'.
    apply fate_bind; [apply fate_quiet; unfold_tasks; ops_all|]. intros _ ?.
    apply fate_bind; [|intros _ ?; apply fate_quiet; unfold_tasks; ops_all].
    simpl in Hin.
    destruct Hin as [<-|[<-|[<-|[<-|[<-|[]]]]]]; cbn [fst snd].
    + apply fate_quiet, notExec_processHTML.
    + apply fate_quiet, notExec_processStyles.
    + apply fate_processScripts.
    + apply fate_quiet, notExec_processAssets.
    + apply fate_quiet, notExec_processData.
  - intros _ w'.
    apply fate_bind; [apply fate_quiet; unfold_tasks; ops_all|]. intros endTime ?.
    apply fate_bind; [apply fate_quiet; unfold_tasks; ops_all|]. intros _ ?.
    apply fate_quiet. destruct (dev o); [apply notExec_startDevServer|exact I].
Qed.

Lemma run_build w :
  run (build pathMax o) w =
  let '(r, w1, evs) :=
    orElse (run (buildTry pathMax o (time w)) w)
      (fun e w' => run (logError (MBuildError e) ;; Exit 1%Z) w') in
  (r, w1, ELog MBuildStart :: ENow :: evs).
Proof.
  rewrite build_unfold, run_bind, run_log. cbn [andThen].
  rewrite run_bind. unfold now. rewrite run_perform.
  cbn [andThen Io.exec fst snd]. rewrite run_tryCatch.
  destruct (orElse _ _) as [[r w1] evs]. reflexivity.
Qed.

(** The build after a failing compiler run: the error is reported twice, with
    the file and with the error itself, and the process exits with status 1. *)
Lemma build_fate w :
  calm (eventsOf (run (build pathMax o) w)) \/
  exists file e pre,
    outcomeOf (run (build pathMax o) w) = Exited 1%Z /\
    eventsOf (run (build pathMax o) w) =
      (pre ++ [EExec file (distDir o) (Err e);
               EError (MTsError file (message e));
               EError (MBuildError e)])%list /\
    calm pre.
Proof.
  remember (run (build pathMax o) w) as x eqn:Hx. rewrite run_build in Hx.
  pose proof (fate_buildTry (time w) w) as H.
  destruct (run (buildTry pathMax o (time w)) w) as [[r w1] evs].
  unfold execFate, eventsOf, outcomeOf in *. simpl in H.
  destruct H as [Hc|(file & e & pre & -> & -> & Hpre)].
  - left. subst x. destruct r as [a|e|c]; simpl.
    + repeat constructor. exact Hc.
    + repeat constructor. apply calm_app. split; [exact Hc|repeat constructor].
    + repeat constructor. exact Hc.
  - right. exists file, e, (ELog MBuildStart :: ENow :: pre). subst x. simpl.
    repeat split.
    + do 2 f_equal. rewrite <- app_assoc. reflexivity.
    + repeat constructor. exact Hpre.
Qed.

(** ** The task loop of [build] *)

Lemma run_taskBody name task w :
  run (taskBody (name, task)) w =
  let '(r, w1, evs1) := run task w in
  match r with
  | Done _ =>
      (Done tt, w1, ELog (MProcessing name) :: evs1 ++ [ELog (MProcessed name)])
  | Thrown e => (Thrown e, w1, ELog (MProcessing name) :: evs1)
  | Exited c => (Exited c, w1, ELog (MProcessing name) :: evs1)
  end.
Proof.
  unfold taskBody. cbn [fst snd]. rewrite run_bind, run_log. cbn [andThen].
  rewrite run_bind. destruct (run task w) as [[r w1] evs1]. cbn [andThen].
  destruct r as [[]|e|c]; reflexivity.
Qed.

Lemma loop_ran ts : forall w,
  ran ts w (outcomeOf (run (forEach ts taskBody) w))
    (worldOf (run (forEach ts taskBody) w))
    (eventsOf (run (forEach ts taskBody) w)).
Proof.
  induction ts as [|[name task] ts IH]; intros w; [constructor|].
  cbn [forEach]. rewrite run_bind, run_taskBody.
  destruct (run task w) as [[r w1] evs1] eqn:E.
  destruct r as [[]|e|c]; cbn [andThen].
  - specialize (IH w1).
    destruct (run (forEach ts taskBody) w1) as [[r2 w2] evs2].
    unfold outcomeOf, worldOf, eventsOf in *. cbn in *.
    rewrite <- app_assoc. cbn. eapply ran_next; eauto.
  - unfold outcomeOf, worldOf, eventsOf. cbn.
    eapply ran_stop; [exact E|discriminate].
  - unfold outcomeOf, worldOf, eventsOf. cbn.
    eapply ran_stop; [exact E|discriminate].
Qed.

Lemma marks_quiet {A} (p : prog A) w :
  opsAll notMarkOp p -> marks (eventsOf (run p w)) = [].
Proof.
  intros H.
  assert (Hf : Forall (fun ev => isMarkEvent ev = false) (eventsOf (run p w))).
  { apply (opsAll_events sass tsc pathMax notMarkOp); [|exact H].
    intros X op0 x. destruct op0; simpl; try reflexivity.
    unfold notMarkOp. simpl. now intros ->%negb_true_iff. }
  unfold marks. induction Hf as [|ev evs Hev _ IH]; [reflexivity|].
  simpl. now rewrite Hev.
Qed.

Lemma ran_marks ts w r w' evs :
  ran ts w r w' evs ->
  Forall (fun entry => opsAll notMarkOp (snd entry)) ts ->
  (r = Done tt /\ marks evs = bracket (map fst ts)) \/
  (r <> Done tt /\
   exists n, n < length (bracket (map fst ts)) /\
             marks evs = firstn n (bracket (map fst ts))).
Proof.
  induction 1 as [w|name task ts w w1 evs1 r w2 evs2 Hrun Hran IH
                 |name task ts w r w1 evs1 Hrun Hr]; intros Hq.
  - now left.
  - inversion Hq as [|? ? Hq1 Hq2]; subst. cbn [snd] in Hq1.
    pose proof (marks_quiet task w Hq1) as Hm. rewrite Hrun in Hm.
    unfold eventsOf in Hm. cbn [snd] in Hm.
    assert (Heq : marks (ELog (MProcessing name) :: evs1 ++ ELog (MProcessed name) :: evs2)
                  = ELog (MProcessing name) :: ELog (MProcessed name) :: marks evs2).
    { unfold marks in *. cbn. rewrite filter_app, Hm. reflexivity. }
    rewrite Heq. cbn [map fst]. rewrite bracket_cons.
    destruct (IH Hq2) as [[-> H2]|[Hr (n & Hn & H2)]].
    + left. split; [reflexivity|]. now rewrite H2.
    + right. split; [exact Hr|]. exists (S (S n)). cbn [length firstn].
      split; [lia|]. now rewrite H2.
  - inversion Hq as [|? ? Hq1 Hq2]; subst. cbn [snd] in Hq1.
    pose proof (marks_quiet task w Hq1) as Hm. rewrite Hrun in Hm.
    unfold eventsOf in Hm. cbn [snd] in Hm.
    right. split; [exact Hr|]. exists 1. cbn [map fst]. rewrite bracket_cons.
    cbn [length firstn]. split; [lia|].
    unfold marks in *. cbn. now rewrite Hm.
Qed.

Lemma tasks_quiet :
  Forall (fun entry => opsAll notMarkOp (snd entry)) (tasks pathMax o).
Proof.
  unfold tasks. repeat constructor; cbn [snd].
  - apply notMark_processHTML.
  - apply notMark_processStyles.
  - apply notMark_processScripts.
  - apply notMark_processAssets.
  - apply notMark_processData.
Qed.

Lemma orderly_prefix {A} (p : prog A) (k : prog unit) w :
  opsAll notMarkOp p ->
  (forall w1, orderly (outcomeOf (run k w1)) (eventsOf (run k w1))) ->
  orderly (outcomeOf (run (p ;; k) w)) (eventsOf (run (p ;; k) w)).
Proof.
  intros Hq Hk. rewrite run_bind. pose proof (marks_quiet p w Hq) as Hm.
  destruct (run p w) as [[r w1] evs]. unfold eventsOf in Hm. cbn [snd] in Hm.
  cbn [andThen]. destruct r as [a|e|c].
  - specialize (Hk w1). destruct (run k w1) as [[r2 w2] evs2].
    unfold outcomeOf, eventsOf in *. cbn [fst snd] in *.
    destruct Hk as [(-> & H2 & pre & post & w0 & w5 & loop & -> & Hran & Hp & Hpost)
                   |(Hr & (n & Hn & H2) & Hs)].
    + left. split; [reflexivity|]. split; [now rewrite marks_app, Hm|].
      exists (evs ++ pre)%list, post, w0, w5, loop. repeat split; auto.
      * now rewrite <- app_assoc.
      * now rewrite marks_app, Hm, Hp.
    + right. split; [exact Hr|]. split.
      * exists n. split; [exact Hn|]. now rewrite marks_app, Hm.
      * destruct Hs as [Hs|(pre & post & w0 & w5 & r' & loop & -> & Hran & Hr'
                            & Hp & Hpost)].
        -- left. now rewrite marks_app, Hm.
        -- right. exists (evs ++ pre)%list, post, w0, w5, r', loop.
           repeat split; auto.
           ++ now rewrite <- app_assoc.
           ++ now rewrite marks_app, Hm, Hp.
  - right. unfold outcomeOf, eventsOf. cbn [fst snd]. split; [discriminate|].
    split; [|now left]. exists 0. split; [cbn; lia|exact Hm].
  - right. unfold outcomeOf, eventsOf. cbn [fst snd]. split; [discriminate|].
    split; [|now left]. exists 0. split; [cbn; lia|exact Hm].
Qed.

Lemma orderly_buildTry startTime w :
  orderly (outcomeOf (run (buildTry pathMax o startTime) w))
          (eventsOf (run (buildTry pathMax o startTime) w)).
Proof.
  unfold buildTry.
  do 3 (apply orderly_prefix; [unfold_tasks; ops_all|]; intros ?).
  rewrite run_bind. fold taskBody.
  pose proof (loop_ran (tasks pathMax o) w2) as Hran.
  pose proof (ran_marks _ _ _ _ _ Hran tasks_quiet) as Hm.
  destruct (run (forEach (tasks pathMax o) taskBody) w2) as [[r w3] evs].
  unfold outcomeOf, worldOf, eventsOf in Hran, Hm. cbn [fst snd] in Hran, Hm.
  cbn [andThen]. destruct r as [[]|e|c].
  - destruct Hm as [[_ Hm]|[Hr _]]; [|congruence].
    set (tail := (endTime <- now ;;
                  log (MBuildDone (endTime - startTime)) ;;
                  if dev o then startDevServer o else Ret tt)).
    assert (Ht : outcomeOf (run tail w3) = Done tt /\
                 marks (eventsOf (run tail w3)) = []).
    { unfold tail. destruct (dev o); split; reflexivity. }
    destruct (run tail w3) as [[r4 w4] evs4].
    unfold outcomeOf, eventsOf in *. cbn [fst snd] in *. destruct Ht as [-> Ht].
    left. split; [reflexivity|]. split.
    + rewrite marks_app, Hm, Ht, app_nil_r. reflexivity.
    + exists [], evs4, w2, w3, evs. repeat split; auto.
  - right. unfold outcomeOf, eventsOf. cbn [fst snd]. split; [discriminate|].
    destruct Hm as [[Hr _]|[_ Hm]]; [congruence|]. split; [exact Hm|].
    right. exists [], [], w2, w3, (Thrown e), evs. rewrite app_nil_r.
    repeat split; auto. discriminate.
  - right. unfold outcomeOf, eventsOf. cbn [fst snd]. split; [discriminate|].
    destruct Hm as [[Hr _]|[_ Hm]]; [congruence|]. split; [exact Hm|].
    right. exists [], [], w2, w3, (Exited c), evs. rewrite app_nil_r.
    repeat split; auto. discriminate.
Qed.

Lemma noExit_buildTry startTime : noExit (buildTry pathMax o startTime).
Proof.
  unfold buildTry.
  do 3 (apply noExit_bind; [apply noExit_ensureDir|]; intros _).
  apply noExit_bind.
  - apply noExit_forEach_In. intros entry Hin.
    apply noExit_bind; [apply noExit_perform|]. intros _.
    apply noExit_bind; [|intros _; apply noExit_perform].
    simpl in Hin. destruct Hin as [<-|[<-|[<-|[<-|[<-|[]]]]]]; cbn [snd].
    + apply noExit_processHTML.
    + apply noExit_processStyles.
    + apply noExit_processScripts.
    + apply noExit_processAssets.
    + apply noExit_processData.
  - intros _. unfold_tasks. no_exit.
Qed.

Lemma orderly_build w :
  (outcomeOf (run (build pathMax o) w) = Done tt \/
   outcomeOf (run (build pathMax o) w) = Exited 1%Z) /\
  orderly (outcomeOf (run (build pathMax o) w))
          (eventsOf (run (build pathMax o) w)).
Proof.
  rewrite run_build.
  pose proof (orderly_buildTry (time w) w) as H.
  pose proof (noExit_run sass tsc pathMax (buildTry pathMax o (time w)) w) as Hx.
  specialize (fun c => Hx c (noExit_buildTry (time w))).
  destruct (run (buildTry pathMax o (time w)) w) as [[r w1] evs].
  unfold outcomeOf, eventsOf in *. cbn [fst snd] in H, Hx.
  destruct H as [(-> & H2 & pre & post & w0 & w5 & loop & -> & Hran & Hp & Hpost)
                |(Hr & (n & Hn & H2) & Hs)].
  - cbn. split; [now left|]. left. split; [reflexivity|]. split; [exact H2|].
    exists (ELog MBuildStart :: ENow :: pre), post, w0, w5, loop.
    repeat split; auto.
  - destruct r as [[]|e|c]; [congruence| |exfalso; now apply (Hx c)].
    cbn. split; [now right|]. right. split; [discriminate|].
    assert (Hm : forall l, marks (ELog MBuildStart :: ENow
                                  :: l ++ [EError (MBuildError e)])
                           = marks l).
    { intros l. unfold marks. cbn. rewrite filter_app. cbn. apply app_nil_r. }
    split.
    + exists n. split; [exact Hn|]. now rewrite Hm.
    + destruct Hs as [Hs|(pre & post & w0 & w5 & r' & loop & -> & Hran & Hr'
                          & Hp & Hpost)].
      * left. now rewrite Hm.
      * right. exists (ELog MBuildStart :: ENow :: pre),
          (post ++ [EError (MBuildError e)])%list, w0, w5, r', loop.
        repeat split; auto.
        -- cbn. now rewrite <- !app_assoc.
        -- rewrite marks_app, Hpost. reflexivity.
Qed.

(** ** What an execution leaves untouched *)

Lemma store_guarded_kindAt w p c r w' q :
  store w (guarded pathMax p (Fs.writeFile (tree w) p c)) = (r, w') ->
  p <> q -> kindAt (tree w') q = kindAt (tree w) q.
Proof.
  unfold guarded. destruct (pathMax <? length p)%nat.
  - simpl. now intros [= _ <-].
  - destruct (Fs.writeFile (tree w) p c) as [t|e] eqn:E; simpl.
    + intros [= _ <-] Hq. simpl.
      destruct (writeFile_kindAt _ _ _ _ E) as [_ H]. apply H. congruence.
    + now intros [= _ <-].
Qed.

Lemma run_spares {A} (p : prog A) q : forall w,
  Forall (spares q) (eventsOf (run p w)) ->
  kindAt (tree (worldOf (run p w))) q = kindAt (tree w) q.
Proof.
  induction p as [a|e|c|X op0 k IH]; intros w; try reflexivity.
  simpl. destruct (Io.exec sass tsc pathMax op0 w) as [x w1] eqn:E.
  specialize (IH x w1). destruct (run (k x) w1) as [[r w2] evs].
  unfold eventsOf, worldOf in *. cbn [fst snd] in *.
  intros H. inversion H as [|? ? Hev Hevs]; subst.
  rewrite (IH Hevs). clear IH H Hevs.
  destruct op0; simpl in E, Hev;
    try (injection E as <- <-; reflexivity); try contradiction.
  eapply store_guarded_kindAt; eassumption.
Qed.

(** ** The change handler *)

Lemma run_onChange filePath w :
  run (onChange pathMax o filePath) w =
  let '(r, w1, evs) := run (route pathMax o filePath) w in
  match r with
  | Done _ => (Done tt, w1, ELog (MChanged filePath) :: evs)
  | Thrown e =>
      (Done tt, w1,
       ELog (MChanged filePath) :: evs ++ [EError (MChangeError (message e))])
  | Exited c => (Exited c, w1, ELog (MChanged filePath) :: evs)
  end.
Proof.
  unfold onChange. rewrite run_bind, run_log. cbn [andThen].
  rewrite run_tryCatch.
  destruct (run (route pathMax o filePath) w) as [[r w1] evs].
  destruct r as [[]|e|c]; reflexivity.
Qed.

Lemma onChange_done filePath w :
  outcomeOf (run (onChange pathMax o filePath) w) = Done tt.
Proof.
  rewrite run_onChange.
  pose proof (noExit_run sass tsc pathMax (route pathMax o filePath) w) as Hx.
  specialize (fun c => Hx c (noExit_route pathMax o filePath)).
  destruct (run (route pathMax o filePath) w) as [[r w1] evs].
  unfold outcomeOf in *. cbn [fst] in *.
  destruct r as [[]|e|c]; [reflexivity|reflexivity|].
  exfalso. now apply (Hx c).
Qed.

Lemma handleAll_done changes : forall w,
  Forall (fun r => r = Done tt)
    (fst (fst (handleAll sass tsc pathMax (onChange pathMax o) changes w))) /\
  length (fst (fst (handleAll sass tsc pathMax (onChange pathMax o) changes w)))
  = length changes.
Proof.
  induction changes as [|filePath changes IH]; intros w; [split; [constructor|reflexivity]|].
  cbn [handleAll]. pose proof (onChange_done filePath w) as Hd.
  destruct (run (onChange pathMax o filePath) w) as [[r w1] evs1].
  unfold outcomeOf in Hd. cbn [fst] in Hd. subst r.
  destruct (IH w1) as [H1 H2].
  destruct (handleAll sass tsc pathMax (onChange pathMax o) changes w1)
    as [[rs w2] evs2].
  cbn [fst] in *. split; [now constructor|]. cbn. now rewrite H2.
Qed.

(** The routes by extension. *)
Lemma route_html filePath :
  extname filePath = ".html" ->
  route pathMax o filePath = ((processHTML o ;; log MHtmlUpdated) ;; log MReload).
Proof. unfold route. now intros ->. Qed.

Lemma route_styles filePath :
  extname filePath = ".scss" \/ extname filePath = ".css" ->
  route pathMax o filePath = ((processStyles o ;; log MStylesUpdated) ;; log MReload).
Proof. unfold route. now intros [-> | ->]. Qed.

Lemma route_scripts filePath :
  extname filePath = ".ts" \/ extname filePath = ".js" ->
  route pathMax o filePath = ((processScripts o ;; log MScriptsUpdated) ;; log MReload).
Proof. unfold route. now intros [-> | ->]. Qed.

(** Events of a task followed by its two closing lines. *)
(** The branches of the router that go by the directory of the changed
    path. *)
Lemma route_elsewhere filePath :
  ~ In (extname filePath) [".html"; ".scss"; ".css"; ".ts"; ".js"] ->
  route pathMax o filePath =
    ((if includes (pathString (dirname filePath)) "assets" then
        processAssets pathMax o ;; log MAssetsUpdated
      else if includes (pathString (dirname filePath)) "data" then
        processData pathMax o ;; log MDataUpdated
      else Ret tt) ;; log MReload).
Proof.
  intros Hext.
  assert (E : forall x, In x [".html"; ".scss"; ".css"; ".ts"; ".js"] ->
                        (extname filePath =? x) = false).
  { intros x Hx. apply String.eqb_neq. intros Heq. apply Hext. now rewrite Heq. }
  unfold route. cbv zeta.
  rewrite (E ".html"), (E ".scss"), (E ".css"), (E ".ts"), (E ".js");
    simpl; auto 10.
Qed.

Lemma route_bare filePath :
  In (basename filePath) [".html"; ".scss"; ".css"; ".ts"; ".js"] ->
  route pathMax o filePath =
    ((if includes (pathString (dirname filePath)) "assets" then
        processAssets pathMax o ;; log MAssetsUpdated
      else if includes (pathString (dirname filePath)) "data" then
        processData pathMax o ;; log MDataUpdated
      else Ret tt) ;; log MReload).
Proof.
  intros Hb. apply route_elsewhere.
  assert (He : extname filePath = EmptyString).
  { simpl in Hb. destruct Hb as [H|[H|[H|[H|[H|[]]]]]]; symmetry in H;
      now apply (extname_bare filePath _ H). }
  rewrite He. simpl. intuition discriminate.
Qed.
Lemma events_routed (Q : event -> Prop) (task : prog unit) m1 filePath w :
  route pathMax o filePath = ((task ;; log m1) ;; log MReload) ->
  (forall m, Q (ELog m)) -> (forall m, Q (EError m)) ->
  Forall Q (eventsOf (run task w)) ->
  Forall Q (eventsOf (run (onChange pathMax o filePath) w)).
Proof.
  intros Hr Hl He Ht. rewrite run_onChange, Hr, !run_bind.
  destruct (run task w) as [[r w1] evs]. unfold eventsOf in *. cbn [snd] in Ht.
  destruct r as [[]|e|c]; cbn.
  - constructor; [apply Hl|]. rewrite <- app_assoc. apply Forall_app.
    split; [exact Ht|]. repeat constructor; apply Hl.
  - constructor; [apply Hl|]. apply Forall_app.
    split; [exact Ht|]. repeat constructor. apply He.
  - constructor; [apply Hl|exact Ht].
Qed.

(** * What the three text tasks read and write *)

Lemma scanned dir ext w files :
  outcomeOf (run (getFiles dir ext) w) = Done files ->
  Fs.getFiles (tree w) dir ext = Ok files.
Proof.
  unfold getFiles. rewrite run_attempt. unfold outcomeOf. cbn.
  destruct (Fs.getFiles (tree w) dir ext); congruence.
Qed.

Lemma scanned_world dir ext w : worldOf (run (getFiles dir ext) w) = w.
Proof. unfold getFiles. rewrite run_attempt. reflexivity. Qed.

Lemma processHTML_events w :
  Forall markupEvent (eventsOf (run (processHTML o) w)).
Proof.
  unfold processHTML. apply events_bind.
  - unfold getFiles. apply events_attempt. intros x. simpl. auto.
  - intros files Hf. apply scanned in Hf.
    apply events_forEach. intros file Hin w1.
    destruct (getFiles_under _ _ _ _ Hf _ Hin) as [Hu He].
    apply events_bind.
    + unfold readFile. apply events_attempt. intros x. simpl. auto.
    + intros content _. unfold writeFile. apply events_attempt. intros x.
      simpl. now exists (basename file).
Qed.

Lemma markup_fromSource ev : markupEvent ev -> fromSource ev.
Proof. destruct ev; simpl; tauto. Qed.

Lemma processHTML_fromSource w :
  Forall fromSource (eventsOf (run (processHTML o) w)).
Proof.
  eapply Forall_impl; [|apply processHTML_events]. apply markup_fromSource.
Qed.

Lemma processStyles_fromSource w :
  Forall fromSource (eventsOf (run (processStyles o) w)).
Proof.
  unfold processStyles. apply events_bind.
  { unfold getFiles. apply events_attempt. intros x. reflexivity. }
  intros scssFiles Hs. apply scanned in Hs. rewrite scanned_world.
  apply events_bind.
  { unfold getFiles. apply events_attempt. intros x. reflexivity. }
  intros cssFiles Hc. apply scanned in Hc. rewrite scanned_world.
  apply events_bind.
  - apply events_forEach. intros file Hin w1.
    destruct (getFiles_under _ _ _ _ Hs _ Hin) as [Hu _].
    apply events_bind.
    + apply events_attempt. intros x. exact Hu.
    + intros result _. apply events_bind.
      * unfold writeFile. apply events_attempt. intros x. exact I.
      * intros _ _. destruct (dev o), (snd result); try constructor.
        unfold writeFile. apply events_attempt. intros x. exact I.
  - intros _ _. apply events_forEach. intros file Hin w1.
    destruct (getFiles_under _ _ _ _ Hc _ Hin) as [Hu _].
    apply events_bind.
    + unfold readFile. apply events_attempt. intros x. exact Hu.
    + intros content _. unfold writeFile. apply events_attempt. intros x.
      exact I.
Qed.

Lemma processScripts_fromSource w :
  Forall fromSource (eventsOf (run (processScripts o) w)).
Proof.
  unfold processScripts. apply events_bind.
  { unfold getFiles. apply events_attempt. intros x. reflexivity. }
  intros tsFiles Hs. apply scanned in Hs. rewrite scanned_world.
  apply events_bind.
  { unfold getFiles. apply events_attempt. intros x. reflexivity. }
  intros jsFiles Hc. apply scanned in Hc. rewrite scanned_world.
  apply events_bind.
  - apply events_forEach. intros file Hin w1.
    destruct (getFiles_under _ _ _ _ Hs _ Hin) as [Hu _].
    apply events_tryCatch.
    + apply events_bind.
      * apply events_attempt. intros x. exact Hu.
      * intros _ _. apply events_perform. intros x. exact I.
    + intros e _. apply events_bind.
      * apply events_perform. intros x. exact I.
      * intros _ _. constructor.
  - intros _ _. apply events_forEach. intros file Hin w1.
    destruct (getFiles_under _ _ _ _ Hc _ Hin) as [Hu _].
    apply events_bind.
    + unfold readFile. apply events_attempt. intros x. exact Hu.
    + intros content _. unfold writeFile. apply events_attempt. intros x.
      exact I.
Qed.

(** ** What the writes of an execution leave *)

Lemma exec_write w p c r w' :
  Io.exec sass tsc pathMax (WriteFile p c) w = (r, w') ->
  (exists t, r = Ok tt /\ Fs.writeFile (tree w) p c = Ok t /\ w' = withTree w t)
  \/ (exists e, r = Err e /\ w' = w).
Proof.
  simpl. unfold guarded. destruct (pathMax <? length p)%nat.
  - simpl. intros [= <- <-]. right. eauto.
  - destruct (Fs.writeFile (tree w) p c) as [t|e]; simpl; intros [= <- <-].
    + left. eauto.
    + right. eauto.
Qed.

Lemma run_replay {A} (p : prog A) q : forall w,
  Forall writesOnly (eventsOf (run p w)) ->
  kindAt (tree (worldOf (run p w))) q =
  replay q (eventsOf (run p w)) (kindAt (tree w) q).
Proof.
  induction p as [a|e|c|X op0 k IH]; intros w; try reflexivity.
  simpl. destruct (Io.exec sass tsc pathMax op0 w) as [x w1] eqn:E.
  specialize (IH x w1). destruct (run (k x) w1) as [[r w2] evs].
  unfold eventsOf, worldOf, replay in *. cbn [fst snd fold_left] in *.
  intros H. inversion H as [|? ? Hev Hevs]; subst.
  rewrite (IH Hevs). f_equal. clear IH H Hevs.
  destruct op0; simpl in Hev; try contradiction;
    try (simpl in E; injection E as <- <-; reflexivity).
  cbn [record effect].
  destruct (exec_write _ _ _ _ _ E) as [(t & -> & Ht & ->)|(e & -> & ->)];
    [|reflexivity].
  destruct (writeFile_kindAt _ _ _ _ Ht) as [H1 H2]. cbn [tree withTree].
  destruct (path_eq_dec p q) as [->|Hne]; [exact H1|]. apply H2. congruence.
Qed.

Lemma run_wellFormed {A} (p : prog A) : forall w,
  Forall writesOnly (eventsOf (run p w)) ->
  wellFormed (tree w) = true -> wellFormed (tree (worldOf (run p w))) = true.
Proof.
  induction p as [a|e|c|X op0 k IH]; intros w; try (intros _ H; exact H).
  simpl. destruct (Io.exec sass tsc pathMax op0 w) as [x w1] eqn:E.
  specialize (IH x w1). destruct (run (k x) w1) as [[r w2] evs].
  unfold eventsOf, worldOf in *. cbn [fst snd] in *.
  intros H Hw. inversion H as [|? ? Hev Hevs]; subst.
  apply (IH Hevs). clear IH H Hevs.
  destruct op0; simpl in Hev; try contradiction;
    try (simpl in E; injection E as <- <-; exact Hw).
  destruct (exec_write _ _ _ _ _ E) as [(t & -> & Ht & ->)|(e & -> & ->)];
    [|exact Hw].
  cbn [tree withTree]. eapply writeAt_wellFormed; [exact Hw|exact Ht].
Qed.

Lemma markup_writesOnly ev : markupEvent ev -> writesOnly ev.
Proof. destruct ev; simpl; tauto. Qed.

(** ** The loop of the markup task *)

Lemma flat_map_ext_in {A B} (f g : A -> list B) l :
  (forall a, In a l -> f a = g a) -> flat_map f l = flat_map g l.
Proof.
  induction l as [|a l IH]; intros H; [reflexivity|]. simpl.
  rewrite (H a (or_introl eq_refl)), IH; [reflexivity|].
  intros b Hb. apply H. now right.
Qed.

Lemma run_markupBody file w r w' evs :
  run (markupBody file) w = (r, w', evs) -> r = Done tt ->
  exists t,
    Fs.writeFile (tree w) (join (distDir o) (basename file))
      (processedContent o minifyHTML (text (tree w) file)) = Ok t /\
    w' = withTree w t /\ evs = markupTrace (tree w) file.
Proof.
  unfold markupBody, readFile, writeFile. rewrite run_bind, run_attempt.
  cbn [Io.exec fst snd]. unfold markupTrace, text.
  destruct (Fs.readFile (tree w) file) as [c|e] eqn:Er; cbn [andThen].
  - rewrite run_attempt.
    destruct (Io.exec sass tsc pathMax
                (WriteFile (join (distDir o) (basename file))
                   (processedContent o minifyHTML c)) w) as [x w1] eqn:E.
    cbn [fst snd].
    destruct (exec_write _ _ _ _ _ E) as [(t & -> & Ht & ->)|(e & -> & ->)].
    + intros [= <- <- <-] _. exists t. repeat split. exact Ht.
    + intros [= <- _ _]. discriminate.
  - intros [= <- _ _]. discriminate.
Qed.

Lemma markup_loop files : forall w w' evs,
  run (forEach files markupBody) w = (Done tt, w', evs) ->
  (forall f g, In f files -> In g files -> f <> join (distDir o) (basename g)) ->
  evs = flat_map (markupTrace (tree w)) files.
Proof.
  induction files as [|f files IH]; intros w w' evs.
  - simpl. now intros [= _ <-].
  - rewrite run_forEach_cons.
    destruct (run (markupBody f) w) as [[r w1] evs1] eqn:E1. cbn [andThen].
    destruct r as [[]|e|c]; [|discriminate|discriminate].
    destruct (run_markupBody _ _ _ _ _ E1 eq_refl) as (t & Ht & -> & ->).
    destruct (run (forEach files markupBody) (withTree w t)) as [[r2 w2] evs2]
      eqn:E2.
    intros [= -> -> <-] Hd.
    rewrite (IH _ _ _ E2) by (intros; apply Hd; now right).
    change (markupTrace (tree w) f
              ++ flat_map (markupTrace (tree (withTree w t))) files
            = markupTrace (tree w) f
              ++ flat_map (markupTrace (tree w)) files)%list.
    f_equal. apply flat_map_ext_in. intros g Hg. unfold markupTrace, text.
    cbn [tree withTree].
    destruct (writeFile_kindAt _ _ _ _ Ht) as [_ H2].
    rewrite (readFile_kindAt (tree w) t g); [reflexivity|].
    apply H2. apply Hd; [now right|now left].
Qed.

Lemma run_processHTML w files w' evs :
  Fs.getFiles (tree w) (srcDir o) ".html" = Ok files ->
  run (processHTML o) w = (Done tt, w', evs) ->
  exists loop,
    run (forEach files markupBody) w = (Done tt, w', loop) /\
    evs = EScan (srcDir o) ".html" (Ok files) :: loop.
Proof.
  intros Hf. unfold processHTML, getFiles. rewrite run_bind, run_attempt.
  cbn [Io.exec fst snd]. rewrite Hf. cbn [andThen]. fold markupBody.
  destruct (run (forEach files markupBody) w) as [[r w1] loop].
  intros [= -> -> <-]. now exists loop.
Qed.

(** The last of several writes to one path stays. *)
Lemma replay_spared q evs : forall k,
  Forall (spares q) evs -> replay q evs k = k.
Proof.
  induction evs as [|ev evs IH]; intros k H; [reflexivity|].
  inversion H as [|? ? Hev Hevs]; subst. unfold replay in *. simpl.
  rewrite (IH _ Hevs). destruct ev; simpl in *; try reflexivity.
  destruct r; [|reflexivity]. now destruct (path_eq_dec p q).
Qed.

Lemma replay_app q a b k : replay q (a ++ b) k = replay q b (replay q a k).
Proof. unfold replay. apply fold_left_app. Qed.

Lemma join_inj dir a b : join dir a = join dir b -> a = b.
Proof. unfold join. intros H. now apply app_inj_tail in H. Qed.

Lemma replay_collision t q l f l3 k :
  join (distDir o) (basename f) = q ->
  (forall g, In g l3 -> basename g <> basename f) ->
  replay q (flat_map (markupTrace t) (l ++ f :: l3)) k =
  Some (Some (processedContent o minifyHTML (text t f))).
Proof.
  intros Hq Hl3. rewrite flat_map_app, replay_app. cbn [flat_map].
  rewrite replay_app. rewrite (replay_spared q (flat_map (markupTrace t) l3)).
  - unfold replay, markupTrace. cbn.
    destruct (path_eq_dec (join (distDir o) (basename f)) q); [reflexivity|].
    contradiction.
  - apply Forall_flat_map. apply Forall_forall. intros g Hg.
    unfold markupTrace. repeat constructor. simpl. intros H.
    rewrite <- Hq in H. apply join_inj in H. now apply (Hl3 g Hg).
Qed.

(** ** Outputs of the other four kinds *)

Lemma otherOutput_not_markup q :
  otherOutput q ->
  forall n, endsWith n ".html" = true -> q <> join (distDir o) n.
Proof.
  intros H n Hn Hq. subst q.
  destruct H as [(rel & Hne & H)|[(rel & Hne & H)|(n' & H & Hk)]].
  - apply (f_equal (@length _)) in H. unfold join in H.
    rewrite !length_app in H. simpl in H. destruct rel; [congruence|simpl in H; lia].
  - apply (f_equal (@length _)) in H. unfold join in H.
    rewrite !length_app in H. simpl in H. destruct rel; [congruence|simpl in H; lia].
  - apply join_inj in H. subst n'.
    pose proof (endsWith_lastChar _ _ Hn) as Hl.
    destruct Hk as [Hk|[Hk|Hk]];
      pose proof (endsWith_lastChar _ _ Hk) as Hl';
      rewrite Hl in Hl' by discriminate;
      specialize (Hl' ltac:(discriminate)); discriminate.
Qed.

(** ** Handlers under a schedule *)

Lemma advanceAt_length i : forall pool w,
  length (snd (advanceAt sass tsc pathMax i pool w)) <= length pool.
Proof.
  induction i as [|i IH]; intros [|p pool] w; simpl; try lia.
  - destruct (advance sass tsc pathMax p w) as [p' w'].
    simpl. destruct (inFlight p'); simpl; lia.
  - specialize (IH pool w).
    destruct (advanceAt sass tsc pathMax i pool w) as [w' rest']. simpl in *. lia.
Qed.

Lemma spaced_single handler acts : forall c,
  spaced sass tsc pathMax handler acts c = true ->
  length (snd c) <= 1 ->
  length (snd (schedule sass tsc pathMax handler acts c)) <= 1.
Proof.
  induction acts as [|a acts IH]; intros c Hs Hl; [exact Hl|].
  cbn [spaced] in Hs. apply andb_prop in Hs. destruct Hs as [Ha Hs].
  cbn [schedule]. apply IH; [exact Hs|].
  destruct a as [filePath|i]; cbn [act].
  - destruct (snd c); [simpl; lia|discriminate].
  - pose proof (advanceAt_length i (snd c) (fst c)). lia.
Qed.

Lemma racing_single pool : length pool <= 1 -> racing pool = false.
Proof. destruct pool as [|p [|q pool]]; simpl; try reflexivity. lia. Qed.

(** ** The course of a build *)

Lemma run_finish startTime w :
  outcomeOf (run (finish o startTime) w) = Done tt.
Proof. unfold finish. destruct (dev o); reflexivity. Qed.

Lemma run_buildTry startTime w :
  run (buildTry pathMax o startTime) w =
  andThen (run (prepare o) w) (fun _ w0 =>
    andThen (run (forEach (tasks pathMax o) taskBody) w0) (fun _ w1 =>
      run (finish o startTime) w1)).
Proof.
  unfold buildTry, prepare. fold taskBody. fold (finish o startTime).
  rewrite !run_bind.
  destruct (run (ensureDir (distDir o)) w) as [[r1 w1] e1]. cbn [andThen].
  destruct r1 as [[]|e|c]; try reflexivity. rewrite !run_bind.
  destruct (run (ensureDir (join (distDir o) "data")) w1) as [[r2 w2] e2]. cbn [andThen].
  destruct r2 as [[]|e|c]; try reflexivity. rewrite !run_bind.
  destruct (run (ensureDir (join (distDir o) "assets")) w2) as [[r3 w3] e3]. cbn [andThen].
  destruct r3 as [[]|e|c]; try (now rewrite <- ?app_assoc). rewrite !run_bind.
  destruct (run (forEach (tasks pathMax o) taskBody) w3) as [[r4 w4] e4]. cbn [andThen].
  destruct r4 as [[]|e|c]; try (now rewrite <- ?app_assoc).
  destruct (run (finish o startTime) w4) as [[r5 w5] e5].
  now rewrite <- ?app_assoc.
Qed.

Lemma noExit_prepare : noExit (prepare o).
Proof.
  unfold prepare. do 2 (apply noExit_bind; [apply noExit_ensureDir|]; intros _).
  apply noExit_ensureDir.
Qed.

Lemma noExit_loop : noExit (forEach (tasks pathMax o) taskBody).
Proof.
  apply noExit_forEach_In. intros entry Hin. unfold taskBody.
  apply noExit_bind; [apply noExit_perform|]. intros _.
  apply noExit_bind; [|intros _; apply noExit_perform].
  simpl in Hin. destruct Hin as [<-|[<-|[<-|[<-|[<-|[]]]]]]; cbn [snd].
  - apply noExit_processHTML.
  - apply noExit_processStyles.
  - apply noExit_processScripts.
  - apply noExit_processAssets.
  - apply noExit_processData.
Qed.

(** A build from its first line to its last: the output directories are
    made; if that throws, the error is reported and the process ends. If not,
    the task loop runs from the world the directories were made in; when it
    returns, the time is taken and the watcher started if asked for; when it
    throws, the error is reported and the process ends. *)
Lemma build_course w :
  (exists e,
     outcomeOf (run (prepare o) w) = Thrown e /\
     outcomeOf (run (build pathMax o) w) = Exited 1%Z /\
     eventsOf (run (build pathMax o) w) =
       ELog MBuildStart :: ENow
       :: (eventsOf (run (prepare o) w) ++ [EError (MBuildError e)])%list)
  \/
  (outcomeOf (run (prepare o) w) = Done tt /\
   exists r w1 loop,
     ran (tasks pathMax o) (worldOf (run (prepare o) w)) r w1 loop /\
     ((r = Done tt /\
       outcomeOf (run (build pathMax o) w) = Done tt /\
       eventsOf (run (build pathMax o) w) =
         ELog MBuildStart :: ENow
         :: (eventsOf (run (prepare o) w) ++ loop
             ++ eventsOf (run (finish o (time w)) w1))%list)
      \/
      (exists e,
         r = Thrown e /\
         outcomeOf (run (build pathMax o) w) = Exited 1%Z /\
         eventsOf (run (build pathMax o) w) =
           ELog MBuildStart :: ENow
           :: (eventsOf (run (prepare o) w) ++ loop
               ++ [EError (MBuildError e)])%list))).
Proof.
  rewrite run_build, run_buildTry.
  pose proof (noExit_run sass tsc pathMax (prepare o) w) as Hx.
  specialize (fun c => Hx c noExit_prepare).
  destruct (run (prepare o) w) as [[r0 w0] evs0].
  unfold outcomeOf, worldOf, eventsOf in *. cbn [fst snd andThen] in *.
  destruct r0 as [[]|e|c]; [|left|exfalso; now apply (Hx c)].
  - right. split; [reflexivity|].
    pose proof (loop_ran (tasks pathMax o) w0) as Hran.
    pose proof (noExit_run sass tsc pathMax (forEach (tasks pathMax o) taskBody) w0) as Hy.
    specialize (fun c => Hy c noExit_loop).
    destruct (run (forEach (tasks pathMax o) taskBody) w0) as [[r w1] loop].
    unfold outcomeOf, worldOf, eventsOf in *. cbn [fst snd andThen] in *.
    exists r, w1, loop. split; [exact Hran|].
    destruct r as [[]|e|c]; [left|right|exfalso; now apply (Hy c)].
    + pose proof (run_finish (time w) w1) as Hf.
      destruct (run (finish o (time w)) w1) as [[r5 w5] e5].
      unfold outcomeOf in Hf. cbn [fst snd] in *. subst r5.
      cbn. repeat split.
    + exists e. cbn. repeat split. now rewrite <- app_assoc.
  - exists e. cbn. repeat split.
Qed.

(** ** Handlers in flight *)

Abbreviation advance := (Io.advance sass tsc pathMax).
Abbreviation schedule := (Io.schedule sass tsc pathMax).

Lemma path_eqb_refl p : path_eqb p p = true.
Proof. induction p as [|x p IH]; [reflexivity|]. simpl. now rewrite String.eqb_refl. Qed.

(** The first three operations of the handler of a changed page: the line
    with the path, the scan of the source root, and the read of the first
    file found; the fourth is the write of that file into the output root. *)
Lemma markup_reaches_write filePath w f fs c :
  route pathMax o filePath = ((processHTML o ;; log MHtmlUpdated) ;; log MReload) ->
  Fs.getFiles (tree w) (srcDir o) ".html" = Ok (f :: fs) ->
  Fs.readFile (tree w) f = Ok c ->
  exists h1 h2 h3,
    advance (onChange pathMax o filePath) w = (h1, w) /\ inFlight h1 = true /\
    advance h1 w = (h2, w) /\ inFlight h2 = true /\
    advance h2 w = (h3, w) /\
    nextWrite h3 = Some (join (distDir o) (basename f)).
Proof.
  intros Hr Hf Hc. unfold onChange. rewrite Hr.
  eexists. eexists. eexists.
  split; [reflexivity|]. split; [reflexivity|].
  split; [cbn; rewrite Hf; reflexivity|]. split; [reflexivity|].
  split; [cbn; rewrite Hc; reflexivity|]. reflexivity.
Qed.

Lemma rapid_markup_race p1 p2 w f fs c :
  route pathMax o p1 = ((processHTML o ;; log MHtmlUpdated) ;; log MReload) ->
  route pathMax o p2 = ((processHTML o ;; log MHtmlUpdated) ;; log MReload) ->
  Fs.getFiles (tree w) (srcDir o) ".html" = Ok (f :: fs) ->
  Fs.readFile (tree w) f = Ok c ->
  exists h g,
    schedule (onChange pathMax o) (rapid p1 p2) (w, []) = (w, [h; g]) /\
    nextWrite h = Some (join (distDir o) (basename f)) /\
    nextWrite g = Some (join (distDir o) (basename f)) /\
    racing [h; g] = true.
Proof.
  intros Hr1 Hr2 Hf Hc.
  destruct (markup_reaches_write p1 w f fs c Hr1 Hf Hc)
    as (h1 & h2 & h & A1 & F1 & A2 & F2 & A3 & Hh).
  destruct (markup_reaches_write p2 w f fs c Hr2 Hf Hc)
    as (g1 & g2 & g & B1 & G1 & B2 & G2 & B3 & Hg).
  assert (Fh : inFlight h = true) by (destruct h; try discriminate; reflexivity).
  assert (Fg : inFlight g = true) by (destruct g; try discriminate; reflexivity).
  exists h, g. split; [|split; [exact Hh|split; [exact Hg|]]].
  - unfold rapid.
    cbn [Io.schedule Io.act fst snd app Io.advanceAt].
    rewrite A1, F1. cbn [Io.schedule Io.act fst snd app Io.advanceAt].
    rewrite A2, F2. cbn [Io.schedule Io.act fst snd app Io.advanceAt].
    rewrite A3, Fh. cbn [Io.schedule Io.act fst snd app Io.advanceAt].
    rewrite B1, G1. cbn [Io.schedule Io.act fst snd app Io.advanceAt].
    rewrite B2, G2. cbn [Io.schedule Io.act fst snd app Io.advanceAt].
    rewrite B3, Fg. reflexivity.
  - cbn [racing existsb]. unfold sameWrite. rewrite Hh, Hg, path_eqb_refl. reflexivity.
Qed.

Lemma spaced_firstn handler acts : forall n c,
  spaced sass tsc pathMax handler acts c = true ->
  spaced sass tsc pathMax handler (firstn n acts) c = true.
Proof.
  induction acts as [|a acts IH]; intros n c H; destruct n; try reflexivity.
  cbn [firstn spaced] in *. apply andb_true_iff in H. destruct H as [H1 H2].
  rewrite H1. cbn [andb]. now apply IH.
Qed.

(** Where never more than one handler is in flight, every event came while
    none was. *)
Lemma single_spaced handler acts : forall c,
  (forall n, length (snd (schedule handler (firstn n acts) c)) <= 1) ->
  spaced sass tsc pathMax handler acts c = true.
Proof.
  induction acts as [|a acts IH]; intros c H; [reflexivity|].
  cbn [spaced]. apply andb_true_iff. split.
  - destruct a as [filePath|i]; [|reflexivity].
    specialize (H 1). cbn [firstn Io.schedule Io.act] in H.
    destruct (snd c); [reflexivity|].
    cbn [snd] in H. rewrite length_app in H. simpl in H. lia.
  - apply IH. intros n. exact (H (S n)).
Qed.

End Runs.
End BundlerFacts.

(* ================================================================== *)
(** * The properties *)
(* ================================================================== *)

Module Claims.
Import Js Path Fs Io Bundler JsProps IoProps FsProps BundlerProps Sample.
Import JsFacts IoFacts FsFacts BundlerFacts.
Local Open Scope string_scope.

Ltac pick := repeat first [left; reflexivity | right].

(** C1: when the TypeScript compiler fails on a source during a build, the
    build ends the process with exit status 1; the file and the message of the
    error are printed, then the error itself; and these two lines are all that
    follows the failed compiler run: no later task runs, no plain script is
    copied, nothing more is written. *)
Theorem failed_compile_aborts_build
    sass tsc pathMax (o : options) (w : world) file outDir e :
  In (EExec file outDir (Err e))
     (eventsOf (run sass tsc pathMax (build pathMax o) w)) ->
  outcomeOf (run sass tsc pathMax (build pathMax o) w) = Exited 1%Z /\
  exists pre,
    eventsOf (run sass tsc pathMax (build pathMax o) w) =
      (pre ++ [EExec file outDir (Err e);
               EError (MTsError file (message e));
               EError (MBuildError e)])%list.
Proof.
  intros Hin.
  destruct (build_fate sass tsc pathMax o w)
    as [Hc|(file' & e' & pre & Hout & Hev & Hpre)].
  - exfalso. unfold calm in Hc. rewrite Forall_forall in Hc.
    specialize (Hc _ Hin). discriminate.
  - rewrite Hev in Hin. apply in_app_or in Hin. destruct Hin as [Hin|Hin].
    + exfalso. unfold calm in Hpre. rewrite Forall_forall in Hpre.
      specialize (Hpre _ Hin). discriminate.
    + destruct Hin as [H|[H|[H|[]]]]; try discriminate.
      injection H as <- <- <-. split; [exact Hout|]. now exists pre.
Qed.

Lemma failed_compile_aborts_build_witness :
  outcomeOf (run noSass tscRejects limit (build limit production) start)
    = Exited 1%Z /\
  exists pre,
    eventsOf (run noSass tscRejects limit (build limit production) start) =
      (pre ++ [EExec script ["p"; "dist"] (Err (ExecError "error TS2322"));
               EError (MTsError script "error TS2322");
               EError (MBuildError (ExecError "error TS2322"))])%list.
Proof.
  apply (failed_compile_aborts_build noSass tscRejects limit production start
           script ["p"; "dist"] (ExecError "error TS2322")).
  vm_compute. pick.
Defined.

(** C2 (as stated, refuted): a build in which the compiler rejects a typed
    script opens the script task and runs neither the asset nor the data
    task: their lines are not in the log, and the test for the asset or data
    root that either of them starts with is never made. *)
Lemma build_stops_before_assets :
  outcomeOf (run noSass tscRejects limit (build limit production) start)
    = Exited 1%Z /\
  marks (eventsOf (run noSass tscRejects limit (build limit production) start))
    = firstn 5 (bracket taskNames) /\
  marks (eventsOf (run noSass tscRejects limit (build limit production) start))
    <> bracket taskNames /\
  Forall (fun ev => match ev with EAccess _ _ => False | _ => True end)
    (eventsOf (run noSass tscRejects limit (build limit production) start)).
Proof.
  vm_compute. split; [reflexivity|]. split; [reflexivity|].
  split; [discriminate|]. repeat constructor.
Qed.

(** C2 (amended): a build runs the tasks in the order markup, stylesheet,
    script, asset, data, each to its end before the next is started and none
    twice. When it returns, all five have run, once each; otherwise it has
    stopped at the first step that threw, the tasks behind it have not run,
    and the process exits with status 1. The course of the build is given
    with the five tasks written out in their order: the output directories
    are made, then [ran] starts the first task in the world they were made
    in and each further task in the world the task before it left. *)
Theorem build_runs_tasks_in_order sass tsc pathMax (o : options) (w : world) :
  map fst (tasks pathMax o) = taskNames /\
  (outcomeOf (run sass tsc pathMax (build pathMax o) w) = Done tt \/
   outcomeOf (run sass tsc pathMax (build pathMax o) w) = Exited 1%Z) /\
  orderly sass tsc pathMax o
    (outcomeOf (run sass tsc pathMax (build pathMax o) w))
    (eventsOf (run sass tsc pathMax (build pathMax o) w)) /\
  ((exists e,
      outcomeOf (run sass tsc pathMax (prepare o) w) = Thrown e /\
      outcomeOf (run sass tsc pathMax (build pathMax o) w) = Exited 1%Z /\
      eventsOf (run sass tsc pathMax (build pathMax o) w) =
        ELog MBuildStart :: ENow
        :: (eventsOf (run sass tsc pathMax (prepare o) w)
            ++ [EError (MBuildError e)])%list)
   \/
   (outcomeOf (run sass tsc pathMax (prepare o) w) = Done tt /\
    exists r w1 loop,
      ran sass tsc pathMax
        [ ("html", processHTML o);
          ("styles", processStyles o);
          ("scripts", processScripts o);
          ("assets", processAssets pathMax o);
          ("data", processData pathMax o) ]
        (worldOf (run sass tsc pathMax (prepare o) w)) r w1 loop /\
      ((r = Done tt /\
        outcomeOf (run sass tsc pathMax (build pathMax o) w) = Done tt /\
        eventsOf (run sass tsc pathMax (build pathMax o) w) =
          ELog MBuildStart :: ENow
          :: (eventsOf (run sass tsc pathMax (prepare o) w) ++ loop
              ++ eventsOf (run sass tsc pathMax (finish o (time w)) w1))%list)
       \/
       (exists e,
          r = Thrown e /\
          outcomeOf (run sass tsc pathMax (build pathMax o) w) = Exited 1%Z /\
          eventsOf (run sass tsc pathMax (build pathMax o) w) =
            ELog MBuildStart :: ENow
            :: (eventsOf (run sass tsc pathMax (prepare o) w) ++ loop
                ++ [EError (MBuildError e)])%list)))).
Proof.
  split; [reflexivity|].
  destruct (orderly_build sass tsc pathMax o w) as [Hout Hord].
  split; [exact Hout|]. split; [exact Hord|].
  exact (build_course sass tsc pathMax o w).
Qed.

(** C3 (as stated, refuted): a second pass of minifyCSS or of minifyJS over
    its own output can change it, and shorten it. *)
Lemma minify_not_idempotent :
  minifyCSS (minifyCSS (lit "a{b:c;;}")) <> minifyCSS (lit "a{b:c;;}") /\
  byteLength (minifyCSS (minifyCSS (lit "a{b:c;;}")))
    < byteLength (minifyCSS (lit "a{b:c;;}")) /\
  minifyJS (minifyJS (lit "//**/**/")) <> minifyJS (lit "//**/**/") /\
  byteLength (minifyJS (minifyJS (lit "//**/**/")))
    < byteLength (minifyJS (lit "//**/**/")).
Proof. vm_compute. repeat split; try discriminate; lia. Qed.

(** C3 (amended): minifyHTML is idempotent on every string. minifyCSS and
    minifyJS are idempotent on an input exactly when their output holds
    nothing the first passes would take again: no block comment and, for
    minifyCSS, no semicolon before a closing brace. *)
Theorem minify_idempotence :
  (forall x, minifyHTML (minifyHTML x) = minifyHTML x) /\
  (forall x, minifyCSS (minifyCSS x) = minifyCSS x <->
             occurs re_block_comment (minifyCSS x) = false /\
             occurs re_semi_close (minifyCSS x) = false) /\
  (forall x, minifyJS (minifyJS x) = minifyJS x <->
             occurs re_block_comment (minifyJS x) = false).
Proof.
  split; [exact minifyHTML_idempotent|]. split.
  - intros x. split.
    + intros H.
      destruct (occurs re_block_comment (minifyCSS x)) eqn:O1;
        [|destruct (occurs re_semi_close (minifyCSS x)) eqn:O2; [|now split]];
        exfalso;
        pose proof (cssNormal_moved _ (minifyCSS_normal x)) as Hm;
        rewrite H in Hm.
      * specialize (Hm (or_introl O1)). lia.
      * specialize (Hm (or_intror O2)). lia.
    + intros [O1 O2]. now apply cssNormal_fixed; [apply minifyCSS_normal| |].
  - intros x. split.
    + intros H. destruct (occurs re_block_comment (minifyJS x)) eqn:O1;
        [|reflexivity].
      pose proof (jsNormal_moved _ O1) as Hm. rewrite H in Hm. lia.
    + intros O1. now apply jsNormal_fixed; [apply minifyJS_normal|].
Qed.

Lemma minify_idempotence_witness :
  minifyCSS (minifyCSS (lit "a { b : c ; }")) = minifyCSS (lit "a { b : c ; }") /\
  minifyJS (minifyJS (lit "f ( a ) ; // x")) = minifyJS (lit "f ( a ) ; // x").
Proof.
  destruct minify_idempotence as (_ & Hcss & Hjs). split.
  - apply Hcss. split; vm_compute; reflexivity.
  - apply Hjs. vm_compute. reflexivity.
Defined.

(** C4: in watch mode a failing task never ends the watcher. The handler of a
    change event prints the changed path, catches whatever the task throws,
    prints the message of the error and returns; so every change event of any
    sequence is handled, none ends the process. *)
Theorem watch_failures_are_contained sass tsc pathMax (o : options) :
  (forall changes w,
     Forall (fun r => r = Done tt)
       (fst (fst (handleAll sass tsc pathMax (onChange pathMax o) changes w))) /\
     length (fst (fst (handleAll sass tsc pathMax (onChange pathMax o) changes w)))
     = length changes) /\
  (forall filePath w,
     outcomeOf (run sass tsc pathMax (onChange pathMax o filePath) w) = Done tt /\
     exists rest,
       eventsOf (run sass tsc pathMax (onChange pathMax o filePath) w)
       = ELog (MChanged filePath) :: rest /\
       forall e,
         outcomeOf (run sass tsc pathMax (route pathMax o filePath) w) = Thrown e ->
         exists pre, rest = (pre ++ [EError (MChangeError (message e))])%list).
Proof.
  split; [intros changes w; apply handleAll_done|].
  intros filePath w. split; [apply onChange_done|].
  rewrite run_onChange.
  destruct (run sass tsc pathMax (route pathMax o filePath) w) as [[r w1] evs].
  unfold outcomeOf, eventsOf. cbn [fst snd].
  destruct r as [[]|e|c]; cbn [snd]; eexists; (split; [reflexivity|]);
    intros e' [= <-]. now exists evs.
Qed.

Lemma watch_failures_are_contained_witness :
  exists pre,
    eventsOf (run noSass tscRejects limit (onChange limit production script) start)
    = ELog (MChanged script)
      :: (pre ++ [EError (MChangeError "error TS2322")])%list.
Proof.
  destruct (watch_failures_are_contained noSass tscRejects limit production)
    as [_ H].
  destruct (H script start) as (_ & rest & Hev & Hrest).
  destruct (Hrest (ExecError "error TS2322") eq_refl) as [pre Hpre].
  exists pre. rewrite Hev, Hpre. reflexivity.
Defined.

(** C5 (as stated, refuted): two change events for the same page, the second
    delivered while the handler of the first is about to write, leave two
    handlers in flight that are about to write the same output file. *)
Lemma watcher_not_serialized :
  racing
    (snd (schedule noSass tscAccepts limit (onChange limit production) overlap
            (start, []))) = true.
Proof. vm_compute. reflexivity. Qed.

(** C5 (amended): the watcher has no exclusion of any kind. The handler of
    a change event is started when the event is delivered, whatever handlers
    are in flight, and begins by printing the path. On every tree with a
    page below the source root (and no name twice in a directory), two
    changes of pages in a row, the second delivered while the handler of the
    first is about to write, leave two handlers in flight that are about to
    write the same file of the output root. Handlers run one at a time
    exactly in the schedules in which each change event is delivered after
    the handlers of the earlier ones are through; in those no two handlers
    are about to write the same file. *)
Theorem watcher_has_no_exclusion sass tsc pathMax (o : options) :
  (forall (c : config) filePath,
     act sass tsc pathMax (onChange pathMax o) (Deliver filePath) c
     = (fst c, (snd c ++ [onChange pathMax o filePath])%list) /\
     inFlight (onChange pathMax o filePath) = true /\
     nextWrite (onChange pathMax o filePath) = None) /\
  (forall w p1 p2 stem1 stem2 f fs,
     basename p1 = stem1 ++ ".html" -> stem1 <> EmptyString ->
     basename p2 = stem2 ++ ".html" -> stem2 <> EmptyString ->
     wellFormed (tree w) = true ->
     Fs.getFiles (tree w) (srcDir o) ".html" = Ok (f :: fs) ->
     exists h g,
       schedule sass tsc pathMax (onChange pathMax o) (rapid p1 p2) (w, [])
       = (w, [h; g]) /\
       nextWrite h = Some (join (distDir o) (basename f)) /\
       nextWrite g = Some (join (distDir o) (basename f)) /\
       racing [h; g] = true) /\
  (forall acts w,
     spaced sass tsc pathMax (onChange pathMax o) acts (w, []) = true <->
     forall n,
       length (snd (schedule sass tsc pathMax (onChange pathMax o)
                      (firstn n acts) (w, []))) <= 1) /\
  (forall acts w n,
     spaced sass tsc pathMax (onChange pathMax o) acts (w, []) = true ->
     racing (snd (schedule sass tsc pathMax (onChange pathMax o)
                    (firstn n acts) (w, []))) = false).
Proof.
  assert (Hone : forall acts w n,
    spaced sass tsc pathMax (onChange pathMax o) acts (w, []) = true ->
    length (snd (schedule sass tsc pathMax (onChange pathMax o)
                   (firstn n acts) (w, []))) <= 1).
  { intros acts w n H.
    apply (spaced_single sass tsc pathMax _ (firstn n acts) (w, [])).
    - now apply spaced_firstn.
    - simpl. lia. }
  split; [|split; [|split]].
  - intros c filePath. repeat split.
  - intros w p1 p2 stem1 stem2 f fs H1 S1 H2 S2 Hw Hf.
    destruct (getFiles_readable _ _ _ _ f Hw Hf) as [c Hc]; [now left|].
    apply (rapid_markup_race sass tsc pathMax o p1 p2 w f fs c); auto.
    + apply route_html. now apply (extname_html p1 stem1).
    + apply route_html. now apply (extname_html p2 stem2).
  - intros acts w. split.
    + intros H n. now apply Hone.
    + apply single_spaced.
  - intros acts w n H. apply racing_single. now apply Hone.
Qed.

Lemma watcher_has_no_exclusion_witness :
  (exists h g,
     schedule noSass tscAccepts limit (onChange limit production)
       (rapid page subpage) (start, [])
     = (start, [h; g]) /\
     nextWrite h = Some ["p"; "dist"; "index.html"] /\
     nextWrite g = Some ["p"; "dist"; "index.html"] /\
     racing [h; g] = true) /\
  racing (snd (schedule noSass tscAccepts limit (onChange limit production)
                 inTurn (start, []))) = false.
Proof.
  destruct (watcher_has_no_exclusion noSass tscAccepts limit production)
    as (_ & Hrace & _ & Hspaced).
  split.
  - apply (Hrace start page subpage "index" "index" page [subpage]);
      try reflexivity; discriminate.
  - apply (Hspaced inTurn start (length inTurn)). vm_compute. reflexivity.
Defined.

(** C6 (as stated, refuted): a page that is not UTF-8. The byte E9 of the
    Latin-1 page is read as U+FFFD, which takes three bytes when it is
    written; the line feed at the end of the page is removed, and the page of
    twelve bytes is written in thirteen. *)
Lemma latin1_page_grows :
  length latin1Page = 12 /\
  wellFormedUtf8 latin1Page = false /\
  decode latin1Page
  = (lit "<p>caf" ++ [replacement] ++ lit "</p>" ++ [10%N])%list /\
  processedContent production minifyHTML (decode latin1Page)
  = (lit "<p>caf" ++ [replacement] ++ lit "</p>")%list /\
  byteLength (processedContent production minifyHTML (decode latin1Page)) = 13.
Proof. vm_compute. repeat split. Qed.

(** C6 (amended): in production mode the text written for a markup file, a
    plain stylesheet or a plain script takes no more bytes than the text
    read takes in UTF-8; and the text read takes as many bytes as the source
    file has when the file is well-formed UTF-8, so that the output is then
    no longer than the source. *)
Theorem production_output_not_longer (o : options) :
  dev o = false ->
  (forall content,
     byteLength (processedContent o minifyHTML content) <= byteLength content /\
     byteLength (processedContent o minifyCSS content) <= byteLength content /\
     byteLength (processedContent o minifyJS content) <= byteLength content) /\
  (forall bytes,
     wellFormedUtf8 bytes = true ->
     byteLength (decode bytes) = length bytes /\
     byteLength (processedContent o minifyHTML (decode bytes)) <= length bytes /\
     byteLength (processedContent o minifyCSS (decode bytes)) <= length bytes /\
     byteLength (processedContent o minifyJS (decode bytes)) <= length bytes).
Proof.
  intros H.
  assert (Hc : forall content,
    byteLength (processedContent o minifyHTML content) <= byteLength content /\
    byteLength (processedContent o minifyCSS content) <= byteLength content /\
    byteLength (processedContent o minifyJS content) <= byteLength content).
  { intros content. unfold processedContent. rewrite H. cbn [negb].
    repeat split.
    - apply byteLength_minifyHTML.
    - apply byteLength_minifyCSS.
    - apply byteLength_minifyJS. }
  split; [exact Hc|]. intros bytes Hw.
  pose proof (byteLength_decode bytes Hw) as Hb.
  destruct (Hc (decode bytes)) as (H1 & H2 & H3).
  rewrite Hb in H1, H2, H3. auto.
Qed.

Lemma production_output_not_longer_witness :
  byteLength (decode utf8Page) = length utf8Page /\
  byteLength (processedContent production minifyHTML (decode utf8Page))
    <= length utf8Page /\
  byteLength (processedContent production minifyCSS (decode utf8Page))
    <= length utf8Page /\
  byteLength (processedContent production minifyJS (decode utf8Page))
    <= length utf8Page.
Proof.
  destruct (production_output_not_longer production eq_refl) as [_ H].
  apply (H utf8Page). reflexivity.
Defined.

(** C7: the markup task writes each markup file it finds into the output
    root under the file's own name, in the order of enumeration, whatever
    directory the file came from. Two files of one name therefore go to the
    same output path: the one enumerated later is what stays there, and the
    output root holds that name once. The task is taken where it returns, on
    a tree in which no directory lists a name twice and no markup source is
    itself one of the output paths, so that what is read is what the tree
    held at the start. *)
Theorem markup_flat_and_collision
    sass tsc pathMax (o : options) (w w' : world) files evs :
  Fs.getFiles (tree w) (srcDir o) ".html" = Ok files ->
  (forall f g, In f files -> In g files -> f <> join (distDir o) (basename g)) ->
  wellFormed (tree w) = true ->
  run sass tsc pathMax (processHTML o) w = (Done tt, w', evs) ->
  evs = EScan (srcDir o) ".html" (Ok files)
        :: flat_map (fun f =>
             [ERead f (Ok (text (tree w) f));
              EWrite (join (distDir o) (basename f))
                (processedContent o minifyHTML (text (tree w) f)) (Ok tt)])
           files /\
  forall l1 f1 l2 f2 l3,
    files = (l1 ++ f1 :: l2 ++ f2 :: l3)%list ->
    basename f1 = basename f2 ->
    (forall g, In g l3 -> basename g <> basename f2) ->
    join (distDir o) (basename f1) = join (distDir o) (basename f2) /\
    Fs.readFile (tree w') (join (distDir o) (basename f2))
      = Ok (processedContent o minifyHTML (text (tree w) f2)) /\
    entryCount (tree w') (distDir o) (basename f2) = 1.
Proof.
  intros Hf Hd Hw Hrun.
  destruct (run_processHTML sass tsc pathMax o _ _ _ _ Hf Hrun)
    as (loop & Hloop & ->).
  pose proof (markup_loop sass tsc pathMax o _ _ _ _ Hloop Hd) as Hl.
  split; [now rewrite Hl|].
  intros l1 f1 l2 f2 l3 Hfiles Hb Hl3.
  split; [now rewrite Hb|].
  assert (Hwo : Forall writesOnly loop).
  { rewrite Hl. apply Forall_flat_map, Forall_forall. intros g _.
    repeat constructor. }
  pose proof (run_replay sass tsc pathMax (forEach files (markupBody o))
                (join (distDir o) (basename f2)) w) as Hr.
  pose proof (run_wellFormed sass tsc pathMax (forEach files (markupBody o)) w)
    as Hwf.
  rewrite Hloop in Hr, Hwf. unfold eventsOf, worldOf in Hr, Hwf.
  cbn [fst snd] in Hr, Hwf. specialize (Hr Hwo). specialize (Hwf Hwo Hw).
  rewrite Hl, Hfiles in Hr.
  replace (l1 ++ f1 :: l2 ++ f2 :: l3)%list
    with ((l1 ++ f1 :: l2) ++ f2 :: l3)%list in Hr
    by (rewrite <- app_assoc; reflexivity).
  rewrite (replay_collision o (tree w) _ _ f2 l3 _ eq_refl Hl3) in Hr.
  split; [now apply readFile_Ok_kindAt|].
  unfold kindAt in Hr.
  destruct (lookup (tree w') (join (distDir o) (basename f2))) as [n|] eqn:E;
    [|discriminate].
  now apply (entryCount_one _ _ _ n).
Qed.

Lemma markup_flat_and_collision_witness :
  Fs.readFile
    (tree (worldOf (run noSass tscAccepts limit (processHTML production) start)))
    ["p"; "dist"; "index.html"]
  = Ok (lit "<p> b </p>") /\
  entryCount
    (tree (worldOf (run noSass tscAccepts limit (processHTML production) start)))
    ["p"; "dist"] "index.html" = 1.
Proof.
  destruct (markup_flat_and_collision noSass tscAccepts limit production start
              (worldOf (run noSass tscAccepts limit (processHTML production) start))
              [page; subpage]
              (eventsOf (run noSass tscAccepts limit (processHTML production) start)))
    as [_ H].
  - reflexivity.
  - intros f g [<-|[<-|[]]] [<-|[<-|[]]]; discriminate.
  - reflexivity.
  - reflexivity.
  - destruct (H [] page [] subpage [] eq_refl eq_refl) as (_ & H1 & H2).
    + intros g [].
    + split; [exact H1|exact H2].
Defined.

(** C8: on a root that does not exist the file scanner returns the empty
    sequence and throws nothing; on a directory it returns exactly the files
    of the tree below it whose name ends with the extension, character for
    character. *)
Theorem getFiles_scan sass tsc pathMax (w : world) (root : path) (ext : string) :
  (exists_ (tree w) root = false ->
   run sass tsc pathMax (getFiles root ext) w
   = (Done [], w, [EScan root ext (Ok [])])) /\
  (forall es,
     lookup (tree w) root = Some (Dir es) -> wellFormed (tree w) = true ->
     exists files,
       run sass tsc pathMax (getFiles root ext) w
       = (Done files, w, [EScan root ext (Ok files)]) /\
       forall p, In p files <->
         exists rel c stem,
           rel <> [] /\ p = (root ++ rel)%list /\
           lookup (tree w) p = Some (File c) /\ basename p = stem ++ ext).
Proof.
  split.
  - unfold exists_. intros H. unfold getFiles. rewrite run_attempt.
    cbn [Io.exec fst snd record]. unfold Fs.getFiles.
    destruct (lookup (tree w) root); [discriminate|reflexivity].
  - intros es Hl Hw. exists (walk root (Dir es) ext). split.
    + unfold getFiles. rewrite run_attempt. cbn [Io.exec fst snd record].
      unfold Fs.getFiles. rewrite Hl. reflexivity.
    + pose proof (wellFormed_lookup _ _ _ Hw Hl) as Hwd.
      intros p. split.
      * intros Hin.
        destruct (walk_sound _ _ _ _ Hin) as (rel & c & Hne & -> & He & Hlk).
        apply endsWith_spec in He. destruct He as [stem He].
        exists rel, c, stem. repeat split; auto.
        -- rewrite (lookup_app _ _ rel _ Hl). now apply Hlk.
        -- unfold basename. now rewrite last_app.
      * intros (rel & c & stem & Hne & -> & Hlk & Hb).
        rewrite (lookup_app _ _ rel _ Hl) in Hlk.
        apply (walk_complete ext _ root rel c Hne Hlk).
        apply endsWith_spec. exists stem. unfold basename in Hb.
        now rewrite last_app in Hb.
Qed.

Lemma getFiles_scan_witness :
  run noSass tscAccepts limit (getFiles ["p"; "nowhere"] ".html") start
  = (Done [], start, [EScan ["p"; "nowhere"] ".html" (Ok [])]) /\
  (exists c stem,
     lookup (tree start) subpage = Some (File c) /\
     basename subpage = stem ++ ".html").
Proof.
  split.
  - apply (getFiles_scan noSass tscAccepts limit start ["p"; "nowhere"] ".html").
    reflexivity.
  - destruct (getFiles_scan noSass tscAccepts limit start ["p"; "src"] ".html")
      as [_ H].
    destruct (H _ eq_refl eq_refl) as (files & Hrun & Hin).
    injection Hrun as <-.
    destruct (proj1 (Hin subpage) ltac:(vm_compute; pick))
      as (rel & c & stem & _ & _ & H1 & H2).
    now exists c, stem.
Defined.

(** C9 (as stated, refuted): a page named [.html]. The markup task finds
    it in its scan of the source root, but the router sees no extension in
    such a name: the handler of its change runs no task at all. *)
Lemma dot_html_change_runs_no_task :
  Fs.getFiles (tree dottedStart) (srcDir production) ".html" = Ok [dotPage] /\
  extname dotPage = EmptyString /\
  run noSass tscAccepts limit (onChange limit production dotPage) dottedStart
  = (Done tt, dottedStart, [ELog (MChanged dotPage); ELog MReload]).
Proof. vm_compute. repeat split. Qed.

(** C9 (amended): in watch mode a change of a file whose name is [.html]
    with something before it runs the markup task and no other: the handler
    scans the source root for markup, reads markup, writes markup into the
    output root, and what is at any other path, the outputs of the
    stylesheet, script, asset and data tasks among them, is as it was. A
    change of a file named [.html] and nothing else is routed by its
    directory: to the asset task, to the data task, or to none. *)
Theorem markup_change_runs_markup_only
    sass tsc pathMax (o : options) (filePath : path) (w : world) :
  (forall stem,
     basename filePath = stem ++ ".html" -> stem <> EmptyString ->
     route pathMax o filePath
     = ((processHTML o ;; log MHtmlUpdated) ;; log MReload) /\
     outcomeOf (run sass tsc pathMax (onChange pathMax o filePath) w) = Done tt /\
     Forall (markupEvent o)
       (eventsOf (run sass tsc pathMax (onChange pathMax o filePath) w)) /\
     (forall q,
        (forall n, endsWith n ".html" = true -> q <> join (distDir o) n) ->
        kindAt (tree (worldOf (run sass tsc pathMax (onChange pathMax o filePath) w))) q
        = kindAt (tree w) q) /\
     (forall q,
        otherOutput o q ->
        kindAt (tree (worldOf (run sass tsc pathMax (onChange pathMax o filePath) w))) q
        = kindAt (tree w) q)) /\
  (basename filePath = ".html" ->
   route pathMax o filePath =
     ((if includes (pathString (dirname filePath)) "assets" then
         processAssets pathMax o ;; log MAssetsUpdated
       else if includes (pathString (dirname filePath)) "data" then
         processData pathMax o ;; log MDataUpdated
       else Ret tt) ;; log MReload)).
Proof.
  split; [|intros Hname; apply route_bare; rewrite Hname; now left].
  intros stem Hname Hstem.
  pose proof (extname_html filePath stem Hname Hstem) as Hext.
  pose proof (route_html pathMax o filePath Hext) as Hr.
  assert (Hev : Forall (markupEvent o)
                  (eventsOf (run sass tsc pathMax (onChange pathMax o filePath) w))).
  { apply (events_routed sass tsc pathMax o (markupEvent o) _ _ _ _ Hr);
      try (intros m; exact I). apply processHTML_events. }
  assert (Hframe : forall q,
    (forall n, endsWith n ".html" = true -> q <> join (distDir o) n) ->
    kindAt (tree (worldOf (run sass tsc pathMax (onChange pathMax o filePath) w))) q
    = kindAt (tree w) q).
  { intros q Hq. apply run_spares.
    eapply Forall_impl; [|exact Hev]. intros ev.
    destruct ev; simpl; try tauto.
    intros (n & -> & Hn) H. exact (Hq n Hn (eq_sym H)). }
  repeat split; auto.
  - apply onChange_done.
  - intros q Hq. apply Hframe. now apply otherOutput_not_markup.
Qed.

Lemma markup_change_runs_markup_only_witness :
  kindAt
    (tree (worldOf (run noSass tscAccepts limit (onChange limit production page) start)))
    ["p"; "dist"; "style.css"]
  = kindAt (tree start) ["p"; "dist"; "style.css"].
Proof.
  destruct (markup_change_runs_markup_only noSass tscAccepts limit production
              page start) as [H _].
  destruct (H "index" eq_refl) as (_ & _ & _ & _ & H').
  - discriminate.
  - apply H'. right. right. exists "style.css". split; [reflexivity|].
    left. reflexivity.
Defined.

(** C10 (as stated, refuted): a stylesheet named [.css] among the assets.
    Its path ends in [.css], but the router sees no extension in such a name
    and goes by the directory: the change runs the asset task, which scans
    nothing and copies the changed file. And where the Sass compiler follows
    a [@use] out of the source root, the text of the changed module is what
    the stylesheet task writes. *)
Lemma dot_css_change_copies_asset :
  endsWith (basename dotStyle) ".css" = true /\
  In (ECopy dotStyle ["p"; "dist"; "assets"; ".css"] (Ok tt))
     (eventsOf (run noSass tscAccepts limit (onChange limit production dotStyle)
                  dottedStart)) /\
  Forall (fun ev => match ev with EScan _ _ _ => False | _ => True end)
     (eventsOf (run noSass tscAccepts limit (onChange limit production dotStyle)
                  dottedStart)) /\
  In (EWrite ["p"; "dist"; "main.css"] (text dotted theme) (Ok tt))
     (eventsOf (run sassFollows tscAccepts limit (onChange limit production theme)
                  dottedStart)).
Proof.
  vm_compute. split; [reflexivity|]. split; [pick|].
  split; [repeat constructor|pick].
Qed.

(** C10 (amended): the watcher routes by extension before it looks at the
    directory. A change of a file whose name is .html, .scss, .css, .ts or
    .js with something before it runs the markup, stylesheet or script task
    wherever the file lies; the task scans the source root only, and the
    files it reads itself or hands to the Sass or the TypeScript compiler
    all lie below the source root, so a changed file outside the source root
    is not among them; what the two compilers open on their own account is
    theirs to decide. A change of a file named by one of the five extensions
    and nothing else is routed by its directory like any other file. *)
Theorem extension_routes_before_location
    sass tsc pathMax (o : options) (filePath : path) (stem : string) (w : world) :
  stem <> EmptyString ->
  (basename filePath = stem ++ ".html" ->
   route pathMax o filePath
   = ((processHTML o ;; log MHtmlUpdated) ;; log MReload)) /\
  (basename filePath = stem ++ ".scss" \/ basename filePath = stem ++ ".css" ->
   route pathMax o filePath
   = ((processStyles o ;; log MStylesUpdated) ;; log MReload)) /\
  (basename filePath = stem ++ ".ts" \/ basename filePath = stem ++ ".js" ->
   route pathMax o filePath
   = ((processScripts o ;; log MScriptsUpdated) ;; log MReload)) /\
  (In (basename filePath)
      (map (append stem) [".html"; ".scss"; ".css"; ".ts"; ".js"]) ->
   Forall (fromSource o)
     (eventsOf (run sass tsc pathMax (onChange pathMax o filePath) w)) /\
   (~ under (srcDir o) filePath ->
    forall ev,
      In ev (eventsOf (run sass tsc pathMax (onChange pathMax o filePath) w)) ->
      readOf ev <> Some filePath)) /\
  (In (basename filePath) [".html"; ".scss"; ".css"; ".ts"; ".js"] ->
   route pathMax o filePath =
     ((if includes (pathString (dirname filePath)) "assets" then
         processAssets pathMax o ;; log MAssetsUpdated
       else if includes (pathString (dirname filePath)) "data" then
         processData pathMax o ;; log MDataUpdated
       else Ret tt) ;; log MReload)).
Proof.
  intros Hstem.
  assert (Hhtml : basename filePath = stem ++ ".html" ->
                  route pathMax o filePath
                  = ((processHTML o ;; log MHtmlUpdated) ;; log MReload)).
  { intros H. apply route_html. now apply (extname_html filePath stem). }
  assert (Hstyles : basename filePath = stem ++ ".scss" \/
                    basename filePath = stem ++ ".css" ->
                    route pathMax o filePath
                    = ((processStyles o ;; log MStylesUpdated) ;; log MReload)).
  { intros [H|H]; apply route_styles.
    - left. now apply (extname_scss filePath stem).
    - right. now apply (extname_css filePath stem). }
  assert (Hscripts : basename filePath = stem ++ ".ts" \/
                     basename filePath = stem ++ ".js" ->
                     route pathMax o filePath
                     = ((processScripts o ;; log MScriptsUpdated) ;; log MReload)).
  { intros [H|H]; apply route_scripts.
    - left. now apply (extname_ts filePath stem).
    - right. now apply (extname_js filePath stem). }
  split; [exact Hhtml|]. split; [exact Hstyles|]. split; [exact Hscripts|].
  split; [|apply route_bare].
  intros Hext.
  assert (Hev : Forall (fromSource o)
                  (eventsOf (run sass tsc pathMax (onChange pathMax o filePath) w))).
  { simpl in Hext.
    destruct Hext as [H|[H|[H|[H|[H|[]]]]]]; symmetry in H.
    - apply (events_routed sass tsc pathMax o _ _ _ _ _ (Hhtml H));
        try (intros m; exact I). apply processHTML_fromSource.
    - apply (events_routed sass tsc pathMax o _ _ _ _ _ (Hstyles (or_introl H)));
        try (intros m; exact I). apply processStyles_fromSource.
    - apply (events_routed sass tsc pathMax o _ _ _ _ _ (Hstyles (or_intror H)));
        try (intros m; exact I). apply processStyles_fromSource.
    - apply (events_routed sass tsc pathMax o _ _ _ _ _ (Hscripts (or_introl H)));
        try (intros m; exact I). apply processScripts_fromSource.
    - apply (events_routed sass tsc pathMax o _ _ _ _ _ (Hscripts (or_intror H)));
        try (intros m; exact I). apply processScripts_fromSource. }
  split; [exact Hev|]. intros Hout ev Hin Hread.
  rewrite Forall_forall in Hev. specialize (Hev ev Hin).
  apply Hout. destruct ev; simpl in Hread, Hev; try discriminate;
    injection Hread as ->; exact Hev.
Qed.

Lemma extension_routes_before_location_witness :
  route limit production ["p"; "assets"; "theme.css"]
  = ((processStyles production ;; log MStylesUpdated) ;; log MReload) /\
  forall ev,
    In ev (eventsOf (run noSass tscAccepts limit
                       (onChange limit production ["p"; "assets"; "theme.css"])
                       start)) ->
    readOf ev <> Some ["p"; "assets"; "theme.css"].
Proof.
  destruct (extension_routes_before_location noSass tscAccepts limit production
              ["p"; "assets"; "theme.css"] "theme" start) as (_ & Hs & _ & H & _).
  - discriminate.
  - split; [apply Hs; right; reflexivity|].
    destruct H as [_ H]; [vm_compute; pick|]. apply H.
    intros (rel & _ & Hrel). destruct rel; discriminate.
Defined.

End Claims.

(* ================================================================== *)
(** * More about the minifiers *)
(* ================================================================== *)

Module MinifyFacts.
Import Js JsProps MoreProps JsFacts.

Lemma ink_app a b : ink (a ++ b) = (ink a ++ ink b)%list.
Proof. apply filter_app. Qed.

Lemma ink_spaces s : Forall (fun c => isSpace c = true) s -> ink s = [].
Proof.
  induction 1 as [|c s Hc _ IH]; [reflexivity|].
  unfold ink in *. simpl. now rewrite Hc.
Qed.

Lemma ink_wsRun s : ink (firstn (wsRun s) s) = [].
Proof. apply ink_spaces, wsRun_firstn. Qed.

Lemma ink_char c : isSpace c = false -> ink [c] = [c].
Proof. intros H. unfold ink. simpl. now rewrite H. Qed.

Lemma ink_trimStart s : ink (trimStart s) = ink s.
Proof.
  unfold trimStart.
  replace (ink s) with (ink (firstn (wsRun s) s ++ skipn (wsRun s) s))
    by now rewrite firstn_skipn.
  now rewrite ink_app, ink_wsRun.
Qed.

Lemma ink_rev s : ink (rev s) = rev (ink s).
Proof.
  induction s as [|c s IH]; [reflexivity|].
  cbn [rev]. rewrite ink_app, IH. unfold ink at 2 3. simpl.
  destruct (isSpace c); simpl; [now rewrite app_nil_r|reflexivity].
Qed.

Lemma ink_trim s : ink (trim s) = ink s.
Proof.
  unfold trim, trimEnd.
  now rewrite ink_rev, ink_trimStart, ink_rev, rev_involutive, ink_trimStart.
Qed.

Lemma subseq_refl a : subseq a a.
Proof. induction a; constructor; assumption. Qed.

Lemma subseq_empty b : subseq [] b.
Proof. induction b; constructor; assumption. Qed.

Lemma subseq_app a b c d : subseq a b -> subseq c d -> subseq (a ++ c) (b ++ d).
Proof.
  induction 1 as [|x a b _ IH|x a b _ IH]; intros Hcd; simpl.
  - exact Hcd.
  - apply subseq_skip. now apply IH.
  - apply subseq_take. now apply IH.
Qed.

Lemma subseq_trans b : forall a c, subseq a b -> subseq b c -> subseq a c.
Proof.
  intros a c Hab Hbc. revert a Hab.
  induction Hbc as [|x b c Hbc IH|x b c Hbc IH]; intros a Hab.
  - exact Hab.
  - apply subseq_skip. now apply IH.
  - inversion Hab; subst.
    + apply subseq_skip. now apply IH.
    + apply subseq_take. now apply IH.
Qed.

Lemma inky_sparing m : inky m -> sparing m.
Proof. intros H s rep n E. rewrite (H _ _ _ E). apply subseq_refl. Qed.

Lemma eraser_sparing m : eraser m -> sparing m.
Proof.
  intros H s rep n E. destruct (H _ _ _ E) as (-> & _). apply subseq_empty.
Qed.

Lemma ink_replaceAll {m} (Hm : regular m) (Hi : inky m) s :
  ink (replaceAll m s) = ink s.
Proof.
  pattern s, (replaceAll m s). apply (replaceAll_ind Hm); clear s.
  - reflexivity.
  - intros c s _ IH. change (c :: replaceAll m s) with ([c] ++ replaceAll m s)%list.
    change (c :: s) with ([c] ++ s)%list. now rewrite !ink_app, IH.
  - intros s rep n E IH.
    replace (ink s) with (ink (firstn n s ++ skipn n s))
      by now rewrite firstn_skipn.
    now rewrite !ink_app, IH, (Hi _ _ _ E).
Qed.

Lemma subseq_replaceAll {m} (Hm : regular m) (Hs : sparing m) s :
  subseq (ink (replaceAll m s)) (ink s).
Proof.
  pattern s, (replaceAll m s). apply (replaceAll_ind Hm); clear s.
  - constructor.
  - intros c s _ IH. change (c :: replaceAll m s) with ([c] ++ replaceAll m s)%list.
    change (c :: s) with ([c] ++ s)%list. rewrite !ink_app.
    apply subseq_app; [apply subseq_refl|exact IH].
  - intros s rep n E IH.
    replace (ink s) with (ink (firstn n s ++ skipn n s))
      by now rewrite firstn_skipn.
    rewrite !ink_app.
    apply subseq_app; [exact (Hs _ _ _ E)|exact IH].
Qed.

Lemma inky_ws : inky re_ws.
Proof.
  unfold re_ws. intros s rep n.
  pose proof (ink_wsRun s) as Hp.
  destruct (wsRun s) as [|k] eqn:E; [discriminate|].
  intros [= <- <-]. now rewrite Hp.
Qed.

Lemma inky_gt_ws_lt : inky re_gt_ws_lt.
Proof.
  unfold re_gt_ws_lt. intros [|c s] rep n; [discriminate|].
  destruct (N.eqb_spec c gt) as [->|]; [|discriminate].
  pose proof (ink_wsRun s) as Hp.
  destruct (wsRun s) as [|k] eqn:E; [discriminate|].
  destruct (nth_error s (S k)) as [d|] eqn:En; [|discriminate].
  destruct (N.eqb_spec d lt) as [->|]; [|discriminate].
  intros [= <- <-].
  change (firstn (S (S (S k))) (gt :: s)) with ([gt] ++ firstn (S (S k)) s)%list.
  rewrite (firstn_S_nth _ _ _ En), !ink_app, Hp. reflexivity.
Qed.

Lemma inky_ws_gt : inky re_ws_gt.
Proof.
  unfold re_ws_gt. intros s rep n.
  pose proof (ink_wsRun s) as Hp.
  destruct (wsRun s) as [|k] eqn:E; [discriminate|].
  destruct (nth_error s (S k)) as [d|] eqn:En; [|discriminate].
  destruct (N.eqb_spec d gt) as [->|]; [|discriminate].
  intros [= <- <-].
  rewrite (firstn_S_nth _ _ _ En), !ink_app, Hp. reflexivity.
Qed.

Lemma inky_lt_ws : inky re_lt_ws.
Proof.
  unfold re_lt_ws. intros [|c s] rep n; [discriminate|].
  destruct (N.eqb_spec c lt) as [->|]; [|discriminate].
  pose proof (ink_wsRun s) as Hp.
  destruct (wsRun s) as [|k] eqn:E; [discriminate|].
  intros [= <- <-].
  change (firstn (S (S k)) (lt :: s)) with ([lt] ++ firstn (S k) s)%list.
  rewrite ink_app, Hp. reflexivity.
Qed.

Lemma inky_after x : isSpace x = false -> inky (re_after x).
Proof.
  intros Hx. unfold re_after. intros [|c s] rep n; [discriminate|].
  destruct (N.eqb_spec c x) as [->|]; [|discriminate].
  intros [= <- <-].
  change (firstn (S (wsRun s)) (x :: s)) with ([x] ++ firstn (wsRun s) s)%list.
  rewrite ink_app, ink_wsRun, app_nil_r. reflexivity.
Qed.

Lemma inky_punct : inky re_punct.
Proof.
  unfold re_punct. intros s rep n.
  pose proof (ink_wsRun s) as Hp.
  pose proof (ink_wsRun (skipn (S (wsRun s)) s)) as Hq.
  remember (skipn (S (wsRun s)) s) as r eqn:Hr.
  destruct (nth_error s (wsRun s)) as [p|] eqn:En; [|discriminate].
  destruct (isPunct p) eqn:Ep; [|discriminate].
  intros [= <- <-].
  replace (wsRun s + 1 + wsRun r) with (S (wsRun s) + wsRun r) by lia.
  rewrite firstn_plus, <- Hr, (firstn_S_nth _ _ _ En), !ink_app, Hp, Hq.
  now rewrite app_nil_r.
Qed.

Lemma sparing_semi_close : sparing re_semi_close.
Proof.
  unfold re_semi_close. intros [|c s] rep n; [discriminate|].
  destruct (N.eqb_spec c semi) as [->|]; [|discriminate].
  pose proof (ink_wsRun s) as Hp.
  destruct (nth_error s (wsRun s)) as [d|] eqn:En; [|discriminate].
  destruct (N.eqb_spec d rbrace) as [->|]; [|discriminate].
  intros [= <- <-].
  change (firstn (S (S (wsRun s))) (semi :: s))
    with ([semi] ++ firstn (S (wsRun s)) s)%list.
  rewrite (firstn_S_nth _ _ _ En), !ink_app, Hp.
  apply subseq_skip. apply subseq_refl.
Qed.

(** ** What is left of white space *)

Lemma nf_app sel : forall a p s,
  nf sel p (a ++ s) = true -> exists p', nf sel p' s = true.
Proof.
  induction a as [|c a IH]; intros p s H; [now exists p|].
  simpl in H. destruct (isSpace c).
  - apply andb_prop in H. destruct H as [_ H]. exact (IH _ _ H).
  - exact (IH _ _ H).
Qed.

(** Behind a code unit [c] that is not white space, no white space that [sel]
    selects after [c]. *)
Lemma nf_behind sel c d b p :
  isSpace c = false -> sel (Some c) (hd_error b) = true ->
  nf sel p (c :: d :: b) = true -> isSpace d = false.
Proof.
  intros Hc Hsel H. simpl in H. rewrite Hc in H.
  destruct (isSpace d); [|reflexivity].
  rewrite Hsel in H. discriminate.
Qed.

(** Before a code unit [d], no white space that [sel] selects before [d]. *)
Lemma nf_before sel c d b p :
  (forall q, sel q (Some d) = true) ->
  nf sel p (c :: d :: b) = true -> isSpace c = false.
Proof.
  intros Hsel H. simpl in H. destruct (isSpace c); [|reflexivity].
  cbn [hd_error] in H. rewrite Hsel in H. discriminate.
Qed.

Lemma isC_same x : isC x (Some x) = true.
Proof. simpl. apply N.eqb_refl. Qed.

Lemma nf_after_spec x p s a d b :
  isSpace x = false -> nf (sel_after x) p s = true ->
  s = (a ++ x :: d :: b)%list -> isSpace d = false.
Proof.
  intros Hx H ->. apply nf_app in H. destruct H as [p' H].
  apply (nf_behind _ _ _ _ _ Hx) in H; [exact H|]. apply isC_same.
Qed.


(** ** Blank input *)

Lemma replaceAll_spaces {m} (Hm : regular m) :
  (forall c s, isSpace c = true -> m (c :: s) = None) ->
  forall x, forallb isSpace x = true -> replaceAll m x = x.
Proof.
  intros H x. induction x as [|c x IH]; intros Hx.
  - apply (replaceAll_nil Hm).
  - simpl in Hx. apply andb_prop in Hx. destruct Hx as [Hc Hx].
    rewrite (replaceAll_miss (H c x Hc)). now rewrite IH.
Qed.

Lemma wsRun_spaces x : forallb isSpace x = true -> wsRun x = length x.
Proof.
  induction x as [|c x IH]; [reflexivity|]. simpl. intros H.
  apply andb_prop in H. destruct H as [-> H]. now rewrite IH.
Qed.

Lemma replace_ws_spaces x :
  x <> [] -> forallb isSpace x = true -> replaceAll re_ws x = [sp].
Proof.
  intros Hne Hx.
  assert (E : re_ws x = Some ([sp], length x)).
  { unfold re_ws. rewrite (wsRun_spaces _ Hx).
    destruct x; [congruence|reflexivity]. }
  rewrite (replaceAll_hit regular_ws E), skipn_all.
  now rewrite (replaceAll_nil regular_ws).
Qed.

Lemma block_comment_space c s : isSpace c = true -> re_block_comment (c :: s) = None.
Proof.
  intros Hc. unfold re_block_comment. destruct s as [|b t]; [reflexivity|].
  destruct (N.eqb_spec c slash) as [->|]; [discriminate|reflexivity].
Qed.

Lemma line_comment_space c s : isSpace c = true -> re_line_comment (c :: s) = None.
Proof.
  intros Hc. unfold re_line_comment. destruct s as [|b t]; [reflexivity|].
  destruct (N.eqb_spec c slash) as [->|]; [discriminate|reflexivity].
Qed.

End MinifyFacts.

(* ================================================================== *)
(** * More about the file system *)
(* ================================================================== *)

Module TreeFacts.
Import Js Path Fs FsProps MoreProps FsFacts.
Local Open Scope string_scope.


Lemma offPath_cons name q p : offPath (name :: q) (name :: p) -> offPath q p.
Proof. intros H rel ->. now apply (H rel). Qed.

Lemma offPath_nil p : ~ offPath [] p.
Proof. intros H. now apply (H p). Qed.

Lemma lookup_empty q : q <> [] -> lookup (Dir []) q = None.
Proof. destruct q; [congruence|reflexivity]. Qed.

(** ** mkdir *)



Lemma mkdirAt_lookup full : forall p root root' q,
  mkdirAt full root p = Ok root' -> offPath q p ->
  lookup root' q = lookup root q.
Proof.
  induction p as [|name p IH]; intros root root' q; simpl.
  - destruct root as [c|es]; [discriminate|]. now intros [= <-].
  - destruct root as [c|es]; [discriminate|].
    destruct (mkdirAt full _ p) as [c'|e] eqn:E; [|discriminate].
    intros [= <-] Hq. destruct q as [|n q]; [now apply offPath_nil in Hq|].
    simpl. destruct (String.eqb_spec n name) as [->|Hn].
    + rewrite find_setEntry_same. apply offPath_cons in Hq.
      rewrite (IH _ _ _ E Hq).
      destruct (find es name) as [c|]; [reflexivity|].
      apply lookup_empty. intros ->. now apply offPath_nil in Hq.
    + now rewrite find_setEntry_other.
Qed.


Lemma mkdirAt_wellFormed full : forall p root root',
  wellFormed root = true -> mkdirAt full root p = Ok root' ->
  wellFormed root' = true.
Proof.
  induction p as [|name p IH]; intros root root' Hw; simpl.
  - destruct root as [c|es]; [discriminate|]. now intros [= <-].
  - destruct root as [c|es]; [discriminate|].
    destruct (mkdirAt full _ p) as [c'|e] eqn:E; [|discriminate].
    intros [= <-]. apply wellFormed_setEntry; [exact Hw|].
    refine (IH _ _ _ E).
    destruct (find es name) as [c|] eqn:Ef; [|reflexivity].
    exact (wellFormed_entry _ _ _ Hw (find_In _ _ _ Ef)).
Qed.

(** ** writeFile *)

Lemma writeAt_lookup full c : forall p root root',
  writeAt full root p c = Ok root' ->
  lookup root' p = Some (File c) /\
  forall q, offPath q p -> lookup root' q = lookup root q.
Proof.
  induction p as [|name p IH]; intros root root' H; [discriminate|].
  simpl in H. destruct root as [txt|es]; [discriminate|].
  destruct p as [|name' p'].
  - assert (E : root' = Dir (setEntry es name (File c))).
    { destruct (find es name) as [[?|?]|]; congruence. }
    subst root'. split.
    + simpl. now rewrite find_setEntry_same.
    + intros q Hq. destruct q as [|n q]; [now apply offPath_nil in Hq|].
      simpl. destruct (String.eqb_spec n name) as [->|Hn].
      * rewrite find_setEntry_same.
        assert (Hne : q <> []) by (intros ->; now apply (Hq [])).
        destruct q as [|n' q]; [congruence|]. simpl.
        destruct (find es name) as [[?|?]|]; try reflexivity. discriminate.
      * now rewrite find_setEntry_other.
  - destruct (find es name) as [n0|] eqn:Ef; [|discriminate].
    destruct (writeAt full n0 (name' :: p') c) as [c'|e] eqn:E; [|discriminate].
    injection H as <-. destruct (IH _ _ E) as [H1 H2]. split.
    + change (lookup (Dir (setEntry es name c')) (name :: name' :: p'))
        with (match find (setEntry es name c') name with
              | Some n => lookup n (name' :: p') | None => None end).
      now rewrite find_setEntry_same.
    + intros q Hq. destruct q as [|n q]; [now apply offPath_nil in Hq|].
      change (lookup (Dir (setEntry es name c')) (n :: q))
        with (match find (setEntry es name c') n with
              | Some x => lookup x q | None => None end).
      change (lookup (Dir es) (n :: q))
        with (match find es n with Some x => lookup x q | None => None end).
      destruct (String.eqb_spec n name) as [->|Hn].
      * rewrite find_setEntry_same, Ef. apply H2. now apply offPath_cons in Hq.
      * now rewrite find_setEntry_other.
Qed.

Lemma writeFile_lookup root p c root' :
  writeFile root p c = Ok root' ->
  lookup root' p = Some (File c) /\
  forall q, offPath q p -> lookup root' q = lookup root q.
Proof. apply writeAt_lookup. Qed.

Lemma lookup_app_inv : forall p root q x,
  lookup root (p ++ q)%list = Some x ->
  exists n, lookup root p = Some n /\ lookup n q = Some x.
Proof.
  induction p as [|name p IH]; intros root q x; simpl.
  - intros H. now exists root.
  - destruct root as [c|es]; [discriminate|].
    destruct (find es name) as [c|]; [|discriminate]. apply IH.
Qed.

(** ** Paths *)

Lemma app_inj_prefix {A} (p a b : list A) : (p ++ a = p ++ b)%list -> a = b.
Proof. apply app_inv_head. Qed.

Lemma unrelated_sym p q : unrelated p q -> unrelated q p.
Proof. intros [H1 H2]. now split. Qed.

Lemma unrelated_join p q name : unrelated p q -> unrelated (join p name) (join q name).
Proof.
  intros [H1 H2]. unfold join. split; intros rel E.
  - destruct rel as [|r rel].
    + rewrite app_nil_r in E. apply app_inj_tail in E. destruct E as [E _].
      apply (H1 []). now rewrite app_nil_r.
    + rewrite <- app_assoc in E. simpl in E.
      destruct (exists_last (l := r :: rel) ltac:(discriminate)) as (l & z & El).
      rewrite El in E. change (name :: l ++ [z])%list with ((name :: l) ++ [z])%list in E.
      rewrite app_assoc in E. apply app_inj_tail in E. destruct E as [E _].
      apply (H1 (name :: l)). exact E.
  - destruct rel as [|r rel].
    + rewrite app_nil_r in E. apply app_inj_tail in E. destruct E as [E _].
      apply (H2 []). now rewrite app_nil_r.
    + rewrite <- app_assoc in E. simpl in E.
      destruct (exists_last (l := r :: rel) ltac:(discriminate)) as (l & z & El).
      rewrite El in E. change (name :: l ++ [z])%list with ((name :: l) ++ [z])%list in E.
      rewrite app_assoc in E. apply app_inj_tail in E. destruct E as [E _].
      apply (H2 (name :: l)). exact E.
Qed.

(** What is unrelated to a directory is unrelated to what lies in it. *)
Lemma unrelated_below q p name : unrelated q p -> unrelated q (join p name).
Proof.
  intros [H1 H2]. unfold join. split; intros rel E.
  - destruct rel as [|r rel].
    + rewrite app_nil_r in E. subst q. apply (H2 [name]). reflexivity.
    + destruct (exists_last (l := r :: rel) ltac:(discriminate)) as (l & z & El).
      rewrite El, app_assoc in E. apply app_inj_tail in E. destruct E as [E _].
      now apply (H1 l).
  - rewrite <- app_assoc in E. now apply (H2 ([name] ++ rel)%list).
Qed.

(** ** [includes] and the directory string *)

Lemma prefix_append n : forall a b, prefix n a = true -> prefix n (a ++ b) = true.
Proof.
  induction n as [|x n IH]; intros a b; [intros _; now destruct (a ++ b)|].
  destruct a as [|y a]; simpl; [discriminate|].
  destruct (ascii_dec x y); [apply IH|discriminate].
Qed.

Lemma includes_prefix h n : prefix n h = true -> includes h n = true.
Proof. intros H. destruct h; cbn [includes]; now rewrite H. Qed.

Lemma includes_append_r a b n : includes b n = true -> includes (a ++ b) n = true.
Proof.
  intros H. induction a as [|c a IH]; [exact H|].
  cbn [append includes]. rewrite IH. apply orb_true_r.
Qed.

Lemma includes_append_l a b n : includes a n = true -> includes (a ++ b) n = true.
Proof.
  induction a as [|c a IH]; cbn [includes]; intros H.
  - rewrite orb_false_r in H. apply includes_prefix.
    now apply (prefix_append n EmptyString b).
  - apply orb_prop in H. destruct H as [H|H].
    + apply includes_prefix. now apply (prefix_append n (String c a) b).
    + cbn [append includes]. rewrite (IH H). apply orb_true_r.
Qed.

Lemma append_empty s : s ++ EmptyString = s.
Proof. induction s as [|c s IH]; simpl; [reflexivity|]. now rewrite IH. Qed.

Lemma concat_cons x l :
  String.concat EmptyString (x :: l) = x ++ String.concat EmptyString l.
Proof. destruct l; simpl; [now rewrite append_empty|reflexivity]. Qed.

Lemma includes_pathString p c n :
  In c p -> includes c n = true -> includes (pathString p) n = true.
Proof.
  intros Hin Hc.
  assert (H : includes (String.concat EmptyString (map (fun c => "/" ++ c) p)) n
              = true).
  { induction p as [|c' p IH]; [contradiction|].
    cbn [map]. rewrite concat_cons. destruct Hin as [->|Hin].
    - apply includes_append_l. now apply includes_append_r.
    - apply includes_append_r. now apply IH. }
  destruct p; [contradiction|exact H].
Qed.

(** ** getFiles lists a file once *)

Lemma NoDup_append {A} (a b : list A) :
  NoDup a -> NoDup b -> (forall x, In x a -> ~ In x b) -> NoDup (a ++ b).
Proof.
  induction 1 as [|x a Hx Ha IH]; intros Hb Hd; [exact Hb|].
  simpl. constructor.
  - intros Hin. apply in_app_or in Hin. destruct Hin as [Hin|Hin]; [tauto|].
    apply (Hd x); [now left|exact Hin].
  - apply IH; [exact Hb|]. intros y Hy. apply Hd. now right.
Qed.

Lemma found_prefix dir ext name c p :
  In p (found dir ext (name, c)) -> exists rel, p = (dir ++ name :: rel)%list.
Proof.
  unfold found. cbn [fst snd]. destruct (isDirectory c).
  - intros H. apply walk_sound in H. destruct H as (rel & _ & _ & -> & _).
    exists rel. unfold join. now rewrite <- app_assoc.
  - destruct (endsWith name ext); [|contradiction].
    intros [<-|[]]. now exists [].
Qed.

Lemma walk_NoDup ext : forall n dir,
  wellFormed n = true -> NoDup (walk dir n ext).
Proof.
  induction n as [c|es IH] using node_ind; intros dir Hw; [constructor|].
  rewrite walk_Dir. apply wellFormed_Dir in Hw. destruct Hw as [Hu Hall].
  induction es as [|[name c] es IHes]; [constructor|].
  cbn [flat_map]. inversion IH as [|? ? IHc IHrest]; subst.
  inversion Hall as [|? ? Hc Hrest]; subst.
  cbn [map fst uniqueNames] in Hu. apply andb_prop in Hu.
  destruct Hu as [Hfresh Hu]. apply negb_true_iff in Hfresh.
  apply NoDup_append.
  - unfold found. cbn [fst snd] in *. destruct (isDirectory c).
    + now apply IHc.
    + destruct (endsWith name ext); repeat constructor. intros [].
  - now apply IHes.
  - intros p Hp Hq. apply found_prefix in Hp. destruct Hp as [rel ->].
    apply in_flat_map in Hq. destruct Hq as [[name' c'] [Hin Hq]].
    apply found_prefix in Hq. destruct Hq as [rel' E].
    apply app_inv_head in E. injection E as -> _.
    assert (Hn : In name' (map fst es)).
    { change name' with (fst (name', c')). now apply in_map. }
    apply existsb_eqb_In in Hn. congruence.
Qed.

End TreeFacts.

(* ================================================================== *)
(** * More about the tasks *)
(* ================================================================== *)

Module TaskFacts.
Import Js Path Fs Io Bundler FsProps IoProps BundlerProps MoreProps.
Import FsFacts IoFacts BundlerFacts TreeFacts.
Local Open Scope string_scope.


Lemma lookup_File_kindAt root q c :
  lookup root q = Some (File c) <-> kindAt root q = Some (Some c).
Proof.
  unfold kindAt. destruct (lookup root q) as [[c'|es]|]; simpl; split; congruence.
Qed.

Lemma mkdirAt_keeps_file full : forall p root root' q c,
  mkdirAt full root p = Ok root' -> lookup root q = Some (File c) ->
  lookup root' q = Some (File c).
Proof.
  induction p as [|name p IH]; intros root root' q c; simpl.
  - destruct root as [c0|es]; [discriminate|]. now intros [= <-].
  - destruct root as [c0|es]; [discriminate|].
    destruct (mkdirAt full _ p) as [c'|e] eqn:E; [|discriminate].
    intros [= <-]. destruct q as [|n q]; [discriminate|]. simpl.
    destruct (String.eqb_spec n name) as [->|Hn].
    + rewrite find_setEntry_same.
      destruct (find es name) as [c1|]; [|discriminate]. now apply IH.
    + now rewrite find_setEntry_other.
Qed.

Section Runs.

Variable sass : node -> path -> bool -> result (jsstring * option jsstring).
Variable tsc : node -> path -> path -> node * option error.
Variable pathMax : nat.

Abbreviation run := (Io.run sass tsc pathMax).
Abbreviation exec := (Io.exec sass tsc pathMax).

(** ** ensureDir *)

Lemma run_ensureDir p w :
  run (ensureDir p) w =
  match guarded pathMax p (Fs.mkdir (tree w) p) with
  | Ok t => (Done tt, withTree w t, [EMkdir p (Ok tt)])
  | Err e => (if isEEXIST e then Done tt else Thrown e, w, [EMkdir p (Err e)])
  end.
Proof.
  unfold ensureDir. rewrite run_tryCatch, run_attempt. cbn [Io.exec].
  destruct (guarded pathMax p (Fs.mkdir (tree w) p)) as [t|e]; cbn; [reflexivity|].
  destruct (isEEXIST e); reflexivity.
Qed.

Lemma guarded_Ok p r t : guarded pathMax p r = Ok t -> r = Ok t /\ length p <= pathMax.
Proof.
  unfold guarded. destruct (Nat.ltb_spec pathMax (length p)); [discriminate|].
  intros ->. split; [reflexivity|lia].
Qed.


(** ** Files an execution leaves alone *)

Lemma run_keeps {A} (p : prog A) dest q c : forall w,
  Forall (keepsOutside dest) (eventsOf (run p w)) ->
  offPath dest q ->
  lookup (tree w) q = Some (File c) ->
  lookup (tree (worldOf (run p w))) q = Some (File c).
Proof.
  induction p as [a|e|x|X op0 k IH]; intros w; try (intros _ _ H; exact H).
  simpl. destruct (Io.exec sass tsc pathMax op0 w) as [x w1] eqn:E.
  specialize (IH x w1). destruct (Io.run sass tsc pathMax (k x) w1) as [[r w2] evs].
  unfold eventsOf, worldOf in *. cbn [fst snd] in *.
  intros H Hq Hl. inversion H as [|? ? Hev Hevs]; subst.
  apply (IH Hevs Hq). clear IH H Hevs.
  destruct op0; simpl in Hev; try contradiction;
    try (simpl in E; injection E as <- <-; exact Hl).
  - (* WriteFile *)
    simpl in E. destruct Hev as [rel ->].
    destruct (guarded pathMax _ _) as [t|e] eqn:G; simpl in E;
      injection E as <- <-; [|exact Hl].
    apply guarded_Ok in G. destruct G as [G _].
    apply lookup_File_kindAt. apply lookup_File_kindAt in Hl.
    rewrite <- Hl. apply (writeFile_kindAt _ _ _ _ G). apply Hq.
  - (* Mkdir *)
    simpl in E. destruct (guarded pathMax _ _) as [t|e] eqn:G; simpl in E;
      injection E as <- <-; [|exact Hl].
    apply guarded_Ok in G. destruct G as [G _].
    exact (mkdirAt_keeps_file _ _ _ _ _ _ G Hl).
  - (* CopyFile *)
    simpl in E. destruct Hev as [rel ->].
    destruct (guarded pathMax _ _) as [t|e] eqn:G; simpl in E;
      injection E as <- <-; [|exact Hl].
    apply guarded_Ok in G. destruct G as [G _]. unfold Fs.copyFile in G.
    destruct (Fs.readFile (tree w) src) as [c0|e0]; [|discriminate].
    apply lookup_File_kindAt. apply lookup_File_kindAt in Hl.
    rewrite <- Hl. apply (writeFile_kindAt _ _ _ _ G). apply Hq.
Qed.

(** ** copyDirectory *)

Lemma events_ensureDir (Q : event -> Prop) p w :
  (forall r, Q (EMkdir p r)) -> Forall Q (eventsOf (run (ensureDir p) w)).
Proof.
  intros H. rewrite run_ensureDir.
  destruct (guarded pathMax p _) as [t|e]; repeat constructor; apply H.
Qed.

Lemma mirror_copyDirectoryTo src dest : forall depth rel w,
  Forall (mirrorEvent src dest)
    (eventsOf (run (copyDirectoryTo depth (src ++ rel)%list (dest ++ rel)%list) w)).
Proof.
  induction depth as [|d IH]; intros rel w; [constructor|].
  cbn [copyDirectoryTo]. apply events_bind.
  - apply events_ensureDir. intros r. now exists rel.
  - intros _ _. apply events_bind.
    + unfold readdir. apply events_attempt. intros x. now exists rel.
    + intros entries _. apply events_forEach. intros [name isDir] _ w1.
      cbn [fst snd]. unfold join. rewrite <- !app_assoc.
      destruct isDir; [apply IH|].
      unfold copyFile. apply events_attempt. intros x.
      exists (rel ++ [name])%list. split; [|split; reflexivity].
      destruct rel; discriminate.
Qed.

Lemma mirror_keepsOutside src dest ev : mirrorEvent src dest ev -> keepsOutside dest ev.
Proof.
  destruct ev; simpl; try tauto. intros (rel & _ & _ & ->). now exists rel.
Qed.

(** ** What a copy leaves *)

Lemma run_readdir p w :
  run (readdir p) w =
  (match Fs.readdir (tree w) p with Ok x => Done x | Err e => Thrown e end,
   w, [EReaddir p (Fs.readdir (tree w) p)]).
Proof. unfold readdir. now rewrite run_attempt. Qed.

Lemma ensureDir_frame p w w' evs :
  run (ensureDir p) w = (Done tt, w', evs) ->
  forall q, offPath q p -> lookup (tree w') q = lookup (tree w) q.
Proof.
  rewrite run_ensureDir.
  destruct (guarded pathMax p _) as [t|e] eqn:G.
  - intros [= <- _] q Hq. apply guarded_Ok in G. destruct G as [G _].
    exact (mkdirAt_lookup _ _ _ _ _ G Hq).
  - now intros [= _ <- _].
Qed.

Lemma copyFile_done s d w w' evs :
  run (copyFile s d) w = (Done tt, w', evs) ->
  exists c, lookup (tree w) s = Some (File c) /\
            lookup (tree w') d = Some (File c) /\
            forall q, offPath q d -> lookup (tree w') q = lookup (tree w) q.
Proof.
  unfold copyFile. rewrite run_attempt. cbn [Io.exec].
  destruct (guarded pathMax d _) as [t|e] eqn:G; cbn; [|discriminate].
  intros [= <- _]. apply guarded_Ok in G. destruct G as [G _].
  unfold Fs.copyFile, Fs.readFile in G.
  destruct (lookup (tree w) s) as [[c|es]|]; try discriminate.
  exists c. split; [reflexivity|]. exact (writeFile_lookup _ _ _ _ G).
Qed.

Lemma uniqueNames_NoDup names : uniqueNames names = true -> NoDup names.
Proof.
  induction names as [|n names IH]; simpl; [constructor|].
  intros H. apply andb_prop in H. destruct H as [Hn Hu].
  constructor; [|now apply IH].
  apply negb_true_iff in Hn. intros Hin.
  apply existsb_eqb_In in Hin. congruence.
Qed.

Lemma unrelated_siblings dest name name' rel :
  name <> name' -> unrelated (dest ++ name :: rel)%list (join dest name').
Proof.
  intros Hn. unfold join. split; intros rel' E.
  - rewrite <- app_assoc in E. apply app_inv_head in E. simpl in E. congruence.
  - rewrite <- app_assoc in E. apply app_inv_head in E. simpl in E. congruence.
Qed.

Lemma lookup_entry root src es name n :
  lookup root src = Some (Dir es) -> wellFormed (Dir es) = true ->
  In (name, n) es -> lookup root (join src name) = Some n.
Proof.
  intros Hl Hw Hin. unfold join. rewrite (lookup_app _ _ _ _ Hl). simpl.
  now rewrite (In_find _ _ _ (wellFormed_unique _ Hw) Hin).
Qed.

Section CopyLoop.

Variable d : nat.

Hypothesis copies : forall src dest w w' evs es,
  run (copyDirectoryTo d src dest) w = (Done tt, w', evs) ->
  lookup (tree w) src = Some (Dir es) ->
  wellFormed (Dir es) = true ->
  unrelated src dest ->
  (forall q, unrelated q dest -> lookup (tree w') q = lookup (tree w) q) /\
  (forall rel c, lookup (Dir es) rel = Some (File c) ->
     lookup (tree w') (dest ++ rel)%list = Some (File c)).

Lemma copy_step src dest es name n w w' evs :
  run (if isDirectory n then copyDirectoryTo d (join src name) (join dest name)
       else copyFile (join src name) (join dest name)) w = (Done tt, w', evs) ->
  lookup (tree w) src = Some (Dir es) ->
  wellFormed (Dir es) = true ->
  unrelated src dest ->
  In (name, n) es ->
  (forall q, unrelated q (join dest name) ->
     lookup (tree w') q = lookup (tree w) q) /\
  (forall rel c, lookup n rel = Some (File c) ->
     lookup (tree w') (dest ++ name :: rel)%list = Some (File c)).
Proof.
  intros Hrun Hl Hw Hu Hin.
  pose proof (lookup_entry _ _ _ _ _ Hl Hw Hin) as Hn.
  destruct n as [c0|es']; cbn [isDirectory] in Hrun.
  - destruct (copyFile_done _ _ _ _ _ Hrun) as (c & Hs & Hd & Hf).
    rewrite Hn in Hs. injection Hs as <-. split.
    + intros q [Hq _]. now apply Hf.
    + intros rel c. destruct rel as [|r rel]; [|discriminate].
      intros [= <-]. exact Hd.
  - destruct (copies _ _ _ _ _ es' Hrun Hn) as [Hf Hr].
    + exact (wellFormed_entry _ _ _ Hw Hin).
    + now apply unrelated_join.
    + split; [exact Hf|]. intros rel c Hc. specialize (Hr rel c Hc).
      unfold join in Hr. now rewrite <- app_assoc in Hr.
Qed.

Lemma copy_loop src dest es : forall rest w w' evs,
  run (forEach (map (fun e => (fst e, isDirectory (snd e))) rest)
         (fun entry =>
            let srcPath := join src (fst entry) in
            let destPath := join dest (fst entry) in
            if snd entry then copyDirectoryTo d srcPath destPath
            else copyFile srcPath destPath)) w = (Done tt, w', evs) ->
  lookup (tree w) src = Some (Dir es) ->
  wellFormed (Dir es) = true ->
  unrelated src dest ->
  (forall e, In e rest -> In e es) ->
  NoDup (map fst rest) ->
  (forall q, (forall e, In e rest -> unrelated q (join dest (fst e))) ->
     lookup (tree w') q = lookup (tree w) q) /\
  (forall name n rel c, In (name, n) rest -> lookup n rel = Some (File c) ->
     lookup (tree w') (dest ++ name :: rel)%list = Some (File c)).
Proof.
  induction rest as [|[name n] rest IH]; intros w w' evs Hrun Hl Hw Hu Hin Hnd.
  - injection Hrun as <- _. split; [reflexivity|]. intros ? ? ? ? [].
  - cbn [map] in Hrun. rewrite run_forEach_cons in Hrun. cbn [fst snd] in Hrun.
    destruct (run (if isDirectory n then _ else _) w) as [[r1 w1] evs1] eqn:E1.
    destruct r1 as [[]|e|c]; cbn [andThen] in Hrun; try discriminate.
    destruct (run (forEach _ _) w1) as [[r2 w2] evs2] eqn:E2.
    injection Hrun as -> -> _.
    destruct (copy_step _ _ _ _ _ _ _ _ E1 Hl Hw Hu (Hin _ (or_introl eq_refl)))
      as [Hf1 Hr1].
    inversion Hnd as [|? ? Hfresh Hnd']; subst.
    assert (Hl1 : lookup (tree w1) src = Some (Dir es)).
    { rewrite Hf1; [exact Hl|]. now apply unrelated_below. }
    destruct (IH _ _ _ E2 Hl1 Hw Hu (fun e He => Hin e (or_intror He)) Hnd')
      as [Hf2 Hr2].
    split.
    + intros q Hq. rewrite Hf2; [apply Hf1|].
      * exact (Hq _ (or_introl eq_refl)).
      * intros e He. apply Hq. now right.
    + intros name' n' rel c [[= <- <-]|Hin'] Hc.
      * rewrite Hf2; [now apply Hr1|].
        intros [name2 n2] He. cbn [fst]. apply unrelated_siblings.
        intros ->. apply Hfresh. change name2 with (fst (name2, n2)).
        now apply in_map.
      * now apply (Hr2 name' n').
Qed.

End CopyLoop.

(** A copy that returns left every file below [src] at the same place below
    [dest], and changed nothing but at [dest], above it and below it. *)
Lemma copyDirectoryTo_copies : forall depth src dest w w' evs es,
  run (copyDirectoryTo depth src dest) w = (Done tt, w', evs) ->
  lookup (tree w) src = Some (Dir es) ->
  wellFormed (Dir es) = true ->
  unrelated src dest ->
  (forall q, unrelated q dest -> lookup (tree w') q = lookup (tree w) q) /\
  (forall rel c, lookup (Dir es) rel = Some (File c) ->
     lookup (tree w') (dest ++ rel)%list = Some (File c)).
Proof.
  induction depth as [|d IH]; intros src dest w w' evs es Hrun Hl Hw Hu;
    [discriminate|].
  cbn [copyDirectoryTo] in Hrun. rewrite run_bind in Hrun.
  destruct (run (ensureDir dest) w) as [[r1 w1] evs1] eqn:E1.
  destruct r1 as [[]|e|c]; cbn [andThen] in Hrun; try discriminate.
  pose proof (ensureDir_frame _ _ _ _ E1) as Hf1.
  assert (Hl1 : lookup (tree w1) src = Some (Dir es)).
  { rewrite Hf1; [exact Hl|]. apply Hu. }
  rewrite run_bind, run_readdir in Hrun. unfold Fs.readdir in Hrun.
  rewrite Hl1 in Hrun. cbn [andThen] in Hrun.
  destruct (run (forEach _ _) w1) as [[r2 w2] evs2] eqn:E2.
  injection Hrun as -> -> _.
  destruct (copy_loop d IH src dest es es _ _ _ E2 Hl1 Hw Hu (fun e He => He))
    as [Hf2 Hr2].
  { apply uniqueNames_NoDup. now apply wellFormed_unique. }
  split.
  - intros q Hq. rewrite Hf2; [apply Hf1, Hq|].
    intros e _. now apply unrelated_below.
  - intros [|name rel] c; [discriminate|]. simpl.
    destruct (find es name) as [n|] eqn:Ef; [|discriminate].
    intros Hc. exact (Hr2 _ _ _ _ (find_In _ _ _ Ef) Hc).
Qed.

(** ** The asset and data tasks *)

Lemma run_pathExists p w :
  run (pathExists p) w = (Done (exists_ (tree w) p), w, [EAccess p (exists_ (tree w) p)]).
Proof. reflexivity. Qed.

Lemma ensureDir_wellFormed p w w' evs :
  run (ensureDir p) w = (Done tt, w', evs) ->
  wellFormed (tree w) = true -> wellFormed (tree w') = true.
Proof.
  rewrite run_ensureDir.
  destruct (guarded pathMax p _) as [t|e] eqn:G.
  - intros [= <- _] Hw. apply guarded_Ok in G. destruct G as [G _].
    exact (mkdirAt_wellFormed _ _ _ _ Hw G).
  - now intros [= _ <- _].
Qed.

Lemma writeFile_done p c w w' evs :
  run (writeFile p c) w = (Done tt, w', evs) ->
  lookup (tree w') p = Some (File c) /\
  (forall q, offPath q p -> lookup (tree w') q = lookup (tree w) q) /\
  (wellFormed (tree w) = true -> wellFormed (tree w') = true).
Proof.
  unfold writeFile. rewrite run_attempt. cbn [Io.exec].
  destruct (guarded pathMax p _) as [t|e] eqn:G; cbn; [|discriminate].
  intros [= <- _]. apply guarded_Ok in G. destruct G as [G _].
  destruct (writeFile_lookup _ _ _ _ G) as [H1 H2].
  repeat split; auto. intros Hw. exact (writeAt_wellFormed _ _ _ _ _ Hw G).
Qed.

Lemma offPath_below src dest rel : unrelated src dest -> offPath (src ++ rel)%list dest.
Proof.
  intros [H _] r E. apply (H (rel ++ r)%list). now rewrite app_assoc.
Qed.

Lemma unrelated_deeper src dest rel :
  unrelated src dest -> unrelated (src ++ rel)%list dest.
Proof.
  intros Hu. split; [now apply offPath_below|].
  intros r E. apply app_eq_app in E.
  destruct E as [l [[E _]|[E _]]].
  - now apply (proj2 Hu l).
  - now apply (proj1 Hu l).
Qed.

Lemma copyDirectory_copies src dest w w' evs es :
  run (copyDirectory pathMax src dest) w = (Done tt, w', evs) ->
  lookup (tree w) src = Some (Dir es) ->
  wellFormed (Dir es) = true ->
  unrelated src dest ->
  (forall q, unrelated q dest -> lookup (tree w') q = lookup (tree w) q) /\
  (forall rel c, lookup (Dir es) rel = Some (File c) ->
     lookup (tree w') (dest ++ rel)%list = Some (File c)).
Proof. apply copyDirectoryTo_copies. Qed.

(** The tail of both tasks: the output directory is made, the tree copied. *)
Lemma copy_into src dest w w' evs es :
  run (ensureDir dest ;; copyDirectory pathMax src dest) w = (Done tt, w', evs) ->
  lookup (tree w) src = Some (Dir es) ->
  wellFormed (Dir es) = true ->
  unrelated src dest ->
  (forall q, unrelated q dest -> lookup (tree w') q = lookup (tree w) q) /\
  (forall rel c, lookup (Dir es) rel = Some (File c) ->
     lookup (tree w') (dest ++ rel)%list = Some (File c)).
Proof.
  intros Hrun Hl Hw Hu. rewrite run_bind in Hrun.
  destruct (run (ensureDir dest) w) as [[r1 w1] evs1] eqn:E1.
  destruct r1 as [[]|e|c]; cbn [andThen] in Hrun; try discriminate.
  destruct (run (copyDirectory pathMax src dest) w1) as [[r2 w2] evs2] eqn:E2.
  injection Hrun as -> -> _.
  pose proof (ensureDir_frame _ _ _ _ E1) as Hf1.
  assert (Hl1 : lookup (tree w1) src = Some (Dir es)).
  { rewrite Hf1; [exact Hl|]. apply Hu. }
  destruct (copyDirectory_copies _ _ _ _ _ _ E2 Hl1 Hw Hu) as [Hf2 Hr2].
  split; [|exact Hr2]. intros q Hq. rewrite (Hf2 q Hq). apply Hf1, Hq.
Qed.

Lemma bind_done {A B} (p : prog A) (f : A -> prog B) w b w' evs :
  run (bind p f) w = (Done b, w', evs) ->
  exists a w1 evs1 evs2,
    run p w = (Done a, w1, evs1) /\ run (f a) w1 = (Done b, w', evs2) /\
    evs = (evs1 ++ evs2)%list.
Proof.
  rewrite run_bind. destruct (run p w) as [[r w1] evs1].
  destruct r as [a|e|c]; cbn [andThen]; try discriminate.
  destruct (run (f a) w1) as [[r2 w2] evs2] eqn:E2.
  intros [= -> -> <-]. now exists a, w1, evs1, evs2.
Qed.

End Runs.

(** ** The stylesheet and script tasks *)

Lemma append_assoc (a b c : string) : (a ++ b) ++ c = a ++ (b ++ c).
Proof. induction a as [|x a IH]; simpl; [reflexivity|]. now rewrite IH. Qed.

Lemma endsWith_append stem suffix : endsWith (stem ++ suffix) suffix = true.
Proof. apply endsWith_spec. now exists stem. Qed.

Section Tasks.

Variable sass : node -> path -> bool -> result (jsstring * option jsstring).
Variable tsc : node -> path -> path -> node * option error.
Variable pathMax : nat.
Variable o : options.

Abbreviation run := (Io.run sass tsc pathMax).

Lemma processStyles_events w :
  Forall (styleEvent o) (eventsOf (run (processStyles o) w)).
Proof.
  unfold processStyles. apply events_bind.
  { unfold getFiles. apply events_attempt. intros x. simpl. auto. }
  intros scssFiles Hs. apply (scanned sass tsc pathMax) in Hs.
  rewrite scanned_world.
  apply events_bind.
  { unfold getFiles. apply events_attempt. intros x. simpl. auto. }
  intros cssFiles Hc. apply (scanned sass tsc pathMax) in Hc.
  rewrite scanned_world.
  apply events_bind.
  - apply events_forEach. intros file Hin w1.
    pose proof (getFiles_under _ _ _ _ Hs _ Hin) as Hu.
    apply events_bind.
    + apply events_attempt. intros x. exact Hu.
    + intros result _. apply events_bind.
      * unfold writeFile. apply events_attempt. intros x. simpl.
        eexists. split; [reflexivity|]. left. apply endsWith_append.
      * intros _ _. destruct (dev o) eqn:Ed, (snd result); try constructor.
        unfold writeFile. apply events_attempt. intros x. simpl.
        eexists. split; [reflexivity|]. right. split; [exact Ed|].
        rewrite append_assoc. apply endsWith_append.
  - intros _ _. apply events_forEach. intros file Hin w1.
    pose proof (getFiles_under _ _ _ _ Hc _ Hin) as Hu.
    apply events_bind.
    + unfold readFile. apply events_attempt. intros x. exact Hu.
    + intros content _. unfold writeFile. apply events_attempt. intros x.
      simpl. eexists. split; [reflexivity|]. left. apply Hu.
Qed.

Lemma processScripts_events w :
  Forall (scriptEvent o) (eventsOf (run (processScripts o) w)).
Proof.
  unfold processScripts. apply events_bind.
  { unfold getFiles. apply events_attempt. intros x. simpl. auto. }
  intros tsFiles Hs. apply (scanned sass tsc pathMax) in Hs.
  rewrite scanned_world.
  apply events_bind.
  { unfold getFiles. apply events_attempt. intros x. simpl. auto. }
  intros jsFiles Hc. apply (scanned sass tsc pathMax) in Hc.
  rewrite scanned_world.
  apply events_bind.
  - apply events_forEach. intros file Hin w1.
    destruct (getFiles_under _ _ _ _ Hs _ Hin) as [Hu He].
    apply events_tryCatch.
    + apply events_bind.
      * apply events_attempt. intros x. simpl. auto.
      * intros _ _. apply events_perform. intros x. simpl.
        apply endsWith_append.
    + intros e _. apply events_bind.
      * apply events_perform. intros x. exact Hu.
      * intros _ _. constructor.
  - intros _ _. apply events_forEach. intros file Hin w1.
    destruct (getFiles_under _ _ _ _ Hc _ Hin) as [Hu He].
    apply events_bind.
    + unfold readFile. apply events_attempt. intros x. simpl. auto.
    + intros content _. unfold writeFile. apply events_attempt. intros x.
      simpl. eexists. split; [reflexivity|]. exact He.
Qed.

End Tasks.

(** ** The watcher and the build *)

Lemma opsAll_forEach_In {A} (Q : forall X, op X -> bool) (xs : list A)
    (body : A -> prog unit) :
  (forall x, In x xs -> opsAll Q (body x)) -> opsAll Q (forEach xs body).
Proof.
  induction xs as [|x xs IH]; intros Hb; simpl; [exact I|].
  apply opsAll_bind; [apply Hb; now left|]. intros _. apply IH.
  intros y Hy. apply Hb. now right.
Qed.

Lemma notWatch_tasks pathMax o entry :
  In entry (tasks pathMax o) -> opsAll notWatchOp (snd entry).
Proof.
  simpl. intros [<-|[<-|[<-|[<-|[<-|[]]]]]]; cbn [snd]; unfold_tasks; ops_all;
    now apply opsAll_copyDirectoryTo.
Qed.

Section Watch.

Variable sass : node -> path -> bool -> result (jsstring * option jsstring).
Variable tsc : node -> path -> path -> node * option error.
Variable pathMax : nat.
Variable o : options.

Abbreviation run := (Io.run sass tsc pathMax).

Lemma unwatched_quiet {A} (p : prog A) w :
  opsAll notWatchOp p -> unwatched (eventsOf (run p w)).
Proof.
  apply (opsAll_events sass tsc pathMax notWatchOp).
  intros X op0 x. destruct op0; simpl; try reflexivity. discriminate.
Qed.

Lemma watchFate_prefix {A} (p : prog A) (k : A -> prog unit) w :
  opsAll notWatchOp p ->
  (forall a w1, watchFate o (run (k a) w1)) ->
  watchFate o (run (bind p k) w).
Proof.
  intros Hp Hk. pose proof (unwatched_quiet p w Hp) as Hq.
  rewrite run_bind. destruct (run p w) as [[r w1] evs].
  unfold eventsOf in Hq. cbn [snd] in Hq. destruct r as [a|e|c]; cbn [andThen].
  - specialize (Hk a w1). destruct (run (k a) w1) as [[r2 w2] evs2].
    unfold watchFate, outcomeOf, eventsOf in *. cbn [fst snd] in *.
    destruct Hk as [[Hu Hr]|(Hr & Hd & pre & Hu & ->)].
    + left. split; [|exact Hr]. apply Forall_app. now split.
    + right. split; [exact Hr|]. split; [exact Hd|].
      exists (evs ++ pre)%list. split; [apply Forall_app; now split|].
      now rewrite app_assoc.
  - left. unfold outcomeOf, eventsOf. cbn [fst snd]. split; [exact Hq|].
    left. discriminate.
  - left. unfold outcomeOf, eventsOf. cbn [fst snd]. split; [exact Hq|].
    left. discriminate.
Qed.

Lemma watchFate_buildTry startTime w :
  watchFate o (run (buildTry pathMax o startTime) w).
Proof.
  unfold buildTry. revert w.
  do 3 (intros ?; apply watchFate_prefix; [unfold_tasks; ops_all|]; intros _).
  intros ?. apply watchFate_prefix.
  { apply opsAll_forEach_In. intros entry Hin.
    apply opsAll_bind; [apply opsAll_perform; reflexivity|]. intros _.
    apply opsAll_bind; [now apply (notWatch_tasks pathMax o)|]. intros _.
    apply opsAll_perform. reflexivity. }
  intros _ ?. apply watchFate_prefix; [unfold_tasks; ops_all|].
  intros endTime ?. apply watchFate_prefix; [unfold_tasks; ops_all|].
  intros _ ?. destruct (dev o) eqn:Ed.
  - right. split; [reflexivity|]. split; [exact Ed|].
    exists []. split; [constructor|reflexivity].
  - left. split; [constructor|]. now right.
Qed.

Lemma watchFate_build w : watchFate o (run (build pathMax o) w).
Proof.
  rewrite run_build.
  pose proof (watchFate_buildTry (time w) w) as H.
  destruct (run (buildTry pathMax o (time w)) w) as [[r w1] evs].
  unfold watchFate, outcomeOf, eventsOf in *. cbn [fst snd] in H.
  destruct H as [[Hu Hr]|(-> & Hd & pre & Hu & ->)].
  - left. destruct r as [[]|e|c]; cbn.
    + split; [|exact Hr]. repeat constructor. exact Hu.
    + split; [|left; discriminate]. repeat constructor.
      apply Forall_app. split; [exact Hu|]. repeat constructor.
    + split; [|left; discriminate]. repeat constructor. exact Hu.
  - right. cbn. split; [reflexivity|]. split; [exact Hd|].
    exists (ELog MBuildStart :: ENow :: pre). split; [|reflexivity].
    repeat constructor. exact Hu.
Qed.

(** The fate read in terms of the events. *)
Lemma watchFate_spec x :
  watchFate o x ->
  (forall ps, In (EWatch ps) (eventsOf x) ->
     dev o = true /\ outcomeOf x = Done tt /\ ps = watchRoots o) /\
  (dev o = true -> outcomeOf x = Done tt ->
   exists pre,
     eventsOf x =
       (pre ++ [ELog MDevStart; ELog MDevWatching; EWatch (watchRoots o)])%list /\
     forall ps, ~ In (EWatch ps) pre).
Proof.
  assert (Hno : forall evs ps, unwatched evs -> ~ In (EWatch ps) evs).
  { intros evs ps Hu Hin. unfold unwatched in Hu. rewrite Forall_forall in Hu.
    specialize (Hu _ Hin). discriminate. }
  intros [[Hu Hr]|(Hr & Hd & pre & Hu & He)]; split.
  - intros ps Hin. now apply Hno in Hin.
  - intros Hd Hdone. destruct Hr; congruence.
  - intros ps Hin. rewrite He in Hin. apply in_app_or in Hin.
    destruct Hin as [Hin|Hin]; [now apply Hno in Hin|].
    destruct Hin as [H|[H|[H|[]]]]; try discriminate.
    injection H as <-. auto.
  - intros _ _. exists pre. split; [exact He|]. intros ps. now apply Hno.
Qed.

End Watch.

Lemma watcher_fate_of_main sass tsc pathMax cwd args w ps :
  In (EWatch ps)
    (eventsOf (Io.run sass tsc pathMax
                 (build pathMax
                    (defaultOptions cwd
                       (existsb (String.eqb "--dev") args
                        || existsb (String.eqb "-d") args))) w)) ->
  existsb (String.eqb "--dev") args || existsb (String.eqb "-d") args = true /\
  outcomeOf (Io.run sass tsc pathMax
               (build pathMax
                  (defaultOptions cwd
                     (existsb (String.eqb "--dev") args
                      || existsb (String.eqb "-d") args))) w) = Done tt /\
  ps = [join cwd "src"; join cwd "data"; join cwd "assets"].
Proof.
  set (o := defaultOptions cwd _). intros Hin.
  destruct (watchFate_spec o _ (watchFate_build sass tsc pathMax o w)) as [H _].
  exact (H ps Hin).
Qed.

(** ** Tasks that catch nothing *)

Lemma failFast_bind {A B} (p : prog A) (f : A -> prog B) :
  failFast p -> (forall a, failFast (f a)) -> failFast (bind p f).
Proof.
  induction p as [a|e|c|X o k IH]; simpl; intros Hp Hf; auto.
  intros x. specialize (Hp x). destruct (failure (record o x)).
  - now rewrite Hp.
  - now apply IH.
Qed.

Lemma failFast_forEach {A} (xs : list A) (body : A -> prog unit) :
  (forall x, failFast (body x)) -> failFast (forEach xs body).
Proof.
  intros Hb. induction xs as [|x xs IH]; simpl; [exact I|].
  apply failFast_bind; [apply Hb|]. intros _. exact IH.
Qed.

Lemma failFast_attempt {X} (o : op (result X)) :
  (forall x, failure (record o (Ok x)) = None) ->
  (forall e, failure (record o (Err e)) = Some e) ->
  failFast (attempt o).
Proof.
  intros H1 H2. simpl. intros [x|e]; [now rewrite H1|now rewrite H2].
Qed.

Lemma failFast_processHTML o : failFast (processHTML o).
Proof.
  unfold processHTML, getFiles, readFile, writeFile.
  apply failFast_bind; [now apply failFast_attempt|]. intros files.
  apply failFast_forEach. intros file.
  apply failFast_bind; [now apply failFast_attempt|]. intros content.
  now apply failFast_attempt.
Qed.

Lemma failFast_processStyles o : failFast (processStyles o).
Proof.
  unfold processStyles, getFiles, readFile, writeFile.
  apply failFast_bind; [now apply failFast_attempt|]. intros scssFiles.
  apply failFast_bind; [now apply failFast_attempt|]. intros cssFiles.
  apply failFast_bind.
  - apply failFast_forEach. intros file.
    apply failFast_bind; [now apply failFast_attempt|]. intros result.
    apply failFast_bind; [now apply failFast_attempt|]. intros _.
    destruct (dev o), (snd result); try exact I. now apply failFast_attempt.
  - intros _. apply failFast_forEach. intros file.
    apply failFast_bind; [now apply failFast_attempt|]. intros content.
    now apply failFast_attempt.
Qed.

Lemma failFast_run sass tsc pathMax {A} (p : prog A) : forall w,
  failFast p ->
  match outcomeOf (Io.run sass tsc pathMax p w) with
  | Done _ => sound (eventsOf (Io.run sass tsc pathMax p w))
  | Thrown e =>
      exists pre ev,
        eventsOf (Io.run sass tsc pathMax p w) = (pre ++ [ev])%list /\
        failure ev = Some e /\ sound pre
  | Exited _ => False
  end.
Proof.
  induction p as [a|e|c|X o k IH]; intros w Hp; try contradiction.
  - constructor.
  - simpl in Hp. simpl.
    destruct (Io.exec sass tsc pathMax o w) as [x w1].
    specialize (Hp x). specialize (IH x w1).
    destruct (failure (record o x)) as [e|] eqn:Ef.
    + rewrite Hp. unfold outcomeOf, eventsOf. cbn.
      exists [], (record o x). repeat split; [exact Ef|constructor].
    + specialize (IH Hp).
      destruct (Io.run sass tsc pathMax (k x) w1) as [[r w2] evs].
      unfold outcomeOf, eventsOf in *. cbn [fst snd] in *.
      destruct r as [a|e|c]; [| |exact IH].
      * now constructor.
      * destruct IH as (pre & ev & -> & He & Hpre).
        exists (record o x :: pre), ev. repeat split; [exact He|].
        now constructor.
Qed.

End TaskFacts.

(* ================================================================== *)
(** * The checks of the contact form *)
(* ================================================================== *)

Module ContactFacts.
Import Js JsProps Regex JsFacts.

Lemma isEmpty_spec s : isEmpty s = true <-> s = [].
Proof. destruct s; simpl; split; congruence. Qed.

Lemma plusRun_spec f : forall s t,
  In t (plusRun f s) <->
  exists a, a <> [] /\ forallb f a = true /\ s = (a ++ t)%list.
Proof.
  induction s as [|c s IH]; intros t; simpl.
  - split; [contradiction|]. intros (a & Ha & _ & E).
    destruct a; [congruence|discriminate].
  - destruct (f c) eqn:Hc; simpl.
    + rewrite IH. split.
      * intros [<-|(a & Ha & Hf & ->)].
        -- exists [c]. simpl. now rewrite Hc.
        -- exists (c :: a). simpl. rewrite Hc, Hf. repeat split. discriminate.
      * intros (a & Ha & Hf & E). destruct a as [|d a]; [congruence|].
        simpl in E, Hf. injection E as <- ->.
        apply andb_prop in Hf. destruct Hf as [_ Hf].
        destruct a as [|e a]; [now left|]. right.
        exists (e :: a). repeat split; [discriminate|exact Hf].
    + split; [contradiction|]. intros (a & Ha & Hf & E).
      destruct a as [|d a]; [congruence|]. simpl in E, Hf.
      injection E as <- _. rewrite Hc in Hf. discriminate.
Qed.

Lemma chr_spec c s t : In t (suffixes (Chr c) s) <-> s = c :: t.
Proof.
  simpl. destruct s as [|d s]; [split; [contradiction|discriminate]|].
  destruct (N.eqb_spec d c) as [->|Hn]; simpl.
  - split; [intros [->|[]]; reflexivity|]. intros [= ->]. now left.
  - split; [contradiction|]. intros [= -> _]. congruence.
Qed.

Lemma seq_spec a b s t :
  In t (suffixes (Seq a b) s) <->
  exists u, In u (suffixes a s) /\ In t (suffixes b u).
Proof. simpl. apply in_flat_map. Qed.

Lemma test_spec r s : test r s = true <-> In [] (suffixes r s).
Proof.
  unfold test. rewrite existsb_exists. split.
  - intros (x & Hx & E). apply isEmpty_spec in E. now subst.
  - intros H. now exists [].
Qed.

(** What the expression of the validators accepts. *)
Lemma emailRegex_spec s :
  test emailRegex s = true <->
  exists user host tail,
    s = (user ++ atSign :: host ++ dot :: tail)%list /\
    user <> [] /\ host <> [] /\ tail <> [] /\
    forallb notSpaceAt user = true /\ forallb notSpaceAt host = true /\
    forallb notSpaceAt tail = true.
Proof.
  rewrite test_spec. unfold emailRegex. rewrite seq_spec. split.
  - intros (u1 & H1 & H). apply plusRun_spec in H1.
    destruct H1 as (user & Hu & Hfu & ->).
    apply seq_spec in H. destruct H as (u2 & H2 & H).
    apply chr_spec in H2. subst u1.
    apply seq_spec in H. destruct H as (u3 & H3 & H).
    apply plusRun_spec in H3. destruct H3 as (host & Hh & Hfh & ->).
    apply seq_spec in H. destruct H as (u4 & H4 & H).
    apply chr_spec in H4. subst u3.
    apply plusRun_spec in H. destruct H as (tail & Ht & Hft & ->).
    exists user, host, tail. rewrite app_nil_r. repeat split; assumption.
  - intros (user & host & tail & -> & Hu & Hh & Ht & Hfu & Hfh & Hft).
    exists (atSign :: host ++ dot :: tail)%list. split.
    + apply plusRun_spec. now exists user.
    + apply seq_spec. exists (host ++ dot :: tail)%list. split.
      * now apply chr_spec.
      * apply seq_spec. exists (dot :: tail). split.
        -- apply plusRun_spec. now exists host.
        -- apply seq_spec. exists tail. split; [now apply chr_spec|].
           apply plusRun_spec. exists tail. now rewrite app_nil_r.
Qed.

Lemma notSpaceAt_spec c :
  notSpaceAt c = true <-> isSpace c = false /\ c <> atSign.
Proof.
  unfold notSpaceAt. rewrite negb_true_iff, orb_false_iff, N.eqb_neq. tauto.
Qed.

Lemma isSpace_atSign : isSpace atSign = false.
Proof. reflexivity. Qed.

Lemma isSpace_dot : isSpace dot = false.
Proof. reflexivity. Qed.

Lemma notSpaceAt_dot : notSpaceAt dot = true.
Proof. reflexivity. Qed.

Lemma forallb_notSpace s :
  forallb notSpaceAt s = true -> forallb (fun c => negb (isSpace c)) s = true.
Proof.
  intros H. apply forallb_forall. intros c Hc.
  rewrite forallb_forall in H. specialize (H c Hc).
  apply notSpaceAt_spec in H. destruct H as [H _]. now rewrite H.
Qed.

Lemma email_no_space s :
  test emailRegex s = true -> forallb (fun c => negb (isSpace c)) s = true.
Proof.
  intros H. apply emailRegex_spec in H.
  destruct H as (user & host & tail & -> & _ & _ & _ & Hu & Hh & Ht).
  rewrite forallb_app. cbn [forallb]. rewrite forallb_app. cbn [forallb].
  rewrite !forallb_notSpace by assumption.
  now rewrite isSpace_atSign, isSpace_dot.
Qed.

Lemma headSpace_no_space s :
  forallb (fun c => negb (isSpace c)) s = true -> headSpace s = false.
Proof.
  destruct s as [|c s]; [reflexivity|]. simpl. intros H.
  apply andb_prop in H. destruct H as [H _]. now apply negb_true_iff in H.
Qed.

Lemma trim_no_space s :
  forallb (fun c => negb (isSpace c)) s = true -> trim s = s.
Proof.
  intros H. unfold trim, trimEnd.
  rewrite (trimStart_fixed s (headSpace_no_space _ H)).
  rewrite trimStart_fixed; [apply rev_involutive|].
  apply headSpace_no_space. now rewrite forallb_rev.
Qed.

Lemma trim_blank s : forallb isSpace s = true -> trim s = [].
Proof.
  intros H. unfold trim. rewrite (trimStart_all _ H). apply trimEnd_nil.
Qed.

(** ** The check of the server *)

Section Body.
Variable number : Type.
Variable isZero : number -> bool.
Variable numberText : number -> jsstring.

Abbreviation truthy := (Server.truthy isZero).
Abbreviation toText := (Server.toText numberText).
Abbreviation tooShort := (Server.tooShort isZero).
Abbreviation badEmail := (Server.badEmail isZero numberText).
Abbreviation validateContactForm := (Server.validateContactForm isZero numberText).

Lemma tooShort_None (x : Server.value number) n :
  tooShort x n = None <-> truthy x = true /\ forall s, x <> Server.Str s.
Proof.
  unfold Server.tooShort. destruct (truthy x) eqn:T; cbn [negb].
  - destruct x; split; try (intros; split; [reflexivity|]; intros; discriminate);
      try reflexivity; try discriminate.
    intros [_ H]. now destruct (H s).
  - split; [discriminate|]. now intros [[=] _].
Qed.

Lemma tooShort_false (x : Server.value number) n :
  1 <= n ->
  tooShort x n = Some false <-> exists s, x = Server.Str s /\ n <= length (trim s).
Proof.
  intros Hn. unfold Server.tooShort. destruct (truthy x) eqn:T; cbn [negb].
  - destruct x; try (split; [discriminate|]; intros (s' & [=] & _); fail).
    split.
    + intros [= H]. apply Nat.ltb_ge in H. now exists s.
    + intros (s' & [= <-] & H). f_equal. now apply Nat.ltb_ge.
  - split; [discriminate|]. intros (s & -> & H). exfalso.
    cbn in T. apply negb_false_iff in T. destruct s; [simpl in H; lia|discriminate].
Qed.

Lemma badEmail_None (x : Server.value number) :
  badEmail x = None <-> truthy x = true /\ toText x = None.
Proof.
  unfold Server.badEmail. destruct (truthy x) eqn:T; cbn [negb].
  - destruct (toText x); cbn; split; try discriminate; try tauto.
    now intros [_ [=]].
  - split; [discriminate|]. now intros [[=] _].
Qed.

Lemma badEmail_false (x : Server.value number) :
  badEmail x = Some false <->
  truthy x = true /\ exists e, toText x = Some e /\ test emailRegex e = true.
Proof.
  unfold Server.badEmail. destruct (truthy x) eqn:T; cbn [negb].
  - destruct (toText x) as [e|]; cbn.
    + split.
      * intros [= H]. apply negb_false_iff in H. split; [reflexivity|]. now exists e.
      * intros (_ & e' & [= <-] & H). now rewrite H.
    + split; [discriminate|]. now intros (_ & e & [=] & _).
  - split; [discriminate|]. now intros [[=] _].
Qed.

Lemma validate_Some data v :
  validateContactForm data = Some v ->
  (Server.isValid v = true <-> Server.fields v = []) /\
  (Server.isValid v = true <->
   tooShort (Server.name data) 2 = Some false /\
   badEmail (Server.email data) = Some false /\
   tooShort (Server.subject data) 3 = Some false /\
   tooShort (Server.message data) 10 = Some false).
Proof.
  unfold Server.validateContactForm.
  destruct (tooShort (Server.name data) 2) as [[]|]; [| |discriminate];
  (destruct (badEmail (Server.email data)) as [[]|]; [| |discriminate]);
  (destruct (tooShort (Server.subject data) 3) as [[]|]; [| |discriminate]);
  (destruct (tooShort (Server.message data) 10) as [[]|]; [| |discriminate]);
  intros [= <-]; cbn; split; split; intros H; try discriminate H;
    try reflexivity; try (destruct H as (? & ? & ? & ?); discriminate);
    repeat split.
Qed.

Lemma validate_None data :
  validateContactForm data = None <->
  tooShort (Server.name data) 2 = None \/
  badEmail (Server.email data) = None \/
  tooShort (Server.subject data) 3 = None \/
  tooShort (Server.message data) 10 = None.
Proof.
  unfold Server.validateContactForm.
  destruct (tooShort (Server.name data) 2) as [[]|];
  (destruct (badEmail (Server.email data)) as [[]|]);
  (destruct (tooShort (Server.subject data) 3) as [[]|]);
  (destruct (tooShort (Server.message data) 10) as [[]|]);
  cbn; split; try discriminate; try tauto;
  intros [H|[H|[H|H]]]; discriminate.
Qed.

End Body.

Arguments tooShort_None {number} isZero x n.
Arguments tooShort_false {number} isZero x n.
Arguments badEmail_None {number} isZero numberText x.
Arguments badEmail_false {number} isZero numberText x.
Arguments validate_Some {number} isZero numberText data v.
Arguments validate_None {number} isZero numberText data.

(** ** Words *)

Lemma split_plain sep : forall s,
  forallb (fun c => negb (c =? sep)%N) s = true -> App.split sep s = [s].
Proof.
  induction s as [|c s IH]; [reflexivity|]. simpl. intros H.
  apply andb_prop in H. destruct H as [Hc Hs].
  apply negb_true_iff in Hc. now rewrite Hc, (IH Hs).
Qed.

Lemma split_nonempty sep s : App.split sep s <> [].
Proof.
  destruct s as [|c s]; simpl; [discriminate|].
  destruct (c =? sep)%N; [discriminate|].
  destruct (App.split sep s); discriminate.
Qed.

Lemma split_first sep : forall a b,
  forallb (fun c => negb (c =? sep)%N) a = true ->
  App.split sep (a ++ sep :: b) = a :: App.split sep b.
Proof.
  induction a as [|c a IH]; intros b H.
  - simpl. now rewrite N.eqb_refl.
  - simpl in H. apply andb_prop in H. destruct H as [Hc Ha].
    apply negb_true_iff in Hc. simpl. now rewrite Hc, (IH b Ha).
Qed.

Lemma split_behind sep : forall a b,
  exists front, front <> [] /\
    App.split sep (a ++ sep :: b) = (front ++ App.split sep b)%list.
Proof.
  induction a as [|c a IH]; intros b.
  - exists [[]]. split; [discriminate|]. simpl. now rewrite N.eqb_refl.
  - destruct (IH b) as (front & Hne & E). simpl. rewrite E.
    destruct front as [|f0 fr]; [congruence|].
    destruct (c =? sep)%N.
    + exists ([] :: f0 :: fr). split; [discriminate|reflexivity].
    + exists ((c :: f0) :: fr). split; [discriminate|reflexivity].
Qed.

Lemma nth_last {A} (d : A) : forall l, nth (length l - 1) l d = last l d.
Proof.
  induction l as [|x l IH]; [reflexivity|].
  destruct l as [|y t]; [reflexivity|].
  replace (length (x :: y :: t) - 1) with (S (length (y :: t) - 1))
    by (simpl; lia).
  exact IH.
Qed.

Lemma navName_last name :
  App.navName name =
  (nth 0 (App.split sp name) [] ++ [sp] ++ last (App.split sp name) [])%list.
Proof. unfold App.navName. now rewrite nth_last. Qed.

End ContactFacts.

(* ================================================================== *)
(** * Further properties *)
(* ================================================================== *)

Module Extras.
Import Js Path Fs Io Bundler JsProps IoProps FsProps BundlerProps MoreProps Sample.
Import JsFacts IoFacts FsFacts BundlerFacts MinifyFacts TreeFacts TaskFacts.
Import Regex ContactFacts.
Local Open Scope string_scope.

(** X1: minifyHTML touches white space only: the code units of its output
    that are not white space are those of its input, in the same order. *)
Theorem minifyHTML_keeps_ink x : ink (minifyHTML x) = ink x.
Proof.
  unfold minifyHTML. rewrite ink_trim.
  rewrite (ink_replaceAll regular_lt_ws inky_lt_ws).
  rewrite (ink_replaceAll regular_ws_gt inky_ws_gt).
  rewrite (ink_replaceAll regular_gt_ws_lt inky_gt_ws_lt).
  apply (ink_replaceAll regular_ws inky_ws).
Qed.

(** X2: minifyCSS and minifyJS only take away: what is not white space in
    their output is what is not white space in their input with some code
    units left out, none added and none moved. *)
Theorem minify_only_deletes x :
  subseq (ink (minifyCSS x)) (ink x) /\ subseq (ink (minifyJS x)) (ink x).
Proof.
  split.
  - unfold minifyCSS. rewrite ink_trim.
    rewrite (ink_replaceAll (regular_after colon) (inky_after colon eq_refl)).
    rewrite (ink_replaceAll (regular_after comma) (inky_after comma eq_refl)).
    rewrite (ink_replaceAll (regular_after semi) (inky_after semi eq_refl)).
    rewrite (ink_replaceAll (regular_after lbrace) (inky_after lbrace eq_refl)).
    eapply subseq_trans;
      [apply (subseq_replaceAll regular_semi_close sparing_semi_close)|].
    rewrite (ink_replaceAll regular_ws inky_ws).
    apply (subseq_replaceAll regular_block_comment).
    apply eraser_sparing, eraser_block_comment.
  - unfold minifyJS. rewrite ink_trim.
    rewrite (ink_replaceAll regular_punct inky_punct).
    rewrite (ink_replaceAll regular_ws inky_ws).
    eapply subseq_trans;
      [apply (subseq_replaceAll regular_line_comment);
       apply eraser_sparing, eraser_line_comment|].
    apply (subseq_replaceAll regular_block_comment).
    apply eraser_sparing, eraser_block_comment.
Qed.

(** X3: in the output of each minifier every white-space code unit is a
    single U+0020 with no other white space next to it, and there is none at
    either end. *)
Theorem minify_output_whitespace x :
  (collapsed (minifyHTML x) = true /\ trim (minifyHTML x) = minifyHTML x) /\
  (collapsed (minifyCSS x) = true /\ trim (minifyCSS x) = minifyCSS x) /\
  (collapsed (minifyJS x) = true /\ trim (minifyJS x) = minifyJS x).
Proof.
  pose proof (minifyHTML_normal x) as Hh.
  pose proof (minifyCSS_normal x) as Hc.
  pose proof (minifyJS_normal x) as Hj.
  unfold htmlNormal, cssNormal, jsNormal in *. intuition.
Qed.

(** X4: the output of minifyHTML has no white space behind a ['<'], none
    before a ['>'], and none between a ['>'] and a ['<']. *)
Theorem minifyHTML_tight x a c d b :
  minifyHTML x = (a ++ c :: d :: b)%list ->
  (c = lt -> isSpace d = false) /\
  (d = gt -> isSpace c = false) /\
  (c = gt -> hd_error b = Some lt -> isSpace d = false).
Proof.
  intros E. destruct (minifyHTML_normal x) as (_ & Hgl & Hbg & Hal & _).
  rewrite E in Hgl, Hbg, Hal. repeat split.
  - intros ->. now apply (nf_after_spec lt None _ a d b eq_refl Hal).
  - intros ->. apply nf_app in Hbg. destruct Hbg as [p H].
    apply (nf_before sel_before_gt c gt b p (fun q => isC_same gt) H).
  - intros -> Hb. apply nf_app in Hgl. destruct Hgl as [p H].
    apply (nf_behind sel_gt_lt gt d b p eq_refl) in H; [exact H|].
    rewrite Hb. reflexivity.
Qed.

Lemma minifyHTML_tight_witness :
  (lt = lt -> isSpace 112%N = false) /\
  (112%N = gt -> isSpace lt = false) /\
  (lt = gt -> hd_error [gt] = Some lt -> isSpace 112%N = false).
Proof.
  apply (minifyHTML_tight (lit "<  p  >") [] lt 112%N [gt]). reflexivity.
Defined.

(** X5: the output of minifyCSS has no white space behind an opening brace, a
    semicolon, a comma or a colon. *)
Theorem minifyCSS_tight x a c d b :
  minifyCSS x = (a ++ c :: d :: b)%list ->
  In c [lbrace; semi; comma; colon] -> isSpace d = false.
Proof.
  intros E Hc. destruct (minifyCSS_normal x) as (_ & Hb & Hs & Hco & Hcl & _).
  destruct Hc as [<-|[<-|[<-|[<-|[]]]]].
  - exact (nf_after_spec lbrace None _ a d b eq_refl Hb E).
  - exact (nf_after_spec semi None _ a d b eq_refl Hs E).
  - exact (nf_after_spec comma None _ a d b eq_refl Hco E).
  - exact (nf_after_spec colon None _ a d b eq_refl Hcl E).
Qed.

Lemma minifyCSS_tight_witness : isSpace 98%N = false.
Proof.
  apply (minifyCSS_tight (lit "a {  b : c }") [97%N; sp] lbrace 98%N
           (lit " :c }")).
  - reflexivity.
  - left. reflexivity.
Defined.

(** X6: the output of minifyJS has no white space next to any of the
    characters [{ } ( ) ; , :], on either side. *)
Theorem minifyJS_tight x a c d b :
  minifyJS x = (a ++ c :: d :: b)%list ->
  (isPunct c = true -> isSpace d = false) /\
  (isPunct d = true -> isSpace c = false).
Proof.
  intros E. destruct (minifyJS_normal x) as (_ & Hp & _).
  rewrite E in Hp. apply nf_app in Hp. destruct Hp as [p H]. split.
  - intros Hc. apply (nf_behind sel_punct c d b p (isPunct_not_space _ Hc)) in H;
      [exact H|]. unfold sel_punct. cbn [isPunctO]. now rewrite Hc.
  - intros Hd. apply (nf_before sel_punct c d b p) in H; [exact H|].
    intros q. unfold sel_punct. cbn [isPunctO]. rewrite Hd. apply orb_true_r.
Qed.

Lemma minifyJS_tight_witness :
  (isPunct 102%N = true -> isSpace lparen = false) /\
  (isPunct lparen = true -> isSpace 102%N = false).
Proof.
  apply (minifyJS_tight (lit "f ( a ) ;") [] 102%N lparen (lit "a);")).
  reflexivity.
Defined.


(** X8: on the empty string, and on a string of white space only, each
    minifier returns the empty string. *)
Theorem minify_blank x :
  forallb isSpace x = true ->
  minifyHTML x = [] /\ minifyCSS x = [] /\ minifyJS x = [].
Proof.
  intros Hx. destruct x as [|c x0] eqn:Ex; [repeat split; reflexivity|].
  rewrite <- Ex in *. assert (Hne : x <> []) by (subst; discriminate).
  clear Ex. unfold minifyHTML, minifyCSS, minifyJS.
  rewrite (replaceAll_spaces regular_block_comment block_comment_space x Hx).
  rewrite (replaceAll_spaces regular_line_comment line_comment_space x Hx).
  rewrite (replace_ws_spaces x Hne Hx). repeat split; reflexivity.
Qed.

Lemma minify_blank_witness :
  minifyHTML [9%N; 10%N; sp] = [] /\ minifyCSS [9%N; 10%N; sp] = [] /\
  minifyJS [9%N; 10%N; sp] = [].
Proof. apply (minify_blank [9%N; 10%N; sp]). reflexivity. Defined.




(** X10: copyDirectory mirrors: every directory it makes is [dest] or lies
    below it, every directory it lists is [src] or lies below it, every file
    it copies goes from its place below [src] to the same place below
    [dest]; it performs nothing else. *)
Theorem copyDirectory_mirrors sass tsc pathMax (src dest : path) (w : world) :
  Forall (mirrorEvent src dest)
    (eventsOf (run sass tsc pathMax (copyDirectory pathMax src dest) w)).
Proof.
  unfold copyDirectory.
  pose proof (mirror_copyDirectoryTo sass tsc pathMax src dest
                (S pathMax - length dest) [] w) as H.
  now rewrite !app_nil_r in H.
Qed.

(** X11: copyDirectory, whether it returns or throws on the way, leaves every
    file that is not at or below [dest] with the text it had. *)
Theorem copyDirectory_keeps_files
    sass tsc pathMax (src dest : path) (w : world) (q : path) (c : jsstring) :
  offPath dest q ->
  lookup (tree w) q = Some (File c) ->
  lookup (tree (worldOf (run sass tsc pathMax (copyDirectory pathMax src dest) w))) q
  = Some (File c).
Proof.
  intros Hq Hl. apply (run_keeps sass tsc pathMax _ dest); auto.
  eapply Forall_impl; [|apply copyDirectory_mirrors].
  apply mirror_keepsOutside.
Qed.

Lemma copyDirectory_keeps_files_witness :
  lookup (tree (worldOf (run noSass tscAccepts limit
                           (copyDirectory limit siteData siteOut) siteStart)))
    ["p"; "src"; "readme.txt"]
  = Some (File (lit "notes")).
Proof.
  apply (copyDirectory_keeps_files noSass tscAccepts limit siteData siteOut
           siteStart ["p"; "src"; "readme.txt"] (lit "notes")).
  - intros rel. discriminate.
  - reflexivity.
Defined.

(** X12: when copyDirectory returns, every file below [src] is at the same
    place below [dest] with the same text, and nothing has changed but at
    [dest], above it and below it: the source is as it was. This is for a
    source directory that lists no name twice and a destination that neither
    holds the source nor lies in it. *)
Theorem copyDirectory_copies_tree
    sass tsc pathMax (src dest : path) (w w' : world) evs es :
  run sass tsc pathMax (copyDirectory pathMax src dest) w = (Done tt, w', evs) ->
  lookup (tree w) src = Some (Dir es) ->
  wellFormed (Dir es) = true ->
  unrelated src dest ->
  lookup (tree w') src = Some (Dir es) /\
  (forall q, unrelated q dest -> lookup (tree w') q = lookup (tree w) q) /\
  (forall rel c, lookup (Dir es) rel = Some (File c) ->
     lookup (tree w') (dest ++ rel)%list = Some (File c)).
Proof.
  intros Hrun Hl Hw Hu.
  destruct (copyDirectory_copies sass tsc pathMax _ _ _ _ _ _ Hrun Hl Hw Hu)
    as [Hf Hr].
  split; [|split; assumption]. now rewrite (Hf src Hu).
Qed.

Lemma copyDirectory_copies_tree_witness :
  lookup (tree (worldOf (run noSass tscAccepts limit
                           (copyDirectory limit siteData siteOut) siteStart)))
    (siteOut ++ ["i18n"; "es.json"])%list
  = Some (File (lit "{ }")).
Proof.
  destruct (copyDirectory_copies_tree noSass tscAccepts limit siteData siteOut
              siteStart
              (worldOf (run noSass tscAccepts limit
                          (copyDirectory limit siteData siteOut) siteStart))
              (eventsOf (run noSass tscAccepts limit
                           (copyDirectory limit siteData siteOut) siteStart))
              [("cv.json", File (lit "{}"));
               ("i18n", Dir [("es.json", File (lit "{ }"))])])
    as (_ & _ & H).
  - vm_compute. reflexivity.
  - reflexivity.
  - reflexivity.
  - split; intros rel; destruct rel as [|? [|? ?]]; discriminate.
  - apply (H ["i18n"; "es.json"]). reflexivity.
Defined.

(** X13: the data task. Without a data root it prints that it skips and
    touches nothing. With one, when it returns, every file below the data
    root is at the same place below [data] in the output root, with the same
    text, and the data root is as it was. *)
Theorem processData_copies_or_skips sass tsc pathMax (o : options) (w : world) :
  (exists_ (tree w) (dataDir o) = false ->
   run sass tsc pathMax (processData pathMax o) w
   = (Done tt, w, [EAccess (dataDir o) false; ELog MDataSkip])) /\
  (forall es w' evs,
     lookup (tree w) (dataDir o) = Some (Dir es) ->
     wellFormed (Dir es) = true ->
     unrelated (dataDir o) (join (distDir o) "data") ->
     run sass tsc pathMax (processData pathMax o) w = (Done tt, w', evs) ->
     lookup (tree w') (dataDir o) = Some (Dir es) /\
     forall rel c, lookup (Dir es) rel = Some (File c) ->
       lookup (tree w') (join (distDir o) "data" ++ rel)%list = Some (File c)).
Proof.
  split.
  - intros H. unfold processData. rewrite run_bind, run_pathExists, H.
    reflexivity.
  - intros es w' evs Hl Hw Hu Hrun. unfold processData in Hrun.
    apply bind_done in Hrun.
    destruct Hrun as (found & w1 & evs1 & evs2 & H1 & H2 & _).
    rewrite run_pathExists in H1. injection H1 as <- <- _.
    unfold exists_ in H2. rewrite Hl in H2. cbn [negb] in H2.
    destruct (copy_into sass tsc pathMax _ _ _ _ _ _ H2 Hl Hw Hu) as [Hf Hr].
    split; [|exact Hr]. now rewrite (Hf _ Hu).
Qed.

Lemma processData_copies_or_skips_witness :
  run noSass tscAccepts limit (processData limit production) start
  = (Done tt, start, [EAccess ["p"; "data"] false; ELog MDataSkip]) /\
  lookup
    (tree (worldOf (run noSass tscAccepts limit
                      (processData limit production) siteStart)))
    ["p"; "dist"; "data"; "cv.json"]
  = Some (File (lit "{}")).
Proof.
  split.
  - apply (processData_copies_or_skips noSass tscAccepts limit production start).
    reflexivity.
  - destruct (processData_copies_or_skips noSass tscAccepts limit production
                siteStart) as [_ H].
    destruct (H [("cv.json", File (lit "{}"));
                 ("i18n", Dir [("es.json", File (lit "{ }"))])]
                (worldOf (run noSass tscAccepts limit
                            (processData limit production) siteStart))
                (eventsOf (run noSass tscAccepts limit
                             (processData limit production) siteStart)))
      as [_ H'].
    + reflexivity.
    + reflexivity.
    + split; intros rel; destruct rel as [|? [|? ?]]; discriminate.
    + vm_compute. reflexivity.
    + apply (H' ["cv.json"]). reflexivity.
Defined.

(** X14: the asset task, when it returns. With an asset root, every file
    below it is at the same place below [assets] in the output root, with the
    same text. Without one, the task makes it, puts the placeholder picture
    at [images/profile.jpg] in it, and copies that: the picture is in the
    asset root and in the output. *)
Theorem processAssets_copies_or_seeds
    sass tsc pathMax (o : options) (w w' : world) evs :
  run sass tsc pathMax (processAssets pathMax o) w = (Done tt, w', evs) ->
  unrelated (assetsDir o) (join (distDir o) "assets") ->
  (forall es,
     lookup (tree w) (assetsDir o) = Some (Dir es) ->
     wellFormed (Dir es) = true ->
     forall rel c, lookup (Dir es) rel = Some (File c) ->
       lookup (tree w') (join (distDir o) "assets" ++ rel)%list = Some (File c)) /\
  (exists_ (tree w) (assetsDir o) = false ->
   wellFormed (tree w) = true ->
   lookup (tree w') (assetsDir o ++ ["images"; "profile.jpg"])%list
   = Some (File placeholderSVG) /\
   lookup (tree w') (join (distDir o) "assets" ++ ["images"; "profile.jpg"])%list
   = Some (File placeholderSVG)).
Proof.
  intros Hrun Hu. unfold processAssets in Hrun.
  apply bind_done in Hrun.
  destruct Hrun as (found & w0 & evs0 & evs1 & H0 & Hrun & _).
  rewrite run_pathExists in H0. injection H0 as <- <- _.
  apply bind_done in Hrun.
  destruct Hrun as ([] & w3 & evs3 & evs4 & Hseed & Hcopy & _).
  split.
  - intros es Hl Hw. unfold exists_ in Hseed. rewrite Hl in Hseed.
    cbn [negb] in Hseed. injection Hseed as <- _.
    apply (copy_into sass tsc pathMax _ _ _ _ _ _ Hcopy Hl Hw Hu).
  - intros Hmiss Hw. rewrite Hmiss in Hseed. cbn [negb] in Hseed.
    apply bind_done in Hseed.
    destruct Hseed as ([] & wa & ? & ? & Ha & Hseed & _).
    rewrite run_log in Ha. injection Ha as <- _.
    apply bind_done in Hseed.
    destruct Hseed as ([] & w1 & ? & ? & H1 & Hseed & _).
    apply bind_done in Hseed.
    destruct Hseed as ([] & w2 & ? & ? & H2 & H3 & _).
    pose proof (ensureDir_wellFormed _ _ _ _ _ _ _ H1 Hw) as Hw1.
    pose proof (ensureDir_wellFormed _ _ _ _ _ _ _ H2 Hw1) as Hw2.
    destruct (writeFile_done _ _ _ _ _ _ _ _ H3) as (Hfile & _ & Hw3).
    specialize (Hw3 Hw2). unfold join in Hfile. rewrite <- app_assoc in Hfile.
    cbn [app] in Hfile.
    destruct (lookup_app_inv _ _ _ _ Hfile) as (n & Hn & Hpic).
    destruct n as [c|es]; [discriminate|].
    pose proof (wellFormed_lookup _ _ _ Hw3 Hn) as Hwn.
    destruct (copy_into sass tsc pathMax _ _ _ _ _ _ Hcopy Hn Hwn Hu)
      as [Hf Hr].
    split; [|exact (Hr _ _ Hpic)].
    rewrite Hf; [exact Hfile|]. now apply unrelated_deeper.
Qed.

Lemma processAssets_copies_or_seeds_witness :
  lookup
    (tree (worldOf (run noSass tscAccepts limit
                      (processAssets limit production) siteStart)))
    ["p"; "dist"; "assets"; "images"; "profile.jpg"]
  = Some (File placeholderSVG).
Proof.
  destruct (processAssets_copies_or_seeds noSass tscAccepts limit production
              siteStart
              (worldOf (run noSass tscAccepts limit
                          (processAssets limit production) siteStart))
              (eventsOf (run noSass tscAccepts limit
                           (processAssets limit production) siteStart)))
    as [_ H].
  - vm_compute. reflexivity.
  - split; intros rel; destruct rel as [|? [|? ?]]; discriminate.
  - apply H; reflexivity.
Defined.

(** X15: a build starts the watcher only in dev mode and only when all of
    its tasks returned; then the start of the watcher, on the source, data
    and asset roots whether they exist or not, is the last thing the build
    does, and it happens once. *)
Theorem watcher_after_build sass tsc pathMax (o : options) (w : world) :
  (forall ps,
     In (EWatch ps) (eventsOf (run sass tsc pathMax (build pathMax o) w)) ->
     dev o = true /\
     outcomeOf (run sass tsc pathMax (build pathMax o) w) = Done tt /\
     ps = [srcDir o; dataDir o; assetsDir o]) /\
  (dev o = true ->
   outcomeOf (run sass tsc pathMax (build pathMax o) w) = Done tt ->
   exists pre,
     eventsOf (run sass tsc pathMax (build pathMax o) w) =
       (pre ++ [ELog MDevStart; ELog MDevWatching;
                EWatch [srcDir o; dataDir o; assetsDir o]])%list /\
     forall ps, ~ In (EWatch ps) pre).
Proof.
  exact (watchFate_spec o _ (watchFate_build sass tsc pathMax o w)).
Qed.

Lemma watcher_after_build_witness :
  exists pre,
    eventsOf (run noSass tscAccepts limit
                (build limit (defaultOptions ["p"] true)) start) =
      (pre ++ [ELog MDevStart; ELog MDevWatching;
               EWatch [["p"; "src"]; ["p"; "data"]; ["p"; "assets"]]])%list /\
    forall ps, ~ In (EWatch ps) pre.
Proof.
  destruct (watcher_after_build noSass tscAccepts limit
              (defaultOptions ["p"] true) start) as [_ H].
  apply H; [reflexivity|vm_compute; reflexivity].
Defined.

(** X16: main starts the watcher only when [--dev] or [-d] is among its
    arguments, and then on [src], [data] and [assets] in the working
    directory. *)
Theorem main_watches_on_request
    sass tsc pathMax (cwd : path) (args : list string) (w : world) ps :
  In (EWatch ps) (eventsOf (run sass tsc pathMax (main pathMax cwd args) w)) ->
  (In "--dev" args \/ In "-d" args) /\
  outcomeOf (run sass tsc pathMax (main pathMax cwd args) w) = Done tt /\
  ps = [join cwd "src"; join cwd "data"; join cwd "assets"].
Proof.
  unfold main. intros Hin.
  destruct (watcher_fate_of_main sass tsc pathMax cwd args w ps Hin)
    as (Hd & Hr & Hps).
  split; [|split; assumption].
  apply orb_prop in Hd. destruct Hd as [Hd|Hd]; [left|right];
    now apply existsb_eqb_In.
Qed.

Lemma main_watches_on_request_witness :
  (In "--dev" ["--dev"] \/ In "-d" ["--dev"]) /\
  outcomeOf (run noSass tscAccepts limit (main limit ["p"] ["--dev"]) start)
  = Done tt /\
  [["p"; "src"]; ["p"; "data"]; ["p"; "assets"]]
  = [join ["p"] "src"; join ["p"] "data"; join ["p"] "assets"].
Proof.
  apply (main_watches_on_request noSass tscAccepts limit ["p"] ["--dev"] start
           [["p"; "src"]; ["p"; "data"]; ["p"; "assets"]]).
  vm_compute. repeat first [left; reflexivity | right].
Defined.

(** X17: the stylesheet task compiles only [.scss] sources and reads only
    [.css] sources below the source root, and writes only into the output
    root itself: files named [.css] and, in dev mode alone, [.css.map]. It
    performs nothing else. *)
Theorem processStyles_stays_in_place sass tsc pathMax (o : options) (w : world) :
  Forall (styleEvent o) (eventsOf (run sass tsc pathMax (processStyles o) w)).
Proof. apply processStyles_events. Qed.

(** X18: the script task hands only [.ts] sources below the source root to
    the compiler, always with the output root as [--outDir]; it reads only
    [.js] sources below the source root and writes only [.js] files into the
    output root itself; what it prints names a compiled [.js] file or the
    source that failed. *)
Theorem processScripts_stays_in_place sass tsc pathMax (o : options) (w : world) :
  Forall (scriptEvent o) (eventsOf (run sass tsc pathMax (processScripts o) w)).
Proof. apply processScripts_events. Qed.

(** X19: a changed path with none of the five routed extensions is routed by
    the text of its directory: to the asset task when a directory on the way
    has [assets] in its name, whatever else is there; to the data task when
    the directory string has no [assets] in it and a directory on the way has
    [data] in its name; and otherwise to no task at all, the handler then
    printing its two lines and changing nothing. *)
Theorem route_by_location pathMax (o : options) (filePath : path) :
  ~ In (extname filePath) [".html"; ".scss"; ".css"; ".ts"; ".js"] ->
  ((exists c, In c (dirname filePath) /\ includes c "assets" = true) ->
   route pathMax o filePath
   = ((processAssets pathMax o ;; log MAssetsUpdated) ;; log MReload)) /\
  (includes (pathString (dirname filePath)) "assets" = false ->
   (exists c, In c (dirname filePath) /\ includes c "data" = true) ->
   route pathMax o filePath
   = ((processData pathMax o ;; log MDataUpdated) ;; log MReload)) /\
  (includes (pathString (dirname filePath)) "assets" = false ->
   includes (pathString (dirname filePath)) "data" = false ->
   forall sass tsc w,
     run sass tsc pathMax (onChange pathMax o filePath) w
     = (Done tt, w, [ELog (MChanged filePath); ELog MReload])).
Proof.
  intros Hext.
  assert (E : forall x, In x [".html"; ".scss"; ".css"; ".ts"; ".js"] ->
                        (extname filePath =? x) = false).
  { intros x Hx. apply String.eqb_neq. intros Heq. apply Hext. now rewrite Heq. }
  assert (Hr : route pathMax o filePath =
    ((if includes (pathString (dirname filePath)) "assets" then
        processAssets pathMax o ;; log MAssetsUpdated
      else if includes (pathString (dirname filePath)) "data" then
        processData pathMax o ;; log MDataUpdated
      else Ret tt) ;; log MReload)).
  { unfold route. cbv zeta.
    rewrite (E ".html"), (E ".scss"), (E ".css"), (E ".ts"), (E ".js");
      simpl; auto 10. }
  repeat split.
  - intros (c & Hin & Hc). rewrite Hr.
    now rewrite (includes_pathString _ _ _ Hin Hc).
  - intros Ha (c & Hin & Hc). rewrite Hr, Ha.
    now rewrite (includes_pathString _ _ _ Hin Hc).
  - intros Ha Hd sass tsc w. unfold onChange. rewrite Hr, Ha, Hd. reflexivity.
Qed.

Lemma route_by_location_witness :
  route limit production ["p"; "data"; "old-assets"; "cv.json"]
  = ((processAssets limit production ;; log MAssetsUpdated) ;; log MReload) /\
  run noSass tscAccepts limit (onChange limit production ["p"; "notes.txt"]) start
  = (Done tt, start, [ELog (MChanged ["p"; "notes.txt"]); ELog MReload]).
Proof.
  split.
  - destruct (route_by_location limit production
                ["p"; "data"; "old-assets"; "cv.json"]) as (H & _).
    + vm_compute. intuition discriminate.
    + apply H. exists "old-assets". split; [|reflexivity].
      right. right. left. reflexivity.
  - destruct (route_by_location limit production ["p"; "notes.txt"])
      as (_ & _ & H).
    + vm_compute. intuition discriminate.
    + apply H; reflexivity.
Defined.

(** X20: getFiles changes nothing, and on a tree in which no directory lists
    a name twice it returns every file once. *)
Theorem getFiles_lists_once
    sass tsc pathMax (dir : path) (ext : string) (w w' : world) files evs :
  run sass tsc pathMax (getFiles dir ext) w = (Done files, w', evs) ->
  wellFormed (tree w) = true ->
  w' = w /\ NoDup files.
Proof.
  unfold getFiles. rewrite run_attempt. cbn [Io.exec fst snd].
  unfold Fs.getFiles. destruct (lookup (tree w) dir) as [[c|es]|] eqn:E;
    intros H Hw; try discriminate.
  - injection H as <- <- _. split; [reflexivity|].
    exact (walk_NoDup ext (Dir es) dir (wellFormed_lookup _ _ _ Hw E)).
  - injection H as <- <- _. split; [reflexivity|constructor].
Qed.

Lemma getFiles_lists_once_witness :
  start = start /\ NoDup [page; subpage].
Proof.
  apply (getFiles_lists_once noSass tscAccepts limit ["p"; "src"] ".html"
           start start [page; subpage]
           [EScan ["p"; "src"] ".html" (Ok [page; subpage])]);
    reflexivity.
Defined.

(** X21: in watch mode the handler of a changed file whose name is [.scss]
    or [.css] with something before it does the work of the stylesheet task
    and prints; whatever is at a path other than a [.css] or [.css.map] file
    of the output root stays as it is, markup, scripts, assets and data among
    it. *)
Theorem style_change_runs_styles_only
    sass tsc pathMax (o : options) (filePath : path) (stem : string) (w : world) :
  stem <> EmptyString ->
  basename filePath = stem ++ ".scss" \/ basename filePath = stem ++ ".css" ->
  Forall (fun ev => match ev with
                    | ELog _ | EError _ => True
                    | _ => styleEvent o ev
                    end)
    (eventsOf (run sass tsc pathMax (onChange pathMax o filePath) w)) /\
  (forall q,
     (forall n, endsWith n ".css" = true \/ endsWith n ".css.map" = true ->
                q <> join (distDir o) n) ->
     kindAt (tree (worldOf (run sass tsc pathMax (onChange pathMax o filePath) w))) q
     = kindAt (tree w) q).
Proof.
  intros Hstem Hname.
  assert (Hext : extname filePath = ".scss" \/ extname filePath = ".css").
  { destruct Hname as [H|H].
    - left. now apply (extname_scss filePath stem).
    - right. now apply (extname_css filePath stem). }
  assert (Hev : Forall (fun ev => match ev with
                                  | ELog _ | EError _ => True
                                  | _ => styleEvent o ev
                                  end)
                  (eventsOf (run sass tsc pathMax (onChange pathMax o filePath) w))).
  { apply (events_routed sass tsc pathMax o _ _ _ _ _
             (route_styles pathMax o filePath Hext));
      try (intros m; exact I).
    eapply Forall_impl; [|apply processStyles_events].
    intros ev. destruct ev; simpl; tauto. }
  split; [exact Hev|]. intros q Hq. apply run_spares.
  eapply Forall_impl; [|exact Hev]. intros ev.
  destruct ev; simpl; try tauto.
  intros (n & -> & Hn) H. apply (Hq n); [tauto|now symmetry].
Qed.

Lemma style_change_runs_styles_only_witness :
  kindAt
    (tree (worldOf (run noSass tscAccepts limit
                      (onChange limit production ["p"; "src"; "style.css"])
                      start)))
    page
  = kindAt (tree start) page.
Proof.
  destruct (style_change_runs_styles_only noSass tscAccepts limit production
              ["p"; "src"; "style.css"] "style" start) as [_ H].
  - discriminate.
  - right. reflexivity.
  - apply H. intros n _. discriminate.
Defined.

(** X22: the markup task and the stylesheet task catch nothing. When one of
    their operations fails (a scan, a read, a Sass compile, a write), the
    task throws the error of that operation and does nothing after it; when
    the task returns, no operation failed; and it never ends the process. *)
Theorem text_tasks_fail_fast
    sass tsc pathMax (o : options) (task : prog unit) (w : world) :
  task = processHTML o \/ task = processStyles o ->
  (forall e, outcomeOf (run sass tsc pathMax task w) = Thrown e ->
     exists pre ev,
       eventsOf (run sass tsc pathMax task w) = (pre ++ [ev])%list /\
       failure ev = Some e /\ sound pre) /\
  (outcomeOf (run sass tsc pathMax task w) = Done tt ->
     sound (eventsOf (run sass tsc pathMax task w))) /\
  (forall c, outcomeOf (run sass tsc pathMax task w) <> Exited c).
Proof.
  intros Ht.
  assert (Hf : failFast task).
  { destruct Ht as [-> | ->];
      [apply failFast_processHTML|apply failFast_processStyles]. }
  pose proof (failFast_run sass tsc pathMax task w Hf) as H.
  destruct (outcomeOf (run sass tsc pathMax task w)) as [[]|e|c].
  - split; [discriminate|]. split; [intros _; exact H|discriminate].
  - split; [intros e' [= <-]; exact H|]. split; discriminate.
  - contradiction.
Qed.

Lemma text_tasks_fail_fast_witness :
  exists pre ev,
    eventsOf (run noSass tscAccepts limit
                (processHTML (defaultOptions ["q"] false))
                {| tree := Dir [("q", Dir [("src", File [])])]; time := 0%Z |})
    = (pre ++ [ev])%list /\
    failure ev = Some (FsError ENOTDIR ["q"; "src"]) /\ sound pre.
Proof.
  destruct (text_tasks_fail_fast noSass tscAccepts limit
              (defaultOptions ["q"] false)
              (processHTML (defaultOptions ["q"] false))
              {| tree := Dir [("q", Dir [("src", File [])])]; time := 0%Z |})
    as (H & _).
  - left. reflexivity.
  - apply H. reflexivity.
Defined.

(** X23: the expression both validators test an address with accepts
    exactly the strings made of a user part, one [@], and a host part with a
    dot inside it that is neither its first nor its last character, all of
    them free of white space and of further [@]; nothing else about the
    address is checked. *)
Theorem email_accepted_shape s :
  test emailRegex s = true <->
  exists user host tail,
    s = (user ++ atSign :: host ++ dot :: tail)%list /\
    user <> [] /\ host <> [] /\ tail <> [] /\
    forallb notSpaceAt user = true /\ forallb notSpaceAt host = true /\
    forallb notSpaceAt tail = true.
Proof. apply emailRegex_spec. Qed.

(** X24: the check of the server on the four fields of a request body,
    each of them any value of JSON or missing. The form is accepted exactly
    when the name, the subject and the message are strings of two, three and
    ten code units or more once the white space at their ends is cut off,
    and the address is truthy and its text, as [test] converts it, passes the
    expression: an array with one string in it serves as well as the
    string. The call throws exactly when the name, the subject or the message
    is truthy and no string, or the address is truthy and has no text. When
    it returns, it reports no field exactly when it accepts. *)
Theorem contact_form_accepted {number : Type} (isZero : number -> bool)
    (numberText : number -> jsstring) (data : Server.contactData number) :
  ((exists v, Server.validateContactForm isZero numberText data = Some v /\
              Server.isValid v = true) <->
   exists n e s m,
     Server.name data = Server.Str n /\ Server.subject data = Server.Str s /\
     Server.message data = Server.Str m /\
     Server.truthy isZero (Server.email data) = true /\
     Server.toText numberText (Server.email data) = Some e /\
     2 <= length (trim n) /\ test emailRegex e = true /\
     3 <= length (trim s) /\ 10 <= length (trim m)) /\
  (Server.validateContactForm isZero numberText data = None <->
   (Server.truthy isZero (Server.name data) = true /\
    forall s, Server.name data <> Server.Str s) \/
   (Server.truthy isZero (Server.email data) = true /\
    Server.toText numberText (Server.email data) = None) \/
   (Server.truthy isZero (Server.subject data) = true /\
    forall s, Server.subject data <> Server.Str s) \/
   (Server.truthy isZero (Server.message data) = true /\
    forall s, Server.message data <> Server.Str s)) /\
  (forall v, Server.validateContactForm isZero numberText data = Some v ->
             (Server.isValid v = true <-> Server.fields v = [])).
Proof.
  split; [|split].
  - split.
    + intros (v & Hv & Hok).
      apply (proj2 (validate_Some isZero numberText data v Hv)) in Hok.
      destruct Hok as (Hn & He & Hs & Hm).
      apply tooShort_false in Hn; [|lia]. destruct Hn as (n & En & Hn).
      apply tooShort_false in Hs; [|lia]. destruct Hs as (s & Es & Hs).
      apply tooShort_false in Hm; [|lia]. destruct Hm as (m & Em & Hm).
      apply badEmail_false in He. destruct He as (Ht & e & Ee & He).
      exists n, e, s, m. auto 10.
    + intros (n & e & s & m & En & Es & Em & Ht & Ee & Hn & He & Hs & Hm).
      assert (An : Server.tooShort isZero (Server.name data) 2 = Some false)
        by (apply tooShort_false; [lia|]; now exists n).
      assert (As : Server.tooShort isZero (Server.subject data) 3 = Some false)
        by (apply tooShort_false; [lia|]; now exists s).
      assert (Am : Server.tooShort isZero (Server.message data) 10 = Some false)
        by (apply tooShort_false; [lia|]; now exists m).
      assert (Ae : Server.badEmail isZero numberText (Server.email data) = Some false)
        by (apply badEmail_false; split; [exact Ht|]; now exists e).
      destruct (Server.validateContactForm isZero numberText data) as [v|] eqn:Hv.
      * exists v. split; [reflexivity|].
        apply (proj2 (validate_Some isZero numberText data v Hv)). auto.
      * apply validate_None in Hv. rewrite An, Ae, As, Am in Hv.
        destruct Hv as [H|[H|[H|H]]]; discriminate.
  - rewrite validate_None, !tooShort_None, badEmail_None. reflexivity.
  - intros v Hv. apply (validate_Some isZero numberText data v Hv).
Qed.

(** X25: what the server accepts of the page, the page accepts: when the
    four fields of the body are strings, as the page sends them, and the form
    passes validateContactForm, each field passes validateField under its
    name, required or not. *)
Theorem server_valid_client_valid {number : Type} (isZero : number -> bool)
    (numberText : number -> jsstring) (n e s m : jsstring) (v : Server.validation) :
  Server.validateContactForm isZero numberText
    {| Server.name := Server.Str n; Server.email := Server.Str e;
       Server.subject := Server.Str s; Server.message := Server.Str m |}
  = Some v ->
  Server.isValid v = true ->
  forall r,
    App.validateField {| App.fieldName := "name"; App.value := n;
                         App.required := r |} = (true, App.ClearFieldError) /\
    App.validateField {| App.fieldName := "email"; App.value := e;
                         App.required := r |} = (true, App.ClearFieldError) /\
    App.validateField {| App.fieldName := "subject"; App.value := s;
                         App.required := r |} = (true, App.ClearFieldError) /\
    App.validateField {| App.fieldName := "message"; App.value := m;
                         App.required := r |} = (true, App.ClearFieldError).
Proof.
  intros Hv Hok r.
  apply (proj2 (validate_Some isZero numberText _ v Hv)) in Hok.
  cbn [Server.name Server.email Server.subject Server.message] in Hok.
  destruct Hok as (Hn & He & Hs & Hm).
  apply tooShort_false in Hn; [|lia]. destruct Hn as (n' & [= <-] & Hn).
  apply tooShort_false in Hs; [|lia]. destruct Hs as (s' & [= <-] & Hs).
  apply tooShort_false in Hm; [|lia]. destruct Hm as (m' & [= <-] & Hm).
  apply badEmail_false in He. destruct He as (_ & e' & [= <-] & He).
  pose proof (trim_no_space _ (email_no_space _ He)) as Et.
  assert (Ene : forall x k, 1 <= k -> k <= length x -> isEmpty x = false).
  { intros x k H1 H2. destruct x; [simpl in H2; lia|reflexivity]. }
  unfold App.validateField, App.checkField.
  cbn [App.fieldName App.value App.required String.eqb Ascii.eqb Bool.eqb].
  rewrite Et, He.
  rewrite (Ene (trim n) 2), (Ene (trim s) 3), (Ene (trim m) 10) by (lia || assumption).
  assert (Ee : isEmpty e = false) by (destruct e; [discriminate|reflexivity]).
  rewrite Ee, !andb_false_r. cbn.
  assert (En' : (length (trim n) <=? 1)%nat = false) by (apply Nat.leb_gt; lia).
  assert (Em' : (length (trim m) <=? 9)%nat = false) by (apply Nat.leb_gt; lia).
  rewrite En', Em'. auto.
Qed.

Lemma server_valid_client_valid_witness :
  App.validateField {| App.fieldName := "name"; App.value := lit "Ana";
                       App.required := true |} = (true, App.ClearFieldError) /\
  App.validateField {| App.fieldName := "email"; App.value := lit "a@b.c";
                       App.required := true |} = (true, App.ClearFieldError) /\
  App.validateField {| App.fieldName := "subject"; App.value := lit "Hola";
                       App.required := true |} = (true, App.ClearFieldError) /\
  App.validateField {| App.fieldName := "message"; App.value := lit "0123456789";
                       App.required := true |} = (true, App.ClearFieldError).
Proof.
  apply (server_valid_client_valid isNought wholeText
           (lit "Ana") (lit "a@b.c") (lit "Hola") (lit "0123456789")
           {| Server.isValid := true; Server.summaryOf := Server.ValidData;
              Server.fields := [] |});
    reflexivity.
Defined.

(** X26: a field of the page that is empty or holds white space only is
    valid unless it is required, whatever its name: an address, a name or a
    message left blank is not checked any further; a required one is refused
    as missing. *)
Theorem blank_field_passes_unless_required (f : App.field) :
  forallb isSpace (App.value f) = true ->
  App.validateField f
  = (negb (App.required f),
     if App.required f then App.ShowFieldError (Some App.FieldRequired)
     else App.ClearFieldError).
Proof.
  intros H. unfold App.validateField, App.checkField.
  rewrite (trim_blank _ H). cbn. destruct (App.required f); reflexivity.
Qed.

Lemma blank_field_passes_unless_required_witness :
  App.validateField {| App.fieldName := "email"; App.value := lit "   ";
                       App.required := false |}
  = (true, App.ClearFieldError).
Proof.
  apply (blank_field_passes_unless_required
           {| App.fieldName := "email"; App.value := lit "   ";
              App.required := false |}).
  reflexivity.
Defined.

(** X27: validateForm checks every input it is given, those behind a failing
    one as well, so that each shows its own state; the form is valid when
    all of them are. *)
Theorem validateForm_checks_every_input (inputs : list App.field) :
  App.validateForm inputs
  = (forallb (fun i => fst (App.validateField i)) inputs,
     map (fun i => snd (App.validateField i)) inputs).
Proof.
  unfold App.validateForm.
  assert (H : forall b shown,
    fold_left
      (fun acc input =>
         let (isValid, d) := App.validateField input in
         (if negb isValid then false else fst acc, (snd acc ++ [d])%list))
      inputs (b, shown)
    = (b && forallb (fun i => fst (App.validateField i)) inputs,
       (shown ++ map (fun i => snd (App.validateField i)) inputs)%list)).
  { induction inputs as [|i inputs IH]; intros b shown; simpl.
    - now rewrite andb_true_r, app_nil_r.
    - destruct (App.validateField i) as [v d]. cbn [fst snd negb].
      rewrite IH, <- app_assoc. destruct v, b; reflexivity. }
  apply (H true []).
Qed.

(** X28: the name in the navigation bar is the first and the last of the
    words of the name, a word being what lies between two spaces: a name of
    one word is shown twice, a name of two words as it is, and of a longer
    name everything between the first and the last space is left out. *)
Theorem navName_first_and_last (first last_ : jsstring) :
  forallb (fun c => negb (c =? sp)%N) first = true ->
  forallb (fun c => negb (c =? sp)%N) last_ = true ->
  App.navName first = (first ++ sp :: first)%list /\
  App.navName (first ++ sp :: last_)%list = (first ++ sp :: last_)%list /\
  forall middle,
    App.navName (first ++ sp :: middle ++ sp :: last_)%list
    = (first ++ sp :: last_)%list.
Proof.
  intros Hf Hl. split; [|split].
  - now rewrite navName_last, (split_plain sp _ Hf).
  - rewrite navName_last, (split_first sp _ _ Hf), (split_plain sp _ Hl).
    reflexivity.
  - intros middle. rewrite navName_last, (split_first sp _ _ Hf).
    destruct (split_behind sp middle last_) as (front & Hne & E).
    rewrite E, (split_plain sp _ Hl).
    cbn [nth]. f_equal. cbn [app]. f_equal.
    change (first :: (front ++ [last_]))%list
      with ((first :: front) ++ [last_])%list.
    now rewrite last_last.
Qed.

Lemma navName_first_and_last_witness :
  App.navName (lit "Ana") = lit "Ana Ana" /\
  App.navName (lit "Ana" ++ sp :: lit "Ruiz")%list = lit "Ana Ruiz" /\
  forall middle,
    App.navName (lit "Ana" ++ sp :: middle ++ sp :: lit "Ruiz")%list = lit "Ana Ruiz".
Proof.
  apply (navName_first_and_last (lit "Ana") (lit "Ruiz")); reflexivity.
Defined.

Lemma email_accepted_shape_witness : test emailRegex (lit "a@b.c") = true.
Proof.
  apply (proj2 (email_accepted_shape (lit "a@b.c"))).
  exists (lit "a"), (lit "b"), (lit "c"). repeat split; discriminate.
Defined.

Lemma contact_form_accepted_witness :
  exists v,
    Server.validateContactForm isNought wholeText
      {| Server.name := Server.Str (lit " Ana ");
         Server.email := Server.Arr [Server.Str (lit "a@b.c")];
         Server.subject := Server.Str (lit "Hola");
         Server.message := Server.Str (lit "0123456789") |} = Some v /\
    Server.isValid v = true.
Proof.
  apply (proj2 (proj1 (contact_form_accepted isNought wholeText _))).
  exists (lit " Ana "), (lit "a@b.c"), (lit "Hola"), (lit "0123456789").
  vm_compute. repeat split; lia.
Defined.

End Extras.
